(** * auntie: the document index and navigation engine (MetaTextEngine.js)

    A shallow embedding of [src/modules/MetaTextEngine.js] and of the helpers
    of [src/modules/path-utils.js] it calls, with the properties of the
    numbering codec, the label formatter, the path linker, the index and the
    navigation renderer.

    Conventions of the embedding.
    - A JavaScript string is a [list ascii], the bytes of its UTF-8 form;
      [lit] turns a literal into one.  A byte outside ASCII is a non-word,
      non-digit character, as every character outside ASCII is for the
      regular expressions of the engine.  The white space of [trim] and of
      [\s] and the letters that [toUpperCase] and [toLowerCase] change are
      those of ASCII: the host knows more of both outside ASCII, so what
      is stated of a result that depends on them is stated for text that
      is [JsString.ascii_text].
    - A JavaScript number that holds an integer is a [Z] (the engine only
      produces them with [parseInt] on digit strings and by subtraction).
      The host reads and prints integers exactly up to
      [MAX_SAFE_INTEGER]; what is stated of the value read from a token or
      of a number printed is stated for a [safe_integer].
    - Objects that are shared and mutated (the compilation units, their
      [children] arrays, the work queue of groups) live in an explicit store:
      a unit is named by its position in [_flatCompilationsList], a group by
      the unit that owns the array.
    - A loop that may not terminate takes fuel and returns [None] when it
      runs out. *)

From Stdlib Require Import ZArith Ascii String Sorting.Sorted.
From stdpp Require Import base list sorting strings pretty gmap.

Abbreviation str := (list ascii).

(** A string literal as a JavaScript string. *)
Definition lit (s : string) : str := list_ascii_of_string s.
Arguments lit s%_string.

(** ** Character classes of the regular expressions *)

Module Chars.

Definition code (c : ascii) : N := N_of_ascii c.

(** [\d] *)
Definition is_digit (c : ascii) : bool := (48 <=? code c)%N && (code c <=? 57)%N.

Definition is_upper (c : ascii) : bool := (65 <=? code c)%N && (code c <=? 90)%N.
Definition is_lower (c : ascii) : bool := (97 <=? code c)%N && (code c <=? 122)%N.
Definition is_alpha (c : ascii) : bool := is_upper c || is_lower c.

Definition is_underscore (c : ascii) : bool := (code c =? 95)%N.
Definition is_dash (c : ascii) : bool := (code c =? 45)%N.

(** [\w] is [[A-Za-z0-9_]], [\W] its complement. *)
Definition is_word (c : ascii) : bool := is_alpha c || is_digit c || is_underscore c.
Definition is_nonword (c : ascii) : bool := negb (is_word c).

(** [\s], and the characters [String.prototype.trim] removes, within ASCII. *)
Definition is_space (c : ascii) : bool :=
  ((9 <=? code c)%N && (code c <=? 13)%N) || (code c =? 32)%N.
Definition is_nonspace (c : ascii) : bool := negb (is_space c).

(** [[\\\/]]: a slash or a backslash. *)
Definition is_slash (c : ascii) : bool := (code c =? 47)%N.
Definition is_backslash (c : ascii) : bool := (code c =? 92)%N.
Definition is_sep (c : ascii) : bool := is_backslash c || is_slash c.

(** [[\d\W_]], the class of [NUMBERING_PATTERN]. *)
Definition is_numbering (c : ascii) : bool :=
  is_digit c || is_nonword c || is_underscore c.

(** [[\W_]], the class [_extractNumbering] splits on. *)
Definition is_nonword_or_underscore (c : ascii) : bool :=
  is_nonword c || is_underscore c.

(** [[\_\-]] *)
Definition is_dash_or_underscore (c : ascii) : bool :=
  is_underscore c || is_dash c.

(** The case of a letter of ASCII. *)
Definition to_upper (c : ascii) : ascii :=
  if is_lower c then ascii_of_N (code c - 32)%N else c.
Definition to_lower (c : ascii) : ascii :=
  if is_upper c then ascii_of_N (code c + 32)%N else c.

(** A character of ASCII.  On text made of these [is_space], [to_upper] and
    [to_lower] are the host's white space and case. *)
Definition is_ascii (c : ascii) : bool := (code c <? 128)%N.

End Chars.

(** ** The string operations of the host that the engine calls *)

Module JsString.

(** The longest prefix of [s] whose characters are all in [cls]. *)
Fixpoint take_run (cls : ascii → bool) (s : str) : str :=
  match s with
  | c :: s' => if cls c then c :: take_run cls s' else []
  | [] => []
  end.

(** What is left of [s] after that prefix. *)
Fixpoint drop_run (cls : ascii → bool) (s : str) : str :=
  match s with
  | c :: s' => if cls c then drop_run cls s' else s
  | [] => []
  end.

(** [s.replace(/^[cls]+/, '')] *)
Definition strip_left (cls : ascii → bool) (s : str) : str := drop_run cls s.

(** [s.replace(/[cls]+$/, '')] *)
Definition strip_right (cls : ascii → bool) (s : str) : str :=
  reverse (drop_run cls (reverse s)).

(** Text of ASCII characters only. *)
Definition ascii_text (s : str) : Prop := Forall (λ c, Chars.is_ascii c = true) s.

(** [s.trim()], for ASCII white space. *)
Definition trim (s : str) : str :=
  strip_right Chars.is_space (strip_left Chars.is_space s).

(** [s.match(/^[cls]+/)]: [null] when nothing matches, else the match. *)
Definition match_leading (cls : ascii → bool) (s : str) : option str :=
  match take_run cls s with
  | [] => None
  | m => Some m
  end.

(** [s.split(/[cls]+/)]: the pieces between the maximal runs of [cls].
    [cur] is the piece being read, in reverse; [in_sep] tells that the last
    character read was a separator. *)
Fixpoint split_loop (cls : ascii → bool) (in_sep : bool) (cur : str) (s : str)
  : list str :=
  match s with
  | [] => [reverse cur]
  | c :: s' =>
      if cls c
      then if in_sep then split_loop cls true cur s'
           else reverse cur :: split_loop cls true [] s'
      else split_loop cls false (c :: cur) s'
  end.

Definition split (cls : ascii → bool) (s : str) : list str :=
  split_loop cls false [] s.

(** [s.replace(/[cls]+/g, by)]: every maximal run of [cls] becomes [by]. *)
Fixpoint replace_runs (cls : ascii → bool) (by_ : str) (in_run : bool) (s : str)
  : str :=
  match s with
  | [] => []
  | c :: s' =>
      if cls c
      then if in_run then replace_runs cls by_ true s'
           else by_ ++ replace_runs cls by_ true s'
      else c :: replace_runs cls by_ false s'
  end.

Definition replace_all (cls : ascii → bool) (by_ : str) (s : str) : str :=
  replace_runs cls by_ false s.

(** [(s.match(/[cls]+/g) || []).length]: the number of maximal runs. *)
Fixpoint count_runs_loop (cls : ascii → bool) (in_run : bool) (s : str) : nat :=
  match s with
  | [] => 0
  | c :: s' =>
      if cls c
      then if in_run then count_runs_loop cls true s'
           else S (count_runs_loop cls true s')
      else count_runs_loop cls false s'
  end.

Definition count_runs (cls : ascii → bool) (s : str) : nat :=
  count_runs_loop cls false s.

(** [parts.join(sep)] *)
Fixpoint join (sep : str) (parts : list str) : str :=
  match parts with
  | [] => []
  | [p] => p
  | p :: rest => p ++ sep ++ join sep rest
  end.

(** [s.split(' ')]: split at every single space (a literal separator). *)
Fixpoint split_char_loop (d : ascii) (cur : str) (s : str) : list str :=
  match s with
  | [] => [reverse cur]
  | c :: s' =>
      if decide (c = d) then reverse cur :: split_char_loop d [] s'
      else split_char_loop d (c :: cur) s'
  end.

Definition split_char (d : ascii) (s : str) : list str := split_char_loop d [] s.

Definition toUpperCase (s : str) : str := map Chars.to_upper s.
Definition toLowerCase (s : str) : str := map Chars.to_lower s.

(** A string is falsy exactly when it is empty. *)
Definition truthy (s : str) : bool := match s with [] => false | _ => true end.

End JsString.

(** ** NumberingCodec: [_extractNumbering] *)

(** [NUMBERING_PATTERN = /^[\d\W_]+/] (constants.js). *)
Definition NUMBERING_PATTERN : ascii → bool := Chars.is_numbering.

(** [Number.MAX_SAFE_INTEGER].  Up to it the numbers of the host are the
    integers: [parseInt] reads a token exactly and a number is printed with
    all its digits.  Above it [parseInt] rounds, and from [10^21] on a number
    is printed with an exponent. *)
Definition MAX_SAFE_INTEGER : Z := 2 ^ 53 - 1.
Definition safe_integer (n : Z) : Prop := (0 ≤ n ≤ MAX_SAFE_INTEGER)%Z.

(** The value of a digit, and [parseInt] on a string of decimal digits, the
    only strings [_extractNumbering] passes to it: the number the digits
    stand for, which is what the host returns while it is a
    [safe_integer]. *)
Definition digit_value (c : ascii) : Z := Z.of_N (Chars.code c) - 48.

Definition parseInt (token : str) : Z :=
  foldl (λ acc c, 10 * acc + digit_value c)%Z 0%Z token.

(** [while (token.charAt(0) == '0' && token.length > 1) token = token.slice(1)] *)
Fixpoint strip_zeros (token : str) : str :=
  match token with
  | c :: (_ :: _) as rest => if decide (c = "0"%char) then strip_zeros rest else token
  | _ => token
  end.

Definition _extractNumbering (text : option str) : option (list Z) :=
  let text := JsString.trim (default [] text) in
  if negb (JsString.truthy text) then None else
  match JsString.match_leading NUMBERING_PATTERN text with
  | None => None
  | Some matchedString =>
      if negb (JsString.truthy matchedString) then None else
      let rawSegments :=
        filter (λ token, token ≠ [])
               (JsString.split Chars.is_nonword_or_underscore matchedString) in
      match rawSegments with
      | [] => None
      | _ => Some (map (λ token, parseInt (strip_zeros token)) rawSegments)
      end
  end.

(** ** The host's [path] module

    [Path.dirname], [Path.basename], [Path.extname], [Path.relative] and
    [Path.sep] belong to Node, not to the repository: the engine is
    parametric in them.  [Posix.path] below is the POSIX flavour, written
    after Node's documentation, for running the engine on concrete paths. *)

Module Path.
Record module := {
  dirname : str → str;
  basename : str → str → str;
  extname : str → str;
  relative : str → str → str;
  sep : str;
}.
End Path.

Module Posix.

Definition slash : ascii := "/"%char.
Definition dot : ascii := "."%char.
Definition not_slash (c : ascii) : bool := negb (Chars.is_slash c).

(** [dirname]: trailing slashes are ignored, the last component is dropped;
    the first character is never looked at, so a root stays. *)
Definition dirname (path : str) : str :=
  match path with
  | [] => [dot]
  | first :: rest =>
      let hasRoot := Chars.is_slash first in
      let body := reverse rest in
      let after_name :=
        JsString.drop_run not_slash (JsString.drop_run Chars.is_slash body) in
      match after_name with
      | [] => if hasRoot then [slash] else [dot]
      | _ :: before =>
          if hasRoot && bool_decide (before = []) then [slash; slash]
          else first :: reverse before
      end
  end.

(** The last component of [path], trailing slashes ignored. *)
Definition last_component (path : str) : str :=
  reverse (JsString.take_run not_slash
             (JsString.drop_run Chars.is_slash (reverse path))).

(** [s] ends with [suffix]: what is in front of it, if so. *)
Definition strip_suffix (suffix s : str) : option str :=
  let n := length s - length suffix in
  if bool_decide (drop n s = suffix) && bool_decide (length suffix ≤ length s)
  then Some (take n s) else None.

(** [basename(path, suffix)]: the last component, without [suffix] when it
    ends with it and is more than it. *)
Definition basename (path suffix : str) : str :=
  if bool_decide (suffix = []) || negb (bool_decide (length suffix ≤ length path))
  then last_component path
  else if bool_decide (suffix = path) then []
  else
    let base := last_component path in
    match strip_suffix suffix base with
    | Some ((_ :: _) as stem) => stem
    | _ => base
    end.

(** The position of the last [dot] of [s], if it has one. *)
Definition last_dot (s : str) : option nat :=
  let after := JsString.take_run (λ c, negb (bool_decide (c = dot))) (reverse s) in
  if bool_decide (length after = length s) then None
  else Some (length s - length after - 1).

(** [extname]: from the last dot of the last component to its end; empty when
    there is no dot, when the dot opens the component, and for [..]. *)
Definition extname (path : str) : str :=
  let base := last_component path in
  match last_dot base with
  | None => []
  | Some 0 => []
  | Some d => if bool_decide (base = [dot; dot]) then [] else drop d base
  end.

(** The components of a path, resolved: no empty one, no [.], and each [..]
    takes back the component before it. *)
Definition normalize_components (comps : list str) : list str :=
  reverse (foldl (λ acc comp,
                    if bool_decide (comp = []) || bool_decide (comp = [dot]) then acc
                    else if bool_decide (comp = [dot; dot]) then tail acc
                    else comp :: acc) [] comps).

(** [resolve(path)] as its components below the root; a relative path is
    taken from the working directory [cwd]. *)
Definition resolve_components (cwd path : str) : list str :=
  let absolute :=
    match path with
    | c :: _ => if Chars.is_slash c then path else cwd ++ [slash] ++ path
    | [] => cwd
    end in
  normalize_components (JsString.split_char slash absolute).

Fixpoint drop_common (l1 l2 : list str) : list str * list str :=
  match l1, l2 with
  | a :: l1', b :: l2' => if bool_decide (a = b) then drop_common l1' l2' else (l1, l2)
  | _, _ => (l1, l2)
  end.

(** [relative(from, to)]: one [..] for each component of [from] below the
    common ancestor, then the components of [to] below it. *)
Definition relative (cwd from to : str) : str :=
  if bool_decide (from = to) then [] else
  let '(up, down) :=
    drop_common (resolve_components cwd from) (resolve_components cwd to) in
  JsString.join [slash] (map (λ _, [dot; dot]) up ++ down).

Definition path (cwd : str) : Path.module :=
  {| Path.dirname := dirname; Path.basename := basename;
     Path.extname := extname; Path.relative := relative cwd;
     Path.sep := [slash] |}.

End Posix.

(** ** Application-wide constants (constants.js) *)

Definition DEFAULT_NAVIGATION_NUMBERING_HIDING : bool := false.
Definition DIR : str := lit "907d1e2a-6bc2-49d5-b036-57dcea0d9cf1".
Definition ROOT : str := lit "8af35ebb-6e35-49b6-988d-42787ab7110d".

Definition HTML : str := lit "html".

(** A template is the text around its [%s] places. *)
Definition quote : ascii := "034"%char.
Definition NAV_ROOT_TEMPLATE : list str :=
  [lit "<div class=" ++ [quote] ++ lit "navigation" ++ [quote] ++ lit ">"; lit "</div>"].
Definition NAV_GROUP_TEMPLATE : list str :=
  [lit "<ul class=" ++ [quote] ++ lit "nav-group" ++ [quote] ++ lit ">"; lit "</ul>"].
Definition NAV_ITEM_TEMPLATE : list str :=
  [lit "<li class=" ++ [quote] ++ lit "nav-item" ++ [quote] ++ lit ">"; lit "</li>"].
Definition NAV_ITEM_CONTENT_TEMPLATE : list str :=
  [lit "<label class=" ++ [quote] ++ lit "item-content" ++ [quote] ++ lit ">"; lit "</label>"].
Definition LINK_TEMPLATE : list str :=
  [lit "<a href=" ++ [quote]; [quote] ++ lit ">"; lit "</a>"].

(** ** Compilation units and the index *)

(** A compilation unit.  [numbering], [parent] and [children] are absent
    ([undefined]) until the engine sets them; [isNode] and [mustExclude] are
    absent or [true], read here as [false] and [true]. *)
Record Unit := mkUnit {
  filePath : str;
  fileName : str;
  fileExtension : str;
  fileCTime : Z;
  fileMTime : Z;
  fileHeader : option str;
  isNode : bool;
  numberingSignature : str;
  numbering : option (list Z);
  parent : option str;
  children : option (list nat);
  mustExclude : bool;
}.

Definition set_fileHeader (h : option str) (u : Unit) : Unit :=
  mkUnit (filePath u) (fileName u) (fileExtension u) (fileCTime u) (fileMTime u)
         h (isNode u) (numberingSignature u) (numbering u) (parent u)
         (children u) (mustExclude u).
Definition set_isNode (b : bool) (u : Unit) : Unit :=
  mkUnit (filePath u) (fileName u) (fileExtension u) (fileCTime u) (fileMTime u)
         (fileHeader u) b (numberingSignature u) (numbering u) (parent u)
         (children u) (mustExclude u).
Definition set_numbering (n : list Z) (sig : str) (u : Unit) : Unit :=
  mkUnit (filePath u) (fileName u) (fileExtension u) (fileCTime u) (fileMTime u)
         (fileHeader u) (isNode u) sig (Some n) (parent u)
         (children u) (mustExclude u).
Definition set_parent (p : str) (u : Unit) : Unit :=
  mkUnit (filePath u) (fileName u) (fileExtension u) (fileCTime u) (fileMTime u)
         (fileHeader u) (isNode u) (numberingSignature u) (numbering u) (Some p)
         (children u) (mustExclude u).
Definition set_children (c : list nat) (u : Unit) : Unit :=
  mkUnit (filePath u) (fileName u) (fileExtension u) (fileCTime u) (fileMTime u)
         (fileHeader u) (isNode u) (numberingSignature u) (numbering u) (parent u)
         (Some c) (mustExclude u).
Definition set_mustExclude (b : bool) (u : Unit) : Unit :=
  mkUnit (filePath u) (fileName u) (fileExtension u) (fileCTime u) (fileMTime u)
         (fileHeader u) (isNode u) (numberingSignature u) (numbering u) (parent u)
         (children u) b.

(** The unit a reference that names none stands for: no such reference
    arises from the engine's own operations. *)
Definition no_unit : Unit :=
  mkUnit [] [] [] 0 0 None false [] None None None false.
Global Instance Unit_inhabited : Inhabited Unit := populate no_unit.

(** [arr.push(x)] on the array of children of a unit that has one. *)
Definition push_child (x : nat) (u : Unit) : Unit :=
  match children u with
  | Some c => set_children (c ++ [x]) u
  | None => u
  end.

(** The private state of a [MetaTextEngine]. *)
Record State := mkState {
  _isIndexSealed : bool;
  _abstractNavigationTree : list nat;
  _flatCompilationsList : list Unit;
  _rawGroups : list nat;
  _foldersToExclude : list str;
}.

Definition initial : State := mkState false [] [] [] [].

Definition with_flat (flat : list Unit) (s : State) : State :=
  mkState (_isIndexSealed s) (_abstractNavigationTree s) flat
          (_rawGroups s) (_foldersToExclude s).
Definition with_groups (groups : list nat) (s : State) : State :=
  mkState (_isIndexSealed s) (_abstractNavigationTree s) (_flatCompilationsList s)
          groups (_foldersToExclude s).
Definition with_tree (tree : list nat) (s : State) : State :=
  mkState (_isIndexSealed s) tree (_flatCompilationsList s)
          (_rawGroups s) (_foldersToExclude s).
Definition with_excluded (folders : list str) (s : State) : State :=
  mkState (_isIndexSealed s) (_abstractNavigationTree s) (_flatCompilationsList s)
          (_rawGroups s) folders.
Definition seal (s : State) : State :=
  mkState true (_abstractNavigationTree s) (_flatCompilationsList s)
          (_rawGroups s) (_foldersToExclude s).

(** The unit a reference names. *)
Definition unit_at (flat : list Unit) (r : nat) : Unit := flat !!! r.

(** What a call leaves behind: it returns, or it throws after having changed
    the state as far as it got. *)
Inductive Error := IndexSealedError | TypeError.
Inductive Outcome :=
  | Returned (s : State)
  | Thrown (e : Error) (s : State).

(** The options the engine is started with. *)
Record HtmlSettings := { hideNavigationNumbering : bool }.
Record Options := {
  customAcronyms : option (list str);
  htmlSettings : option HtmlSettings;
}.

(** ** NumberingCodec: [_multiPartComparison] *)

(** [segments[i] || 0] *)
Definition segment_at (segments : list Z) (i : nat) : Z := default 0%Z (segments !! i).

(** The [for] loop: [i] runs up to [maxLength], [todo] is what is left of it. *)
Fixpoint compare_loop (aSegments bSegments : list Z) (i todo : nat) : option Z :=
  match todo with
  | 0 => None
  | S todo' =>
      let delta := (segment_at aSegments i - segment_at bSegments i)%Z in
      if negb (delta =? 0)%Z then Some delta
      else compare_loop aSegments bSegments (S i) todo'
  end.

Definition compare_numbering (a b : option (list Z)) : Z :=
  match a with
  | None => 0%Z
  | Some aSegments =>
      let numASegments := length aSegments in
      if Nat.eqb numASegments 0 then 0%Z else
      match b with
      | None => 0%Z
      | Some bSegments =>
          let numBSegments := length bSegments in
          if Nat.eqb numBSegments 0 then 0%Z else
          let maxLength := Nat.max numASegments numBSegments in
          match compare_loop aSegments bSegments 0 maxLength with
          | Some delta => delta
          | None => (Z.of_nat numASegments - Z.of_nat numBSegments)%Z
          end
      end
  end.

Definition _multiPartComparison (unitA unitB : Unit) : Z :=
  compare_numbering (numbering unitA) (numbering unitB).

(** ** The host's [Array.prototype.sort]

    The standard asks for a stable sort and leaves the order open when the
    comparator is not consistent.  It is modelled by the stable insertion
    sort: an element moves in front of those before it only past elements it
    compares strictly less than.  On an array on which the comparator is
    consistent (for [_multiPartComparison]: the units all carry a numbering
    key, or none does) the stable sorted order is unique, and this is the
    host's result; on other arrays the host may order otherwise, and what
    is stated of an order is stated for the former. *)
Module JsArray.
Section Sort.
Context {A : Type} (cmp : A → A → Z).

(** [x] goes in front of the sorted [l], then right past every element
    strictly less than it. *)
Fixpoint insert (x : A) (l : list A) : list A :=
  match l with
  | [] => [x]
  | y :: l' => if (cmp y x <? 0)%Z then y :: insert x l' else x :: l
  end.

Fixpoint sort (l : list A) : list A :=
  match l with
  | [] => []
  | x :: l' => insert x (sort l')
  end.
End Sort.
End JsArray.

(** ** The engine

    [Path] is the host's path module and [optionsData] the configuration the
    engine is constructed with ([null] when there is none). *)

Section Engine.
Context (Path : Path.module) (optionsData : option Options).

(** *** path-utils.js *)

Definition getFileName (pathString : str) (trimExtension : bool) : str :=
  Path.basename Path pathString
    (if trimExtension then Path.extname Path pathString else []).

Definition changeFileExtension (fileName newExtension : str) : str :=
  getFileName fileName true ++
  (if JsString.truthy newExtension then lit "." ++ newExtension else []).

(** *** PathLinker: [_makeRelUrl] *)

Definition _makeRelUrl (fromPath toPath fileType : str) (assumeFolders : bool) : str :=
  let LEFT_SEP := JsString.strip_left Chars.is_sep in
  let RIGHT_SEP := JsString.strip_right Chars.is_sep in
  let targetFileName := changeFileExtension (getFileName toPath false) fileType in
  let fromDirPath := Path.dirname Path fromPath in
  let toDirPath := Path.dirname Path toPath in
  let relPath :=
    RIGHT_SEP (LEFT_SEP (JsString.trim (Path.relative Path fromDirPath toDirPath))) in
  let segments :=
    if assumeFolders then []
    else [RIGHT_SEP (LEFT_SEP (JsString.trim targetFileName))] in
  let segments := if JsString.truthy relPath then relPath :: segments else segments in
  JsString.replace_all Chars.is_backslash (lit "/")
    (JsString.join (Path.sep Path) segments).

(** *** LabelFormatter: [tidyUpLabel] *)

Definition _mustHideNavNumbering : bool :=
  match optionsData with
  | Some options =>
      match htmlSettings options with
      | Some settings => hideNavigationNumbering settings
      | None => DEFAULT_NAVIGATION_NUMBERING_HIDING
      end
  | None => DEFAULT_NAVIGATION_NUMBERING_HIDING
  end.

Definition KNOWN_LOWER_CASE : list str :=
  map lit ["a"; "an"; "and"; "as"; "at"; "but"; "by"; "en"; "for"; "if";
           "in"; "of"; "on"; "or"; "the"; "to"; "v"; "v."; "via"; "vs"; "vs."]%string.

Definition KNOWN_UPPER_CASE : list str :=
  map lit ["todo"; "imo"; "imho"; "afaik"; "fyi"; "at&t"; "q&a"; "ui"; "ux";
           "rsvp"; "eta"; "faq"; "atm"; "rip"; "p.s."; "diy"; "id"; "iq";
           "gmo"; "pc"; "pr"; "sos"; "ad"; "bc"; "hr"]%string
  ++ match optionsData with
     | Some options =>
         match customAcronyms options with
         | Some acronyms => map JsString.toLowerCase acronyms
         | None => []
         end
     | None => []
     end.

(** [token.replace(/\w\S*/g, txt => txt.charAt(0).toUpperCase() +
    txt.substr(1).toLowerCase())]: [in_match] tells that a match is being
    read. *)
Fixpoint capitalize_loop (in_match : bool) (s : str) : str :=
  match s with
  | [] => []
  | c :: s' =>
      if in_match then
        if Chars.is_space c then c :: capitalize_loop false s'
        else Chars.to_lower c :: capitalize_loop true s'
      else if Chars.is_word c then Chars.to_upper c :: capitalize_loop true s'
      else c :: capitalize_loop false s'
  end.

(** The en dash, as the three bytes of its UTF-8 form. *)
Definition EN_DASH : str := ["226"%char; "128"%char; "147"%char].

(** What [tidyUpLabel] does to a label that has text; [changedLabel] is the
    label, trimmed. *)
Definition tidy_text (changedLabel : str) (removeNumbering : bool) : str :=
  let changedLabel :=
    if removeNumbering
    then JsString.trim (JsString.strip_left NUMBERING_PATTERN changedLabel)
    else changedLabel in
  let numSpaceUses := JsString.count_runs Chars.is_space changedLabel in
  let numDashUses := JsString.count_runs Chars.is_dash changedLabel in
  let numUnderScoreUses := JsString.count_runs Chars.is_underscore changedLabel in
  let labelUsesDashesOrUnderscores :=
    (0 <? numDashUses) || (0 <? numUnderScoreUses) in
  let whiteSpaceIsScarce :=
    numSpaceUses <? Nat.max numDashUses numUnderScoreUses in
  let mustEnforceWhiteSpace := labelUsesDashesOrUnderscores && whiteSpaceIsScarce in
  let changedLabel :=
    if mustEnforceWhiteSpace then
      let replaceSrc :=
        if numUnderScoreUses <? numDashUses then Chars.is_dash
        else if numDashUses <? numUnderScoreUses then Chars.is_underscore
        else Chars.is_dash_or_underscore in
      JsString.replace_all replaceSrc (lit " ") changedLabel
    else changedLabel in
  let changedLabel :=
    JsString.trim (JsString.replace_all Chars.is_space (lit " ") changedLabel) in
  let isAllCaps := bool_decide (JsString.toUpperCase changedLabel = changedLabel) in
  let isAllLower := bool_decide (JsString.toLowerCase changedLabel = changedLabel) in
  let mustChangeCase := isAllCaps || isAllLower in
  let changedLabel :=
    if mustChangeCase then
      let changedLabel := JsString.toLowerCase changedLabel in
      let tokens := JsString.split_char " "%char changedLabel in
      let tokens :=
        imap (λ i token,
                if bool_decide (token ∈ KNOWN_LOWER_CASE)
                   && negb (i =? 0) && negb (i =? length tokens - 1)
                then JsString.toLowerCase token
                else if bool_decide (token ∈ KNOWN_UPPER_CASE)
                then JsString.toUpperCase token
                else capitalize_loop false token) tokens in
      JsString.join (lit " ") tokens
    else changedLabel in
  JsString.replace_all Chars.is_dash EN_DASH changedLabel.

Definition tidyUpLabel (label : option str) (removeNumbering : bool) : option str :=
  let changedLabel := JsString.trim (default [] label) in
  if negb (JsString.truthy changedLabel) then label
  else Some (tidy_text changedLabel removeNumbering).

(** A value that is a string or [null], used as a string. *)
Definition to_string (v : option str) : str := default (lit "null") v.

(** [numbering.join('.') + '. '], each number printed with all its digits,
    as the host prints a [safe_integer]. *)
Definition signature_of (numbering : list Z) : str :=
  JsString.join (lit ".") (map (λ n, lit (pretty n)) numbering) ++ lit ". ".

(** *** DocumentIndex: the insertions *)

(** [list.filter(unit => unit.filePath == path)[0]], as a reference. *)
Definition find_by_path (flat : list Unit) (path : str) : option nat :=
  fst <$> list_find (λ unit, filePath unit = path) flat.

(** The parent takes [self] as a child: [parent.isNode = true], a fresh
    array of children (queued in [_rawGroups]) if it has none, and the
    push. *)
Definition adopt (parent self : nat) (s : State) : State :=
  let flat := alter (set_isNode true) parent (_flatCompilationsList s) in
  let s := with_flat flat s in
  let s :=
    match children (unit_at flat parent) with
    | None =>
        with_groups (_rawGroups s ++ [parent])
          (with_flat (alter (set_children []) parent flat) s)
    | Some _ => s
    end in
  with_flat (alter (push_child self) parent (_flatCompilationsList s)) s.

Definition addRootToIndex (rootPath rootName : str) (rootCtime rootMTime : Z)
    (s : State) : Outcome :=
  if _isIndexSealed s then Thrown IndexSealedError s else
  let unit :=
    mkUnit rootPath rootName ROOT rootCtime rootMTime
           (tidyUpLabel (Some rootName) true) true [] None None None false in
  let self := length (_flatCompilationsList s) in
  let s := with_tree (self :: _abstractNavigationTree s) s in
  Returned (with_flat (_flatCompilationsList s ++ [unit]) s).

Definition addDirectoryToIndex (dirPath dirName : str) (dirCtime dirMTime : Z)
    (s : State) : Outcome :=
  if _isIndexSealed s then Thrown IndexSealedError s else
  let unit :=
    mkUnit dirPath dirName DIR dirCtime dirMTime (Some dirName)
           false [] None None None false in
  let self := length (_flatCompilationsList s) in
  let s := with_flat (_flatCompilationsList s ++ [unit]) s in
  match find_by_path (_flatCompilationsList s) (Path.dirname Path dirPath) with
  | None => Thrown TypeError s
  | Some parent =>
      let parentPath := filePath (unit_at (_flatCompilationsList s) parent) in
      let s := with_flat (alter (set_parent parentPath) self (_flatCompilationsList s)) s in
      let s := adopt parent self s in
      let s :=
        match _extractNumbering (Some dirName) with
        | Some numbering =>
            with_flat (alter (set_numbering numbering (signature_of numbering)) self
                         (_flatCompilationsList s)) s
        | None => s
        end in
      let unit := unit_at (_flatCompilationsList s) self in
      let headerPrefix :=
        if _mustHideNavNumbering then [] else numberingSignature unit in
      let header := headerPrefix ++ to_string (tidyUpLabel (fileHeader unit) true) in
      Returned (with_flat (alter (set_fileHeader (Some header)) self
                             (_flatCompilationsList s)) s)
  end.

Definition addFileToIndex (filePath_ fileName_ fileExtension_ : str)
    (fileCTime_ fileMTime_ : Z) (fileHeader_ : option str) (s : State) : Outcome :=
  if _isIndexSealed s then Thrown IndexSealedError s else
  let unit :=
    mkUnit filePath_ fileName_ fileExtension_ fileCTime_ fileMTime_ fileHeader_
           false [] None None None false in
  let self := length (_flatCompilationsList s) in
  let s := with_flat (_flatCompilationsList s ++ [unit]) s in
  let numbering :=
    match _extractNumbering (Some fileName_) with
    | Some numbering => Some numbering
    | None => _extractNumbering fileHeader_
    end in
  let s :=
    match numbering with
    | Some numbering =>
        with_flat (alter (set_numbering numbering (signature_of numbering)) self
                     (_flatCompilationsList s)) s
    | None => s
    end in
  let unit := unit_at (_flatCompilationsList s) self in
  let fileHeader_ :=
    match fileHeader_ with
    | Some (_ :: _) => fileHeader_
    | _ => Some (changeFileExtension (fileName unit) [])
    end in
  let headerPrefix :=
    if _mustHideNavNumbering then [] else numberingSignature unit in
  let header := headerPrefix ++ to_string (tidyUpLabel fileHeader_ true) in
  let s := with_flat (alter (set_fileHeader (Some header)) self
                        (_flatCompilationsList s)) s in
  match find_by_path (_flatCompilationsList s) (Path.dirname Path filePath_) with
  | None => Thrown TypeError s
  | Some parent =>
      let parentPath := filePath (unit_at (_flatCompilationsList s) parent) in
      let s := with_flat (alter (set_parent parentPath) self (_flatCompilationsList s)) s in
      Returned (adopt parent self s)
  end.

(** *** HierarchyResolver: [buildIndex] *)

(** The [do ... while (true)] loop over the ancestors of one skipped path:
    every directory above it and below [rootFolderPath] joins
    [_foldersToExclude]. *)
Fixpoint collect_ancestors (fuel : nat) (rootFolderPath skippedPath : str)
    (folders : list str) : option (list str) :=
  match fuel with
  | 0 => None
  | S fuel' =>
      let skippedPath := Path.dirname Path skippedPath in
      if bool_decide (skippedPath = rootFolderPath) then Some folders
      else
        let folders :=
          if bool_decide (skippedPath ∈ folders) then folders
          else folders ++ [skippedPath] in
        collect_ancestors fuel' rootFolderPath skippedPath folders
  end.

(** [skippedFilePaths.forEach (...)] *)
Fixpoint collect_all (fuel : nat) (rootFolderPath : str)
    (skippedFilePaths : list str) (folders : list str) : option (list str) :=
  match skippedFilePaths with
  | [] => Some folders
  | skippedPath :: rest =>
      match collect_ancestors fuel rootFolderPath skippedPath folders with
      | None => None
      | Some folders => collect_all fuel rootFolderPath rest folders
      end
  end.

(** The units whose path is in [folders] get [mustExclude = true]. *)
Definition mark_unit (folders : list str) (unit : Unit) : Unit :=
  if bool_decide (filePath unit ∈ folders) then set_mustExclude true unit else unit.

Definition mark_excluded (folders : list str) (flat : list Unit) : list Unit :=
  mark_unit folders <$> flat.

(** The first part of [buildIndex]: asset parent folders are marked. *)
Definition mark_exclusions (fuel : nat) (skippedFilePaths : option (list str))
    (s : State) : option Outcome :=
  match skippedFilePaths with
  | Some ((_ :: _) as skipped) =>
      match _flatCompilationsList s !! 0 with
      | None => Some (Thrown TypeError s)
      | Some root =>
          let rootFolderPath := filePath root in
          match collect_all fuel rootFolderPath skipped (_foldersToExclude s) with
          | None => None
          | Some folders =>
              let s := with_excluded folders s in
              match folders with
              | [] => Some (Returned s)
              | _ => Some (Returned
                       (with_flat (mark_excluded folders (_flatCompilationsList s)) s))
              end
          end
      end
  | _ => Some (Returned s)
  end.

(** The comparator on references to units. *)
Definition compare_refs (flat : list Unit) (a b : nat) : Z :=
  _multiPartComparison (unit_at flat a) (unit_at flat b).

(** [group.sort(_multiPartComparison)] on the array [owner] holds. *)
Definition sort_group (flat : list Unit) (owner : nat) : list Unit :=
  match children (unit_at flat owner) with
  | Some group =>
      alter (set_children (JsArray.sort (compare_refs flat) group)) owner flat
  | None => flat
  end.

(** [_rawGroups.forEach(group => group.sort(_multiPartComparison))] *)
Definition sort_groups (groups : list nat) (flat : list Unit) : list Unit :=
  foldl sort_group flat groups.

(** The test of the promotion: neither is a directory, both are numbered,
    and [unit] has the longer numbering. *)
Definition must_promote (unit prevUnit : Unit) : bool :=
  negb (bool_decide (fileExtension unit = DIR))
  && negb (bool_decide (fileExtension prevUnit = DIR))
  && match numbering unit, numbering prevUnit with
     | Some n, Some m => length m <? length n
     | _, _ => false
     end.

(** The array a group stands for. *)
Definition group_of (flat : list Unit) (owner : nat) : list nat :=
  default [] (children (unit_at flat owner)).

(** The body of the [do ... while (i < group.length)] loop over the group that
    [owner] holds, at index [i]: the unit at [i] moves under the unit before
    it, and [i] stays, or [i] moves on.  [queue] is [_rawGroups]. *)
Definition scan_step (owner i : nat) (flat : list Unit) (queue : list nat)
    : nat * list Unit * list nat :=
  let group := group_of flat owner in
  let unit := group !!! i in
  let prevUnit := group !!! (i - 1) in
  if (0 <? i) && must_promote (unit_at flat unit) (unit_at flat prevUnit) then
    let '(flat, queue) :=
      match children (unit_at flat prevUnit) with
      | None => (alter (set_children []) prevUnit flat, queue ++ [prevUnit])
      | Some _ => (flat, queue)
      end in
    let flat := alter (set_children (delete i (group_of flat owner))) owner flat in
    let flat := alter (push_child unit) prevUnit flat in
    let flat := alter (set_isNode true) prevUnit flat in
    (i, flat, queue)
  else (S i, flat, queue).

(** The loop itself: the body, then the test. *)
Fixpoint scan_group (fuel : nat) (owner i : nat) (flat : list Unit)
    (queue : list nat) : option (list Unit * list nat) :=
  match fuel with
  | 0 => None
  | S fuel' =>
      let '(i, flat, queue) := scan_step owner i flat queue in
      if i <? length (group_of flat owner)
      then scan_group fuel' owner i flat queue
      else Some (flat, queue)
  end.

(** [while (_rawGroups.length > 0)]: the groups are taken from the front of
    the queue. *)
Fixpoint promote (fuel inner : nat) (flat : list Unit) (queue : list nat)
    : option (list Unit * list nat) :=
  match fuel with
  | 0 => None
  | S fuel' =>
      match queue with
      | [] => Some (flat, queue)
      | owner :: queue =>
          match scan_group inner owner 0 flat queue with
          | None => None
          | Some (flat, queue) => promote fuel' inner flat queue
          end
      end
  end.

(** The same loop when the group to process next may be any group of the
    queue. *)
Inductive promote_any : list Unit → list nat → list Unit → Prop :=
  | promote_any_done flat :
      promote_any flat [] flat
  | promote_any_step fuel flat before owner after flat' queue' final :
      scan_group fuel owner 0 flat (before ++ after) = Some (flat', queue') →
      promote_any flat' queue' final →
      promote_any flat (before ++ owner :: after) final.

Definition buildIndex (fuel : nat) (skippedFilePaths : option (list str))
    (s : State) : option Outcome :=
  let s := seal s in
  match mark_exclusions fuel skippedFilePaths s with
  | Some (Returned s) =>
      let flat := sort_groups (_rawGroups s) (_flatCompilationsList s) in
      match promote fuel fuel flat (_rawGroups s) with
      | Some (flat, queue) => Some (Returned (with_groups queue (with_flat flat s)))
      | None => None
      end
  | other => other
  end.

(** *** [getRootDirPathFor] *)

Definition getRootDirPathFor (filePath_ : str) (s : State) : str :=
  match _flatCompilationsList s with
  | [] => []
  | root :: _ =>
      let rootAbsPath := filePath root in
      let homeDirAbsPath := Path.dirname Path filePath_ in
      let rootPathPrefix := _makeRelUrl homeDirAbsPath rootAbsPath [] true in
      if JsString.truthy rootPathPrefix then rootPathPrefix ++ lit "/" else []
  end.

End Engine.

(** ** NavigationRenderer *)

#[local] Set Warnings "-register-all".

(** The finalized tree as the renderer reads it: a unit with, when it has an
    array of children, the nodes in it. *)
Inductive Node := mkNode (unit : Unit) (kids : option (list Node)).

Definition node_unit (n : Node) : Unit := match n with mkNode unit _ => unit end.
Definition node_kids (n : Node) : option (list Node) :=
  match n with mkNode _ kids => kids end.

(** The node a reference of the store stands for; the fuel bounds the depth
    (a store with a cycle unfolds to no tree). *)
Fixpoint unfold_node (fuel : nat) (flat : list Unit) (r : nat) : option Node :=
  match fuel with
  | 0 => None
  | S fuel' =>
      let unit := unit_at flat r in
      match children unit with
      | None => Some (mkNode unit None)
      | Some refs =>
          match mapM (unfold_node fuel' flat) refs with
          | Some kids => Some (mkNode unit (Some kids))
          | None => None
          end
      end
  end.

Definition unfold_tree (fuel : nat) (s : State) : option (list Node) :=
  mapM (unfold_node fuel (_flatCompilationsList s)) (_abstractNavigationTree s).

Section Walk.
Context {A : Type} (callback : Unit → option Unit → A → bool * A).

(** [_walkTree]: the callback sees every node with its parent, before the
    node's children; the boolean is [_walkTree.mustExitNow], which every
    call resets on entry. *)
Fixpoint walk_node (n : Node) (parent : option Unit) (a : A) : bool * A :=
  match n with
  | mkNode unit kids =>
      let '(mustExitNow, a) := callback unit parent a in
      match kids with
      | Some kids =>
          (fix walk_list (nodes : list Node) (mustExitNow : bool) (a : A) : bool * A :=
             match nodes with
             | [] => (mustExitNow, a)
             | currNode :: rest =>
                 if mustExitNow then (mustExitNow, a)
                 else let '(mustExitNow, a) := walk_node currNode (Some unit) a in
                      walk_list rest mustExitNow a
             end) kids false a
      | None => (mustExitNow, a)
      end
  end.

Fixpoint walk_list (parent : option Unit) (nodes : list Node) (mustExitNow : bool)
    (a : A) : bool * A :=
  match nodes with
  | [] => (mustExitNow, a)
  | currNode :: rest =>
      if mustExitNow then (mustExitNow, a)
      else let '(mustExitNow, a) := walk_node currNode parent a in
           walk_list parent rest mustExitNow a
  end.

Definition _walkTree (node : list Node) (parent : option Unit) (a : A) : bool * A :=
  walk_list parent node false a.
End Walk.

(** An [HtmlElementProxy]: its template, its data and its children, each
    named by the id it has in the factory's registry. *)
Record HtmlElementProxy := mkProxy {
  _template : list str;
  _data : list str;
  _children : list str;
}.

(** [template = ''] *)
Definition NO_TEMPLATE : list str := [[]].

(** [vsprintf] on a template whose places are all [%s]: the arguments fill
    the places in order, the ones left over are ignored. *)
Fixpoint vsprintf (template : list str) (args : list str) : str :=
  match template with
  | [] => []
  | [piece] => piece
  | piece :: rest =>
      match args with
      | arg :: args => piece ++ arg ++ vsprintf rest args
      | [] => piece ++ vsprintf rest []
      end
  end.

(** The state of one call of [_buildHtmlNavigation]: the registry of the
    factory and [$.rootHtmlEl]. *)
Record Builder := mkBuilder {
  registry : gmap str HtmlElementProxy;
  rootHtmlEl : option str;
}.

(** [getHtmlElementProxy(id, template, data)]: the proxy registered under
    [id], created first if there is none. *)
Definition getHtmlElementProxy (id : str) (template : list str) (data : list str)
    (reg : gmap str HtmlElementProxy) : gmap str HtmlElementProxy :=
  match reg !! id with
  | Some _ => reg
  | None => <[id := mkProxy template data []]> reg
  end.

(** [parent.addChild(child)], both given by their ids. *)
Definition addChild (parent child : str) (reg : gmap str HtmlElementProxy)
    : gmap str HtmlElementProxy :=
  alter (λ p, mkProxy (_template p) (_data p) (_children p ++ [child])) parent reg.

Definition NEWLINE : str := ["010"%char].

(** [proxy.render()]; the fuel bounds the depth of the proxies. *)
Fixpoint render (fuel : nat) (reg : gmap str HtmlElementProxy) (id : str) : option str :=
  match fuel with
  | 0 => None
  | S fuel' =>
      match reg !! id with
      | None => None
      | Some proxy =>
          match mapM (render fuel' reg) (_children proxy) with
          | None => None
          | Some rendered =>
              let stringifiedChildren :=
                NEWLINE ++ JsString.join NEWLINE rendered ++ NEWLINE in
              Some (vsprintf (_template proxy) (_data proxy ++ [stringifiedChildren]))
          end
      end
  end.

(** A proxy is part of what [from] renders when a chain of children leads
    from [from] to it. *)
Inductive attached (reg : gmap str HtmlElementProxy) (from : str) : str → Prop :=
  | attached_here : attached reg from from
  | attached_child id proxy child :
      attached reg from id → reg !! id = Some proxy → child ∈ _children proxy →
      attached reg from child.

Section Renderer.
Context (Path : Path.module) (prettify : str → str).

(** [unit.fileHeader || unit.fileName] *)
Definition header_or_name (unit : Unit) : str :=
  match fileHeader unit with
  | Some ((_ :: _) as header) => header
  | _ => fileName unit
  end.

(** The callback [_buildHtmlNavigation] hands to [_walkTree]. *)
Definition nav_callback (docId : str) (unit : Unit) (parentUnit : option Unit)
    (b : Builder) : bool * Builder :=
  if mustExclude unit then (false, b) else
  let id := filePath unit in
  let reg := registry b in
  match parentUnit with
  | None =>
      let reg := getHtmlElementProxy (id ++ lit "#container") NAV_ROOT_TEMPLATE [] reg in
      let reg := getHtmlElementProxy id NAV_GROUP_TEMPLATE [] reg in
      let reg := addChild (id ++ lit "#container") id reg in
      (false, mkBuilder reg (Some (id ++ lit "#container")))
  | Some parentUnit =>
      let parentEl := filePath parentUnit in
      if isNode unit then
        let reg := getHtmlElementProxy parentEl NO_TEMPLATE [] reg in
        let reg := getHtmlElementProxy (id ++ lit "#node_item") NAV_ITEM_TEMPLATE [] reg in
        let reg :=
          if bool_decide (fileExtension unit = DIR) then
            getHtmlElementProxy (id ++ lit "#node_item_content")
              NAV_ITEM_CONTENT_TEMPLATE [header_or_name unit] reg
          else
            let reg := getHtmlElementProxy (id ++ lit "#node_item_content")
                         NAV_ITEM_CONTENT_TEMPLATE [] reg in
            let reg := getHtmlElementProxy (id ++ lit "#node_content_link")
                         LINK_TEMPLATE
                         [_makeRelUrl Path docId (filePath unit) HTML false;
                          to_string (fileHeader unit)] reg in
            addChild (id ++ lit "#node_item_content") (id ++ lit "#node_content_link") reg in
        let reg := addChild (id ++ lit "#node_item") (id ++ lit "#node_item_content") reg in
        let reg := addChild parentEl (id ++ lit "#node_item") reg in
        let reg := getHtmlElementProxy id NAV_GROUP_TEMPLATE [] reg in
        let reg := addChild parentEl id reg in
        (false, mkBuilder reg (rootHtmlEl b))
      else if bool_decide (fileExtension unit = DIR) then
        let reg := getHtmlElementProxy parentEl NO_TEMPLATE [] reg in
        let reg := getHtmlElementProxy (id ++ lit "#node_item") NAV_ITEM_TEMPLATE [] reg in
        let reg := getHtmlElementProxy (id ++ lit "#node_item_content")
                     NAV_ITEM_CONTENT_TEMPLATE [to_string (fileHeader unit)] reg in
        let reg := addChild (id ++ lit "#node_item") (id ++ lit "#node_item_content") reg in
        let reg := addChild parentEl (id ++ lit "#node_item") reg in
        (false, mkBuilder reg (rootHtmlEl b))
      else
        let reg := getHtmlElementProxy parentEl NO_TEMPLATE [] reg in
        let reg := getHtmlElementProxy id NAV_ITEM_TEMPLATE [] reg in
        let reg := getHtmlElementProxy (id ++ lit "#leaf_item_content")
                     NAV_ITEM_CONTENT_TEMPLATE [] reg in
        let reg := getHtmlElementProxy (id ++ lit "#leaf_content_link")
                     LINK_TEMPLATE
                     [_makeRelUrl Path docId (filePath unit) HTML false;
                      to_string (fileHeader unit)] reg in
        let reg := addChild (id ++ lit "#leaf_item_content") (id ++ lit "#leaf_content_link") reg in
        let reg := addChild id (id ++ lit "#leaf_item_content") reg in
        let reg := addChild parentEl id reg in
        (false, mkBuilder reg (rootHtmlEl b))
  end.

(** The builder once the walk is over. *)
Definition build_navigation (docId : str) (tree : list Node) : Builder :=
  snd (_walkTree (nav_callback docId) tree None (mkBuilder ∅ None)).

Definition _buildHtmlNavigation (fuel : nat) (docId : str) (tree : list Node)
    : option str :=
  let b := build_navigation docId tree in
  match rootHtmlEl b with
  | Some root => prettify <$> render fuel (registry b) root
  | None => Some []
  end.

Definition getHtmlNavigationFor (fuel : nat) (filePath_ : str) (s : State)
    : option str :=
  match unfold_tree fuel s with
  | Some tree => _buildHtmlNavigation fuel filePath_ tree
  | None => None
  end.
End Renderer.

(** * The words of the specification

    What the specification says of the engine, written after its words, to
    be compared with what the engine does. *)

(** The leading run [extract] scans: digits, punctuation and underscores,
    that is everything up to the first letter. *)
Definition leading_run (text : str) : str :=
  JsString.take_run (λ c, negb (Chars.is_alpha c)) text.

(** The tokens of a run: its maximal runs of digits; [cur] is the token being
    read. *)
Fixpoint digit_runs_from (cur : str) (s : str) : list str :=
  match s with
  | [] => match cur with [] => [] | _ => [cur] end
  | c :: s' =>
      if Chars.is_digit c then digit_runs_from (cur ++ [c]) s'
      else match cur with
           | [] => digit_runs_from [] s'
           | _ => cur :: digit_runs_from [] s'
           end
  end.

Definition digit_runs (s : str) : list str := digit_runs_from [] s.


(** A label is blank: null, empty, or nothing but white space. *)
Definition blank (label : option str) : Prop := JsString.trim (default [] label) = [].


(** What [_makeRelUrl] does to a segment: [.trim()], then the two
    [.replace] that take the separators off its ends. *)
Definition clean_segment (segment : str) : str :=
  JsString.strip_right Chars.is_sep
    (JsString.strip_left Chars.is_sep (JsString.trim segment)).

(** The state a call leaves behind, however it ended. *)
Definition state_of (o : Outcome) : State :=
  match o with
  | Returned s => s
  | Thrown _ s => s
  end.

(** ** The index before and after [buildIndex] *)

(** The array of children of the unit a reference names. *)
Definition children_at (flat : list Unit) (r : nat) : option (list nat) :=
  children (unit_at flat r).

(** What [buildIndex] never writes once the exclusions are marked: a unit
    without its links ([children], [isNode]). *)
Definition static (u : Unit) : Unit :=
  mkUnit (filePath u) (fileName u) (fileExtension u) (fileCTime u) (fileMTime u)
         (fileHeader u) false (numberingSignature u) (numbering u) (parent u)
         None (mustExclude u).

(** A unit the promotion may move or move others under: not a directory and
    with a numbering. *)
Definition can_promote (u : Unit) : bool :=
  negb (bool_decide (fileExtension u = DIR)) && bool_decide (is_Some (numbering u)).

(** A unit carries a numbering key. *)
Definition numbered (u : Unit) : Prop := ∃ key, numbering u = Some key ∧ key ≠ [].

(** The units that hold no array of children. *)
Definition leaves (flat : list Unit) : nat :=
  length (filter (λ u, children u = None) flat).

(** An open index as a walk of the file system leaves it, seen from the unit
    [o]: its children are units of the index, in the order they were
    inserted, and children of no other unit; its array is queued in
    [_rawGroups]; and if it can be promoted (a numbered file) it has no
    children. *)
Definition well_formed_at (flat : list Unit) (queue : list nat) (o : nat) : Prop :=
  Forall (λ x, x < length flat) (group_of flat o)
  ∧ StronglySorted lt (group_of flat o)
  ∧ Forall (λ o', o = o' ∨ Forall (λ x, x ∉ group_of flat o') (group_of flat o))
           (seq 0 (length flat))
  ∧ (is_Some (children_at flat o) → o ∈ queue)
  ∧ (can_promote (unit_at flat o) = true → children_at flat o = None).

Definition well_formed_store (flat : list Unit) (queue : list nat) : Prop :=
  Forall (well_formed_at flat queue) (seq 0 (length flat))
  ∧ NoDup queue
  ∧ Forall (λ o, is_Some (children_at flat o)) queue.

Definition well_formed (s : State) : Prop :=
  well_formed_store (_flatCompilationsList s) (_rawGroups s)
  ∧ _foldersToExclude s = [].

Global Instance well_formed_dec s : Decision (well_formed s).
Proof. unfold well_formed, well_formed_store, well_formed_at. apply _. Defined.

Section Invariants.
Context (flat0 : list Unit) (R : nat → nat → Prop).

(** What holds of the store between two groups of the promotion pass:
    nothing but the links has changed since [flat0]; the arrays of children
    hold units of the index, each once and in one array only; the queue
    holds arrays, each once, whose promotable units have no children yet;
    every array is ordered by [R]; and no promotable unit is its own
    child. *)
Record promotion_inv (flat : list Unit) (queue : list nat) : Prop := {
  inv_static : static <$> flat = static <$> flat0;
  inv_refs : ∀ o c x, children_at flat o = Some c → x ∈ c → x < length flat;
  inv_nodup : ∀ o c, children_at flat o = Some c → NoDup c;
  inv_disjoint : ∀ o1 o2 c1 c2 x,
    children_at flat o1 = Some c1 → children_at flat o2 = Some c2 →
    x ∈ c1 → x ∈ c2 → o1 = o2;
  inv_queue_nodup : NoDup queue;
  inv_queue : ∀ o, o ∈ queue → is_Some (children_at flat o);
  inv_pending : ∀ o c x,
    o ∈ queue → children_at flat o = Some c → x ∈ c →
    can_promote (unit_at flat x) = true → children_at flat x = None;
  inv_sorted : ∀ o c, children_at flat o = Some c → StronglySorted R c;
  inv_noself : ∀ o c,
    children_at flat o = Some c → can_promote (unit_at flat o) = true → o ∉ c;
}.

(** What holds while the group of [owner] is scanned, at index [i]: the
    group is out of the queue; its promotable units from [i] on have no
    children yet; and what the unit before [i] has taken so far, followed by
    the rest of the group, is ordered by [R]. *)
Record scan_inv (owner i : nat) (flat : list Unit) (queue : list nat) : Prop := {
  scan_base : promotion_inv flat queue;
  scan_owner : is_Some (children_at flat owner);
  scan_owner_out : owner ∉ queue;
  scan_unscanned : ∀ j x,
    i ≤ j → group_of flat owner !! j = Some x →
    can_promote (unit_at flat x) = true → children_at flat x = None;
  scan_prev : ∀ p,
    1 ≤ i → group_of flat owner !! (i - 1) = Some p →
    can_promote (unit_at flat p) = true →
    StronglySorted R (group_of flat p ++ drop i (group_of flat owner));
}.
End Invariants.

(** The [k]-th directory above a path. *)
Definition ancestor (Path : Path.module) (k : nat) (p : str) : str :=
  Nat.iter k (Path.dirname Path) p.

(** A skipped path lies under the root: one of its first [fuel] ancestors is
    the root folder. *)
Definition under_root (Path : Path.module) (fuel : nat) (root p : str) : Prop :=
  ∃ n, 1 ≤ n ≤ fuel ∧ ancestor Path n p = root.

(** The ancestor [k] of a path lies strictly below the root: the root is not
    among the first [k] ancestors. *)
Definition below_root (Path : Path.module) (k : nat) (root p : str) : Prop :=
  1 ≤ k ∧ ∀ j, 1 ≤ j ≤ k → ancestor Path j p ≠ root.

(** [x] may stand before [y] after the stable sort of references inserted in
    increasing order: it was inserted first, or it compares strictly less. *)
Definition may_precede (flat : list Unit) (x y : nat) : Prop :=
  x < y ∨ (compare_refs flat x y < 0)%Z.

(** Every unit inserted under the same parent as [x] carries a numbering
    key. *)
Definition siblings_numbered (flat : list Unit) (x : nat) : Prop :=
  ∀ o group, children_at flat o = Some group → x ∈ group →
             Forall (λ z, numbered (unit_at flat z)) group.

(** Neither [x] nor any unit inserted under the same parent as [x] carries a
    numbering key. *)
Definition siblings_unnumbered (flat : list Unit) (x : nat) : Prop :=
  ¬ numbered (unit_at flat x)
  ∧ ∀ o group, children_at flat o = Some group → x ∈ group →
               Forall (λ z, ¬ numbered (unit_at flat z)) group.

(** [x] and [y] may stand in this order among the children of a unit once
    [buildIndex] is over: [x] was inserted first or compares strictly less,
    and [y] does not compare strictly less than [x] if every sibling [x]
    was inserted with carries a numbering key. *)
Definition in_order (flat : list Unit) (x y : nat) : Prop :=
  may_precede flat x y
  ∧ (siblings_numbered flat x → (0 ≤ compare_refs flat y x)%Z).

(** The order of an array of children honours the comparator: no later
    child compares strictly less than an earlier one. *)
Definition honours_comparison (flat : list Unit) (c : list nat) : Prop :=
  ∀ i j x y, i < j → c !! i = Some x → c !! j = Some y →
             (0 ≤ compare_refs flat y x)%Z.

(** Ties keep the order of insertion: of two children that compare equal,
    the one inserted first (the lower reference) comes first. *)
Definition keeps_insertion_order (flat : list Unit) (c : list nat) : Prop :=
  ∀ i j x y, i < j → c !! i = Some x → c !! j = Some y →
             compare_refs flat x y = 0%Z → x < y.

(** ** What the walk of the renderer visits *)

(** The calls of the callback that [_walkTree] makes on a node and below it,
    in order: the unit, its parent, and whether the unit is hidden, that is
    excluded or below an excluded unit ([hidden] tells that the parent
    is). *)
Fixpoint visits_node (hidden : bool) (n : Node) (parent : option Unit)
  : list (bool * Unit * option Unit) :=
  match n with
  | mkNode unit kids =>
      let hidden := hidden || mustExclude unit in
      (hidden, unit, parent) ::
      match kids with
      | Some kids => flat_map (λ kid, visits_node hidden kid (Some unit)) kids
      | None => []
      end
  end.

Definition visits (tree : list Node) : list (bool * Unit * option Unit) :=
  flat_map (λ n, visits_node false n None) tree.

(** The ids under which the callback registers the elements of a unit. *)
Definition unit_keys (u : Unit) : list str :=
  let id := filePath u in
  [id; id ++ lit "#container"; id ++ lit "#node_item";
   id ++ lit "#node_item_content"; id ++ lit "#node_content_link";
   id ++ lit "#leaf_item_content"; id ++ lit "#leaf_content_link"].

(** The ids of the units of the tree are unique enough: no id of an element
    of a hidden unit is the id of an element of a unit that is shown. *)
Definition keys_apart (vs : list (bool * Unit * option Unit)) : Prop :=
  Forall (λ v1,
    Forall (λ v2,
      v1.1.1 = true → v2.1.1 = false →
      Forall (λ k, k ∉ unit_keys v2.1.2) (unit_keys v1.1.2)) vs) vs.

Global Instance keys_apart_dec vs : Decision (keys_apart vs).
Proof. unfold keys_apart. apply _. Defined.

(** An id belongs to a hidden unit, to a shown unit. *)
Definition hidden_key (vs : list (bool * Unit * option Unit)) (k : str) : Prop :=
  ∃ u p, (true, u, p) ∈ vs ∧ k ∈ unit_keys u.
Definition shown_key (vs : list (bool * Unit * option Unit)) (k : str) : Prop :=
  ∃ u p, (false, u, p) ∈ vs ∧ k ∈ unit_keys u.

(** The children of every element stay on its side. *)
Definition sides_kept (vs : list (bool * Unit * option Unit))
    (reg : gmap str HtmlElementProxy) : Prop :=
  ∀ k proxy child,
    reg !! k = Some proxy → child ∈ _children proxy →
    (hidden_key vs k ∧ hidden_key vs child) ∨ (shown_key vs k ∧ shown_key vs child).

(** * Sample runs *)

(** The builder after a visit. *)
Definition visit {A : Type} (callback : Unit → option Unit → A → bool * A)
    (a : A) (v : bool * Unit * option Unit) : A :=
  (callback v.1.2 v.2 a).2.

(** Every visit but those of the top of the tree has its parent visited too,
    and a unit is hidden exactly when it is excluded or its parent is
    hidden. *)
Definition coherent (vs : list (bool * Unit * option Unit)) : Prop :=
  ∀ hidden unit parent,
    (hidden, unit, parent) ∈ vs →
    match parent with
    | None => hidden = mustExclude unit
    | Some parentUnit =>
        ∃ hidden' parent',
          (hidden', parentUnit, parent') ∈ vs
          ∧ hidden = hidden' || mustExclude unit
    end.

(** The side of the navigation a key is on. *)
Definition on_side (vs : list (bool * Unit * option Unit)) (hidden : bool)
    (key : str) : Prop :=
  if hidden then hidden_key vs key else shown_key vs key.

(** Two builders with the same root and the same proxies on the shown side. *)
Definition agree (vs : list (bool * Unit * option Unit)) (b1 b2 : Builder) : Prop :=
  rootHtmlEl b1 = rootHtmlEl b2
  ∧ ∀ key, shown_key vs key → registry b1 !! key = registry b2 !! key.

(** A builder all of whose links stay on one side, with a shown root. *)
Definition builder_ok (vs : list (bool * Unit * option Unit)) (b : Builder) : Prop :=
  sides_kept vs (registry b) ∧ ∀ root, rootHtmlEl b = Some root → shown_key vs root.

(** The tree a walk that stops at excluded units would see. *)
Fixpoint prune_node (n : Node) : option Node :=
  match n with
  | mkNode unit kids =>
      if mustExclude unit then None
      else Some (mkNode unit match kids with
                             | Some kids => Some (omap prune_node kids)
                             | None => None
                             end)
  end.

Definition prune (tree : list Node) : list Node := omap prune_node tree.

Definition shown (v : bool * Unit * option Unit) : Prop := v.1.1 = false.

Global Instance shown_dec v : Decision (shown v).
Proof. unfold shown. apply _. Defined.

Module Sample.

Definition Path : Path.module := Posix.path (lit "/").

(** The next call of a run, made only when the one before returned. *)
Definition and_then (o : Outcome) (call : State → Outcome) : Outcome :=
  match o with
  | Returned s => call s
  | Thrown _ _ => o
  end.

(** A root folder with the four files "1 A", "1.1 B", "1.1.1 C" and "2 D". *)
Definition flat_group : State := Eval vm_compute in
  state_of
    (and_then (and_then (and_then (and_then
       (addRootToIndex None (lit "/r") (lit "r") 0 0 initial)
       (addFileToIndex Path None (lit "/r/1 A") (lit "1 A") (lit "txt") 0 0 None))
       (addFileToIndex Path None (lit "/r/1.1 B") (lit "1.1 B") (lit "txt") 0 0 None))
       (addFileToIndex Path None (lit "/r/1.1.1 C") (lit "1.1.1 C") (lit "txt") 0 0 None))
       (addFileToIndex Path None (lit "/r/2 D") (lit "2 D") (lit "txt") 0 0 None)).

(** The same index once [buildIndex] has run on it. *)
Definition flat_group_built : State := Eval vm_compute in
  match buildIndex Path 10 None flat_group with
  | Some o => state_of o
  | None => flat_group
  end.

(** A root folder with the files "2 X", "Y" (no numbering) and "1 Z", walked
    in this order. *)
Definition unnumbered_between : State := Eval vm_compute in
  state_of
    (and_then (and_then (and_then
       (addRootToIndex None (lit "/r") (lit "r") 0 0 initial)
       (addFileToIndex Path None (lit "/r/2 X") (lit "2 X") (lit "txt") 0 0 None))
       (addFileToIndex Path None (lit "/r/Y") (lit "Y") (lit "txt") 0 0 None))
       (addFileToIndex Path None (lit "/r/1 Z") (lit "1 Z") (lit "txt") 0 0 None)).

(** The same index once [buildIndex] has run on it. *)
Definition unnumbered_between_built : State := Eval vm_compute in
  match buildIndex Path 10 None unnumbered_between with
  | Some o => state_of o
  | None => unnumbered_between
  end.

(** A root folder with a document and a folder [assets] that holds a
    document and, skipped by the walk, the image [img.png]. *)
Definition with_assets : State := Eval vm_compute in
  state_of
    (and_then (and_then (and_then
       (addRootToIndex None (lit "/root") (lit "root") 0 0 initial)
       (addFileToIndex Path None (lit "/root/1 A.txt") (lit "1 A.txt") (lit "txt") 0 0 None))
       (addDirectoryToIndex Path None (lit "/root/assets") (lit "assets") 0 0))
       (addFileToIndex Path None (lit "/root/assets/notes.txt") (lit "notes.txt")
          (lit "txt") 0 0 (Some (lit "Notes")))).

Definition skipped_assets : list str := [lit "/root/assets/img.png"].

(** The same index once [buildIndex] has run on it. *)
Definition with_assets_built : State := Eval vm_compute in
  match buildIndex Path 10 (Some skipped_assets) with_assets with
  | Some o => state_of o
  | None => with_assets
  end.

(** The tree the renderer walks once that index is built. *)
Definition assets_tree : list Node := Eval vm_compute in
  default [] (unfold_tree 10 with_assets_built).

End Sample.

(** * The rest of the engine and its callers *)

(** ** DocumentIndex: the lookups *)

(** [getHeaderFor]: the header of the first unit registered under
    [srcFilePath], the empty string when there is none. *)
Definition getHeaderFor (srcFilePath : str) (s : State) : option str :=
  match _flatCompilationsList s with
  | [] => Some []
  | _ =>
      match find_by_path (_flatCompilationsList s) srcFilePath with
      | Some doc => fileHeader (unit_at (_flatCompilationsList s) doc)
      | None => Some []
      end
  end.

(** [getCompilationHeader]: the header of the root, followed by a space and
    [separator] when one is given. *)
Definition getCompilationHeader (separator : option str) (s : State) : str :=
  match _flatCompilationsList s with
  | [] => []
  | rootAbsPath :: _ =>
      to_string (fileHeader rootAbsPath)
      ++ match separator with
         | Some ((_ :: _) as separator) => lit " " ++ separator
         | _ => []
         end
  end.

(** A text is empty or starts with a letter. *)
Definition letter_first (s : str) : Prop :=
  from_option (λ c, Chars.is_alpha c = true) True (head s).

(** ** The index before and after the promotion *)

(** Every child of the store [before] is still a child in [after], of the
    same unit, or else it is a numbered file (that was moved). *)
Definition children_kept (flat0 before after : list Unit) : Prop :=
  ∀ o x, x ∈ group_of before o →
         x ∈ group_of after o
         ∨ (can_promote (unit_at flat0 x) = true ∧ ∃ o', x ∈ group_of after o').

(** Every child in [after] was a child in [before], of the same unit or
    else of another one, from which the promotion moved it. *)
Definition children_gained (flat0 before after : list Unit) : Prop :=
  ∀ o x, x ∈ group_of after o →
         x ∈ group_of before o
         ∨ (must_promote (unit_at flat0 x) (unit_at flat0 o) = true
            ∧ ∃ o0, x ∈ group_of before o0).

(** What a unit was registered with: the unit without its links and without
    the mark of the exclusions. *)
Definition registered (u : Unit) : Unit := set_mustExclude false (static u).

(** ** The walk of the tree, call by call *)

(** The nodes of a tree with their parents, parents before children. *)
Fixpoint preorder_node (n : Node) (parent : option Unit)
    : list (Node * option Unit) :=
  match n with
  | mkNode unit kids =>
      (n, parent) ::
      match kids with
      | Some kids => flat_map (λ kid, preorder_node kid (Some unit)) kids
      | None => []
      end
  end.

Definition preorder (tree : list Node) (parent : option Unit)
    : list (Node * option Unit) :=
  flat_map (λ n, preorder_node n parent) tree.

(** The node holds an array of children (empty or not). *)
Definition has_children (n : Node) : bool :=
  match node_kids n with Some _ => true | None => false end.

(** The calls of [callback] along a list of nodes, up to and with the first
    node without an array of children on which it asks to stop. *)
Fixpoint calls {A : Type} (callback : Unit → option Unit → A → bool * A)
    (nodes : list (Node * option Unit)) (a : A) : bool * A :=
  match nodes with
  | [] => (false, a)
  | (n, parent) :: rest =>
      let '(mustExitNow, a) := callback (node_unit n) parent a in
      if mustExitNow && negb (has_children n) then (true, a)
      else calls callback rest a
  end.

(** ** The index as a tree *)

(** Every child was inserted after the unit that holds it. *)
Definition parents_first (flat : list Unit) : Prop :=
  Forall (λ o, Forall (λ x, o < x) (group_of flat o)) (seq 0 (length flat)).

Global Instance parents_first_dec flat : Decision (parents_first flat).
Proof. unfold parents_first. apply _. Defined.

(** A measure that grows from a unit to its children once [buildIndex] is
    over: the position of a folder or of a file without numbering, and, past
    all positions, the length of the numbering of a numbered file. *)
Definition rank (flat : list Unit) (x : nat) : nat :=
  if can_promote (unit_at flat x)
  then length flat + length (default [] (numbering (unit_at flat x)))
  else x.


(** ** file-utils.js: the header line of a document *)

Module JsSearch.

(** [pattern] occurs in [s] at position 0. *)
Fixpoint occurs_at_start (pattern s : str) : bool :=
  match pattern, s with
  | [], _ => true
  | p :: pattern, c :: s => bool_decide (p = c) && occurs_at_start pattern s
  | _ :: _, [] => false
  end.

(** [s.indexOf(pattern)]: [None] for -1. *)
Fixpoint indexOf (pattern s : str) : option nat :=
  if occurs_at_start pattern s then Some 0
  else match s with
       | [] => None
       | _ :: s => S <$> indexOf pattern s
       end.

(** [s.replace(pattern, '')] for a string [pattern]: the first occurrence
    is taken out. *)
Definition remove_first (pattern s : str) : str :=
  match indexOf pattern s with
  | Some i => take i s ++ drop (i + length pattern) s
  | None => s
  end.

End JsSearch.

(** The [while] loop of [purgeLine] for one of the removals. *)
Fixpoint remove_every (fuel : nat) (strToRemove lineStr : str) : option str :=
  match fuel with
  | 0 => None
  | S fuel =>
      match JsSearch.indexOf strToRemove lineStr with
      | Some _ => remove_every fuel strToRemove (JsSearch.remove_first strToRemove lineStr)
      | None => Some lineStr
      end
  end.

(** [removals.forEach] of [purgeLine]. *)
Fixpoint take_off (fuel : nat) (removals : list str) (lineStr : str) : option str :=
  match removals with
  | [] => Some lineStr
  | strToRemove :: removals =>
      lineStr ← remove_every fuel strToRemove lineStr;
      take_off fuel removals lineStr
  end.

(** [skipSignatures.forEach] of [purgeLine]: the flag [$.mustSkip]. *)
Definition must_skip (skipSignatures : list str) (lineStr : str) : bool :=
  foldl (λ mustSkip skipSignature,
           if negb mustSkip
              && bool_decide (JsSearch.indexOf skipSignature lineStr = Some 0)
           then true else mustSkip)
        false skipSignatures.

(** [purgeLine]: [Some None] is [null]; no result when a removal loop has not
    ended within [fuel] rounds. *)
Definition purgeLine (fuel : nat) (skipSignatures removals : list str) (lineStr : str)
    : option (option str) :=
  if negb (JsString.truthy (JsString.trim lineStr)) then Some None
  else if must_skip skipSignatures lineStr then Some None
  else
    lineStr ← take_off fuel removals lineStr;
    if negb (JsString.truthy lineStr) then Some None
    else Some (Some lineStr).

(** The reading loop of [getDocumentHeader] over the lines the reader has
    still to give. *)
Fixpoint read_lines (fuel : nat) (skipSignatures removals : list str)
    (lines : list str) (line : option str) : option (option str) :=
  match lines with
  | [] => Some line
  | lineBuffer :: lines =>
      line ← purgeLine fuel skipSignatures removals lineBuffer;
      if from_option JsString.truthy false line then Some line
      else read_lines fuel skipSignatures removals lines line
  end.

(** [getDocumentHeader], on the lines of the file at [filePath]. *)
Definition getDocumentHeader (fuel : nat) (lines : list str)
    (skipSignatures removals : list str) : option (option str) :=
  read_lines fuel skipSignatures removals lines None.

(** A line [purgeLine] does not reject before the removals. *)
Definition legit (skipSignatures : list str) (lineStr : str) : bool :=
  JsString.truthy (JsString.trim lineStr)
  && forallb (λ skipSignature, negb (JsSearch.occurs_at_start skipSignature lineStr))
             skipSignatures.

(** ** file-utils.js: the walk of a folder *)

Module FolderWalk.

(** What [readSync] gives for an entry of a folder, with the times
    [lstatSync] gives for its path; a directory comes with the entries that
    opening it gives. *)
Inductive Dirent :=
  | File (name : str) (ctimeMs mtimeMs : Z)
  | Directory (name : str) (ctimeMs mtimeMs : Z) (entries : list Dirent)
  | Other (name : str).

(** The two properties of the function object ([visitFilesInFolder.mustExitNow]
    and [visitFilesInFolder.skippedEntries], which no call resets), the array
    passed as [fileTypes], which is spliced in place, and what the callback
    works on. *)
Record Walk (A : Type) := mkWalk {
  mustExitNow : bool;
  skippedEntries : option (list str);
  fileTypes : list str;
  world : A;
}.
Arguments mkWalk {A} _ _ _ _.
Arguments mustExitNow {A} _.
Arguments skippedEntries {A} _.
Arguments fileTypes {A} _.
Arguments world {A} _.

(** What a call of the callback gives: a value, of which only the truth
    matters, or an exception. *)
Inductive Answer (A : Type) :=
  | Answered (truthy : bool) (a : A)
  | Raised (e : Error) (a : A).
Arguments Answered {A} _ _.
Arguments Raised {A} _ _.

(** What a visit leaves behind: it returns ([skippedEntries || null] is read
    off the walk), or an exception of the callback goes through it. *)
Inductive Visited (A : Type) :=
  | Finished (w : Walk A)
  | Aborted (e : Error) (w : Walk A).
Arguments Finished {A} _.
Arguments Aborted {A} _ _.

Definition and_then {A : Type} (v : Visited A) (next : Walk A → Visited A) : Visited A :=
  match v with
  | Finished w => next w
  | Aborted e w => Aborted e w
  end.

(** [ext.replace(/^\./, '')] *)
Definition strip_dot (ext : str) : str :=
  match ext with
  | c :: rest => if bool_decide (c = "."%char) then rest else ext
  | [] => []
  end.

(** [arr.splice(arr.indexOf(x), 1)] for an [x] the array includes. *)
Fixpoint splice_first (x : str) (arr : list str) : list str :=
  match arr with
  | [] => []
  | y :: arr => if bool_decide (y = x) then arr else y :: splice_first x arr
  end.

Section Visit.
Context {A : Type} (Path : Path.module) (resolve : str → str → str).
Context (callback : str → str → str → Z → Z → A → Answer A).

(** [visitFilesInFolder.mustExitNow = callback(...)] *)
Definition report (path name extension : str) (createdOn modifiedOn : Z) (w : Walk A)
    : Visited A :=
  match callback path name extension createdOn modifiedOn (world w) with
  | Answered truthy a => Finished (mkWalk truthy (skippedEntries w) (fileTypes w) a)
  | Raised e a => Aborted e (mkWalk (mustExitNow w) (skippedEntries w) (fileTypes w) a)
  end.

(** The head of [visitFilesInFolder]: the flag is reset; when [ROOT] is asked
    for, the folder itself is reported and [ROOT] is spliced out. *)
Definition enter (folderPath : str) (ctimeMs mtimeMs : Z) (w : Walk A) : Visited A :=
  let w := mkWalk false (skippedEntries w) (fileTypes w) (world w) in
  if bool_decide (ROOT ∈ fileTypes w) then
    and_then (report folderPath (getFileName Path folderPath false) ROOT ctimeMs mtimeMs w)
      (λ w, Finished (mkWalk (mustExitNow w) (skippedEntries w)
                        (splice_first ROOT (fileTypes w)) (world w)))
  else Finished w.

(** The body of the [while] loop for one entry; for a directory, the call of
    [visitFilesInFolder] on it, with its own loop. *)
Fixpoint visit_entry (folderPath : str) (currDirEntity : Dirent) (w : Walk A)
    : Visited A :=
  match currDirEntity with
  | File currName ctimeMs mtimeMs =>
      let currSrcPath := resolve folderPath currName in
      let currExtension := strip_dot (Path.extname Path currName) in
      if bool_decide (currExtension ∈ fileTypes w)
      then report currSrcPath currName currExtension ctimeMs mtimeMs w
      else Finished (mkWalk (mustExitNow w)
                       (Some (default [] (skippedEntries w) ++ [currSrcPath]))
                       (fileTypes w) (world w))
  | Directory currName ctimeMs mtimeMs entries =>
      let currSrcPath := resolve folderPath currName in
      and_then
        (if bool_decide (DIR ∈ fileTypes w)
         then report currSrcPath currName DIR ctimeMs mtimeMs w
         else Finished w)
        (λ w,
           and_then (enter currSrcPath ctimeMs mtimeMs w)
             (λ w,
                (fix visit_entries (entries : list Dirent) (w : Walk A) : Visited A :=
                   match entries with
                   | [] => Finished w
                   | currDirEntity :: rest =>
                       if mustExitNow w then Finished w
                       else and_then (visit_entry currSrcPath currDirEntity w)
                              (visit_entries rest)
                   end) entries w))
  | Other _ => Finished w
  end.

(** The [while] loop over the entries of the folder at [folderPath]. *)
Fixpoint visit_entries (folderPath : str) (entries : list Dirent) (w : Walk A)
    : Visited A :=
  match entries with
  | [] => Finished w
  | currDirEntity :: rest =>
      if mustExitNow w then Finished w
      else and_then (visit_entry folderPath currDirEntity w)
             (visit_entries folderPath rest)
  end.

(** [visitFilesInFolder] on the folder at [folderPath], which has the times
    [ctimeMs] and [mtimeMs] and holds [entries]. *)
Definition visitFilesInFolder (folderPath : str) (ctimeMs mtimeMs : Z)
    (entries : list Dirent) (w : Walk A) : Visited A :=
  and_then (enter folderPath ctimeMs mtimeMs w) (visit_entries folderPath entries).

(** The entries of a folder and of the folders below it, each as the path of
    the folder that holds it and its own path. *)
Fixpoint located (folderPath : str) (e : Dirent) : list (str * str) :=
  match e with
  | File name _ _ => [(folderPath, resolve folderPath name)]
  | Directory name _ _ entries =>
      let path := resolve folderPath name in
      (folderPath, path) :: flat_map (located path) entries
  | Other _ => []
  end.

Definition located_in (folderPath : str) (entries : list Dirent) : list (str * str) :=
  flat_map (located folderPath) entries.

(** The paths a walk reports when directories are asked for and the callback
    never asks to stop: the files of the types asked for and the
    directories, in the order of the walk. *)
Fixpoint reported (types : list str) (folderPath : str) (e : Dirent) : list str :=
  match e with
  | File name _ _ =>
      if bool_decide (strip_dot (Path.extname Path name) ∈ types)
      then [resolve folderPath name] else []
  | Directory name _ _ entries =>
      let path := resolve folderPath name in
      path :: flat_map (reported types path) entries
  | Other _ => []
  end.

(** The paths it skips: the files of the other types. *)
Fixpoint skipped (types : list str) (folderPath : str) (e : Dirent) : list str :=
  match e with
  | File name _ _ =>
      if bool_decide (strip_dot (Path.extname Path name) ∈ types)
      then [] else [resolve folderPath name]
  | Directory name _ _ entries =>
      flat_map (skipped types (resolve folderPath name)) entries
  | Other _ => []
  end.

End Visit.

End FolderWalk.

(** ** auntie.js: the preflight of [_process] *)

Section Preflight.
Context (Path : Path.module) (resolve : str → str → str).
Context (optionsData : option Options).
Context (htmlTemplatePath : option str) (lines_of : str → list str).

Definition NO_COMPILE_TAG : str := lit "$$nocompile".

Definition answer (o : Outcome) : FolderWalk.Answer State :=
  match o with
  | Returned s => FolderWalk.Answered false s
  | Thrown e s => FolderWalk.Raised e s
  end.

(** The callback of the preflight.  It returns nothing ([undefined]).  The
    header is read with no removals, so that no loop of [purgeLine] is
    entered and it needs no fuel. *)
Definition preflight_callback (currSrcPath currName currExtension : str)
    (createdOn modifiedOn : Z) (mtEngine : State) : FolderWalk.Answer State :=
  if bool_decide (Some currSrcPath = htmlTemplatePath)
  then FolderWalk.Answered false mtEngine
  else if bool_decide (currExtension = ROOT)
  then answer (addRootToIndex optionsData currSrcPath currName createdOn modifiedOn mtEngine)
  else if bool_decide (currExtension = DIR)
  then answer (addDirectoryToIndex Path optionsData currSrcPath currName
                 createdOn modifiedOn mtEngine)
  else
    let docHeader :=
      default None (getDocumentHeader 0 (lines_of currSrcPath) [NO_COMPILE_TAG] []) in
    answer (addFileToIndex Path optionsData currSrcPath currName currExtension
              createdOn modifiedOn docHeader mtEngine).

(** The preflight on the source folder [srcPath], with a new engine and
    before any other visit. *)
Definition preflight (srcPath : str) (ctimeMs mtimeMs : Z)
    (entries : list FolderWalk.Dirent) (fileTypesToParse : list str)
    : FolderWalk.Visited State :=
  let fullFileSet := fileTypesToParse ++ [DIR; ROOT] in
  FolderWalk.visitFilesInFolder Path resolve preflight_callback srcPath ctimeMs mtimeMs
    entries (FolderWalk.mkWalk false None fullFileSet initial).

End Preflight.

(** An index under construction, as the insertions keep it. *)
Definition under_construction (s : State) : Prop :=
  well_formed s ∧ _isIndexSealed s = false ∧ parents_first (_flatCompilationsList s).

(** [Path.resolve(from, to)] of the POSIX flavour, for running the walk on
    concrete paths. *)
Definition posix_resolve (cwd from to : str) : str :=
  let path :=
    match to with
    | c :: _ => if Chars.is_slash c then to else from ++ [Posix.slash] ++ to
    | [] => from
    end in
  Posix.slash :: JsString.join [Posix.slash] (Posix.resolve_components cwd path).

(** The index [s'] is [s] with units for [paths] added at its end, links
    apart. *)
Definition extends (s s' : State) (paths : list str) : Prop :=
  ∃ new,
    static <$> _flatCompilationsList s' = static <$> (_flatCompilationsList s ++ new)
    ∧ filePath <$> new = paths.

(** The folder at [path] is registered, by a unit that can take children. *)
Definition holds_folder (s : State) (path : str) : Prop :=
  ∃ parent,
    find_by_path (_flatCompilationsList s) path = Some parent
    ∧ can_promote (unit_at (_flatCompilationsList s) parent) = false.

(** [skippedEntries] once [more] paths are pushed. *)
Definition pushed (skippedEntries : option (list str)) (more : list str)
    : option (list str) :=
  match more with
  | [] => skippedEntries
  | _ => Some (default [] skippedEntries ++ more)
  end.

Section PreflightInvariant.
Context (Path : Path.module) (htmlTemplatePath : option str).

(** The entries at [links] can be visited from the walk [w]: the parent of
    each path is the folder that holds it, the template is none of these
    folders, and the paths are new to the index and differ from each
    other. *)
Definition can_visit (links : list (str * str)) (w : FolderWalk.Walk State) : Prop :=
  FolderWalk.mustExitNow w = false
  ∧ (ROOT ∉ FolderWalk.fileTypes w)
  ∧ DIR ∈ FolderWalk.fileTypes w
  ∧ under_construction (FolderWalk.world w)
  ∧ Forall (λ link, Path.dirname Path link.2 = link.1 ∧ htmlTemplatePath ≠ Some link.1)
           links
  ∧ NoDup (links.*2)
  ∧ Forall (λ path, path ∉ filePath <$> _flatCompilationsList (FolderWalk.world w))
           (links.*2).

(** The walk [w'] is [w] after a visit that has reported [reported] and
    skipped [skipped], and was not stopped. *)
Definition visited (w w' : FolderWalk.Walk State) (reported skipped : list str) : Prop :=
  FolderWalk.mustExitNow w' = false
  ∧ FolderWalk.fileTypes w' = FolderWalk.fileTypes w
  ∧ under_construction (FolderWalk.world w')
  ∧ extends (FolderWalk.world w) (FolderWalk.world w')
            (filter (λ path, htmlTemplatePath ≠ Some path) reported)
  ∧ FolderWalk.skippedEntries w' = pushed (FolderWalk.skippedEntries w) skipped.

End PreflightInvariant.

Section PreflightVisit.
Context (Path : Path.module) (resolve : str → str → str).
Context (optionsData : option Options).
Context (htmlTemplatePath : option str) (lines_of : str → list str).

(** The preflight visits the entry [e] of any registered folder from any
    walk that can visit it, and is not stopped. *)
Definition preflight_visits (e : FolderWalk.Dirent) : Prop :=
  ∀ folderPath w,
    can_visit Path htmlTemplatePath (FolderWalk.located resolve folderPath e) w →
    (FolderWalk.located resolve folderPath e ≠ [] →
     holds_folder (FolderWalk.world w) folderPath) →
    ∃ w',
      FolderWalk.visit_entry Path resolve
        (preflight_callback Path optionsData htmlTemplatePath lines_of) folderPath e w
      = FolderWalk.Finished w'
      ∧ visited htmlTemplatePath w w'
          (FolderWalk.reported Path resolve (FolderWalk.fileTypes w) folderPath e)
          (FolderWalk.skipped Path resolve (FolderWalk.fileTypes w) folderPath e).

End PreflightVisit.

(** A source folder for running the preflight: two documents, a folder of
    assets that holds an image and notes, and a link. *)
Module SampleFolder.

Definition resolve : str → str → str := posix_resolve (lit "/").

Definition entries : list FolderWalk.Dirent :=
  [ FolderWalk.File (lit "1 Intro.txt") 0 0;
    FolderWalk.Directory (lit "assets") 0 0
      [ FolderWalk.File (lit "img.png") 0 0;
        FolderWalk.File (lit "notes.txt") 0 0 ];
    FolderWalk.Other (lit "link");
    FolderWalk.Directory (lit "2 Topics") 0 0
      [ FolderWalk.File (lit "2.1 One.txt") 0 0 ] ].

Definition lines_of (path : str) : list str :=
  if bool_decide (path = lit "/root/assets/notes.txt")
  then [lit "$$nocompile"; []; lit "Notes"]
  else [].

End SampleFolder.

(** ** The walk of a folder as a run over its entries *)

(** What the walk does with an entry: it reports it to the callback or, for a
    file of another type, it notes its path as skipped. *)
Inductive Event :=
  | Reported (path name extension : str) (createdOn modifiedOn : Z) (isFile : bool)
  | Skipped (path : str).

Section Events.
Context {A : Type} (Path : Path.module) (resolve : str → str → str).
Context (callback : str → str → str → Z → Z → A → FolderWalk.Answer A).

(** The events of an entry, in the order of the walk: a directory before its
    entries. *)
Fixpoint events (types : list str) (folderPath : str) (e : FolderWalk.Dirent)
    : list Event :=
  match e with
  | FolderWalk.File name ctimeMs mtimeMs =>
      let path := resolve folderPath name in
      let extension := FolderWalk.strip_dot (Path.extname Path name) in
      if bool_decide (extension ∈ types)
      then [Reported path name extension ctimeMs mtimeMs true]
      else [Skipped path]
  | FolderWalk.Directory name ctimeMs mtimeMs entries =>
      let path := resolve folderPath name in
      (if bool_decide (DIR ∈ types)
       then [Reported path name DIR ctimeMs mtimeMs false] else [])
      ++ flat_map (events types path) entries
  | FolderWalk.Other _ => []
  end.

(** The events one after the other, until the callback gives a truthy value
    for a file or throws. *)
Fixpoint run (evs : list Event) (w : FolderWalk.Walk A) : FolderWalk.Visited A :=
  match evs with
  | [] => FolderWalk.Finished w
  | Reported path name extension createdOn modifiedOn isFile :: rest =>
      match callback path name extension createdOn modifiedOn (FolderWalk.world w) with
      | FolderWalk.Answered truthy a =>
          if truthy && isFile
          then FolderWalk.Finished
                 (FolderWalk.mkWalk true (FolderWalk.skippedEntries w)
                    (FolderWalk.fileTypes w) a)
          else run rest (FolderWalk.mkWalk false (FolderWalk.skippedEntries w)
                           (FolderWalk.fileTypes w) a)
      | FolderWalk.Raised e a =>
          FolderWalk.Aborted e
            (FolderWalk.mkWalk false (FolderWalk.skippedEntries w)
               (FolderWalk.fileTypes w) a)
      end
  | Skipped path :: rest =>
      run rest (FolderWalk.mkWalk false
                  (Some (default [] (FolderWalk.skippedEntries w) ++ [path]))
                  (FolderWalk.fileTypes w) (FolderWalk.world w))
  end.

End Events.

(** ** file-utils.js: [ensureParentDirs] *)

(** The file system of the host, as far as [ensureParentDirs] looks at it:
    what there is at a path.  [existsSync] and [mkdirSync] belong to Node;
    [mkdirSync] is the plain one, which makes one directory and fails when
    there is something at the path already or no directory to hold it. *)
Module HostFs.

Inductive Kind := IsFile | IsDirectory.
Inductive FsError := EEXIST | ENOENT | ENOTDIR.

Abbreviation Fs := (gmap str Kind).

Definition existsSync (path : str) (fs : Fs) : bool :=
  bool_decide (is_Some (fs !! path)).

Definition mkdirSync (Path : Path.module) (path : str) (fs : Fs) : FsError + Fs :=
  match fs !! path with
  | Some _ => inl EEXIST
  | None =>
      match fs !! Path.dirname Path path with
      | Some IsDirectory => inr (<[path := IsDirectory]> fs)
      | Some IsFile => inl ENOTDIR
      | None => inl ENOENT
      end
  end.

End HostFs.

(** [ensureParentDirs]: the value returned and the file system it leaves, or
    the exception of [mkdirSync]; no result when the recursion has not ended
    within [fuel] calls. *)
Fixpoint ensureParentDirs (Path : Path.module) (fuel : nat) (filePath : str)
    (fs : HostFs.Fs) : option (HostFs.FsError + bool * HostFs.Fs) :=
  match fuel with
  | 0 => None
  | S fuel =>
      let dirname := Path.dirname Path filePath in
      if HostFs.existsSync dirname fs then Some (inr (true, fs))
      else
        match ensureParentDirs Path fuel dirname fs with
        | None => None
        | Some (inl e) => Some (inl e)
        | Some (inr (_, fs)) =>
            match HostFs.mkdirSync Path dirname fs with
            | inl e => Some (inl e)
            | inr fs => Some (inr (false, fs))
            end
        end
  end.

(** * Properties *)

(** ** NumberingCodec: the comparator *)

Lemma compare_loop_None aSegments bSegments i todo :
  compare_loop aSegments bSegments i todo = None ↔
  ∀ k, k < todo → segment_at aSegments (i + k) = segment_at bSegments (i + k).
Proof.
  revert i. induction todo as [|todo IH]; intros i; simpl.
  - split; [intros _ k Hk; lia | done].
  - destruct (Z.eqb_spec (segment_at aSegments i - segment_at bSegments i) 0) as [Hz|Hz];
      simpl.
    + rewrite IH. split.
      * intros H [|k] Hk.
        -- rewrite Nat.add_0_r. lia.
        -- replace (i + S k) with (S i + k) by lia. apply H. lia.
      * intros H k Hk. replace (S i + k) with (i + S k) by lia. apply H. lia.
    + split; [done|]. intros H. specialize (H 0 ltac:(lia)).
      rewrite Nat.add_0_r in H. lia.
Qed.

Lemma compare_loop_Some aSegments bSegments i todo delta :
  compare_loop aSegments bSegments i todo = Some delta ↔
  ∃ k, k < todo
       ∧ (∀ j, j < k → segment_at aSegments (i + j) = segment_at bSegments (i + j))
       ∧ delta = (segment_at aSegments (i + k) - segment_at bSegments (i + k))%Z
       ∧ delta ≠ 0%Z.
Proof.
  revert i. induction todo as [|todo IH]; intros i; simpl.
  - split; [done | intros (k & Hk & _); lia].
  - destruct (Z.eqb_spec (segment_at aSegments i - segment_at bSegments i) 0) as [Hz|Hz];
      simpl.
    + rewrite IH. split.
      * intros (k & Hk & Htie & -> & Hne). exists (S k). split; [lia|].
        replace (i + S k) with (S i + k) by lia. split; [|done].
        intros [|j] Hj.
        -- rewrite Nat.add_0_r. lia.
        -- replace (i + S j) with (S i + j) by lia. apply Htie. lia.
      * intros ([|k] & Hk & Htie & -> & Hne).
        -- rewrite Nat.add_0_r in Hne. lia.
        -- exists k. split; [lia|]. replace (S i + k) with (i + S k) by lia.
           split; [|done]. intros j Hj.
           replace (S i + j) with (i + S j) by lia. apply Htie. lia.
    + split.
      * intros [= <-]. exists 0. rewrite Nat.add_0_r. repeat split; [lia| |done].
        intros j Hj. lia.
      * intros ([|k] & Hk & Htie & -> & Hne).
        -- by rewrite Nat.add_0_r.
        -- specialize (Htie 0 ltac:(lia)). rewrite Nat.add_0_r in Htie. lia.
Qed.

Lemma compare_numbering_Some aSegments bSegments :
  aSegments ≠ [] → bSegments ≠ [] →
  compare_numbering (Some aSegments) (Some bSegments) =
  match compare_loop aSegments bSegments 0
          (Nat.max (length aSegments) (length bSegments)) with
  | Some delta => delta
  | None => (Z.of_nat (length aSegments) - Z.of_nat (length bSegments))%Z
  end.
Proof. by destruct aSegments, bSegments. Qed.


(** ** NumberingCodec: the extraction *)

Lemma is_numbering_not_alpha c : Chars.is_numbering c = negb (Chars.is_alpha c).
Proof. destruct c as [[] [] [] [] [] [] [] []]; reflexivity. Qed.

Lemma is_sep_not_digit c :
  Chars.is_alpha c = false →
  Chars.is_nonword_or_underscore c = negb (Chars.is_digit c).
Proof. destruct c as [[] [] [] [] [] [] [] []]; done. Qed.

Lemma is_space_numbering c :
  Chars.is_space c = true → Chars.is_alpha c = false ∧ Chars.is_digit c = false.
Proof. destruct c as [[] [] [] [] [] [] [] []]; done. Qed.

Lemma take_run_ext cls1 cls2 s :
  (∀ c, cls1 c = cls2 c) → JsString.take_run cls1 s = JsString.take_run cls2 s.
Proof. intros H. induction s as [|c s IH]; simpl; [done|]. by rewrite H, IH. Qed.

Lemma take_run_Forall cls s : Forall (λ c, cls c = true) (JsString.take_run cls s).
Proof.
  induction s as [|c s IH]; simpl; [constructor|].
  destruct (cls c) eqn:Hc; [by constructor | constructor].
Qed.

Lemma take_run_all cls s :
  Forall (λ c, cls c = true) s → JsString.take_run cls s = s.
Proof. induction 1 as [|c s Hc _ IH]; simpl; [done|]. by rewrite Hc, IH. Qed.

Lemma take_drop_run cls s : JsString.take_run cls s ++ JsString.drop_run cls s = s.
Proof.
  induction s as [|c s IH]; simpl; [done|].
  destruct (cls c); simpl; [by rewrite IH | done].
Qed.

Lemma forallb_Forall_true (cls : ascii → bool) (l : str) :
  forallb cls l = true ↔ Forall (λ c, cls c = true) l.
Proof.
  induction l as [|c l IH]; simpl; [by split|].
  rewrite andb_true_iff, Forall_cons, IH. done.
Qed.

Lemma take_run_app cls r t :
  JsString.take_run cls (r ++ t) =
  if forallb cls r then r ++ JsString.take_run cls t else JsString.take_run cls r.
Proof.
  induction r as [|c r IH]; simpl; [done|].
  destruct (cls c); simpl; [|done]. rewrite IH. by destruct (forallb cls r).
Qed.

Lemma drop_run_head cls s c rest :
  JsString.drop_run cls s = c :: rest → cls c = false.
Proof.
  induction s as [|d s IH]; simpl; [done|].
  destruct (cls d) eqn:Hd; [done|]. by intros [= <- _].
Qed.

(** What [strip_right] removes is a run of the class at the end. *)
Lemma strip_right_split cls s :
  ∃ t, s = JsString.strip_right cls s ++ t ∧ Forall (λ c, cls c = true) t.
Proof.
  unfold JsString.strip_right.
  exists (reverse (JsString.take_run cls (reverse s))). split.
  - rewrite <- reverse_app, take_drop_run. by rewrite reverse_involutive.
  - rewrite Forall_reverse. apply take_run_Forall.
Qed.

(** What [strip_right] leaves does not end in the class. *)
Lemma strip_right_last cls s c :
  last (JsString.strip_right cls s) = Some c → cls c = false.
Proof.
  unfold JsString.strip_right. rewrite last_reverse.
  destruct (JsString.drop_run cls (reverse s)) as [|d rest] eqn:Hd; [done|].
  simpl. intros [= <-]. by eapply drop_run_head.
Qed.

Lemma strip_left_split cls s :
  ∃ t, s = t ++ JsString.strip_left cls s ∧ Forall (λ c, cls c = true) t.
Proof.
  exists (JsString.take_run cls s). split.
  - by rewrite take_drop_run.
  - apply take_run_Forall.
Qed.

Lemma digit_runs_from_nondigits cur t :
  Forall (λ c, Chars.is_digit c = false) t →
  digit_runs_from cur t = match cur with [] => [] | _ => [cur] end.
Proof.
  intros Ht. revert cur. induction Ht as [|c t Hc _ IH]; intros cur; simpl; [done|].
  rewrite Hc. destruct cur; by rewrite IH.
Qed.

Lemma digit_runs_from_app_nondigits cur s t :
  Forall (λ c, Chars.is_digit c = false) t →
  digit_runs_from cur (s ++ t) = digit_runs_from cur s.
Proof.
  intros Ht. revert cur. induction s as [|c s IH]; intros cur; simpl.
  - by apply digit_runs_from_nondigits.
  - destruct (Chars.is_digit c); [apply IH|]. destruct cur; by rewrite IH.
Qed.

Lemma digit_runs_nondigits_app t s :
  Forall (λ c, Chars.is_digit c = false) t →
  digit_runs (t ++ s) = digit_runs s.
Proof.
  unfold digit_runs. induction 1 as [|c t Hc _ IH]; simpl; [done|]. by rewrite Hc.
Qed.

Lemma digit_runs_from_tokens cur s token :
  Forall (λ c, Chars.is_digit c = true) cur →
  token ∈ digit_runs_from cur s →
  token ≠ [] ∧ Forall (λ c, Chars.is_digit c = true) token.
Proof.
  revert cur. induction s as [|c s IH]; intros cur Hcur; simpl.
  - destruct cur; [by intros ?%elem_of_nil|]. by intros ->%list_elem_of_singleton.
  - destruct (Chars.is_digit c) eqn:Hc.
    + apply IH. apply Forall_app; split; [done|]. by constructor.
    + destruct cur as [|d cur].
      * by apply IH.
      * intros [->|Hin]%elem_of_cons; [done|]. by apply (IH []).
Qed.

(** On a run without letters, splitting on [[\W_]+] and dropping the empty
    pieces gives the runs of digits. *)
Lemma split_loop_digit_runs s in_sep cur :
  Forall (λ c, Chars.is_alpha c = false) s →
  (in_sep = true → cur = []) →
  filter (λ token, token ≠ [])
         (JsString.split_loop Chars.is_nonword_or_underscore in_sep cur s)
  = digit_runs_from (reverse cur) s.
Proof.
  intros Hs. revert in_sep cur.
  induction Hs as [|c s Hc _ IH]; intros in_sep cur Hcur; simpl.
  - destruct (reverse cur) eqn:Hr.
    + by rewrite filter_cons_False by (by intros ?).
    + by rewrite filter_cons_True by done.
  - rewrite (is_sep_not_digit c Hc).
    destruct (Chars.is_digit c) eqn:Hd; simpl.
    + rewrite IH by done. by rewrite reverse_cons.
    + destruct in_sep.
      * rewrite (Hcur eq_refl). rewrite IH by done. done.
      * destruct (reverse cur) eqn:Hr.
        -- rewrite filter_cons_False by (by intros ?). by rewrite IH.
        -- rewrite filter_cons_True by done. by rewrite IH.
Qed.

Lemma digit_runs_leading_trim text :
  digit_runs (leading_run (JsString.trim text)) = digit_runs (leading_run text).
Proof.
  unfold JsString.trim, leading_run.
  set (N := λ c, negb (Chars.is_alpha c)).
  assert (HspN : ∀ t, Forall (λ c, Chars.is_space c = true) t →
                      Forall (λ c, N c = true) t).
  { intros t Ht. eapply Forall_impl; [exact Ht|].
    intros c [Hc _]%is_space_numbering. unfold N. by rewrite Hc. }
  assert (HspD : ∀ t, Forall (λ c, Chars.is_space c = true) t →
                      Forall (λ c, Chars.is_digit c = false) t).
  { intros t Ht. eapply Forall_impl; [exact Ht|].
    by intros c [_ Hc]%is_space_numbering. }
  destruct (strip_left_split Chars.is_space text) as (l & Hl & Hlsp).
  set (m := JsString.strip_left Chars.is_space text) in *.
  destruct (strip_right_split Chars.is_space m) as (t & Ht & Htsp).
  set (r := JsString.strip_right Chars.is_space m) in *.
  rewrite Hl, Ht. rewrite (take_run_app N l).
  rewrite (proj2 (forallb_Forall_true N l)) by by apply HspN.
  rewrite digit_runs_nondigits_app by by apply HspD.
  rewrite (take_run_app N r t).
  destruct (forallb N r) eqn:Hr; [|done].
  rewrite (take_run_all N t) by by apply HspN.
  unfold digit_runs. rewrite digit_runs_from_app_nondigits by by apply HspD.
  f_equal. apply take_run_all. by apply forallb_Forall_true.
Qed.

Lemma parseInt_zero rest : parseInt ("0"%char :: rest) = parseInt rest.
Proof. done. Qed.

Lemma strip_zeros_value token : parseInt (strip_zeros token) = parseInt token.
Proof.
  induction token as [|c [|d rest] IH]; simpl in *; try done.
  destruct (decide (c = "0"%char)) as [->|]; [|done].
  rewrite IH. by rewrite (parseInt_zero (d :: rest)).
Qed.


Lemma extractNumbering_tokens text :
  _extractNumbering (Some text) =
  match digit_runs (leading_run text) with
  | [] => None
  | tokens => Some (map (λ token, parseInt (strip_zeros token)) tokens)
  end.
Proof.
  rewrite <- digit_runs_leading_trim.
  unfold _extractNumbering, leading_run, JsString.match_leading, NUMBERING_PATTERN.
  simpl default.
  rewrite (take_run_ext Chars.is_numbering (λ c, negb (Chars.is_alpha c)))
    by apply is_numbering_not_alpha.
  destruct (JsString.trim text) as [|c0 text0] eqn:Htrim; [done|].
  cbn [JsString.truthy negb].
  set (run := JsString.take_run _ (c0 :: text0)).
  assert (Hrun : Forall (λ c, Chars.is_alpha c = false) run).
  { eapply Forall_impl; [apply take_run_Forall|].
    intros c; simpl. by destruct (Chars.is_alpha c). }
  destruct run as [|c1 run1] eqn:Erun; [done|].
  cbn [JsString.truthy negb]. unfold JsString.split.
  rewrite split_loop_digit_runs by done. unfold digit_runs.
  change (reverse []) with (@nil ascii).
  by destruct (digit_runs_from [] (c1 :: run1)).
Qed.


(** ** LabelFormatter *)

Lemma drop_run_all cls s :
  Forall (λ c, cls c = true) s → JsString.drop_run cls s = [].
Proof. induction 1 as [|c s Hc _ IH]; simpl; [done|]. by rewrite Hc. Qed.

Lemma trim_nil_iff s :
  JsString.trim s = [] ↔ Forall (λ c, Chars.is_space c = true) s.
Proof.
  unfold JsString.trim. split.
  - intros Htrim.
    destruct (strip_right_split Chars.is_space (JsString.strip_left Chars.is_space s))
      as (t & Ht & Hsp).
    rewrite Htrim in Ht. simpl in Ht.
    destruct (JsString.strip_left Chars.is_space s) as [|c rest] eqn:Hleft.
    + rewrite <- (take_drop_run Chars.is_space s).
      unfold JsString.strip_left in Hleft. rewrite Hleft, app_nil_r.
      apply take_run_Forall.
    + apply drop_run_head in Hleft. subst t.
      apply Forall_cons in Hsp as [Hc _]. congruence.
  - intros Hs. unfold JsString.strip_left. by rewrite drop_run_all.
Qed.




Example tidyUpLabel_separators :
  tidyUpLabel None (Some (lit "my-cool_topic")) true = Some (lit "My Cool Topic").
Proof. reflexivity. Qed.

Example tidyUpLabel_mixed_case :
  tidyUpLabel None (Some (lit "FAQ and Tips")) true = Some (lit "FAQ and Tips").
Proof. reflexivity. Qed.

(** ** PathLinker *)

Lemma replace_runs_no_class cls by_ in_run s :
  Forall (λ c, cls c = false) by_ →
  Forall (λ c, cls c = false) (JsString.replace_runs cls by_ in_run s).
Proof.
  intros Hby. revert in_run. induction s as [|c s IH]; intros in_run; simpl.
  - constructor.
  - destruct (cls c) eqn:Hc.
    + destruct in_run; [apply IH|]. apply Forall_app. split; [done | apply IH].
    + constructor; [done | apply IH].
Qed.

Lemma replace_runs_snoc cls by_ in_run s c :
  cls c = false →
  JsString.replace_runs cls by_ in_run (s ++ [c]) =
  JsString.replace_runs cls by_ in_run s ++ [c].
Proof.
  intros Hc. revert in_run. induction s as [|d s IH]; intros in_run; simpl.
  - by rewrite Hc.
  - destruct (cls d); [destruct in_run|]; rewrite IH; by rewrite ?app_assoc.
Qed.

Lemma replace_all_id cls by_ s :
  Forall (λ c, cls c = false) s → JsString.replace_all cls by_ s = s.
Proof.
  unfold JsString.replace_all.
  induction 1 as [|c s Hc _ IH]; simpl; [done|]. by rewrite Hc, IH.
Qed.

Lemma replace_all_head cls by_ s c :
  head s = Some c → cls c = false → head (JsString.replace_all cls by_ s) = Some c.
Proof.
  unfold JsString.replace_all.
  destruct s as [|d s]; simpl; [done|]. intros [= ->] Hc. by rewrite Hc.
Qed.

Lemma drop_run_id cls s c :
  head s = Some c → cls c = false → JsString.drop_run cls s = s.
Proof. destruct s as [|d s]; simpl; [done|]. intros [= ->] Hc. by rewrite Hc. Qed.

Lemma strip_right_id cls s c :
  last s = Some c → cls c = false → JsString.strip_right cls s = s.
Proof.
  intros Hlast Hc. unfold JsString.strip_right.
  rewrite (drop_run_id cls (reverse s) c); [by rewrite reverse_involutive | | done].
  rewrite <- last_reverse, reverse_involutive. done.
Qed.

(** A cleaned segment neither starts nor ends with a separator. *)
Lemma clean_segment_head segment c :
  head (clean_segment segment) = Some c → Chars.is_sep c = false.
Proof.
  unfold clean_segment.
  set (m := JsString.strip_left Chars.is_sep (JsString.trim segment)).
  destruct (strip_right_split Chars.is_sep m) as (t & Ht & _).
  destruct (JsString.strip_right Chars.is_sep m) as [|d r] eqn:Hr; [done|].
  simpl. intros [= ->]. simpl in Ht.
  unfold m, JsString.strip_left in Ht. by apply drop_run_head in Ht.
Qed.

Lemma clean_segment_last segment c :
  last (clean_segment segment) = Some c → Chars.is_sep c = false.
Proof. apply strip_right_last. Qed.

Lemma is_sep_backslash c : Chars.is_sep c = false → Chars.is_backslash c = false.
Proof. unfold Chars.is_sep. by destruct (Chars.is_backslash c). Qed.

Lemma is_sep_slash c : Chars.is_sep c = false → Chars.is_slash c = false.
Proof. unfold Chars.is_sep. by destruct (Chars.is_backslash c), (Chars.is_slash c). Qed.

Lemma slash_not_backslash : Forall (λ c, Chars.is_backslash c = false) (lit "/").
Proof. by repeat constructor. Qed.




Lemma makeRelUrl_folders Path fromPath toPath fileType :
  _makeRelUrl Path fromPath toPath fileType true =
  JsString.replace_all Chars.is_backslash (lit "/")
    (clean_segment (Path.relative Path (Path.dirname Path fromPath)
                      (Path.dirname Path toPath))).
Proof.
  unfold _makeRelUrl. fold (clean_segment
    (Path.relative Path (Path.dirname Path fromPath) (Path.dirname Path toPath))).
  by destruct (clean_segment _).
Qed.

Lemma drop_common_app (l extra : list str) :
  Posix.drop_common (l ++ extra) l = (extra, []).
Proof.
  induction l as [|a l IH]; simpl; [by destruct extra|].
  by rewrite bool_decide_eq_true_2.
Qed.

Lemma join_dots_clean (extra : list str) :
  extra ≠ [] →
  let up := JsString.join [Posix.slash] (map (λ _, [Posix.dot; Posix.dot]) extra) in
  up ≠ []
  ∧ JsString.replace_all Chars.is_backslash (lit "/") (clean_segment up) = up
  ∧ up ++ lit "/" = concat (map (λ _, lit "../") extra).
Proof.
  intros Hne. cbv zeta.
  set (up := JsString.join [Posix.slash] (map (λ _, [Posix.dot; Posix.dot]) extra)).
  assert (head up = Some Posix.dot ∧ last up = Some Posix.dot
          ∧ Forall (λ c, Chars.is_backslash c = false) up
          ∧ up ++ lit "/" = concat (map (λ _, lit "../") extra)) as (Hhead & Hlast & Hback & Hcat).
  { unfold up. clear up. induction extra as [|x extra IH]; [done|].
    destruct extra as [|y extra].
    { split; [done|]. split; [done|]. split; [by repeat constructor|done]. }
    destruct IH as (Hhead & Hlast & Hback & Hcat); [done|].
    change (JsString.join [Posix.slash]
              (map (λ _, [Posix.dot; Posix.dot]) (x :: y :: extra)))
      with ([Posix.dot; Posix.dot; Posix.slash]
            ++ JsString.join [Posix.slash]
                 (map (λ _, [Posix.dot; Posix.dot]) (y :: extra))).
    set (rest := JsString.join [Posix.slash]
                   (map (λ _, [Posix.dot; Posix.dot]) (y :: extra))) in *.
    split; [done|]. split.
    - rewrite last_app, Hlast. done.
    - split; [by repeat constructor|].
      rewrite <- app_assoc, Hcat. done. }
  split; [by destruct up|].
  split; [|done].
  unfold clean_segment, JsString.trim, JsString.strip_left.
  rewrite (drop_run_id Chars.is_space up Posix.dot) by done.
  rewrite (strip_right_id Chars.is_space up Posix.dot) by done.
  rewrite (drop_run_id Chars.is_sep up Posix.dot) by done.
  rewrite (strip_right_id Chars.is_sep up Posix.dot) by done.
  by apply replace_all_id.
Qed.

(** C10. [getRootDirPathFor] returns the empty string when the index is
    empty and when the document lies in the root folder itself; else, when
    the path the host gives from the parent of the document's folder to the
    parent of the root is ASCII text, that path cleaned (trimmed, without
    separators at its ends, backslashes turned into slashes) followed by a
    slash, or the empty string when nothing is left of it.  Whatever it
    returns is empty or ends in exactly one slash, holds no backslash and
    does not start with a separator.  Under POSIX it is [../] once for each
    level that the document's folder lies below the root folder:
    [../../] for a document in [/root/a/2 b]. *)
Theorem getRootDirPathFor_shape (Path : Path.module) (p : str) (s : State) :
  let result := getRootDirPathFor Path p s in
  (_flatCompilationsList s = [] → result = [])
  ∧ (∀ root rest,
       _flatCompilationsList s = root :: rest →
       Path.dirname Path p = filePath root →
       (∀ x, Path.relative Path x x = []) →
       result = [])
  ∧ (∀ root rest,
       _flatCompilationsList s = root :: rest →
       let relPath :=
         Path.relative Path (Path.dirname Path (Path.dirname Path p))
           (Path.dirname Path (filePath root)) in
       JsString.ascii_text relPath →
       let prefix :=
         JsString.replace_all Chars.is_backslash (lit "/") (clean_segment relPath) in
       result = if JsString.truthy prefix then prefix ++ lit "/" else [])
  ∧ (result = []
     ∨ ∃ pre c, result = pre ++ [c] ++ lit "/" ∧ Chars.is_slash c = false)
  ∧ Forall (λ c, Chars.is_backslash c = false) result
  ∧ (∀ c, head result = Some c → Chars.is_sep c = false)
  ∧ (∀ cwd root rest extra,
       _flatCompilationsList s = root :: rest →
       extra ≠ [] →
       Posix.resolve_components cwd (Posix.dirname (Posix.dirname p))
       = Posix.resolve_components cwd (Posix.dirname (filePath root)) ++ extra →
       getRootDirPathFor (Posix.path cwd) p s = concat (map (λ _, lit "../") extra))
  ∧ getRootDirPathFor (Posix.path (lit "/")) (lit "/root/a/2 b/2 y.txt")
      Sample.with_assets = lit "../../"
  ∧ getRootDirPathFor (Posix.path (lit "/")) (lit "/root/assets/notes.txt")
      Sample.with_assets = lit "../"
  ∧ getRootDirPathFor (Posix.path (lit "/")) (lit "/root/1 A.txt")
      Sample.with_assets = [].
Proof.
  cbv zeta.
  assert (Hposix : ∀ cwd root rest extra,
            _flatCompilationsList s = root :: rest →
            extra ≠ [] →
            Posix.resolve_components cwd (Posix.dirname (Posix.dirname p))
            = Posix.resolve_components cwd (Posix.dirname (filePath root)) ++ extra →
            getRootDirPathFor (Posix.path cwd) p s
            = concat (map (λ _, lit "../") extra)).
  { intros cwd root rest extra Hflat Hextra Hcomps.
    unfold getRootDirPathFor. rewrite Hflat. rewrite makeRelUrl_folders.
    change (Path.relative (Posix.path cwd)) with (Posix.relative cwd).
    change (Path.dirname (Posix.path cwd)) with Posix.dirname.
    unfold Posix.relative.
    rewrite bool_decide_eq_false_2.
    2:{ intros Heq. rewrite Heq in Hcomps.
        apply (f_equal length) in Hcomps. rewrite length_app in Hcomps.
        destruct extra; [done|]. simpl in Hcomps. lia. }
    rewrite Hcomps, drop_common_app, app_nil_r.
    destruct (join_dots_clean extra Hextra) as (Hne & -> & <-).
    by destruct (JsString.join _ _). }
  unfold getRootDirPathFor.
  destruct (_flatCompilationsList s) as [|root rest] eqn:Hflat.
  { split; [done|]. split; [done|]. split; [done|]. split; [by left|].
    split; [constructor|]. split; [done|]. split; [done|]. by vm_compute. }
  rewrite makeRelUrl_folders.
  set (rel := clean_segment _).
  split; [done|]. split.
  { intros root' rest' [= <- <-] Hdir Hrefl. unfold rel.
    rewrite Hdir, Hrefl. done. }
  split.
  { by intros root' rest' [= <- <-] _. }
  split.
  { destruct (last rel) as [c|] eqn:Hlast.
    + right. pose proof (clean_segment_last _ _ Hlast) as Hc.
      apply last_Some in Hlast as [body ->].
      unfold JsString.replace_all.
      rewrite replace_runs_snoc by by apply is_sep_backslash.
      exists (JsString.replace_runs Chars.is_backslash (lit "/") false body), c.
      split; [|by apply is_sep_slash].
      destruct (JsString.replace_runs _ _ _ body); simpl; by rewrite <- ?app_assoc.
    + left. apply last_None in Hlast. by rewrite Hlast. }
  split.
  { destruct (JsString.truthy _); [|constructor].
    apply Forall_app. split; [|by repeat constructor].
    apply replace_runs_no_class, slash_not_backslash. }
  split.
  { intros c. destruct rel as [|d rel'] eqn:Hrel; [done|].
    pose proof (clean_segment_head _ d ltac:(by unfold rel in Hrel; rewrite Hrel)) as Hd.
    pose proof (replace_all_head Chars.is_backslash (lit "/") (d :: rel') d eq_refl
                  (is_sep_backslash _ Hd)) as Hhead.
    destruct (JsString.replace_all Chars.is_backslash (lit "/") (d :: rel'))
      as [|d' prefix]; [done|].
    simpl in *. injection Hhead as ->. by intros [= <-]. }
  split; [|by vm_compute].
  intros cwd root' rest' extra [= <- <-] Hextra Hcomps.
  rewrite <- (Hposix cwd root rest extra eq_refl Hextra Hcomps).
  unfold getRootDirPathFor. rewrite Hflat. by rewrite makeRelUrl_folders.
Qed.

(** ** DocumentIndex: the index is sealed *)

Lemma mark_exclusions_sealed Path fuel skipped s o :
  mark_exclusions Path fuel skipped s = Some o →
  _isIndexSealed (state_of o) = _isIndexSealed s.
Proof.
  unfold mark_exclusions. intros H.
  destruct skipped as [[|p skipped]|]; try by injection H as <-.
  destruct (_flatCompilationsList s !! 0); [|by injection H as <-].
  destruct (collect_all _ _ _ _ _) as [[|folder folders]|]; [| |done];
    by injection H as <-.
Qed.

Lemma buildIndex_seals Path fuel skipped s o :
  buildIndex Path fuel skipped s = Some o → _isIndexSealed (state_of o) = true.
Proof.
  unfold buildIndex. intros H.
  destruct (mark_exclusions _ _ _ _) as [[s1|e s1]|] eqn:Hmark; [| |done].
  - apply mark_exclusions_sealed in Hmark. simpl in Hmark.
    destruct (promote _ _ _ _) as [[flat queue]|]; [|done].
    by injection H as <-.
  - apply mark_exclusions_sealed in Hmark. by injection H as <-.
Qed.

(** C6. Once [buildIndex] has been called, however it ended, every call of
    [addRootToIndex], [addDirectoryToIndex] and [addFileToIndex] throws the
    error of the sealed index and leaves the state of the engine as it
    was. *)
Theorem insertion_after_buildIndex_fails (Path : Path.module)
    (optionsData : option Options) (fuel : nat) (skipped : option (list str))
    (s : State) (o : Outcome) :
  buildIndex Path fuel skipped s = Some o →
  let sealed := state_of o in
  (∀ rootPath rootName rootCtime rootMTime,
     addRootToIndex optionsData rootPath rootName rootCtime rootMTime sealed
     = Thrown IndexSealedError sealed)
  ∧ (∀ dirPath dirName dirCtime dirMTime,
       addDirectoryToIndex Path optionsData dirPath dirName dirCtime dirMTime sealed
       = Thrown IndexSealedError sealed)
  ∧ (∀ filePath fileName fileExtension fileCTime fileMTime fileHeader,
       addFileToIndex Path optionsData filePath fileName fileExtension
         fileCTime fileMTime fileHeader sealed
       = Thrown IndexSealedError sealed).
Proof.
  intros Hbuilt sealed.
  pose proof (buildIndex_seals _ _ _ _ _ Hbuilt) as Hsealed. fold sealed in Hsealed.
  unfold addRootToIndex, addDirectoryToIndex, addFileToIndex.
  rewrite Hsealed. done.
Qed.

Lemma insertion_after_buildIndex_fails_witness :
  let sealed := Sample.with_assets_built in
  (∀ rootPath rootName rootCtime rootMTime,
     addRootToIndex None rootPath rootName rootCtime rootMTime sealed
     = Thrown IndexSealedError sealed)
  ∧ (∀ dirPath dirName dirCtime dirMTime,
       addDirectoryToIndex Sample.Path None dirPath dirName dirCtime dirMTime sealed
       = Thrown IndexSealedError sealed)
  ∧ (∀ filePath fileName fileExtension fileCTime fileMTime fileHeader,
       addFileToIndex Sample.Path None filePath fileName fileExtension
         fileCTime fileMTime fileHeader sealed
       = Thrown IndexSealedError sealed).
Proof.
  apply (insertion_after_buildIndex_fails Sample.Path None 10
           (Some Sample.skipped_assets) Sample.with_assets
           (Returned Sample.with_assets_built)).
  vm_compute. reflexivity.
Defined.

(** ** HierarchyResolver: the promotion pass *)

(** More fuel does not change what a loop returns. *)
Lemma scan_group_fuel fuel fuel' owner i flat queue result :
  scan_group fuel owner i flat queue = Some result →
  fuel ≤ fuel' →
  scan_group fuel' owner i flat queue = Some result.
Proof.
  revert fuel' i flat queue.
  induction fuel as [|fuel IH]; intros fuel' i flat queue; [done|].
  destruct fuel' as [|fuel']; [lia|]. intros H Hle. simpl in *.
  destruct (scan_step owner i flat queue) as [[i1 flat1] queue1].
  destruct (_ <? _); [|done]. apply IH; [done | lia].
Qed.

Lemma scan_group_deterministic fuel1 fuel2 owner i flat queue result1 result2 :
  scan_group fuel1 owner i flat queue = Some result1 →
  scan_group fuel2 owner i flat queue = Some result2 →
  result1 = result2.
Proof.
  intros H1 H2. destruct (Nat.le_ge_cases fuel1 fuel2) as [Hle|Hle].
  - apply (scan_group_fuel _ _ _ _ _ _ _ H1) in Hle. congruence.
  - apply (scan_group_fuel _ _ _ _ _ _ _ H2) in Hle. congruence.
Qed.

Lemma promote_fuel fuel fuel' inner inner' flat queue result :
  promote fuel inner flat queue = Some result →
  fuel ≤ fuel' → inner ≤ inner' →
  promote fuel' inner' flat queue = Some result.
Proof.
  revert fuel' flat queue.
  induction fuel as [|fuel IH]; intros fuel' flat queue; [done|].
  destruct fuel' as [|fuel']; [lia|]. intros H Hle Hin. simpl in *.
  destruct queue as [|owner queue]; [done|].
  destruct (scan_group inner owner 0 flat queue) as [[flat1 queue1]|] eqn:Hscan; [|done].
  rewrite (scan_group_fuel _ _ _ _ _ _ _ Hscan Hin).
  apply IH; [done | lia | done].
Qed.

(** Taking the groups from the front of the queue is one of the orders. *)
Lemma promote_is_promote_any fuel inner flat queue flat' queue' :
  promote fuel inner flat queue = Some (flat', queue') →
  promote_any flat queue flat' ∧ queue' = [].
Proof.
  revert flat queue. induction fuel as [|fuel IH]; intros flat queue; [done|].
  simpl. destruct queue as [|owner queue].
  - intros [= <- <-]. split; [constructor | done].
  - destruct (scan_group inner owner 0 flat queue) as [[flat1 queue1]|] eqn:Hscan; [|done].
    intros [Hany ->]%IH. split; [|done].
    by apply (promote_any_step inner flat [] owner queue flat1 queue1).
Qed.

Lemma promote_any_nil flat final : promote_any flat [] final → final = flat.
Proof.
  intros Hany.
  inversion Hany as [|fuel0 flat00 before owner0 after flat0 queue0 final0 Hscan0 Hrest Hflat Heq Hfinal];
    [done|]. by destruct before.
Qed.

Lemma promote_any_singleton fuel flat owner flat' queue' final :
  scan_group fuel owner 0 flat [] = Some (flat', queue') →
  promote_any flat [owner] final →
  promote_any flat' queue' final.
Proof.
  intros Hscan Hany.
  inversion Hany as [|fuel0 flat00 before owner0 after flat0 queue0 final0 Hscan0 Hrest Hflat Heq Hfinal].
  destruct before as [|b before].
  - simpl in Heq. injection Heq as -> ->. simpl in Hscan0.
    pose proof (scan_group_deterministic _ _ _ _ _ _ _ _ Hscan Hscan0) as [= -> ->].
    done.
  - injection Heq as _ Heq. by destruct before.
Qed.

(** C1. The flat group "1 A", "1.1 B", "1.1.1 C", "2 D" under one root
    finalizes to the root holding A and D, A holding B, and B holding C, and
    to the same tree in whatever order the groups of the work queue are
    processed. *)
Theorem flat_group_collapses :
  let s := Sample.flat_group in
  let built := Sample.flat_group_built in
  map fileName (_flatCompilationsList s)
    = [lit "r"; lit "1 A"; lit "1.1 B"; lit "1.1.1 C"; lit "2 D"]
  ∧ map numbering (_flatCompilationsList s)
    = [None; Some [1]; Some [1; 1]; Some [1; 1; 1]; Some [2]]%Z
  ∧ map children (_flatCompilationsList s) = [Some [1; 2; 3; 4]; None; None; None; None]
  ∧ (∀ fuel, 4 ≤ fuel → buildIndex Sample.Path fuel None s = Some (Returned built))
  ∧ _abstractNavigationTree built = [0]
  ∧ map children (_flatCompilationsList built)
    = [Some [1; 4]; Some [2]; Some [3]; None; None]
  ∧ (∀ final,
       promote_any (sort_groups (_rawGroups s) (_flatCompilationsList s))
                   (_rawGroups s) final →
       final = _flatCompilationsList built).
Proof.
  cbv zeta. split; [done|]. split; [done|]. split; [done|]. split; [|split; [done|split; [done|]]].
  - intros fuel Hfuel. unfold buildIndex.
    assert (Hpromote : promote 4 4
              (sort_groups (_rawGroups (seal Sample.flat_group))
                 (_flatCompilationsList (seal Sample.flat_group)))
              (_rawGroups (seal Sample.flat_group))
            = Some (_flatCompilationsList Sample.flat_group_built, []))
      by (vm_compute; reflexivity).
    apply (promote_fuel _ fuel _ fuel) in Hpromote; [|done..].
    cbn [mark_exclusions]. rewrite Hpromote. by vm_compute.
  - intros final Hany.
    set (sorted := sort_groups _ _) in Hany.
    change (_rawGroups Sample.flat_group) with [0] in Hany.
    destruct (scan_group 5 0 0 sorted []) as [[flat1 queue1]|] eqn:Hscan1;
      [|by vm_compute in Hscan1].
    apply (promote_any_singleton _ _ _ _ _ _ Hscan1) in Hany.
    vm_compute in Hscan1. injection Hscan1 as <- <-.
    match type of Hany with promote_any ?flat [?o] _ =>
      destruct (scan_group 5 o 0 flat []) as [[flat2 queue2]|] eqn:Hscan2;
        [|by vm_compute in Hscan2] end.
    apply (promote_any_singleton _ _ _ _ _ _ Hscan2) in Hany.
    vm_compute in Hscan2. injection Hscan2 as <- <-.
    match type of Hany with promote_any ?flat [?o] _ =>
      destruct (scan_group 5 o 0 flat []) as [[flat3 queue3]|] eqn:Hscan3;
        [|by vm_compute in Hscan3] end.
    apply (promote_any_singleton _ _ _ _ _ _ Hscan3) in Hany.
    vm_compute in Hscan3. injection Hscan3 as <- <-.
    apply promote_any_nil in Hany. subst final. by vm_compute.
Qed.

(** ** The host's sort *)

Section SortFacts.
Context {A : Type} (cmp : A → A → Z).

Lemma insert_Permutation x l : JsArray.insert cmp x l ≡ₚ x :: l.
Proof.
  induction l as [|y l IH]; simpl; [done|].
  destruct (cmp y x <? 0)%Z; [|done]. rewrite IH. apply Permutation_swap.
Qed.

Lemma sort_Permutation l : JsArray.sort cmp l ≡ₚ l.
Proof.
  induction l as [|x l IH]; simpl; [done|]. by rewrite insert_Permutation, IH.
Qed.

Lemma elem_of_sort x l : x ∈ JsArray.sort cmp l ↔ x ∈ l.
Proof. by rewrite sort_Permutation. Qed.

(** The sort is stable in a sense that asks nothing of the comparator: an
    element stands before another only if it did so in the input or it
    compares strictly less. *)
Lemma insert_stable (before : A → A → Prop) x l :
  Forall (before x) l →
  StronglySorted (λ a b, before a b ∨ (cmp a b < 0)%Z) l →
  StronglySorted (λ a b, before a b ∨ (cmp a b < 0)%Z) (JsArray.insert cmp x l).
Proof.
  induction l as [|y l IH]; simpl; intros Hx Hl.
  - repeat constructor.
  - apply Forall_cons in Hx as [Hxy Hxl].
    apply StronglySorted_cons in Hl as [Hyl Hl].
    destruct (Z.ltb_spec (cmp y x) 0) as [Hlt|Hge].
    + apply StronglySorted_cons. split; [|by apply IH].
      rewrite insert_Permutation. constructor; [by right | done].
    + apply StronglySorted_cons. split.
      * constructor; [by left|]. eapply Forall_impl; [exact Hxl|]. by left.
      * by apply StronglySorted_cons.
Qed.

Lemma sort_stable (before : A → A → Prop) l :
  StronglySorted before l →
  StronglySorted (λ a b, before a b ∨ (cmp a b < 0)%Z) (JsArray.sort cmp l).
Proof.
  induction l as [|x l IH]; simpl; intros Hl; [constructor|].
  apply StronglySorted_cons in Hl as [Hxl Hl].
  apply insert_stable; [|by apply IH]. by rewrite sort_Permutation.
Qed.

(** On elements the comparator orders consistently, the result is sorted. *)
Lemma insert_sorted (P : A → Prop) x l :
  (∀ a b, P a → P b → (0 ≤ cmp b a)%Z → (cmp a b ≤ 0)%Z) →
  (∀ a b c, P a → P b → P c →
            (cmp a b ≤ 0)%Z → (cmp b c ≤ 0)%Z → (cmp a c ≤ 0)%Z) →
  P x → Forall P l →
  StronglySorted (λ a b, (cmp a b ≤ 0)%Z) l →
  StronglySorted (λ a b, (cmp a b ≤ 0)%Z) (JsArray.insert cmp x l).
Proof.
  intros Hanti Htrans Hx.
  induction l as [|y l IH]; simpl; intros HP Hl.
  - repeat constructor.
  - apply Forall_cons in HP as [Hy HP].
    apply StronglySorted_cons in Hl as [Hyl Hl].
    destruct (Z.ltb_spec (cmp y x) 0) as [Hlt|Hge].
    + apply StronglySorted_cons. split; [|by apply IH].
      rewrite insert_Permutation. constructor; [lia | done].
    + assert (Hxy : (cmp x y ≤ 0)%Z) by by apply Hanti.
      apply StronglySorted_cons. split; [|by apply StronglySorted_cons].
      constructor; [done|].
      rewrite Forall_forall in Hyl, HP. apply Forall_forall. intros z Hz.
      apply (Htrans x y z); auto.
Qed.

Lemma sort_sorted (P : A → Prop) l :
  (∀ a b, P a → P b → (0 ≤ cmp b a)%Z → (cmp a b ≤ 0)%Z) →
  (∀ a b c, P a → P b → P c →
            (cmp a b ≤ 0)%Z → (cmp b c ≤ 0)%Z → (cmp a c ≤ 0)%Z) →
  Forall P l →
  StronglySorted (λ a b, (cmp a b ≤ 0)%Z) (JsArray.sort cmp l).
Proof.
  intros Hanti Htrans. induction l as [|x l IH]; simpl; intros HP; [constructor|].
  apply Forall_cons in HP as [Hx HP].
  apply (insert_sorted P); auto. by rewrite sort_Permutation.
Qed.

Lemma sort_ext (cmp' : A → A → Z) l :
  (∀ a b, cmp a b = cmp' a b) → JsArray.sort cmp l = JsArray.sort cmp' l.
Proof.
  intros Hext. induction l as [|x l IH]; simpl; [done|]. rewrite IH.
  generalize (JsArray.sort cmp' l). intros k.
  induction k as [|y k IHk]; simpl; [done|]. by rewrite Hext, IHk.
Qed.

End SortFacts.

Lemma StronglySorted_sublist {A} (R : A → A → Prop) l k :
  l `sublist_of` k → StronglySorted R k → StronglySorted R l.
Proof.
  induction 1 as [|x l k Hsub IH|x l k Hsub IH]; intros Hk; [done| |].
  - apply StronglySorted_cons in Hk as [Hx Hk].
    apply StronglySorted_cons. split; [|by apply IH].
    rewrite Forall_forall in Hx. apply Forall_forall. intros y Hy.
    apply Hx. by eapply elem_of_sublist.
  - apply StronglySorted_cons in Hk as [_ Hk]. by apply IH.
Qed.

Lemma StronglySorted_lookup {A} (R : A → A → Prop) l i j x y :
  StronglySorted R l → i < j → l !! i = Some x → l !! j = Some y → R x y.
Proof.
  intros Hl. revert i j. induction Hl as [|z l Hl IH Hz]; intros i j Hij Hi Hj; [done|].
  destruct j as [|j]; [lia|]. destruct i as [|i]; simpl in *.
  - injection Hi as ->. rewrite Forall_forall in Hz. apply Hz.
    by eapply list_elem_of_lookup_2.
  - apply (IH i j); [lia | done..].
Qed.

Lemma StronglySorted_lt_NoDup (l : list nat) : StronglySorted lt l → NoDup l.
Proof.
  induction 1 as [|x l Hl IH Hx]; constructor; [|done].
  intros Hin. rewrite Forall_forall in Hx. specialize (Hx x Hin). lia.
Qed.

(** ** The comparator orders the numbered units *)

Lemma segment_at_ge (segments : list Z) i :
  length segments ≤ i → segment_at segments i = 0%Z.
Proof. intros Hi. unfold segment_at. by rewrite lookup_ge_None_2. Qed.

Lemma compare_numbering_antisym a b :
  compare_numbering b a = (- compare_numbering a b)%Z.
Proof.
  destruct a as [[|a0 a]|], b as [[|b0 b]|]; try done.
  rewrite !compare_numbering_Some by done.
  rewrite (Nat.max_comm (length (b0 :: b))).
  destruct (compare_loop (a0 :: a) _ _ _) as [d|] eqn:Hab.
  - apply compare_loop_Some in Hab as (k & Hk & Htie & -> & Hne).
    assert (compare_loop (b0 :: b) (a0 :: a) 0
              (Nat.max (length (a0 :: a)) (length (b0 :: b)))
            = Some (segment_at (b0 :: b) (0 + k) - segment_at (a0 :: a) (0 + k))%Z)
      as ->; [|lia].
    apply compare_loop_Some. exists k. repeat split; [done| |lia].
    intros j Hj. by rewrite Htie.
  - rewrite compare_loop_None in Hab.
    assert (compare_loop (b0 :: b) (a0 :: a) 0
              (Nat.max (length (a0 :: a)) (length (b0 :: b))) = None) as ->; [|lia].
    apply compare_loop_None. intros k Hk. by rewrite Hab.
Qed.

(** [a] is below [b] in the order of the comparator: the elements, padded
    with 0, differ first where [a] has the smaller one, or they all agree
    and [a] is not the longer. *)
Lemma compare_numbering_le a b :
  a ≠ [] → b ≠ [] →
  (compare_numbering (Some a) (Some b) ≤ 0)%Z ↔
  (∃ k, (∀ j, j < k → segment_at a j = segment_at b j)
        ∧ (segment_at a k < segment_at b k)%Z)
  ∨ ((∀ k, segment_at a k = segment_at b k) ∧ length a ≤ length b).
Proof.
  intros Ha Hb. rewrite compare_numbering_Some by done.
  destruct (compare_loop a b 0 _) as [d|] eqn:Hloop.
  - apply compare_loop_Some in Hloop as (k & Hk & Htie & -> & Hne). simpl in *.
    split.
    + intros Hle. left. exists k. split; [done | lia].
    + intros [(k' & Htie' & Hlt) | [Heq _]].
      * destruct (Nat.lt_trichotomy k k') as [Hkk | [-> | Hkk]].
        -- specialize (Htie' k Hkk). lia.
        -- lia.
        -- specialize (Htie k' Hkk). lia.
      * specialize (Heq k). lia.
  - rewrite compare_loop_None in Hloop. simpl in Hloop.
    assert (Hall : ∀ k, segment_at a k = segment_at b k).
    { intros k. destruct (Nat.lt_ge_cases k (Nat.max (length a) (length b))) as [Hk|Hk].
      - by apply Hloop.
      - rewrite !segment_at_ge by lia. done. }
    split.
    + intros Hle. right. split; [done | lia].
    + intros [(k & _ & Hlt) | [_ Hlen]]; [specialize (Hall k); lia | lia].
Qed.

Lemma compare_numbering_trans a b c :
  a ≠ [] → b ≠ [] → c ≠ [] →
  (compare_numbering (Some a) (Some b) ≤ 0)%Z →
  (compare_numbering (Some b) (Some c) ≤ 0)%Z →
  (compare_numbering (Some a) (Some c) ≤ 0)%Z.
Proof.
  intros Ha Hb Hc. rewrite !compare_numbering_le by done.
  intros [(k1 & Htie1 & Hlt1) | [Heq1 Hlen1]] [(k2 & Htie2 & Hlt2) | [Heq2 Hlen2]].
  - left. destruct (Nat.lt_trichotomy k1 k2) as [Hk | [-> | Hk]].
    + exists k1. split; [|rewrite <- (Htie2 k1 Hk); done].
      intros j Hj. rewrite Htie1 by done. apply Htie2. lia.
    + exists k2. split; [|lia]. intros j Hj. rewrite Htie1 by done. by apply Htie2.
    + exists k2. split; [|rewrite (Htie1 k2 Hk); done].
      intros j Hj. rewrite Htie1 by lia. by apply Htie2.
  - left. exists k1. split; [|by rewrite <- Heq2].
    intros j Hj. rewrite <- Heq2. by apply Htie1.
  - left. exists k2. split; [|by rewrite Heq1].
    intros j Hj. rewrite Heq1. by apply Htie2.
  - right. split; [|lia]. intros k. by rewrite Heq1.
Qed.

(** ** Reading and writing the store *)

Lemma unit_at_ge flat i : length flat ≤ i → unit_at flat i = no_unit.
Proof.
  intros Hi. unfold unit_at. rewrite list_lookup_total_alt.
  by rewrite lookup_ge_None_2.
Qed.

Lemma children_at_lt flat o c : children_at flat o = Some c → o < length flat.
Proof.
  unfold children_at. intros H.
  destruct (Nat.lt_ge_cases o (length flat)) as [|Hge]; [done|].
  by rewrite unit_at_ge in H.
Qed.

Lemma unit_at_alter f flat i j :
  i < length flat →
  unit_at (alter f i flat) j = if decide (j = i) then f (unit_at flat i) else unit_at flat j.
Proof.
  intros Hi. unfold unit_at. destruct (decide (j = i)) as [->|Hne].
  - by apply list_lookup_total_alter_eq.
  - by apply list_lookup_total_alter_ne.
Qed.

Lemma children_at_alter f flat i j :
  i < length flat →
  children_at (alter f i flat) j =
  if decide (j = i) then children (f (unit_at flat i)) else children_at flat j.
Proof.
  intros Hi. unfold children_at. rewrite unit_at_alter by done.
  by destruct (decide (j = i)).
Qed.

Lemma group_of_Some flat o c : children_at flat o = Some c → group_of flat o = c.
Proof. unfold group_of, children_at. by intros ->. Qed.

Lemma group_of_None flat o : children_at flat o = None → group_of flat o = [].
Proof. unfold group_of, children_at. by intros ->. Qed.

Lemma static_fmap_alter f i (flat : list Unit) :
  (∀ u, static (f u) = static u) → static <$> alter f i flat = static <$> flat.
Proof.
  intros Hf. revert i. induction flat as [|u flat IH]; intros [|i]; simpl; [done..| |].
  - by rewrite Hf.
  - f_equal. apply IH.
Qed.

Lemma static_unit_at (flat flat0 : list Unit) i :
  static <$> flat = static <$> flat0 →
  static (unit_at flat i) = static (unit_at flat0 i).
Proof.
  intros Heq.
  assert (Hlen : length flat = length flat0).
  { by rewrite <- (length_fmap static flat), Heq, length_fmap. }
  destruct (Nat.lt_ge_cases i (length flat)) as [Hi|Hi].
  - unfold unit_at.
    rewrite <- !(list_lookup_total_fmap static) by lia. by rewrite Heq.
  - rewrite !unit_at_ge by lia. done.
Qed.

Lemma can_promote_static u : can_promote (static u) = can_promote u.
Proof. done. Qed.

Lemma can_promote_unit_at (flat flat0 : list Unit) i :
  static <$> flat = static <$> flat0 →
  can_promote (unit_at flat i) = can_promote (unit_at flat0 i).
Proof.
  intros Heq. rewrite <- (can_promote_static (unit_at flat i)).
  by rewrite (static_unit_at _ _ _ Heq).
Qed.

Lemma compare_refs_static (flat flat0 : list Unit) x y :
  static <$> flat = static <$> flat0 →
  compare_refs flat x y = compare_refs flat0 x y.
Proof.
  intros Heq. unfold compare_refs, _multiPartComparison.
  change (numbering (unit_at flat x)) with (numbering (static (unit_at flat x))).
  change (numbering (unit_at flat y)) with (numbering (static (unit_at flat y))).
  by rewrite !(static_unit_at _ _ _ Heq).
Qed.

Lemma must_promote_can unit prevUnit :
  must_promote unit prevUnit = true →
  can_promote unit = true ∧ can_promote prevUnit = true.
Proof.
  unfold must_promote, can_promote.
  destruct (numbering unit), (numbering prevUnit);
    destruct (bool_decide (fileExtension unit = DIR)),
             (bool_decide (fileExtension prevUnit = DIR)); simpl; done.
Qed.

Lemma leaves_alter f i (flat : list Unit) :
  (children (f (unit_at flat i)) = None ↔ children_at flat i = None) →
  leaves (alter f i flat) = leaves flat.
Proof.
  unfold leaves, children_at, unit_at. revert i.
  induction flat as [|u flat IH]; intros [|i] Hf; simpl in *; [done..| |].
  - rewrite !filter_cons. destruct (decide (children (f u) = None)) as [H1|H1],
      (decide (children u = None)) as [H2|H2]; simpl; try done; tauto.
  - rewrite !filter_cons. destruct (decide (children u = None)); simpl;
      [f_equal|]; by apply IH.
Qed.

Lemma leaves_alter_fill c i (flat : list Unit) :
  i < length flat → children_at flat i = None →
  S (leaves (alter (set_children c) i flat)) = leaves flat.
Proof.
  unfold leaves, children_at, unit_at. revert i.
  induction flat as [|u flat IH]; intros [|i] Hi Hnone; simpl in *; try lia.
  - rewrite !filter_cons. simpl. rewrite decide_True by done. done.
  - rewrite !filter_cons. destruct (decide (children u = None)); simpl;
      [f_equal|]; apply IH; (done || lia).
Qed.

Lemma static_set_children c u : static (set_children c u) = static u.
Proof. done. Qed.
Lemma static_set_isNode b u : static (set_isNode b u) = static u.
Proof. done. Qed.
Lemma static_push_child x u : static (push_child x u) = static u.
Proof. unfold push_child. by destruct (children u). Qed.
Lemma static_set_mustExclude_fields b u :
  filePath (set_mustExclude b u) = filePath u
  ∧ numbering (set_mustExclude b u) = numbering u
  ∧ fileExtension (set_mustExclude b u) = fileExtension u
  ∧ children (set_mustExclude b u) = children u.
Proof. done. Qed.

Lemma children_push_child x u c :
  children u = Some c → children (push_child x u) = Some (c ++ [x]).
Proof. unfold push_child. by intros ->. Qed.

(** What one promotion does to the store: the unit [x] at index [i] of the
    group of [owner] leaves it and becomes the last child of [p], the unit
    before it; nothing else changes but the links of [p]. *)
Lemma scan_step_promote owner i flat queue g x p :
  children_at flat owner = Some g →
  1 ≤ i → g !! i = Some x → g !! (i - 1) = Some p →
  must_promote (unit_at flat x) (unit_at flat p) = true →
  p ≠ owner → p < length flat →
  ∃ flat' queue',
    scan_step owner i flat queue = (i, flat', queue')
    ∧ static <$> flat' = static <$> flat
    ∧ (∀ o', children_at flat' o' =
             if decide (o' = owner) then Some (delete i g)
             else if decide (o' = p) then Some (group_of flat p ++ [x])
             else children_at flat o')
    ∧ queue' = match children_at flat p with Some _ => queue | None => queue ++ [p] end
    ∧ length queue' + leaves flat' = length queue + leaves flat.
Proof.
  intros Hg Hi Hx Hp Hmust Hpo Hplt.
  pose proof (children_at_lt _ _ _ Hg) as Holt.
  unfold scan_step. rewrite (group_of_Some _ _ _ Hg).
  rewrite (list_lookup_total_correct _ _ _ Hx), (list_lookup_total_correct _ _ _ Hp).
  rewrite Hmust. replace (0 <? i) with true by (symmetry; apply Nat.ltb_lt; lia).
  cbn [andb].
  set (pc := group_of flat p).
  (* the store once [p] is sure to hold an array *)
  set (st1 := match children (unit_at flat p) with
              | Some _ => (flat, queue)
              | None => (alter (set_children []) p flat, queue ++ [p])
              end).
  assert (H1 : static <$> st1.1 = static <$> flat
               ∧ length st1.1 = length flat
               ∧ (∀ o', children_at st1.1 o' =
                        if decide (o' = p) then Some pc else children_at flat o')
               ∧ st1.2 = match children_at flat p with Some _ => queue | None => queue ++ [p] end
               ∧ length st1.2 + leaves st1.1 = length queue + leaves flat).
  { unfold st1, pc, group_of, children_at.
    destruct (children (unit_at flat p)) as [c|] eqn:Hc; simpl.
    - repeat split; try done. intros o'. destruct (decide (o' = p)) as [->|]; [|done].
      by rewrite Hc.
    - split; [by apply static_fmap_alter|]. split; [by rewrite length_alter|].
      split.
      + intros o'. fold (children_at (alter (set_children []) p flat) o').
        rewrite children_at_alter by done. by destruct (decide (o' = p)).
      + split; [done|]. rewrite length_app. simpl.
        pose proof (leaves_alter_fill [] p flat Hplt Hc). lia. }
  destruct st1 as [flat1 queue1]. simpl in H1.
  destruct H1 as (Hst1 & Hlen1 & Hch1 & Hq1 & Hm1).
  assert (Hg1 : group_of flat1 owner = g).
  { apply group_of_Some. rewrite Hch1. by rewrite decide_False by done. }
  rewrite Hg1.
  set (flat2 := alter (set_children (delete i g)) owner flat1).
  set (flat3 := alter (push_child x) p flat2).
  set (flat4 := alter (set_isNode true) p flat3).
  assert (Hch2 : ∀ o', children_at flat2 o' =
            if decide (o' = owner) then Some (delete i g)
            else if decide (o' = p) then Some pc else children_at flat o').
  { intros o'. unfold flat2. rewrite children_at_alter by lia.
    destruct (decide (o' = owner)); [done|]. apply Hch1. }
  assert (Hlen2 : length flat2 = length flat) by (unfold flat2; by rewrite length_alter).
  assert (Hch3 : ∀ o', children_at flat3 o' =
            if decide (o' = owner) then Some (delete i g)
            else if decide (o' = p) then Some (pc ++ [x]) else children_at flat o').
  { intros o'. unfold flat3. rewrite children_at_alter by lia.
    destruct (decide (o' = p)) as [->|Hne].
    - rewrite decide_False by done. apply children_push_child.
      fold (children_at flat2 p). rewrite Hch2.
      rewrite decide_False by done. by rewrite decide_True.
    - rewrite Hch2. repeat case_decide; done. }
  assert (Hlen3 : length flat3 = length flat) by (unfold flat3; by rewrite length_alter).
  assert (Hch4 : ∀ o', children_at flat4 o' = children_at flat3 o').
  { intros o'. unfold flat4. rewrite children_at_alter by lia.
    by destruct (decide (o' = p)) as [->|]. }
  exists flat4, queue1. split; [done|]. split; [|split; [|split; [done|]]].
  - unfold flat4, flat3, flat2.
    rewrite !static_fmap_alter; [done | apply static_set_children
      | apply static_push_child | apply static_set_isNode].
  - intros o'. by rewrite Hch4, Hch3.
  - rewrite <- Hm1. f_equal.
    assert (Hsame : ∀ f o (fl : list Unit),
              o < length fl →
              (children_at (alter f o fl) o = None ↔ children_at fl o = None) →
              leaves (alter f o fl) = leaves fl).
    { intros f o fl Ho Hiff. apply leaves_alter.
      rewrite children_at_alter in Hiff by done. by rewrite decide_True in Hiff. }
    unfold flat4. rewrite Hsame; [|lia|].
    2:{ fold flat4. rewrite Hch4. done. }
    unfold flat3. rewrite Hsame; [|lia|].
    2:{ fold flat3. rewrite Hch3, Hch2. repeat case_decide; done. }
    unfold flat2. rewrite Hsame; [done|lia|].
    fold flat2. rewrite Hch2, Hch1. repeat case_decide; try done.
    by rewrite Hg.
Qed.

Lemma delete_NoDup_not_elem {A} (l : list A) i x :
  NoDup l → l !! i = Some x → x ∉ delete i l.
Proof.
  intros Hl Hi. rewrite delete_take_drop.
  rewrite <- (take_drop_middle l i x Hi) in Hl.
  apply NoDup_app in Hl as (_ & Hdisj & Htl).
  apply NoDup_cons in Htl as [Hx _].
  intros [Hin|Hin]%elem_of_app; [|done].
  apply (Hdisj x Hin). by left.
Qed.

Lemma lookup_delete_below {A} (l : list A) i j : j < i → delete i l !! j = l !! j.
Proof.
  intros Hj. rewrite delete_take_drop.
  destruct (Nat.lt_ge_cases i (length l)) as [Hi|Hi].
  - rewrite lookup_app_l by (rewrite length_take; lia). by rewrite lookup_take_lt.
  - rewrite drop_ge by lia. rewrite app_nil_r. by rewrite take_ge by lia.
Qed.

Lemma lookup_delete_above {A} (l : list A) i j : i ≤ j → delete i l !! j = l !! S j.
Proof.
  intros Hj. rewrite delete_take_drop.
  destruct (Nat.lt_ge_cases i (length l)) as [Hi|Hi].
  - rewrite lookup_app_r by (rewrite length_take; lia).
    rewrite length_take, lookup_drop. f_equal. lia.
  - rewrite drop_ge by lia. rewrite app_nil_r, take_ge by lia.
    rewrite !lookup_ge_None_2 by lia. done.
Qed.

Section PromotionFacts.
Context (flat0 : list Unit) (R : nat → nat → Prop).

Lemma promotion_inv_length flat queue :
  promotion_inv flat0 R flat queue → length flat = length flat0.
Proof.
  intros [Hst]. by rewrite <- (length_fmap static flat), Hst, length_fmap.
Qed.

(** An array of children is no longer than the index. *)
Lemma promotion_inv_group_length flat queue o :
  promotion_inv flat0 R flat queue → length (group_of flat o) ≤ length flat.
Proof.
  intros Hinv. destruct (children_at flat o) as [c|] eqn:Hc.
  - rewrite (group_of_Some _ _ _ Hc).
    rewrite <- (length_seq (length flat) 0). apply submseteq_length.
    apply NoDup_submseteq; [by eapply inv_nodup|].
    intros x Hx. apply elem_of_seq. split; [lia|]. simpl.
    by eapply inv_refs.
  - rewrite (group_of_None _ _ Hc). simpl. lia.
Qed.

(** Scanning starts from what holds between two groups. *)
Lemma scan_inv_start owner flat queue :
  promotion_inv flat0 R flat (owner :: queue) →
  scan_inv flat0 R owner 0 flat queue.
Proof.
  intros Hinv. pose proof (inv_queue_nodup _ _ _ _ Hinv) as Hnd.
  apply NoDup_cons in Hnd as [Hout Hnd].
  split.
  - destruct Hinv as [? ? ? ? _ Hq Hpend ? ?]. split; try done.
    + intros o Ho. apply Hq. by right.
    + intros o c x Ho. apply Hpend. by right.
  - eapply inv_queue; [done | by left].
  - done.
  - intros j x _ Hj Hcan.
    destruct (inv_queue _ _ _ _ Hinv owner) as [g Hg]; [by left|].
    rewrite (group_of_Some _ _ _ Hg) in Hj.
    eapply (inv_pending _ _ _ _ Hinv owner g x); [by left | done | | done].
    by eapply list_elem_of_lookup_2.
  - intros p Hi. lia.
Qed.

Lemma scan_inv_advance owner i flat queue :
  scan_inv flat0 R owner i flat queue →
  scan_inv flat0 R owner (S i) flat queue.
Proof.
  intros [Hbase Hown Hout Hun Hprev]. split; try done.
  - intros j x Hj. apply Hun. lia.
  - intros p _ Hp Hcan. replace (S i - 1) with i in Hp by lia.
    rewrite (group_of_None flat p) by (by eapply Hun).
    simpl. destruct Hown as [g Hg]. rewrite (group_of_Some _ _ _ Hg).
    eapply StronglySorted_sublist; [apply sublist_drop|].
    by eapply inv_sorted.
Qed.

Lemma scan_inv_promote owner i flat queue g x p flat' queue' :
  scan_inv flat0 R owner i flat queue →
  children_at flat owner = Some g →
  1 ≤ i → g !! i = Some x → g !! (i - 1) = Some p →
  can_promote (unit_at flat x) = true → can_promote (unit_at flat p) = true →
  p ≠ owner →
  static <$> flat' = static <$> flat →
  (∀ o', children_at flat' o' =
         if decide (o' = owner) then Some (delete i g)
         else if decide (o' = p) then Some (group_of flat p ++ [x])
         else children_at flat o') →
  queue' = match children_at flat p with Some _ => queue | None => queue ++ [p] end →
  scan_inv flat0 R owner i flat' queue'.
Proof.
  intros [Hbase Hown Hout Hun Hprev] Hg Hi Hx Hp Hcx Hcp Hpo Hstat Hch Hq.
  pose proof (list_elem_of_lookup_2 _ _ _ Hx) as Hxg.
  pose proof (list_elem_of_lookup_2 _ _ _ Hp) as Hpg.
  pose proof (inv_nodup _ _ _ _ Hbase _ _ Hg) as Hndg.
  assert (Hxp : x ≠ p).
  { intros ->. pose proof (NoDup_lookup _ _ _ _ Hndg Hx Hp). lia. }
  assert (Hxleaf : children_at flat x = None).
  { apply (Hun i x); [lia | by rewrite (group_of_Some _ _ _ Hg) | done]. }
  assert (Hxo : x ≠ owner) by (intros ->; congruence).
  assert (Hlen : length flat' = length flat).
  { by rewrite <- (length_fmap static flat'), Hstat, length_fmap. }
  assert (Hcan : ∀ z, can_promote (unit_at flat' z) = can_promote (unit_at flat z)).
  { intros z. by apply can_promote_unit_at. }
  set (pc := group_of flat p) in *.
  assert (Hpc : ∀ z, z ∈ pc → children_at flat p = Some pc).
  { intros z Hz. unfold pc, group_of, children_at in *.
    destruct (children (unit_at flat p)); [done|]. by apply elem_of_nil in Hz. }
  assert (Hxpc : x ∉ pc).
  { intros Hin. apply Hpo. symmetry.
    eapply (inv_disjoint _ _ _ _ Hbase owner p g pc x); eauto. }
  assert (Hback : ∀ o' c z, children_at flat' o' = Some c → z ∈ c →
            (z = x ∧ o' = p)
            ∨ (z ≠ x ∧ ∃ c0, children_at flat o' = Some c0 ∧ z ∈ c0)).
  { intros o' c z Hc Hz. rewrite Hch in Hc.
    destruct (decide (o' = owner)) as [->|Hno].
    - injection Hc as <-. right. split.
      + intros ->. by apply (delete_NoDup_not_elem g i x Hndg Hx).
      + exists g. split; [done|]. by eapply list_elem_of_delete_inv.
    - destruct (decide (o' = p)) as [->|Hnp].
      + injection Hc as <-. apply elem_of_app in Hz as [Hz|Hz%list_elem_of_singleton].
        * right. split; [by intros ->|]. exists pc. split; [by eapply Hpc | done].
        * by left.
      + right. split; [|by exists c].
        intros ->. apply Hno.
        by eapply (inv_disjoint _ _ _ _ Hbase o' owner c g x). }
  assert (Hkeep : ∀ z, children_at flat z = None → z ≠ p →
                       children_at flat' z = None).
  { intros z Hz Hzp. rewrite Hch.
    destruct (decide (z = owner)) as [->|]; [congruence|].
    by rewrite decide_False by done. }
  assert (Hpself : p ∉ pc).
  { intros Hin. by eapply (inv_noself _ _ _ _ Hbase p pc); [eapply Hpc|..]. }
  assert (Hqsub : ∀ o, o ∈ queue' → o ∈ queue ∨ (o = p ∧ children_at flat p = None)).
  { intros o. rewrite Hq. destruct (children_at flat p); [by left|].
    intros [?|Hs%list_elem_of_singleton]%elem_of_app; [by left | subst; by right]. }
  assert (Hbase' : promotion_inv flat0 R flat' queue').
  { split.
    - rewrite Hstat. by eapply inv_static.
    - intros o' c z Hc Hz. rewrite Hlen.
      destruct (Hback _ _ _ Hc Hz) as [[-> ->] | [_ (c0 & Hc0 & Hz0)]].
      + by eapply (inv_refs _ _ _ _ Hbase owner g).
      + by eapply (inv_refs _ _ _ _ Hbase o' c0).
    - intros o' c Hc. rewrite Hch in Hc.
      destruct (decide (o' = owner)) as [->|Hno].
      + injection Hc as <-. eapply sublist_NoDup; [done | apply sublist_delete].
      + destruct (decide (o' = p)) as [->|Hnp].
        * injection Hc as <-. apply NoDup_app. split; [|split].
          -- unfold pc, group_of. destruct (children (unit_at flat p)) as [c0|] eqn:Hc0.
             ++ by eapply (inv_nodup _ _ _ _ Hbase p).
             ++ constructor.
          -- intros z Hz ->%list_elem_of_singleton. done.
          -- apply NoDup_singleton.
        * by eapply inv_nodup.
    - intros o1 o2 c1 c2 z Hc1 Hc2 Hz1 Hz2.
      destruct (Hback _ _ _ Hc1 Hz1) as [[-> ->] | [Hzx1 (c01 & Hc01 & Hz01)]],
               (Hback _ _ _ Hc2 Hz2) as [[? ->] | [Hzx2 (c02 & Hc02 & Hz02)]];
        try done.
      by eapply (inv_disjoint _ _ _ _ Hbase o1 o2 c01 c02 z).
    - rewrite Hq. destruct (children_at flat p) eqn:Hcpn;
        [by eapply inv_queue_nodup|].
      apply NoDup_app. split; [by eapply inv_queue_nodup|]. split; [|apply NoDup_singleton].
      intros o Ho ->%list_elem_of_singleton.
      destruct (inv_queue _ _ _ _ Hbase p Ho) as [? ?]. congruence.
    - intros o Ho. rewrite Hch. repeat case_decide; try done.
      destruct (Hqsub o Ho) as [Hoq | [-> _]]; [|done].
      by eapply inv_queue.
    - intros o c z Ho Hc Hz. rewrite Hcan. intros Hcz.
      assert (Hoo : o ≠ owner).
      { intros ->. destruct (Hqsub _ Ho) as [? | [? _]]; done. }
      destruct (Hback _ _ _ Hc Hz) as [[-> ->] | [Hzx (c0 & Hc0 & Hz0)]].
      + by apply Hkeep.
      + assert (Hzleaf : children_at flat z = None).
        { destruct (Hqsub _ Ho) as [Hoq | [-> Hnone]]; [|congruence].
          by eapply (inv_pending _ _ _ _ Hbase o c0 z). }
        apply Hkeep; [done|]. intros ->.
        destruct (decide (o = p)) as [->|Hop].
        * apply Hpself. unfold pc. by rewrite (group_of_Some _ _ _ Hc0).
        * apply Hoo. by eapply (inv_disjoint _ _ _ _ Hbase o owner c0 g p).
    - intros o' c Hc. rewrite Hch in Hc.
      destruct (decide (o' = owner)) as [->|Hno].
      + injection Hc as <-. eapply StronglySorted_sublist; [apply sublist_delete|].
        by eapply inv_sorted.
      + destruct (decide (o' = p)) as [->|Hnp]; [|by eapply inv_sorted].
        injection Hc as <-.
        specialize (Hprev p Hi). rewrite (group_of_Some _ _ _ Hg) in Hprev.
        specialize (Hprev Hp Hcp). fold pc in Hprev.
        rewrite (drop_S _ _ _ Hx) in Hprev.
        eapply StronglySorted_sublist; [|exact Hprev].
        apply sublist_app; [done|]. apply sublist_skip, sublist_nil_l.
    - intros o' c Hc. rewrite Hcan. intros Hco Hin.
      destruct (Hback _ _ _ Hc Hin) as [[-> ->] | [_ (c0 & Hc0 & Hz0)]]; [done|].
      by eapply (inv_noself _ _ _ _ Hbase o' c0). }
  assert (Hg' : group_of flat' owner = delete i g).
  { apply group_of_Some. rewrite Hch. by rewrite decide_True. }
  split; [done| | | |].
  - rewrite Hch. rewrite decide_True by done. done.
  - intros Ho. destruct (Hqsub _ Ho) as [? | [? _]]; done.
  - intros j z Hj. rewrite Hg', Hcan. rewrite lookup_delete_above by done.
    intros Hz Hcz. apply Hkeep.
    + apply (Hun (S j) z); [lia | by rewrite (group_of_Some _ _ _ Hg) | done].
    + intros ->. pose proof (NoDup_lookup _ _ _ _ Hndg Hz Hp). lia.
  - intros p' _. rewrite Hg', Hcan. rewrite lookup_delete_below by lia.
    rewrite Hp. intros [= <-] _.
    assert (group_of flat' p = pc ++ [x]) as ->.
    { apply group_of_Some. rewrite Hch. rewrite decide_False by done.
      by rewrite decide_True. }
    specialize (Hprev p Hi). rewrite (group_of_Some _ _ _ Hg) in Hprev.
    specialize (Hprev Hp Hcp). fold pc in Hprev.
    rewrite (drop_S _ _ _ Hx) in Hprev.
    replace (drop i (delete i g)) with (drop (S i) g).
    + by rewrite <- app_assoc.
    + rewrite delete_take_drop. rewrite drop_app_ge by (rewrite length_take; lia).
      rewrite length_take.
      pose proof (lookup_lt_Some _ _ _ Hx).
      replace (i - i `min` length g) with 0 by lia. done.
Qed.

(** One turn of the loop keeps what holds while a group is scanned, and
    brings the scan nearer to its end. *)
Lemma scan_step_inv owner i flat queue :
  scan_inv flat0 R owner i flat queue →
  (i = 0 ∨ i < length (group_of flat owner)) →
  ∃ i' flat' queue',
    scan_step owner i flat queue = (i', flat', queue')
    ∧ scan_inv flat0 R owner i' flat' queue'
    ∧ length queue' + leaves flat' = length queue + leaves flat
    ∧ (i' < length (group_of flat' owner) →
       length (group_of flat' owner) - i' < length (group_of flat owner) - i).
Proof.
  intros Hinv Hi.
  destruct ((0 <? i) && must_promote (unit_at flat (group_of flat owner !!! i))
                          (unit_at flat (group_of flat owner !!! (i - 1))))
    eqn:Hcond.
  - apply andb_true_iff in Hcond as [Hpos%Nat.ltb_lt Hmust].
    destruct Hi as [->|Hi]; [lia|].
    destruct (scan_owner _ _ _ _ _ _ Hinv) as [g Hg].
    rewrite (group_of_Some _ _ _ Hg) in *.
    destruct (lookup_lt_is_Some_2 g i Hi) as [x Hx].
    destruct (lookup_lt_is_Some_2 g (i - 1) ltac:(lia)) as [p Hp].
    rewrite (list_lookup_total_correct _ _ _ Hx),
            (list_lookup_total_correct _ _ _ Hp) in Hmust.
    destruct (must_promote_can _ _ Hmust) as [Hcx Hcp].
    pose proof (scan_base _ _ _ _ _ _ Hinv) as Hbase.
    pose proof (list_elem_of_lookup_2 _ _ _ Hp) as Hpg.
    assert (Hpo : p ≠ owner).
    { intros ->. by eapply (inv_noself _ _ _ _ Hbase owner g). }
    assert (Hplt : p < length flat) by by eapply (inv_refs _ _ _ _ Hbase owner g).
    destruct (scan_step_promote owner i flat queue g x p)
      as (flat' & queue' & Hstep & Hstat & Hch & Hq & Hm); [done..|].
    exists i, flat', queue'. split; [done|]. split; [|split; [done|]].
    + by eapply (scan_inv_promote owner i flat queue g x p).
    + intros _.
      assert (group_of flat' owner = delete i g) as ->.
      { apply group_of_Some. rewrite Hch. by rewrite decide_True. }
      rewrite length_delete by eauto. lia.
  - exists (S i), flat, queue. split; [|split; [|split; [done|]]].
    + unfold scan_step. by rewrite Hcond.
    + by apply scan_inv_advance.
    + lia.
Qed.

(** The scan of a group returns, given fuel for its length, and leaves what
    holds between two groups. *)
Lemma scan_group_inv fuel owner i flat queue :
  scan_inv flat0 R owner i flat queue →
  (i = 0 ∨ i < length (group_of flat owner)) →
  length (group_of flat owner) - i < fuel →
  ∃ flat' queue',
    scan_group fuel owner i flat queue = Some (flat', queue')
    ∧ promotion_inv flat0 R flat' queue'
    ∧ length queue' + leaves flat' = length queue + leaves flat.
Proof.
  revert i flat queue. induction fuel as [|fuel IH]; intros i flat queue Hinv Hi Hfuel;
    [lia|].
  destruct (scan_step_inv owner i flat queue Hinv Hi)
    as (i' & flat' & queue' & Hstep & Hinv' & Hm & Hdec).
  simpl. rewrite Hstep.
  destruct (Nat.ltb_spec i' (length (group_of flat' owner))) as [Hlt|Hge].
  - destruct (IH i' flat' queue' Hinv') as (flat'' & queue'' & Hscan & Hfin & Hm');
      [by right | specialize (Hdec Hlt); lia |].
    exists flat'', queue''. split; [done|]. split; [done | lia].
  - exists flat', queue'. split; [done|]. split; [|done].
    by eapply scan_base.
Qed.

Lemma leaves_le (flat : list Unit) : leaves flat ≤ length flat.
Proof. unfold leaves. apply length_filter. Qed.

(** The promotion pass returns, given fuel for the groups in the queue and
    those still to be made, and every array of children is ordered by [R]
    when it is over. *)
Lemma promote_inv fuel inner flat queue :
  promotion_inv flat0 R flat queue →
  length queue + leaves flat < fuel → length flat0 < inner →
  ∃ flat', promote fuel inner flat queue = Some (flat', [])
           ∧ promotion_inv flat0 R flat' [].
Proof.
  revert flat queue. induction fuel as [|fuel IH]; intros flat queue Hinv Hfuel Hinner;
    [lia|].
  simpl. destruct queue as [|owner queue].
  - by exists flat.
  - pose proof (promotion_inv_group_length flat _ owner Hinv) as Hglen.
    pose proof (promotion_inv_length _ _ Hinv) as Hlen.
    destruct (scan_group_inv inner owner 0 flat queue)
      as (flat' & queue' & Hscan & Hinv' & Hm);
      [by apply scan_inv_start | by left | lia |].
    rewrite Hscan. apply IH; [done | simpl in Hfuel; lia | done].
Qed.

End PromotionFacts.

(** ** The groups once sorted *)

Lemma sort_group_children flat flat1 o o' :
  static <$> flat1 = static <$> flat →
  static <$> sort_group flat1 o = static <$> flat
  ∧ children_at (sort_group flat1 o) o' =
    if decide (o' = o) then JsArray.sort (compare_refs flat) <$> children_at flat1 o
    else children_at flat1 o'.
Proof.
  intros Hst. unfold sort_group.
  destruct (children (unit_at flat1 o)) as [g|] eqn:Hg.
  - fold (children_at flat1 o) in Hg. pose proof (children_at_lt _ _ _ Hg).
    split; [by rewrite static_fmap_alter|].
    rewrite children_at_alter by done. destruct (decide (o' = o)); [|done].
    rewrite Hg. simpl. f_equal. apply sort_ext.
    intros a b. by apply compare_refs_static.
  - fold (children_at flat1 o) in Hg. split; [done|].
    destruct (decide (o' = o)) as [->|]; [|done]. by rewrite Hg.
Qed.

Lemma sort_groups_children flat flat1 queue o' :
  static <$> flat1 = static <$> flat → NoDup queue →
  static <$> sort_groups queue flat1 = static <$> flat
  ∧ children_at (sort_groups queue flat1) o' =
    if decide (o' ∈ queue)
    then JsArray.sort (compare_refs flat) <$> children_at flat1 o'
    else children_at flat1 o'.
Proof.
  unfold sort_groups. revert flat1.
  induction queue as [|o queue IH]; intros flat1 Hst Hnd; cbn [foldl].
  - split; [done|]. rewrite decide_False; [done|]. apply not_elem_of_nil.
  - apply NoDup_cons in Hnd as [Ho Hnd].
    destruct (sort_group_children flat flat1 o o' Hst) as [Hst1 Hch1].
    destruct (IH (sort_group flat1 o) Hst1 Hnd) as [Hst2 Hch2].
    split; [done|]. rewrite Hch2, Hch1.
    destruct (decide (o' = o)) as [->|Hne];
      destruct (decide (_ ∈ queue)) as [Hin|Hin];
      destruct (decide (_ ∈ o :: queue)) as [Hin'|Hin']; try done.
    + destruct Hin'. by left.
    + destruct Hin'. by right.
    + by apply elem_of_cons in Hin' as [?|?].
Qed.

(** What [well_formed_store] says, unit by unit. *)
Lemma well_formed_store_at flat queue o :
  well_formed_store flat queue → o < length flat → well_formed_at flat queue o.
Proof.
  intros [Hall _] Ho. rewrite Forall_seq in Hall. apply Hall. lia.
Qed.

Lemma well_formed_refs flat queue o c x :
  well_formed_store flat queue →
  children_at flat o = Some c → x ∈ c → x < length flat.
Proof.
  intros Hwf Hc Hx.
  destruct (well_formed_store_at _ _ o Hwf (children_at_lt _ _ _ Hc)) as [Hr _].
  rewrite (group_of_Some _ _ _ Hc), Forall_forall in Hr. by apply Hr.
Qed.

Lemma well_formed_increasing flat queue o c :
  well_formed_store flat queue →
  children_at flat o = Some c → StronglySorted lt c.
Proof.
  intros Hwf Hc.
  destruct (well_formed_store_at _ _ o Hwf (children_at_lt _ _ _ Hc)) as (_ & Hs & _).
  by rewrite (group_of_Some _ _ _ Hc) in Hs.
Qed.

Lemma well_formed_disjoint flat queue o1 o2 c1 c2 x :
  well_formed_store flat queue →
  children_at flat o1 = Some c1 → children_at flat o2 = Some c2 →
  x ∈ c1 → x ∈ c2 → o1 = o2.
Proof.
  intros Hwf Hc1 Hc2 Hx1 Hx2.
  destruct (well_formed_store_at _ _ o1 Hwf (children_at_lt _ _ _ Hc1))
    as (_ & _ & Hd & _).
  rewrite Forall_seq in Hd.
  destruct (Hd o2) as [?|Hdis]; [pose proof (children_at_lt _ _ _ Hc2); lia | done |].
  rewrite (group_of_Some _ _ _ Hc1), (group_of_Some _ _ _ Hc2), Forall_forall in Hdis.
  by destruct (Hdis x Hx1).
Qed.

Lemma well_formed_queued flat queue o :
  well_formed_store flat queue → is_Some (children_at flat o) → o ∈ queue.
Proof.
  intros Hwf [c Hc].
  destruct (well_formed_store_at _ _ o Hwf (children_at_lt _ _ _ Hc))
    as (_ & _ & _ & Hq & _).
  apply Hq. by exists c.
Qed.

Lemma well_formed_leaf flat queue o :
  well_formed_store flat queue →
  can_promote (unit_at flat o) = true → children_at flat o = None.
Proof.
  intros Hwf Hcan. destruct (Nat.lt_ge_cases o (length flat)) as [Ho|Ho].
  - destruct (well_formed_store_at _ _ o Hwf Ho) as (_ & _ & _ & _ & Hl). by apply Hl.
  - unfold children_at. by rewrite unit_at_ge.
Qed.

Lemma StronglySorted_of_lookup {A} (R : A → A → Prop) l :
  (∀ i j x y, i < j → l !! i = Some x → l !! j = Some y → R x y) →
  StronglySorted R l.
Proof.
  induction l as [|z l IH]; intros H; [constructor|].
  apply StronglySorted_cons. split.
  - apply Forall_forall. intros y [j Hj]%list_elem_of_lookup_1.
    by apply (H 0 (S j) z y); [lia|..].
  - apply IH. intros i j x y Hij Hi Hj. apply (H (S i) (S j)); [lia | done..].
Qed.

(** The comparator orders consistently the units that carry a key. *)
Lemma compare_refs_antisym flat x y :
  compare_refs flat y x = (- compare_refs flat x y)%Z.
Proof. apply compare_numbering_antisym. Qed.

Lemma compare_refs_trans flat x y z :
  numbered (unit_at flat x) → numbered (unit_at flat y) → numbered (unit_at flat z) →
  (compare_refs flat x y ≤ 0)%Z → (compare_refs flat y z ≤ 0)%Z →
  (compare_refs flat x z ≤ 0)%Z.
Proof.
  unfold compare_refs, _multiPartComparison.
  intros (kx & -> & Hx) (ky & -> & Hy) (kz & -> & Hz).
  by apply compare_numbering_trans.
Qed.

(** The stable sort of a group inserted in increasing order leaves it in
    order. *)
Lemma sort_in_order flat o g :
  children_at flat o = Some g → StronglySorted lt g →
  StronglySorted (in_order flat) (JsArray.sort (compare_refs flat) g).
Proof.
  intros Hg Hinc. apply StronglySorted_of_lookup. intros i j x y Hij Hi Hj. split.
  - pose proof (sort_stable (compare_refs flat) lt g Hinc) as Hst.
    apply (StronglySorted_lookup _ _ i j x y Hst Hij Hi Hj).
  - intros Hsib.
    assert (Hxg : x ∈ g).
    { apply (elem_of_sort (compare_refs flat)). by eapply list_elem_of_lookup_2. }
    specialize (Hsib o g Hg Hxg).
    assert (Hsorted : StronglySorted (λ a b, (compare_refs flat a b ≤ 0)%Z)
                        (JsArray.sort (compare_refs flat) g)).
    { apply (sort_sorted _ (λ a, numbered (unit_at flat a))); [| |done].
      - intros a b _ _. rewrite (compare_refs_antisym flat a b). lia.
      - intros a b c. apply compare_refs_trans. }
    pose proof (StronglySorted_lookup _ _ i j x y Hsorted Hij Hi Hj) as Hle.
    simpl in Hle. rewrite (compare_refs_antisym flat x y). lia.
Qed.

(** A well-formed index, its groups sorted, is where the promotion pass can
    start. *)
Lemma promotion_inv_init flat queue :
  well_formed_store flat queue →
  promotion_inv flat (in_order flat) (sort_groups queue flat) queue.
Proof.
  intros Hwf. pose proof Hwf as (_ & Hnd & Hqs).
  assert (Hst : static <$> sort_groups queue flat = static <$> flat).
  { by apply (sort_groups_children flat flat queue 0). }
  assert (Hch : ∀ o c, children_at (sort_groups queue flat) o = Some c →
            ∃ g, children_at flat o = Some g
                 ∧ c = JsArray.sort (compare_refs flat) g).
  { intros o c. destruct (sort_groups_children flat flat queue o eq_refl Hnd) as [_ ->].
    destruct (decide (o ∈ queue)) as [Hin|Hout].
    - destruct (children_at flat o) as [g|]; [|done]. intros [= <-]. by exists g.
    - intros Hc. destruct Hout. eapply well_formed_queued; [done|]. by exists c. }
  assert (Hnone : ∀ o, children_at flat o = None →
                       children_at (sort_groups queue flat) o = None).
  { intros o Ho. destruct (sort_groups_children flat flat queue o eq_refl Hnd) as [_ ->].
    rewrite Ho. by destruct (decide _). }
  assert (Hlen : length (sort_groups queue flat) = length flat).
  { by rewrite <- (length_fmap static (sort_groups queue flat)), Hst, length_fmap. }
  split.
  - done.
  - intros o c x (g & Hg & ->)%Hch Hx%elem_of_sort. rewrite Hlen.
    by eapply well_formed_refs.
  - intros o c (g & Hg & ->)%Hch. rewrite sort_Permutation.
    apply StronglySorted_lt_NoDup. by eapply well_formed_increasing.
  - intros o1 o2 c1 c2 x (g1 & Hg1 & ->)%Hch (g2 & Hg2 & ->)%Hch
      Hx1%elem_of_sort Hx2%elem_of_sort.
    by eapply (well_formed_disjoint flat queue o1 o2 g1 g2 x).
  - done.
  - intros o Ho. rewrite Forall_forall in Hqs. destruct (Hqs o Ho) as [g Hg].
    destruct (sort_groups_children flat flat queue o eq_refl Hnd) as [_ ->].
    rewrite decide_True by done. rewrite Hg. by eexists.
  - intros o c x _ _ _. rewrite (can_promote_unit_at _ flat) by done.
    intros Hcan. apply Hnone. by eapply well_formed_leaf.
  - intros o c (g & Hg & ->)%Hch. apply (sort_in_order flat o g Hg).
    by eapply well_formed_increasing.
  - intros o c (g & Hg & ->)%Hch. rewrite (can_promote_unit_at _ flat) by done.
    intros Hcan. pose proof (well_formed_leaf _ _ o Hwf Hcan). congruence.
Qed.

(** ** Marking the exclusions *)

Lemma ancestor_S Path k p :
  ancestor Path (S k) p = ancestor Path k (Path.dirname Path p).
Proof. unfold ancestor. apply Nat.iter_succ_r. Qed.

Lemma collect_ancestors_spec Path fuel root p folders n :
  1 ≤ n ≤ fuel → ancestor Path n p = root →
  ∃ folders',
    collect_ancestors Path fuel root p folders = Some folders'
    ∧ (∀ f, f ∈ folders → f ∈ folders')
    ∧ (∀ k, below_root Path k root p → ancestor Path k p ∈ folders')
    ∧ (∀ f, f ∈ folders' → f ∈ folders ∨ f ≠ root).
Proof.
  revert p folders n. induction fuel as [|fuel IH]; intros p folders n Hn Hroot; [lia|].
  simpl. destruct (bool_decide_reflect (Path.dirname Path p = root)) as [Hd|Hd].
  - exists folders. split; [done|]. split; [done|]. split; [|by left].
    intros k [Hk Hbelow]. destruct (Hbelow 1 ltac:(lia)). done.
  - destruct n as [|[|n]]; [lia|done|].
    rewrite ancestor_S in Hroot.
    set (folders1 := if bool_decide (Path.dirname Path p ∈ folders) then folders
                     else folders ++ [Path.dirname Path p]).
    assert (Hin1 : Path.dirname Path p ∈ folders1).
    { unfold folders1. destruct (bool_decide_reflect (Path.dirname Path p ∈ folders));
        [done|]. apply elem_of_app. right. by left. }
    assert (Hsub1 : ∀ f, f ∈ folders → f ∈ folders1).
    { unfold folders1. intros f Hf. destruct (bool_decide _); [done|].
      apply elem_of_app. by left. }
    assert (Hback1 : ∀ f, f ∈ folders1 → f ∈ folders ∨ f ≠ root).
    { unfold folders1. intros f. destruct (bool_decide _); [by left|].
      intros [?|Hf%list_elem_of_singleton]%elem_of_app; [by left|]. right. by subst. }
    destruct (IH (Path.dirname Path p) folders1 (S n) ltac:(lia) Hroot)
      as (folders' & Hcollect & Hsub & Hall & Hback).
    exists folders'. split; [done|]. split; [by auto|]. split.
    + intros [|[|k]] [Hk Hbelow]; [lia | by apply Hsub |].
      rewrite ancestor_S. apply Hall. split; [lia|].
      intros j Hj. rewrite <- ancestor_S. apply Hbelow. lia.
    + intros f [Hf|Hf]%Hback; [by apply Hback1 | by right].
Qed.

Lemma collect_all_spec Path fuel root skipped folders :
  (∀ p, p ∈ skipped → under_root Path fuel root p) →
  ∃ folders',
    collect_all Path fuel root skipped folders = Some folders'
    ∧ (∀ f, f ∈ folders → f ∈ folders')
    ∧ (∀ p k, p ∈ skipped → below_root Path k root p → ancestor Path k p ∈ folders')
    ∧ (∀ f, f ∈ folders' → f ∈ folders ∨ f ≠ root).
Proof.
  revert folders. induction skipped as [|p skipped IH]; intros folders Hunder; simpl.
  - exists folders. split; [done|]. split; [done|]. split; [|by left].
    intros p k Hp. by apply elem_of_nil in Hp.
  - destruct (Hunder p) as (n & Hn & Hroot); [by left|].
    destruct (collect_ancestors_spec Path fuel root p folders n Hn Hroot)
      as (folders1 & -> & Hsub1 & Hall1 & Hback1).
    destruct (IH folders1) as (folders' & -> & Hsub & Hall & Hback).
    { intros q Hq. apply Hunder. by right. }
    exists folders'. split; [done|]. split; [by auto|]. split.
    + intros q k [->|Hq]%elem_of_cons Hbelow; [|by eapply Hall].
      apply Hsub. by apply Hall1.
    + intros f [Hf|Hf]%Hback; [by apply Hback1 | by right].
Qed.

Lemma mark_excluded_nil flat : mark_excluded [] flat = flat.
Proof.
  unfold mark_excluded. rewrite <- (list_fmap_id flat) at 2.
  apply list_fmap_ext. intros i u _. unfold mark_unit.
  rewrite bool_decide_eq_false_2; [done|]. apply not_elem_of_nil.
Qed.

Lemma length_mark_excluded folders flat :
  length (mark_excluded folders flat) = length flat.
Proof. apply length_fmap. Qed.

Lemma unit_at_mark_excluded folders flat i :
  i < length flat →
  unit_at (mark_excluded folders flat) i = mark_unit folders (unit_at flat i).
Proof. intros Hi. unfold unit_at, mark_excluded. by apply list_lookup_total_fmap. Qed.

(** Marking changes [mustExclude] and nothing else. *)
Lemma mark_excluded_fields folders flat i :
  children_at (mark_excluded folders flat) i = children_at flat i
  ∧ numbering (unit_at (mark_excluded folders flat) i) = numbering (unit_at flat i)
  ∧ fileExtension (unit_at (mark_excluded folders flat) i) = fileExtension (unit_at flat i)
  ∧ filePath (unit_at (mark_excluded folders flat) i) = filePath (unit_at flat i).
Proof.
  unfold children_at. destruct (Nat.lt_ge_cases i (length flat)) as [Hi|Hi].
  - rewrite unit_at_mark_excluded by done. unfold mark_unit.
    by destruct (bool_decide _).
  - rewrite !unit_at_ge; [done | done | by rewrite length_mark_excluded].
Qed.

Lemma mark_exclusions_Returned Path fuel skipped s s1 :
  mark_exclusions Path fuel skipped s = Some (Returned s1) →
  _foldersToExclude s = [] →
  ∃ folders,
    _flatCompilationsList s1 = mark_excluded folders (_flatCompilationsList s)
    ∧ _rawGroups s1 = _rawGroups s.
Proof.
  unfold mark_exclusions. intros H Hnone.
  assert (Hsame : ∃ folders,
            _flatCompilationsList s = mark_excluded folders (_flatCompilationsList s)
            ∧ _rawGroups s = _rawGroups s).
  { exists []. by rewrite mark_excluded_nil. }
  destruct skipped as [[|p skipped]|]; try (by injection H as <-).
  destruct (_flatCompilationsList s !! 0); [|done].
  destruct (collect_all _ _ _ _ _) as [[|folder folders]|]; [| |done].
  - by injection H as <-.
  - injection H as <-. by exists (folder :: folders).
Qed.

(** ** [buildIndex] returns *)

Lemma well_formed_store_transfer flat flat1 queue :
  length flat1 = length flat →
  (∀ i, children_at flat1 i = children_at flat i) →
  (∀ i, can_promote (unit_at flat1 i) = can_promote (unit_at flat i)) →
  well_formed_store flat queue → well_formed_store flat1 queue.
Proof.
  intros Hlen Hch Hcan (Hall & Hnd & Hq).
  assert (Hg : ∀ o, group_of flat1 o = group_of flat o).
  { intros o. unfold group_of. fold (children_at flat1 o) (children_at flat o).
    by rewrite Hch. }
  split; [|split; [done|]].
  - rewrite Hlen. eapply Forall_impl; [exact Hall|].
    intros o (H1 & H2 & H3 & H4 & H5). unfold well_formed_at.
    rewrite Hlen, Hg, Hch, Hcan. repeat split; try done.
    eapply Forall_impl; [exact H3|]. intros o' [?|Hd]; [by left | right].
    by rewrite Hg.
  - eapply Forall_impl; [exact Hq|]. intros o. by rewrite Hch.
Qed.

Lemma can_promote_mark_excluded folders flat i :
  can_promote (unit_at (mark_excluded folders flat) i) = can_promote (unit_at flat i).
Proof.
  destruct (mark_excluded_fields folders flat i) as (_ & Hn & He & _).
  unfold can_promote. by rewrite Hn, He.
Qed.

Lemma compare_refs_mark_excluded folders flat x y :
  compare_refs (mark_excluded folders flat) x y = compare_refs flat x y.
Proof.
  unfold compare_refs, _multiPartComparison.
  destruct (mark_excluded_fields folders flat x) as (_ & -> & _).
  by destruct (mark_excluded_fields folders flat y) as (_ & -> & _).
Qed.

(** On a well-formed index [buildIndex] returns as soon as the marking of the
    exclusions does, given fuel for the units and the groups; the arrays of
    children it leaves are in order. *)
Lemma buildIndex_returns Path fuel skipped s s1 :
  well_formed s →
  mark_exclusions Path fuel skipped (seal s) = Some (Returned s1) →
  length (_rawGroups s) + length (_flatCompilationsList s) < fuel →
  ∃ folders flat',
    _flatCompilationsList s1 = mark_excluded folders (_flatCompilationsList s)
    ∧ buildIndex Path fuel skipped s
      = Some (Returned (with_groups [] (with_flat flat' s1)))
    ∧ promotion_inv (_flatCompilationsList s1)
        (in_order (_flatCompilationsList s1)) flat' [].
Proof.
  intros [Hwf Hnone] Hmark Hfuel.
  destruct (mark_exclusions_Returned _ _ _ _ _ Hmark Hnone) as (folders & Hflat1 & Hq1).
  simpl in Hflat1, Hq1.
  assert (Hwf1 : well_formed_store (_flatCompilationsList s1) (_rawGroups s1)).
  { rewrite Hflat1, Hq1. eapply well_formed_store_transfer; [| | |exact Hwf].
    - apply length_mark_excluded.
    - intros i. apply mark_excluded_fields.
    - intros i. apply can_promote_mark_excluded. }
  pose proof (promotion_inv_init _ _ Hwf1) as Hinit.
  assert (Hlen1 : length (_flatCompilationsList s1) = length (_flatCompilationsList s)).
  { rewrite Hflat1. apply length_mark_excluded. }
  destruct (promote_inv _ _ fuel fuel _ _ Hinit) as (flat' & Hpromote & Hfinal).
  { pose proof (leaves_le (sort_groups (_rawGroups s1) (_flatCompilationsList s1))).
    pose proof (promotion_inv_length _ _ _ _ Hinit).
    assert (length (_rawGroups s1) = length (_rawGroups s)) by by rewrite Hq1.
    lia. }
  { lia. }
  exists folders, flat'. split; [done|]. split; [|done].
  unfold buildIndex. rewrite Hmark. by rewrite Hpromote.
Qed.

Lemma siblings_numbered_mark_excluded folders flat x :
  siblings_numbered flat x → siblings_numbered (mark_excluded folders flat) x.
Proof.
  intros Hsib o group Hg Hx.
  destruct (mark_excluded_fields folders flat o) as (Hch & _). rewrite Hch in Hg.
  eapply Forall_impl; [exact (Hsib o group Hg Hx)|].
  intros z (key & Hkey & Hne). exists key. split; [|done].
  by destruct (mark_excluded_fields folders flat z) as (_ & -> & _).
Qed.

Lemma compare_refs_unnumbered flat x y :
  ¬ numbered (unit_at flat x) → compare_refs flat x y = 0%Z.
Proof.
  intros Hx. unfold compare_refs, _multiPartComparison.
  destruct (numbering (unit_at flat x)) as [[|n key]|] eqn:Hkey; [done| |done].
  destruct Hx. by exists (n :: key).
Qed.

(** C2, as the engine has it.  On a well-formed index, once [buildIndex] is
    over: among children whose siblings at insertion all carry a numbering
    key, no later child compares strictly less than an earlier one and two
    children that compare equal stand in the order of their insertion; and
    children that were inserted among siblings without any numbering key
    stand in the order of their insertion.  (On these groups the comparator
    is consistent, and the order does not depend on the host's sort.) *)
Theorem children_order_after_buildIndex (Path : Path.module) (fuel : nat)
    (skipped : option (list str)) (s s1 : State) :
  well_formed s →
  mark_exclusions Path fuel skipped (seal s) = Some (Returned s1) →
  length (_rawGroups s) + length (_flatCompilationsList s) < fuel →
  ∃ s',
    buildIndex Path fuel skipped s = Some (Returned s')
    ∧ ∀ o c,
        children_at (_flatCompilationsList s') o = Some c →
        ((∀ x, x ∈ c → siblings_numbered (_flatCompilationsList s) x) →
         honours_comparison (_flatCompilationsList s') c
         ∧ keeps_insertion_order (_flatCompilationsList s') c)
        ∧ ((∀ x, x ∈ c → siblings_unnumbered (_flatCompilationsList s) x) →
           StronglySorted lt c).
Proof.
  intros Hwf Hmark Hfuel.
  destruct (buildIndex_returns _ _ _ _ _ Hwf Hmark Hfuel)
    as (folders & flat' & Hflat1 & Hbuild & Hinv).
  eexists. split; [exact Hbuild|]. simpl.
  intros o c Hc.
  pose proof (inv_sorted _ _ _ _ Hinv o c Hc) as Hsorted.
  assert (Hcmp : ∀ x y, compare_refs flat' x y
                        = compare_refs (_flatCompilationsList s1) x y).
  { intros x y. apply compare_refs_static. by eapply inv_static. }
  assert (Hkeep : keeps_insertion_order flat' c).
  { intros i j x y Hij Hi Hj Htie.
    destruct (StronglySorted_lookup _ _ i j x y Hsorted Hij Hi Hj) as [[Hlt|Hlt] _];
      [done|]. rewrite <- Hcmp in Hlt. lia. }
  split.
  - intros Hsib. split; [|done]. intros i j x y Hij Hi Hj.
    destruct (StronglySorted_lookup _ _ i j x y Hsorted Hij Hi Hj) as [_ Hord].
    rewrite Hcmp. apply Hord. rewrite Hflat1.
    apply siblings_numbered_mark_excluded, Hsib.
    by eapply list_elem_of_lookup_2.
  - intros Hsib. apply StronglySorted_of_lookup. intros i j x y Hij Hi Hj.
    apply (Hkeep i j x y Hij Hi Hj). rewrite Hcmp, Hflat1.
    apply compare_refs_unnumbered.
    destruct (Hsib x (list_elem_of_lookup_2 _ _ _ Hi)) as [Hx _].
    intros (key & Hkey & Hne). apply Hx. exists key. split; [|done].
    by destruct (mark_excluded_fields folders (_flatCompilationsList s) x)
      as (_ & <- & _).
Qed.

Lemma children_order_after_buildIndex_witness :
  ∃ s',
    buildIndex Sample.Path 10 None Sample.flat_group = Some (Returned s')
    ∧ ∀ o c,
        children_at (_flatCompilationsList s') o = Some c →
        ((∀ x, x ∈ c →
               siblings_numbered (_flatCompilationsList Sample.flat_group) x) →
         honours_comparison (_flatCompilationsList s') c
         ∧ keeps_insertion_order (_flatCompilationsList s') c)
        ∧ ((∀ x, x ∈ c →
                 siblings_unnumbered (_flatCompilationsList Sample.flat_group) x) →
           StronglySorted lt c).
Proof.
  apply (children_order_after_buildIndex Sample.Path 10 None Sample.flat_group
           (seal Sample.flat_group)).
  - apply (bool_decide_unpack _). by vm_compute.
  - reflexivity.
  - vm_compute. lia.
Defined.

(** C2, against its words: it fails on a group with a unit without numbering
    between two numbered ones, "2 X", "Y", "1 Z": after [buildIndex] the
    children stand in this order, and Z, the last, compares strictly less
    than X, the first.  No other order would do: the ties of Y with X and
    with Z ask for the order of insertion, and that order does not honour
    the comparison. *)
Lemma unnumbered_unit_breaks_order :
  let s := Sample.unnumbered_between in
  let flat' := _flatCompilationsList Sample.unnumbered_between_built in
  well_formed s
  ∧ map numbering (_flatCompilationsList s) = [None; Some [2%Z]; None; Some [1%Z]]
  ∧ buildIndex Sample.Path 10 None s = Some (Returned Sample.unnumbered_between_built)
  ∧ children_at flat' 0 = Some [1; 2; 3]
  ∧ compare_refs flat' 3 1 = (-1)%Z
  ∧ ¬ honours_comparison flat' [1; 2; 3]
  ∧ (∀ c, c ≡ₚ [1; 2; 3] →
          ¬ (keeps_insertion_order flat' c ∧ honours_comparison flat' c)).
Proof.
  cbv zeta.
  split; [apply (bool_decide_unpack _); by vm_compute|].
  split; [done|]. split; [by vm_compute|]. split; [done|]. split; [done|].
  set (flat' := _flatCompilationsList Sample.unnumbered_between_built).
  assert (H31 : compare_refs flat' 3 1 = (-1)%Z) by done.
  assert (H12 : compare_refs flat' 1 2 = 0%Z) by done.
  assert (H21 : compare_refs flat' 2 1 = 0%Z) by done.
  assert (H23 : compare_refs flat' 2 3 = 0%Z) by done.
  assert (H32 : compare_refs flat' 3 2 = 0%Z) by done.
  split.
  - intros Hhon. specialize (Hhon 0 2 1 3 ltac:(lia) eq_refl eq_refl). lia.
  - intros c Hperm [Hkeep Hhon].
    pose proof (Permutation_length Hperm) as Hlen.
    destruct c as [|a [|b [|d [|]]]]; try done.
    assert (Hin : ∀ z, z ∈ [a; b; d] → z = 1 ∨ z = 2 ∨ z = 3).
    { intros z Hz. rewrite Hperm in Hz.
      repeat (apply elem_of_cons in Hz as [->|Hz]; [by auto|]).
      by apply elem_of_nil in Hz. }
    assert (Hnd : NoDup [a; b; d]).
    { rewrite Hperm. by apply (bool_decide_unpack (NoDup [1; 2; 3])). }
    pose proof (Hkeep 0 1 a b ltac:(lia) eq_refl eq_refl) as K01.
    pose proof (Hkeep 0 2 a d ltac:(lia) eq_refl eq_refl) as K02.
    pose proof (Hkeep 1 2 b d ltac:(lia) eq_refl eq_refl) as K12.
    pose proof (Hhon 0 1 a b ltac:(lia) eq_refl eq_refl) as G01.
    pose proof (Hhon 0 2 a d ltac:(lia) eq_refl eq_refl) as G02.
    pose proof (Hhon 1 2 b d ltac:(lia) eq_refl eq_refl) as G12.
    assert (Hne : a ≠ b ∧ a ≠ d ∧ b ≠ d).
    { apply NoDup_cons in Hnd as [Ha Hnd]. apply NoDup_cons in Hnd as [Hb _].
      split; [|split]; intros ->.
      - apply Ha. by left.
      - apply Ha. right. by left.
      - apply Hb. by left. }
    destruct Hne as (Hab & Had & Hbd).
    destruct (Hin a) as [-> | [-> | ->]]; [by left|..];
      (destruct (Hin b) as [-> | [-> | ->]]; [by right; left|..]; try done);
      (destruct (Hin d) as [-> | [-> | ->]]; [by right; right; left|..]; try done);
      rewrite ?H12, ?H21, ?H23, ?H32, ?H31 in *; lia.
Qed.

(** Sorting and promoting leave the paths and the exclusion marks alone. *)
Lemma promotion_inv_fields flat0 R flat queue i :
  promotion_inv flat0 R flat queue →
  filePath (unit_at flat i) = filePath (unit_at flat0 i)
  ∧ mustExclude (unit_at flat i) = mustExclude (unit_at flat0 i).
Proof.
  intros Hinv. pose proof (static_unit_at _ _ i (inv_static _ _ _ _ Hinv)) as Hst.
  split.
  - change (filePath (static (unit_at flat i)) = filePath (static (unit_at flat0 i))).
    by rewrite Hst.
  - change (mustExclude (static (unit_at flat i)) = mustExclude (static (unit_at flat0 i))).
    by rewrite Hst.
Qed.



Example assets_excluded_root_not :
  map (λ u, (filePath u, mustExclude u))
      (_flatCompilationsList Sample.with_assets_built)
  = [(lit "/root", false); (lit "/root/1 A.txt", false);
     (lit "/root/assets", true); (lit "/root/assets/notes.txt", false)].
Proof. reflexivity. Qed.

(** Outside the root the loop over the ancestors has no end: [dirname]
    stays at [/], which is not the root folder. *)
Lemma collect_ancestors_outside fuel folders :
  collect_ancestors Sample.Path fuel (lit "/root") (lit "/") folders = None.
Proof.
  revert folders. induction fuel as [|fuel IH]; intros folders; [done|].
  cbn [collect_ancestors].
  assert (Path.dirname Sample.Path (lit "/") = lit "/") as -> by reflexivity.
  rewrite bool_decide_eq_false_2 by discriminate. apply IH.
Qed.

Example buildIndex_outside_root fuel :
  buildIndex Sample.Path fuel (Some [lit "/elsewhere/img.png"]) Sample.with_assets
  = None.
Proof.
  assert (collect_ancestors Sample.Path fuel (lit "/root")
            (lit "/elsewhere/img.png") [] = None) as Hloop.
  { destruct fuel as [|[|fuel]]; [done..|].
    cbn [collect_ancestors].
    assert (Path.dirname Sample.Path (lit "/elsewhere/img.png") = lit "/elsewhere")
      as -> by reflexivity.
    rewrite bool_decide_eq_false_2 by discriminate.
    assert (Path.dirname Sample.Path (lit "/elsewhere") = lit "/") as -> by reflexivity.
    rewrite bool_decide_eq_false_2 by discriminate.
    apply collect_ancestors_outside. }
  unfold buildIndex, mark_exclusions.
  change (_flatCompilationsList (seal Sample.with_assets) !! 0)
    with (Some (unit_at (_flatCompilationsList Sample.with_assets) 0)).
  change (_foldersToExclude (seal Sample.with_assets)) with (@nil str).
  cbn [collect_all].
  change (filePath (unit_at (_flatCompilationsList Sample.with_assets) 0))
    with (lit "/root").
  by rewrite Hloop.
Qed.

(** ** NavigationRenderer *)

Lemma Node_ind_kids (P : Node → Prop) :
  (∀ unit, P (mkNode unit None)) →
  (∀ unit kids, Forall P kids → P (mkNode unit (Some kids))) →
  ∀ n, P n.
Proof.
  intros Hleaf Hnode. fix IH 1. intros [unit [kids|]]; [|apply Hleaf].
  apply Hnode. induction kids as [|kid kids IHkids]; constructor;
    [apply IH | apply IHkids].
Qed.

Section WalkFacts.
Context {A : Type} (callback : Unit → option Unit → A → bool * A).

Lemma walk_node_kids unit kids parent a :
  walk_node callback (mkNode unit (Some kids)) parent a =
  let '(_, a) := callback unit parent a in
  walk_list callback (Some unit) kids false a.
Proof.
  simpl. destruct (callback unit parent a) as [exit a1].
  generalize false. revert a1.
  induction kids as [|kid kids IH]; intros a1 exit'; simpl; [done|].
  destruct exit'; [done|]. destruct (walk_node callback kid (Some unit) a1).
  apply IH.
Qed.

(** With a callback that never asks to stop, the walk calls it on every
    node, parents before children. *)
Lemma walk_node_visits n :
  (∀ unit parent a, (callback unit parent a).1 = false) →
  ∀ hidden parent a,
    walk_node callback n parent a
    = (false, foldl (visit callback) a (visits_node hidden n parent)).
Proof.
  intros Hgo. induction n as [unit|unit kids IH] using Node_ind_kids;
    intros hidden parent a.
  - simpl. unfold visit. simpl. specialize (Hgo unit parent a).
    by destruct (callback unit parent a) as [exit a1]; simpl in *; subst.
  - rewrite walk_node_kids. cbn [visits_node foldl]. unfold visit at 2. simpl.
    destruct (callback unit parent a) as [exit a1]. simpl.
    generalize (hidden || mustExclude unit). intros hidden'. revert a1.
    induction IH as [|kid kids Hkid _ IHkids]; intros a1; simpl; [done|].
    rewrite (Hkid hidden' (Some unit) a1). rewrite foldl_app. apply IHkids.
Qed.

Lemma walkTree_visits tree a :
  (∀ unit parent a, (callback unit parent a).1 = false) →
  _walkTree callback tree None a = (false, foldl (visit callback) a (visits tree)).
Proof.
  intros Hgo. unfold _walkTree, visits. revert a.
  induction tree as [|n tree IH]; intros a; simpl; [done|].
  rewrite (walk_node_visits n Hgo false None a). rewrite foldl_app. apply IH.
Qed.

End WalkFacts.

Lemma visits_node_head hidden n parent :
  (hidden || mustExclude (node_unit n), node_unit n, parent)
  ∈ visits_node hidden n parent.
Proof. destruct n as [unit kids]. simpl. by left. Qed.

Lemma visits_node_spec n :
  ∀ hidden parent h unit p,
    (h, unit, p) ∈ visits_node hidden n parent →
    (unit = node_unit n ∧ p = parent ∧ h = hidden || mustExclude unit)
    ∨ ∃ parentUnit hidden' parent',
        p = Some parentUnit
        ∧ (hidden', parentUnit, parent') ∈ visits_node hidden n parent
        ∧ h = hidden' || mustExclude unit.
Proof.
  induction n as [unit0|unit0 kids IH] using Node_ind_kids;
    intros hidden parent h unit p; simpl.
  - intros [[= -> -> ->]|Hin%elem_of_nil]%elem_of_cons; [|done]. by left.
  - intros [[= -> -> ->]|Hin]%elem_of_cons; [by left|]. right.
    apply list_elem_of_In, in_flat_map in Hin as (kid & Hkid & Hin).
    apply list_elem_of_In in Hin, Hkid.
    rewrite Forall_forall in IH.
    destruct (IH kid Hkid _ _ _ _ _ Hin)
      as [(-> & -> & ->) | (parentUnit & hidden' & parent' & -> & Hp & ->)].
    + exists unit0, (hidden || mustExclude unit0), parent.
      split; [done|]. split; [by left | done].
    + exists parentUnit, hidden', parent'. split; [done|]. split; [|done].
      right. apply list_elem_of_In, in_flat_map. exists kid.
      split; by apply list_elem_of_In.
Qed.

Lemma visits_coherent tree : coherent (visits tree).
Proof.
  intros h unit p Hin. unfold visits in *.
  apply list_elem_of_In, in_flat_map in Hin as (n & Hn & Hin).
  apply list_elem_of_In in Hin.
  destruct (visits_node_spec n _ _ _ _ _ Hin)
    as [(-> & -> & ->) | (parentUnit & hidden' & parent' & -> & Hp & ->)].
  - done.
  - exists hidden', parent'. split; [|done].
    apply list_elem_of_In, in_flat_map. exists n. split; [done|].
    by apply list_elem_of_In.
Qed.

Lemma on_side_unit vs hidden unit parent key :
  (hidden, unit, parent) ∈ vs → key ∈ unit_keys unit → on_side vs hidden key.
Proof. intros Hin Hkey. destruct hidden; exists unit, parent; done. Qed.

Lemma keys_apart_disjoint vs key :
  keys_apart vs → hidden_key vs key → shown_key vs key → False.
Proof.
  intros Hapart (u1 & p1 & Hin1 & Hkey1) (u2 & p2 & Hin2 & Hkey2).
  unfold keys_apart in Hapart. rewrite Forall_forall in Hapart.
  specialize (Hapart _ Hin1). rewrite Forall_forall in Hapart.
  specialize (Hapart _ Hin2 eq_refl eq_refl). rewrite Forall_forall in Hapart.
  exact (Hapart _ Hkey1 Hkey2).
Qed.

Lemma sides_kept_empty vs : sides_kept vs ∅.
Proof. intros key proxy child Hkey. by rewrite lookup_empty in Hkey. Qed.

Lemma sides_kept_get vs id template data reg :
  sides_kept vs reg → sides_kept vs (getHtmlElementProxy id template data reg).
Proof.
  intros Hreg. unfold getHtmlElementProxy. destruct (reg !! id) eqn:Hid; [done|].
  intros key proxy child [[_ <-]|[_ Hkey]]%lookup_insert_Some Hchild.
  - simpl in Hchild. by apply elem_of_nil in Hchild.
  - by eapply Hreg.
Qed.

Lemma sides_kept_add vs hidden parent child reg :
  sides_kept vs reg → on_side vs hidden parent → on_side vs hidden child →
  sides_kept vs (addChild parent child reg).
Proof.
  intros Hreg Hparent Hchild key proxy child'. unfold addChild.
  intros [(-> & old & Hold & ->)|[_ Hkey]]%lookup_alter_Some; [|by eapply Hreg].
  simpl. intros [Hin|Hin%list_elem_of_singleton]%elem_of_app.
  - by eapply Hreg.
  - subst child'. destruct hidden; [by left | by right].
Qed.

Ltac unit_key :=
  unfold unit_keys; cbv zeta;
  repeat first [ apply list_elem_of_here | apply list_elem_of_further ].

Lemma nav_callback_ok Path docId vs hidden unit parent b :
  coherent vs → (hidden, unit, parent) ∈ vs → builder_ok vs b →
  builder_ok vs (nav_callback Path docId unit parent b).2.
Proof.
  intros Hvs Hin [Hreg Hroot]. unfold nav_callback.
  destruct (mustExclude unit) eqn:Hexcl; [done|].
  pose proof (λ key, on_side_unit vs hidden unit parent key Hin) as Hself.
  pose proof (Hvs _ _ _ Hin) as Hparent. rewrite Hexcl in Hparent.
  destruct parent as [parentUnit|]; cbv zeta.
  - destruct Hparent as (hidden' & parent' & Hin' & ->).
    rewrite orb_false_r in *.
    assert (on_side vs hidden' (filePath parentUnit)) as Hpar.
    { eapply on_side_unit; [done|]. unit_key. }
    destruct (isNode unit); [|destruct (bool_decide (fileExtension unit = DIR))];
      [destruct (bool_decide (fileExtension unit = DIR))|..];
      (split; [cbn [snd registry]|done]);
      repeat first [ apply sides_kept_get | apply (sides_kept_add vs hidden') ];
      first [ done | apply Hself; unit_key ].
  - subst hidden. split; cbn [snd registry rootHtmlEl].
    + repeat first [ apply sides_kept_get | apply (sides_kept_add vs false) ];
        first [ done | apply Hself; unit_key ].
    + intros root [= <-]. apply (Hself (filePath unit ++ lit "#container")).
      unit_key.
Qed.

Lemma nav_callback_continues Path docId unit parent b :
  (nav_callback Path docId unit parent b).1 = false.
Proof.
  unfold nav_callback. destruct (mustExclude unit); [done|].
  destruct parent; [|done].
  destruct (isNode unit); [done|].
  by destruct (bool_decide (fileExtension unit = DIR)).
Qed.

Lemma build_navigation_visits Path docId tree :
  build_navigation Path docId tree
  = foldl (visit (nav_callback Path docId)) (mkBuilder ∅ None) (visits tree).
Proof.
  unfold build_navigation. rewrite walkTree_visits; [done|].
  intros unit parent b. apply nav_callback_continues.
Qed.

Lemma visits_ok Path docId vs todo b :
  coherent vs → todo ⊆ vs → builder_ok vs b →
  builder_ok vs (foldl (visit (nav_callback Path docId)) b todo).
Proof.
  intros Hvs. revert b.
  induction todo as [|[[hidden unit] parent] todo IH]; intros b Hsub Hb; [done|].
  cbn [foldl]. apply IH.
  - intros v Hv. apply Hsub. by right.
  - unfold visit. cbn [fst snd]. eapply nav_callback_ok; [done| |done].
    apply Hsub. by left.
Qed.

Lemma build_navigation_ok Path docId tree :
  builder_ok (visits tree) (build_navigation Path docId tree).
Proof.
  rewrite build_navigation_visits.
  apply visits_ok; [apply visits_coherent | done |].
  split; [apply sides_kept_empty | done].
Qed.

Lemma attached_shown vs reg root key :
  keys_apart vs → sides_kept vs reg → shown_key vs root →
  attached reg root key → shown_key vs key.
Proof.
  intros Hapart Hreg Hroot. induction 1 as [|id proxy child _ IH Hid Hchild]; [done|].
  destruct (Hreg _ _ _ Hid Hchild) as [[Hhidden _]|[_ Hshown]]; [|done].
  by destruct (keys_apart_disjoint vs id).
Qed.

(** *** The walk of the pruned tree *)

Lemma filter_shown_hidden n :
  ∀ parent, filter shown (visits_node true n parent) = [].
Proof.
  induction n as [unit|unit kids IH] using Node_ind_kids; intros parent.
  - done.
  - cbn [visits_node orb]. rewrite filter_cons_False by done.
    induction IH as [|kid kids Hkid _ IHkids]; [done|].
    cbn [flat_map]. by rewrite filter_app, Hkid, IHkids.
Qed.

Lemma visits_prune_node n :
  ∀ parent,
    match prune_node n with
    | Some n' => visits_node false n' parent
    | None => []
    end = filter shown (visits_node false n parent).
Proof.
  induction n as [unit|unit kids IH] using Node_ind_kids; intros parent.
  - cbn [prune_node visits_node orb]. destruct (mustExclude unit) eqn:Hexcl.
    + by rewrite filter_cons_False.
    + rewrite filter_cons_True by done. cbn [visits_node orb].
      by rewrite Hexcl.
  - cbn [prune_node visits_node orb]. destruct (mustExclude unit) eqn:Hexcl.
    + rewrite filter_cons_False by done. clear IH.
      induction kids as [|kid kids IHkids]; [done|].
      cbn [flat_map]. by rewrite filter_app, filter_shown_hidden, <- IHkids.
    + rewrite filter_cons_True by done. cbn [visits_node orb].
      rewrite Hexcl. f_equal.
      induction IH as [|kid kids Hkid _ IHkids]; [done|].
      cbn [flat_map omap list_omap]. rewrite filter_app, <- Hkid, <- IHkids.
      by destruct (prune_node kid).
Qed.

Lemma visits_prune tree : visits (prune tree) = filter shown (visits tree).
Proof.
  unfold visits, prune. induction tree as [|n tree IH]; [done|].
  cbn [flat_map omap list_omap]. rewrite filter_app, <- visits_prune_node, <- IH.
  by destruct (prune_node n).
Qed.

(** *** What a visit does to one proxy *)

Lemma getHtmlElementProxy_congr (id : str) (template args : list str) (reg1 reg2 : gmap str HtmlElementProxy) key :
  reg1 !! key = reg2 !! key →
  getHtmlElementProxy id template args reg1 !! key
  = getHtmlElementProxy id template args reg2 !! key.
Proof.
  intros Hkey. unfold getHtmlElementProxy. destruct (decide (key = id)) as [->|Hne].
  - rewrite <- Hkey. destruct (reg1 !! id) eqn:Hid.
    + by rewrite Hid.
    + by rewrite !lookup_insert_eq.
  - destruct (reg1 !! id), (reg2 !! id);
      rewrite ?lookup_insert_ne by done; done.
Qed.

Lemma addChild_congr (parent child : str) (reg1 reg2 : gmap str HtmlElementProxy) key :
  reg1 !! key = reg2 !! key →
  addChild parent child reg1 !! key = addChild parent child reg2 !! key.
Proof.
  intros Hkey. unfold addChild. destruct (decide (key = parent)) as [->|Hne].
  - by rewrite !lookup_alter_eq, Hkey.
  - by rewrite !lookup_alter_ne.
Qed.

Lemma getHtmlElementProxy_other (id : str) (template args : list str) (reg : gmap str HtmlElementProxy) key :
  key ≠ id → getHtmlElementProxy id template args reg !! key = reg !! key.
Proof.
  intros Hne. unfold getHtmlElementProxy. destruct (reg !! id); [done|].
  by rewrite lookup_insert_ne.
Qed.

Lemma addChild_other (parent child : str) (reg : gmap str HtmlElementProxy) key :
  key ≠ parent → addChild parent child reg !! key = reg !! key.
Proof. intros Hne. unfold addChild. by rewrite lookup_alter_ne. Qed.

Lemma agree_trans vs b1 b2 b3 : agree vs b1 b2 → agree vs b2 b3 → agree vs b1 b3.
Proof.
  intros [Hroot1 Hreg1] [Hroot2 Hreg2]. split; [congruence|].
  intros key Hkey. by rewrite Hreg1, Hreg2.
Qed.

(** A visit does the same to two builders that agree. *)
Lemma nav_callback_congr Path docId vs unit parent b1 b2 :
  agree vs b1 b2 →
  agree vs (nav_callback Path docId unit parent b1).2
           (nav_callback Path docId unit parent b2).2.
Proof.
  intros [Hroot Hreg]. unfold nav_callback.
  destruct (mustExclude unit); [done|].
  destruct parent as [parentUnit|]; cbv zeta;
    [destruct (isNode unit); destruct (bool_decide (fileExtension unit = DIR))|];
    (split; cbn [snd registry rootHtmlEl]; [done|]);
    intros key Hkey;
    repeat first [ apply getHtmlElementProxy_congr | apply addChild_congr ];
    by apply Hreg.
Qed.

(** The visit of a hidden unit leaves the shown side as it was. *)
Lemma nav_callback_hidden Path docId vs unit parent b :
  keys_apart vs → coherent vs → (true, unit, parent) ∈ vs →
  agree vs (nav_callback Path docId unit parent b).2 b.
Proof.
  intros Hapart Hvs Hin. unfold nav_callback.
  destruct (mustExclude unit) eqn:Hexcl; [done|].
  pose proof (λ key, on_side_unit vs true unit parent key Hin) as Hself.
  pose proof (Hvs _ _ _ Hin) as Hparent. rewrite Hexcl in Hparent.
  destruct parent as [parentUnit|]; [|done].
  destruct Hparent as (hidden' & parent' & Hin' & Hhidden).
  rewrite orb_false_r in Hhidden. subst hidden'.
  assert (on_side vs true (filePath parentUnit)) as Hpar.
  { eapply on_side_unit; [done|]. unit_key. }
  assert (∀ key key', shown_key vs key → on_side vs true key' → key ≠ key')
    as Hne.
  { intros key key' Hshown Hhidden ->. by eapply keys_apart_disjoint. }
  cbv zeta.
  destruct (isNode unit); destruct (bool_decide (fileExtension unit = DIR));
    (split; cbn [snd registry rootHtmlEl]; [done|]);
    intros key Hkey;
    repeat first
      [ rewrite getHtmlElementProxy_other
          by (apply Hne; [done|]; first [ exact Hpar | apply Hself; unit_key ])
      | rewrite addChild_other
          by (apply Hne; [done|]; first [ exact Hpar | apply Hself; unit_key ]) ];
    done.
Qed.

Lemma visits_agree Path docId vs todo b1 b2 :
  keys_apart vs → coherent vs → todo ⊆ vs → agree vs b1 b2 →
  agree vs (foldl (visit (nav_callback Path docId)) b1 todo)
           (foldl (visit (nav_callback Path docId)) b2 (filter shown todo)).
Proof.
  intros Hapart Hvs. revert b1 b2.
  induction todo as [|[[hidden unit] parent] todo IH]; intros b1 b2 Hsub Hb; [done|].
  assert (todo ⊆ vs) as Hsub' by (intros v Hv; apply Hsub; by right).
  assert ((hidden, unit, parent) ∈ vs) as Hin by (apply Hsub; by left).
  destruct hidden.
  - rewrite filter_cons_False by done. cbn [foldl]. apply IH; [done|].
    eapply agree_trans; [|exact Hb]. unfold visit. cbn [fst snd].
    by apply nav_callback_hidden.
  - rewrite filter_cons_True by done. cbn [foldl]. apply IH; [done|].
    unfold visit. cbn [fst snd]. by apply nav_callback_congr.
Qed.

(** The builder of a tree and the builder of the pruned tree agree. *)
Lemma build_navigation_prune Path docId tree :
  keys_apart (visits tree) →
  agree (visits tree) (build_navigation Path docId tree)
                      (build_navigation Path docId (prune tree)).
Proof.
  intros Hapart. rewrite !build_navigation_visits, visits_prune.
  apply visits_agree; [done | apply visits_coherent | done | done].
Qed.

(** What is rendered depends on the proxies of the shown side only. *)
Lemma render_agree (vs : list (bool * Unit * option Unit))
    (reg1 reg2 : gmap str HtmlElementProxy) (fuel : nat) :
  keys_apart vs → sides_kept vs reg1 →
  (∀ key, shown_key vs key → reg1 !! key = reg2 !! key) →
  ∀ id, shown_key vs id → render fuel reg1 id = render fuel reg2 id.
Proof.
  intros Hapart Hsides Hreg.
  induction fuel as [|fuel IH]; intros id Hid; [done|].
  cbn [render]. rewrite <- (Hreg id Hid).
  destruct (reg1 !! id) as [proxy|] eqn:Hproxy; [|done].
  assert (Forall (shown_key vs) (_children proxy)) as Hchildren.
  { apply Forall_forall. intros child Hchild.
    destruct (Hsides _ _ _ Hproxy Hchild) as [[Hhidden _]|[_ Hshown]]; [|done].
    by destruct (keys_apart_disjoint vs id). }
  assert (mapM (render fuel reg1) (_children proxy)
          = mapM (render fuel reg2) (_children proxy)) as ->; [|done].
  induction Hchildren as [|child children Hchild _ IHchildren]; [done|].
  cbn [mapM]. by rewrite (IH child Hchild), IHchildren.
Qed.

(** C7 (as the engine has it): a unit with [mustExclude] set is skipped by
    the builder, which leaves the registry and the root as they are.  The
    walk does not stop there: it goes on into the children of an excluded
    unit and the builder is called on each of them.  What is built for them
    hangs from an element that is never linked to the root container, so,
    the keys of hidden and shown units being apart, the markup is the one of
    the tree pruned at its excluded units, and no element of an excluded
    unit or of a unit below one is reached from the root. *)
Theorem excluded_units_not_rendered Path prettify fuel docId tree :
  keys_apart (visits tree) →
  (∀ unit parent b,
     mustExclude unit = true → nav_callback Path docId unit parent b = (false, b))
  ∧ _buildHtmlNavigation Path prettify fuel docId tree
    = _buildHtmlNavigation Path prettify fuel docId (prune tree)
  ∧ (∀ root unit parent key,
       rootHtmlEl (build_navigation Path docId tree) = Some root →
       (true, unit, parent) ∈ visits tree →
       key ∈ unit_keys unit →
       ¬ attached (registry (build_navigation Path docId tree)) root key).
Proof.
  intros Hapart.
  destruct (build_navigation_ok Path docId tree) as [Hsides Hroot].
  destruct (build_navigation_prune Path docId tree Hapart) as [Hroots Hreg].
  split; [|split].
  - intros unit parent b Hexcl. unfold nav_callback. by rewrite Hexcl.
  - unfold _buildHtmlNavigation. cbv zeta. rewrite <- Hroots.
    destruct (rootHtmlEl (build_navigation Path docId tree)) as [root|] eqn:Hr;
      [|done].
    f_equal. eapply render_agree; [done..|]. by apply Hroot.
  - intros root unit parent key Hr Hin Hkey Hatt.
    apply (keys_apart_disjoint (visits tree) key Hapart).
    + by exists unit, parent.
    + eapply attached_shown; [done..| |done]. by apply Hroot.
Qed.

Lemma excluded_units_not_rendered_witness :
  keys_apart (visits Sample.assets_tree)
  ∧ (∀ unit parent b,
       mustExclude unit = true →
       nav_callback Sample.Path (lit "/root/1 A.txt") unit parent b = (false, b))
  ∧ _buildHtmlNavigation Sample.Path id 10 (lit "/root/1 A.txt") Sample.assets_tree
    = _buildHtmlNavigation Sample.Path id 10 (lit "/root/1 A.txt")
        (prune Sample.assets_tree)
  ∧ (∀ root unit parent key,
       rootHtmlEl (build_navigation Sample.Path (lit "/root/1 A.txt")
                     Sample.assets_tree) = Some root →
       (true, unit, parent) ∈ visits Sample.assets_tree →
       key ∈ unit_keys unit →
       ¬ attached (registry (build_navigation Sample.Path (lit "/root/1 A.txt")
                               Sample.assets_tree)) root key).
Proof.
  assert (keys_apart (visits Sample.assets_tree)) as Hapart.
  { apply (bool_decide_unpack _). by vm_compute. }
  split; [exact Hapart|].
  exact (excluded_units_not_rendered Sample.Path id 10 (lit "/root/1 A.txt")
           Sample.assets_tree Hapart).
Defined.

(** C7, against its words: the subtree of an excluded unit is visited.  In
    [/root] with the excluded folder [assets], the walk calls its callback
    on [assets/notes.txt] with [assets] as parent, and the builder registers
    the item of [notes.txt] as a child of the element of [assets]. *)
Lemma excluded_subtree_is_visited :
  (_walkTree
     (λ unit parent seen,
        (false, seen ++ [(filePath unit, mustExclude unit, filePath <$> parent)]))
     Sample.assets_tree None []).2
  = [ (lit "/root", false, None);
      (lit "/root/1 A.txt", false, Some (lit "/root"));
      (lit "/root/assets", true, Some (lit "/root"));
      (lit "/root/assets/notes.txt", false, Some (lit "/root/assets")) ]
  ∧ _children <$>
      registry (build_navigation Sample.Path (lit "/root/1 A.txt")
                  Sample.assets_tree) !! lit "/root/assets"
    = Some [lit "/root/assets/notes.txt"].
Proof. split; vm_compute; reflexivity. Qed.

(** The markup of that index has the one item of [1 A.txt]. *)
Example assets_navigation :
  _buildHtmlNavigation Sample.Path id 10 (lit "/root/1 A.txt") Sample.assets_tree
  = Some (vsprintf NAV_ROOT_TEMPLATE
      [NEWLINE ++ vsprintf NAV_GROUP_TEMPLATE
        [NEWLINE ++ vsprintf NAV_ITEM_TEMPLATE
          [NEWLINE ++ vsprintf NAV_ITEM_CONTENT_TEMPLATE
            [NEWLINE ++ vsprintf LINK_TEMPLATE [lit "1 A.html"; lit "1. A"; NEWLINE ++ NEWLINE]
             ++ NEWLINE]
           ++ NEWLINE]
         ++ NEWLINE]
       ++ NEWLINE]).
Proof. vm_compute. reflexivity. Qed.

(** * Further properties of the engine *)

(** ** NumberingCodec *)

(** X1. Swapping the arguments of [_multiPartComparison] negates its
    result, whatever the units. *)
Theorem multiPartComparison_swap unitA unitB :
  _multiPartComparison unitB unitA = (- _multiPartComparison unitA unitB)%Z.
Proof. unfold _multiPartComparison. apply compare_numbering_antisym. Qed.

Lemma compare_numbering_zero a b :
  a ≠ [] → b ≠ [] →
  compare_numbering (Some a) (Some b) = 0%Z ↔ a = b.
Proof.
  intros Ha Hb. rewrite compare_numbering_Some by done.
  destruct (compare_loop a b 0 _) as [delta|] eqn:Hloop.
  - apply compare_loop_Some in Hloop as (k & Hk & Htie & -> & Hne).
    split; [done|]. intros ->. lia.
  - rewrite compare_loop_None in Hloop. split.
    + intros Hlen. apply list_eq. intros i.
      destruct (decide (i < length a)) as [Hi|Hi].
      * specialize (Hloop i ltac:(lia)). unfold segment_at in Hloop. simpl in Hloop.
        destruct (lookup_lt_is_Some_2 a i Hi) as [x Hx].
        destruct (lookup_lt_is_Some_2 b i ltac:(lia)) as [y Hy].
        rewrite Hx, Hy in *. simpl in Hloop. by subst.
      * rewrite !lookup_ge_None_2 by lia. done.
    + intros ->. lia.
Qed.

(** X2. On units that carry a numbering [_multiPartComparison] is a total
    order on the numberings: it is transitive, and it returns 0 for equal
    numberings only. *)
Theorem multiPartComparison_orders_numbered unitA unitB unitC :
  numbered unitA → numbered unitB → numbered unitC →
  ((_multiPartComparison unitA unitB ≤ 0)%Z →
   (_multiPartComparison unitB unitC ≤ 0)%Z →
   (_multiPartComparison unitA unitC ≤ 0)%Z)
  ∧ (_multiPartComparison unitA unitB = 0%Z ↔ numbering unitA = numbering unitB).
Proof.
  unfold _multiPartComparison.
  intros (a & -> & Ha) (b & -> & Hb) (c & -> & Hc). split.
  - by apply compare_numbering_trans.
  - rewrite compare_numbering_zero by done. split; [by intros -> | by intros [= ->]].
Qed.

Lemma multiPartComparison_orders_numbered_witness :
  let unit key := set_numbering key [] no_unit in
  (numbered (unit [1; 0]%Z) ∧ numbered (unit [1; 0; 0]%Z) ∧ numbered (unit [2]%Z))
  ∧ ((_multiPartComparison (unit [1; 0]%Z) (unit [1; 0; 0]%Z) ≤ 0)%Z →
     (_multiPartComparison (unit [1; 0; 0]%Z) (unit [2]%Z) ≤ 0)%Z →
     (_multiPartComparison (unit [1; 0]%Z) (unit [2]%Z) ≤ 0)%Z)
  ∧ (_multiPartComparison (unit [1; 0]%Z) (unit [1; 0; 0]%Z) = 0%Z
     ↔ numbering (unit [1; 0]%Z) = numbering (unit [1; 0; 0]%Z)).
Proof.
  intros unit.
  assert (∀ key, key ≠ [] → numbered (unit key)) as Hnumbered.
  { intros key Hkey. by exists key. }
  pose proof (Hnumbered [1; 0]%Z ltac:(done)) as HA.
  pose proof (Hnumbered [1; 0; 0]%Z ltac:(done)) as HB.
  pose proof (Hnumbered [2]%Z ltac:(done)) as HC.
  split; [done|].
  exact (multiPartComparison_orders_numbered _ _ _ HA HB HC).
Defined.

Lemma parseInt_digits_nonneg token acc :
  Forall (λ c, Chars.is_digit c = true) token → (0 ≤ acc)%Z →
  (0 ≤ foldl (λ acc c, 10 * acc + digit_value c) acc token)%Z.
Proof.
  intros Htoken. revert acc.
  induction Htoken as [|c token Hc _ IH]; intros acc Hacc; simpl; [done|].
  apply IH. unfold digit_value, Chars.is_digit in *.
  apply andb_true_iff in Hc as [Hlo%N.leb_le _]. lia.
Qed.

Lemma extractNumbering_nonneg (text : option str) :
  match _extractNumbering text with
  | Some numbering => numbering ≠ [] ∧ Forall (λ n, (0 ≤ n)%Z) numbering
  | None => True
  end.
Proof.
  destruct text as [text|]; [|done].
  rewrite extractNumbering_tokens.
  destruct (digit_runs (leading_run text)) as [|token tokens] eqn:Htokens; [done|].
  split; [done|]. rewrite <- Htokens.
  apply Forall_map, Forall_forall. intros t Ht. simpl.
  apply (digit_runs_from_tokens []) in Ht as [_ Hdigits]; [|constructor].
  rewrite strip_zeros_value. by apply parseInt_digits_nonneg.
Qed.

Lemma parseInt_snoc token c :
  parseInt (token ++ [c]) = (10 * parseInt token + digit_value c)%Z.
Proof. unfold parseInt. by rewrite foldl_app. Qed.

Lemma pretty_N_char_digit m :
  (m < 10)%N →
  Chars.is_digit (pretty_N_char m) = true ∧ digit_value (pretty_N_char m) = Z.of_N m.
Proof.
  intros Hm.
  assert (m = 0 ∨ m = 1 ∨ m = 2 ∨ m = 3 ∨ m = 4 ∨ m = 5 ∨ m = 6 ∨ m = 7
          ∨ m = 8 ∨ m = 9)%N as Hcases by lia.
  destruct_or!; subst m; done.
Qed.

(** The decimal digits [pretty] writes for a number read back as it. *)
Lemma pretty_N_go_digits x :
  ∀ s, ∃ digits,
    lit (pretty_N_go x s) = digits ++ lit s
    ∧ Forall (λ c, Chars.is_digit c = true) digits
    ∧ parseInt digits = Z.of_N x
    ∧ ((0 < x)%N → digits ≠ []).
Proof.
  induction (N.lt_wf_0 x) as [x _ IH]; intros s.
  destruct (decide (x = 0%N)) as [->|Hx].
  { exists []. rewrite pretty_N_go_0. repeat split; [constructor | lia]. }
  rewrite pretty_N_go_step by lia.
  destruct (IH (x `div` 10)%N ltac:(apply N.div_lt; lia)
              (String (pretty_N_char (x `mod` 10)) s))
    as (digits & Hdigits & Hall & Hvalue & _).
  destruct (pretty_N_char_digit (x `mod` 10)%N ltac:(by apply N.mod_lt))
    as [Hdigit Hlast].
  exists (digits ++ [pretty_N_char (x `mod` 10)]). repeat split.
  - rewrite Hdigits. simpl. by rewrite <- app_assoc.
  - apply Forall_app. split; [done | by constructor].
  - rewrite parseInt_snoc, Hvalue, Hlast.
    rewrite (N.div_mod x 10) at 3 by done. lia.
  - intros _. by destruct digits.
Qed.

Lemma pretty_Z_digits (n : Z) :
  (0 ≤ n)%Z →
  lit (pretty n) ≠ []
  ∧ Forall (λ c, Chars.is_digit c = true) (lit (pretty n))
  ∧ parseInt (lit (pretty n)) = n.
Proof.
  intros Hn. destruct n as [|p|p]; [by repeat constructor | | lia].
  unfold pretty, pretty_Z, pretty, pretty_positive, pretty, pretty_N.
  rewrite decide_False by done.
  destruct (pretty_N_go_digits (N.pos p) EmptyString)
    as (digits & Hdigits & Hall & Hvalue & Hne).
  simpl in Hdigits. rewrite app_nil_r in Hdigits. rewrite Hdigits.
  split; [apply Hne; lia|]. split; [done|]. by rewrite Hvalue.
Qed.

Lemma digit_runs_from_digits cur digits rest :
  Forall (λ c, Chars.is_digit c = true) digits →
  digit_runs_from cur (digits ++ rest) = digit_runs_from (cur ++ digits) rest.
Proof.
  intros Hdigits. revert cur.
  induction Hdigits as [|c digits Hc _ IH]; intros cur; simpl.
  - by rewrite app_nil_r.
  - rewrite Hc, IH. by rewrite <- app_assoc.
Qed.

(** The runs of digits of tokens joined by dots are the tokens. *)
Lemma digit_runs_join tokens rest :
  tokens ≠ [] →
  Forall (λ token, token ≠ [] ∧ Forall (λ c, Chars.is_digit c = true) token) tokens →
  Forall (λ c, Chars.is_digit c = false) rest →
  digit_runs (JsString.join (lit ".") tokens ++ rest) = tokens.
Proof.
  intros Hne Htokens Hrest. unfold digit_runs.
  induction Htokens as [|token tokens [Htoken Hdigits] Htokens IH]; [done|].
  destruct tokens as [|token' tokens].
  - simpl. rewrite digit_runs_from_digits by done. simpl.
    rewrite digit_runs_from_nondigits by done. by destruct token.
  - change (JsString.join (lit ".") (token :: token' :: tokens))
      with (token ++ lit "." ++ JsString.join (lit ".") (token' :: tokens)).
    rewrite <- !app_assoc. rewrite digit_runs_from_digits by done. simpl.
    destruct token; [done|]. f_equal. by apply IH.
Qed.

Lemma Forall_join (P : ascii → Prop) sep parts :
  Forall P sep → Forall (Forall P) parts → Forall P (JsString.join sep parts).
Proof.
  intros Hsep Hparts. induction Hparts as [|part parts Hpart Hparts IH]; [constructor|].
  destruct parts as [|part' parts]; [done|].
  change (JsString.join sep (part :: part' :: parts))
    with (part ++ sep ++ JsString.join sep (part' :: parts)).
  by rewrite !Forall_app.
Qed.

Lemma is_digit_not_alpha c : Chars.is_digit c = true → Chars.is_alpha c = false.
Proof. destruct c as [[] [] [] [] [] [] [] []]; done. Qed.

Lemma leading_run_signature numbering label :
  Forall (λ n, (0 ≤ n)%Z) numbering →
  leading_run (signature_of numbering ++ label)
  = signature_of numbering ++ leading_run label.
Proof.
  intros Hpos. unfold leading_run. rewrite take_run_app.
  assert (forallb (λ c, negb (Chars.is_alpha c)) (signature_of numbering) = true)
    as ->; [|done].
  apply forallb_Forall_true. unfold signature_of.
  apply Forall_app. split; [|by repeat constructor].
  apply Forall_join; [by repeat constructor|].
  apply Forall_map. eapply Forall_impl; [exact Hpos|]. intros n Hn. simpl.
  destruct (pretty_Z_digits n Hn) as (_ & Hdigits & _).
  eapply Forall_impl; [exact Hdigits|]. intros c Hc. simpl.
  by rewrite (is_digit_not_alpha c Hc).
Qed.

Lemma extractNumbering_signature (numbering : list Z) (label : str) :
  numbering ≠ [] →
  Forall (λ n, (0 ≤ n)%Z) numbering →
  Forall (λ c, Chars.is_digit c = false) (leading_run label) →
  _extractNumbering (Some (signature_of numbering ++ label)) = Some numbering.
Proof.
  intros Hne Hpos Hlabel. rewrite extractNumbering_tokens.
  rewrite leading_run_signature by done.
  set (tokens := map (λ n, lit (pretty n)) numbering).
  assert (Forall (λ token, token ≠ [] ∧ Forall (λ c, Chars.is_digit c = true) token)
            tokens) as Htokens.
  { apply Forall_map. eapply Forall_impl; [exact Hpos|].
    intros n Hn. simpl. destruct (pretty_Z_digits n Hn) as (? & ? & _). done. }
  unfold signature_of. fold tokens. rewrite <- app_assoc.
  rewrite digit_runs_join;
    [| by destruct numbering | done
     | apply Forall_app; split; [by repeat constructor | done]].
  destruct tokens as [|token tokens'] eqn:Heq; [by destruct numbering|].
  rewrite <- Heq. f_equal. unfold tokens. rewrite map_map.
  rewrite <- (map_id numbering) at 2. apply map_ext_Forall.
  eapply Forall_impl; [exact Hpos|]. intros n Hn. simpl.
  rewrite strip_zeros_value. by destruct (pretty_Z_digits n Hn) as (_ & _ & ->).
Qed.

(** X6. The numbering signature reads back: [_extractNumbering] on a text
    made of the signature of a numbering of safe integers (its numbers
    joined by dots, then a dot and a space) and of a label that has no digit
    before its first letter returns that numbering. *)
Theorem signature_reads_back (numbering : list Z) (label : str) :
  numbering ≠ [] →
  Forall safe_integer numbering →
  Forall (λ c, Chars.is_digit c = false) (leading_run label) →
  _extractNumbering (Some (signature_of numbering ++ label)) = Some numbering.
Proof.
  intros Hne Hsafe. apply extractNumbering_signature; [done|].
  eapply Forall_impl; [exact Hsafe|]. by intros n [Hn _].
Qed.

Lemma signature_reads_back_witness :
  [1; 0; 12]%Z ≠ []
  ∧ Forall safe_integer [1; 0; 12]%Z
  ∧ Forall (λ c, Chars.is_digit c = false) (leading_run (lit "Intro 2"))
  ∧ _extractNumbering (Some (signature_of [1; 0; 12]%Z ++ lit "Intro 2"))
    = Some [1; 0; 12]%Z.
Proof.
  assert ([1; 0; 12]%Z ≠ []) as Hne by done.
  assert (Forall safe_integer [1; 0; 12]%Z) as Hsafe.
  { repeat constructor; unfold MAX_SAFE_INTEGER; lia. }
  assert (Forall (λ c, Chars.is_digit c = false) (leading_run (lit "Intro 2")))
    as Hlabel by constructor.
  split; [exact Hne|]. split; [exact Hsafe|]. split; [exact Hlabel|].
  exact (signature_reads_back [1; 0; 12]%Z (lit "Intro 2") Hne Hsafe Hlabel).
Defined.

(** X3. What [_extractNumbering] returns is null or an array that is not
    empty and holds no negative number. *)
Theorem extractNumbering_values (text : option str) :
  match _extractNumbering text with
  | Some numbering => numbering ≠ [] ∧ Forall (λ n, (0 ≤ n)%Z) numbering
  | None => True
  end.
Proof. apply extractNumbering_nonneg. Qed.

(** ** PathLinker *)

(** X4. Whatever the paths and the host's path module, the URL that
    [_makeRelUrl] builds holds no backslash and does not start with a
    separator. *)
Theorem makeRelUrl_is_relative Path fromPath toPath fileType assumeFolders :
  let url := _makeRelUrl Path fromPath toPath fileType assumeFolders in
  Forall (λ c, Chars.is_backslash c = false) url
  ∧ from_option (λ c, Chars.is_sep c = false) True (head url).
Proof.
  cbv zeta. split.
  { apply replace_runs_no_class, slash_not_backslash. }
  unfold _makeRelUrl. cbv zeta.
  fold (clean_segment
    (Path.relative Path (Path.dirname Path fromPath) (Path.dirname Path toPath))).
  fold (clean_segment (changeFileExtension Path (getFileName Path toPath false) fileType)).
  assert (∀ s : str, from_option (λ c, Chars.is_sep c = false) True (head s) →
            from_option (λ c, Chars.is_sep c = false) True
              (head (JsString.replace_all Chars.is_backslash (lit "/") s))) as Hhead.
  { intros [|c s]; [done|]. simpl. intros Hc.
    by rewrite (replace_all_head _ _ (c :: s) c eq_refl (is_sep_backslash _ Hc)). }
  apply Hhead.
  pose proof (clean_segment_head
    (Path.relative Path (Path.dirname Path fromPath) (Path.dirname Path toPath)))
    as Hrel.
  pose proof (clean_segment_head
    (changeFileExtension Path (getFileName Path toPath false) fileType)) as Hname.
  destruct (clean_segment (Path.relative _ _ _)) as [|c relPath].
  - destruct assumeFolders; simpl; [done|].
    destruct (clean_segment (changeFileExtension _ _ _)) as [|d name]; simpl; [done|].
    by apply Hname.
  - specialize (Hrel c eq_refl). by destruct assumeFolders.
Qed.

(** ** LabelFormatter *)

(** X5. A label of ASCII characters that holds text but only digits,
    punctuation and underscores comes back from [tidyUpLabel] as the empty
    string when the numbering is to be removed. *)
Theorem tidyUpLabel_only_numbering optionsData (label : str) :
  JsString.ascii_text label →
  JsString.trim label ≠ [] →
  Forall (λ c, NUMBERING_PATTERN c = true) label →
  tidyUpLabel optionsData (Some label) true = Some [].
Proof.
  intros _ Htext Hnum. unfold tidyUpLabel. simpl default.
  destruct (JsString.trim label) as [|c trimmed] eqn:Htrim; [done|].
  cbn [JsString.truthy negb]. f_equal.
  assert (Forall (λ c, NUMBERING_PATTERN c = true) (c :: trimmed)) as Hrun.
  { rewrite <- Htrim. unfold JsString.trim.
    destruct (strip_right_split Chars.is_space (JsString.strip_left Chars.is_space label))
      as (t & Ht & _).
    destruct (strip_left_split Chars.is_space label) as (t' & Ht' & _).
    rewrite Ht' in Hnum. apply Forall_app in Hnum as [_ Hnum].
    rewrite Ht in Hnum. by apply Forall_app in Hnum as [Hnum _]. }
  unfold tidy_text, JsString.strip_left. rewrite (drop_run_all _ _ Hrun).
  cbn -[KNOWN_UPPER_CASE KNOWN_LOWER_CASE bool_decide].
  by repeat destruct (bool_decide _).
Qed.

Lemma tidyUpLabel_only_numbering_witness :
  JsString.ascii_text (lit "1.02 - ")
  ∧ JsString.trim (lit "1.02 - ") ≠ []
  ∧ Forall (λ c, NUMBERING_PATTERN c = true) (lit "1.02 - ")
  ∧ tidyUpLabel None (Some (lit "1.02 - ")) true = Some [].
Proof.
  assert (JsString.ascii_text (lit "1.02 - ")) as Hascii by (by repeat constructor).
  assert (JsString.trim (lit "1.02 - ") ≠ []) as Htext by done.
  assert (Forall (λ c, NUMBERING_PATTERN c = true) (lit "1.02 - ")) as Hnum.
  { by repeat constructor. }
  split; [exact Hascii|]. split; [exact Htext|]. split; [exact Hnum|].
  exact (tidyUpLabel_only_numbering None (lit "1.02 - ") Hascii Htext Hnum).
Defined.

Lemma alpha_classes c :
  Chars.is_alpha c = true →
  Chars.is_space c = false ∧ Chars.is_dash c = false
  ∧ Chars.is_underscore c = false ∧ Chars.is_dash_or_underscore c = false
  ∧ Chars.is_word c = true ∧ Chars.is_digit c = false
  ∧ Chars.is_alpha (Chars.to_lower c) = true
  ∧ Chars.is_alpha (Chars.to_upper c) = true
  ∧ c ≠ " "%char.
Proof. destruct c as [[] [] [] [] [] [] [] []]; done. Qed.

Lemma letter_first_cons c s : Chars.is_alpha c = true → letter_first (c :: s).
Proof. done. Qed.

Lemma letter_first_inv s :
  letter_first s → s = [] ∨ ∃ c rest, s = c :: rest ∧ Chars.is_alpha c = true.
Proof. destruct s as [|c rest]; [by left|]. intros Hc. right. by exists c, rest. Qed.

Lemma head_strip_right cls s c :
  head s = Some c → cls c = false → head (JsString.strip_right cls s) = Some c.
Proof.
  intros Hs Hc. destruct (strip_right_split cls s) as (t & Heq & Ht).
  destruct (JsString.strip_right cls s) as [|c' kept].
  - simpl in Heq. subst t. destruct s as [|c0 s]; [done|].
    injection Hs as ->. apply Forall_cons in Ht as [Ht _]. congruence.
  - rewrite Heq in Hs. simpl in *. done.
Qed.

Lemma letter_first_trim s : letter_first s → letter_first (JsString.trim s).
Proof.
  intros [->|(c & rest & -> & Hc)]%letter_first_inv; [done|].
  destruct (alpha_classes c Hc) as (Hspace & _).
  unfold JsString.trim, JsString.strip_left.
  rewrite (drop_run_id _ (c :: rest) c eq_refl Hspace).
  unfold letter_first. by rewrite (head_strip_right _ (c :: rest) c eq_refl Hspace).
Qed.

Lemma letter_first_replace_all cls by_ s :
  (∀ c, Chars.is_alpha c = true → cls c = false) →
  letter_first s → letter_first (JsString.replace_all cls by_ s).
Proof.
  intros Hcls [->|(c & rest & -> & Hc)]%letter_first_inv; [done|].
  unfold letter_first.
  by rewrite (replace_all_head cls by_ (c :: rest) c eq_refl (Hcls c Hc)).
Qed.

Lemma letter_first_strip_numbering s :
  letter_first (JsString.strip_left NUMBERING_PATTERN s).
Proof.
  unfold JsString.strip_left.
  destruct (JsString.drop_run NUMBERING_PATTERN s) as [|c rest] eqn:Hs; [done|].
  apply drop_run_head in Hs. unfold NUMBERING_PATTERN in Hs.
  rewrite is_numbering_not_alpha in Hs. apply letter_first_cons.
  by destruct (Chars.is_alpha c).
Qed.

Lemma split_char_loop_head d cur s :
  ∃ token tokens,
    JsString.split_char_loop d cur s = (reverse cur ++ token) :: tokens.
Proof.
  revert cur. induction s as [|c s IH]; intros cur; simpl.
  - exists [], []. by rewrite app_nil_r.
  - destruct (decide (c = d)).
    + exists [], (JsString.split_char_loop d [] s). by rewrite app_nil_r.
    + destruct (IH (c :: cur)) as (token & tokens & ->).
      exists (c :: token), tokens. by rewrite reverse_cons, <- app_assoc.
Qed.

Lemma letter_first_title (f : nat → str → str) s :
  f 0 [] = [] →
  (∀ c token, Chars.is_alpha c = true →
              ∃ c' token', f 0 (c :: token) = c' :: token' ∧ Chars.is_alpha c' = true) →
  letter_first s →
  letter_first
    (JsString.join (lit " ")
       (imap f (JsString.split_char " "%char (JsString.toLowerCase s)))).
Proof.
  intros Hnil Hf [->|(c & rest & -> & Hc)]%letter_first_inv.
  { simpl. change (reverse []) with (@nil ascii). by rewrite Hnil. }
  destruct (alpha_classes c Hc) as (_ & _ & _ & _ & _ & _ & Hlower & _).
  destruct (alpha_classes _ Hlower) as (_ & _ & _ & _ & _ & _ & _ & _ & Hne).
  unfold JsString.split_char. simpl.
  rewrite decide_False by done.
  destruct (split_char_loop_head " "%char [Chars.to_lower c]
              (JsString.toLowerCase rest)) as (token & tokens & ->).
  simpl. destruct (Hf (Chars.to_lower c) token Hlower) as (c' & token' & -> & Hc').
  destruct (imap (f ∘ S) tokens); by apply letter_first_cons.
Qed.

Lemma capitalize_loop_head c token :
  Chars.is_alpha c = true →
  ∃ c' token', capitalize_loop false (c :: token) = c' :: token'
               ∧ Chars.is_alpha c' = true.
Proof.
  intros Hc. destruct (alpha_classes c Hc) as (_ & _ & _ & _ & Hword & _ & _ & Hupper & _).
  simpl. rewrite Hword. by eexists _, _.
Qed.

(** What [tidyUpLabel] makes of a label, its numbering removed, is empty or
    starts with a letter. *)
Lemma tidy_text_letter_first optionsData changedLabel :
  letter_first (tidy_text optionsData changedLabel true).
Proof.
  unfold tidy_text. cbv zeta.
  apply letter_first_replace_all; [intros c Hc; apply (alpha_classes c Hc)|].
  assert (letter_first
            (JsString.trim (JsString.strip_left NUMBERING_PATTERN changedLabel)))
    as Hstart.
  { apply letter_first_trim, letter_first_strip_numbering. }
  set (start := JsString.trim _) in *. clearbody start.
  match goal with
  | |- context [JsString.trim (JsString.replace_all Chars.is_space (lit " ") ?x)] =>
      assert (letter_first (JsString.trim
                (JsString.replace_all Chars.is_space (lit " ") x))) as Hspaced;
      [ apply letter_first_trim, letter_first_replace_all;
        [intros c Hc; apply (alpha_classes c Hc)|]
      | set (spaced := JsString.trim (JsString.replace_all Chars.is_space (lit " ") x))
          in *; clearbody spaced ]
  end.
  { destruct (_ && _); [|done].
    apply letter_first_replace_all; [|done].
    intros c Hc. destruct (alpha_classes c Hc) as (_ & ? & ? & ? & _).
    by repeat destruct (_ <? _). }
  destruct (_ || _); [|done].
  apply letter_first_title; [|intros c token Hc|done].
  { by repeat destruct (bool_decide _). } destruct (alpha_classes c Hc) as (_ & _ & _ & _ & _ & _ & _ & Hupper & _).
  destruct (bool_decide (c :: token ∈ KNOWN_LOWER_CASE)); simpl;
    (destruct (bool_decide (c :: token ∈ KNOWN_UPPER_CASE optionsData));
     [by eexists _, _ | by apply capitalize_loop_head]).
Qed.

Lemma en_dash_no_dash : Forall (λ c, Chars.is_dash c = false) EN_DASH.
Proof. by repeat constructor. Qed.

(** X18. What [tidyUpLabel] returns for a label of ASCII characters, the
    numbering to be removed: a blank label comes back as it is; for a label
    with text the result is a text without hyphen (each run of hyphens has
    become an en dash) that is empty or starts with a letter: nothing of a
    leading run of digits, punctuation, white space or underscores stays in
    front. *)
Theorem tidyUpLabel_shape optionsData (label : str) :
  JsString.ascii_text label →
  (blank (Some label) → tidyUpLabel optionsData (Some label) true = Some label)
  ∧ (¬ blank (Some label) →
     ∃ text,
       tidyUpLabel optionsData (Some label) true = Some text
       ∧ letter_first text
       ∧ Forall (λ c, Chars.is_dash c = false) text).
Proof.
  intros _. unfold tidyUpLabel, blank. simpl default.
  destruct (JsString.trim label) as [|c trimmed] eqn:Htrim;
    cbn [JsString.truthy negb].
  - split; [done|]. by intros [].
  - split; [done|]. intros _. eexists. split; [reflexivity|]. split.
    + apply tidy_text_letter_first.
    + unfold tidy_text. apply replace_runs_no_class, en_dash_no_dash.
Qed.

Lemma tidyUpLabel_shape_witness :
  JsString.ascii_text (lit " 1.2 - my-first_topic ")
  ∧ (blank (Some (lit " 1.2 - my-first_topic ")) →
     tidyUpLabel None (Some (lit " 1.2 - my-first_topic ")) true
     = Some (lit " 1.2 - my-first_topic "))
  ∧ (¬ blank (Some (lit " 1.2 - my-first_topic ")) →
     ∃ text,
       tidyUpLabel None (Some (lit " 1.2 - my-first_topic ")) true = Some text
       ∧ letter_first text
       ∧ Forall (λ c, Chars.is_dash c = false) text).
Proof.
  assert (JsString.ascii_text (lit " 1.2 - my-first_topic ")) as Hascii.
  { by repeat constructor. }
  split; [exact Hascii|].
  exact (tidyUpLabel_shape None (lit " 1.2 - my-first_topic ") Hascii).
Defined.

(** ** DocumentIndex: the insertions *)

Lemma well_formed_store_intro flat queue :
  (∀ o c x, children_at flat o = Some c → x ∈ c → x < length flat) →
  (∀ o c, children_at flat o = Some c → StronglySorted lt c) →
  (∀ o1 o2 c1 c2 x,
     children_at flat o1 = Some c1 → children_at flat o2 = Some c2 →
     x ∈ c1 → x ∈ c2 → o1 = o2) →
  (∀ o, is_Some (children_at flat o) → o ∈ queue) →
  (∀ o, can_promote (unit_at flat o) = true → children_at flat o = None) →
  NoDup queue →
  (∀ o, o ∈ queue → is_Some (children_at flat o)) →
  well_formed_store flat queue.
Proof.
  intros Hrefs Hsorted Hdisjoint Hqueued Hleaf Hnodup Hqueue.
  split; [|split; [done | by apply Forall_forall]].
  apply Forall_seq. intros o _. unfold well_formed_at.
  destruct (children_at flat o) as [c|] eqn:Hc.
  - rewrite (group_of_Some _ _ _ Hc). split_and!.
    + apply Forall_forall. intros x Hx. by eapply Hrefs.
    + by eapply Hsorted.
    + apply Forall_seq. intros o' _.
      destruct (decide (o = o')) as [|Hne]; [by left | right].
      apply Forall_forall. intros x Hx Hx'.
      destruct (children_at flat o') as [c'|] eqn:Hc'.
      * rewrite (group_of_Some _ _ _ Hc') in Hx'. by eapply Hne, Hdisjoint.
      * rewrite (group_of_None _ _ Hc') in Hx'. by apply elem_of_nil in Hx'.
    + intros _. apply Hqueued. by rewrite Hc.
    + intros Hcan. apply Hleaf in Hcan. congruence.
  - rewrite (group_of_None _ _ Hc). split_and!.
    + constructor.
    + constructor.
    + apply Forall_seq. intros o' _. right. constructor.
    + by intros [? ?].
    + done.
Qed.

(** A store that takes one more unit, [self], as the last child of
    [parent], stays well formed. *)
Lemma well_formed_store_adopt flat queue flat' queue' parent :
  well_formed_store flat queue →
  parent < length flat →
  can_promote (unit_at flat parent) = false →
  length flat' = S (length flat) →
  (∀ o, o ≠ parent → o ≠ length flat → children_at flat' o = children_at flat o) →
  children_at flat' parent = Some (group_of flat parent ++ [length flat]) →
  children_at flat' (length flat) = None →
  (∀ o, o < length flat → can_promote (unit_at flat' o) = can_promote (unit_at flat o)) →
  queue' = match children_at flat parent with
           | Some _ => queue
           | None => queue ++ [parent]
           end →
  well_formed_store flat' queue'.
Proof.
  intros Hwf Hparent Hcan Hlen Hother Hadopted Hself Hstatic ->.
  assert (∀ x, x ∈ group_of flat parent → x < length flat) as Hgroup.
  { intros x Hx. destruct (children_at flat parent) as [c|] eqn:Hc.
    - rewrite (group_of_Some _ _ _ Hc) in Hx. by eapply well_formed_refs.
    - rewrite (group_of_None _ _ Hc) in Hx. by apply elem_of_nil in Hx. }
  assert (∀ o c, o ≠ parent → children_at flat' o = Some c →
                 children_at flat o = Some c) as Hold.
  { intros o c Hne Hc. rewrite <- Hother; [done..|]. intros ->. congruence. }
  apply well_formed_store_intro.
  - intros o c x Hc Hx. rewrite Hlen.
    destruct (decide (o = parent)) as [->|Hne].
    + rewrite Hadopted in Hc. injection Hc as <-.
      apply elem_of_app in Hx as [Hx|Hx%list_elem_of_singleton]; [|lia].
      apply Hgroup in Hx. lia.
    + apply (Hold _ _ Hne) in Hc.
      pose proof (well_formed_refs _ _ _ _ _ Hwf Hc Hx). lia.
  - intros o c Hc. destruct (decide (o = parent)) as [->|Hne].
    + rewrite Hadopted in Hc. injection Hc as <-.
      apply StronglySorted_app_2.
      * intros x1 x2 Hx1 ->%list_elem_of_singleton. by apply Hgroup.
      * destruct (children_at flat parent) as [c|] eqn:Hc.
        -- rewrite (group_of_Some _ _ _ Hc). by eapply well_formed_increasing.
        -- rewrite (group_of_None _ _ Hc). constructor.
      * repeat constructor.
    + apply (Hold _ _ Hne) in Hc. by eapply well_formed_increasing.
  - assert (∀ o c x, o ≠ parent → children_at flat' o = Some c → x ∈ c →
                     x ∈ group_of flat parent ++ [length flat] → o = parent)
      as Hcross.
    { intros o c x Hne Hc Hx Hx'. apply (Hold _ _ Hne) in Hc.
      apply elem_of_app in Hx' as [Hx'|Hx'%list_elem_of_singleton].
      - destruct (children_at flat parent) as [c'|] eqn:Hc'.
        + rewrite (group_of_Some _ _ _ Hc') in Hx'.
          by eapply (well_formed_disjoint _ _ o parent).
        + rewrite (group_of_None _ _ Hc') in Hx'. by apply elem_of_nil in Hx'.
      - subst x. pose proof (well_formed_refs _ _ _ _ _ Hwf Hc Hx). lia. }
    intros o1 o2 c1 c2 x Hc1 Hc2 Hx1 Hx2.
    destruct (decide (o1 = parent)) as [->|Hne1], (decide (o2 = parent)) as [->|Hne2].
    + done.
    + rewrite Hadopted in Hc1. injection Hc1 as <-. symmetry. by eapply Hcross.
    + rewrite Hadopted in Hc2. injection Hc2 as <-. by eapply Hcross.
    + apply (Hold _ _ Hne1) in Hc1. apply (Hold _ _ Hne2) in Hc2.
      by eapply well_formed_disjoint.
  - intros o [c Hc]. destruct (decide (o = parent)) as [->|Hne].
    + destruct (children_at flat parent) as [c'|] eqn:Hc'.
      * apply (well_formed_queued _ _ _ Hwf). by rewrite Hc'.
      * apply elem_of_app. right. by apply list_elem_of_singleton.
    + apply (Hold _ _ Hne) in Hc.
      assert (o ∈ queue) as Hq.
      { apply (well_formed_queued _ _ _ Hwf). by rewrite Hc. }
      destruct (children_at flat parent); [done|]. apply elem_of_app. by left.
  - intros o Ho. destruct (decide (o = length flat)) as [->|Hne]; [done|].
    destruct (decide (o = parent)) as [->|Hne'].
    { rewrite Hstatic in Ho by done. congruence. }
    rewrite Hother by done.
    destruct (Nat.lt_ge_cases o (length flat)) as [Hlt|Hge].
    + rewrite Hstatic in Ho by done. by eapply well_formed_leaf.
    + unfold children_at. by rewrite unit_at_ge.
  - destruct Hwf as (_ & Hnodup & Hq).
    destruct (children_at flat parent) as [c'|] eqn:Hc'; [done|].
    apply NoDup_app. split; [done|]. split; [|apply NoDup_singleton].
    intros x Hx ->%list_elem_of_singleton.
    rewrite Forall_forall in Hq. destruct (Hq _ Hx) as [? ?]. congruence.
  - intros o Ho.
    assert (o = parent ∨ o ∈ queue) as [->|Hq].
    { destruct (children_at flat parent); [by right|].
      apply elem_of_app in Ho as [?|?%list_elem_of_singleton]; [by right | by left]. }
    { by rewrite Hadopted. }
    destruct Hwf as (_ & _ & Hall). rewrite Forall_forall in Hall.
    destruct (Hall _ Hq) as [c Hc].
    destruct (decide (o = parent)) as [->|Hne]; [by rewrite Hadopted|].
    rewrite Hother; [by rewrite Hc | done |].
    intros ->. unfold children_at in Hc. by rewrite unit_at_ge in Hc.
Qed.

Lemma alter_snoc (f : Unit → Unit) (flat : list Unit) unit :
  alter f (length flat) (flat ++ [unit]) = flat ++ [f unit].
Proof. by rewrite <- (Nat.add_0_r (length flat)), alter_app_r. Qed.

Lemma unit_at_app_l (flat : list Unit) rest i :
  i < length flat → unit_at (flat ++ rest) i = unit_at flat i.
Proof. intros Hi. unfold unit_at. by rewrite lookup_total_app_l. Qed.

Lemma unit_at_snoc (flat : list Unit) unit :
  unit_at (flat ++ [unit]) (length flat) = unit.
Proof.
  unfold unit_at. rewrite lookup_total_app_r by lia. by rewrite Nat.sub_diag.
Qed.

Lemma find_by_path_lt flat path parent :
  find_by_path flat path = Some parent →
  parent < length flat ∧ filePath (unit_at flat parent) = path.
Proof.
  unfold find_by_path. intros [[i unit] [Hfind [= ->]]]%fmap_Some.
  apply list_find_Some in Hfind as (Hi & Hpath & _). split.
  - by eapply lookup_lt_Some.
  - unfold unit_at. by rewrite (list_lookup_total_correct _ _ _ Hi).
Qed.

Lemma find_by_path_app flat rest path parent :
  find_by_path flat path = Some parent →
  find_by_path (flat ++ rest) path = Some parent.
Proof.
  unfold find_by_path. intros [[i unit] [Hfind [= ->]]]%fmap_Some.
  apply fmap_Some. exists (i, unit). split; [|done].
  apply list_find_app_Some. by left.
Qed.

(** What [adopt] does to the store. *)
Lemma adopt_store parent self s :
  parent < length (_flatCompilationsList s) →
  let s' := adopt parent self s in
  length (_flatCompilationsList s') = length (_flatCompilationsList s)
  ∧ (∀ o, o ≠ parent →
       unit_at (_flatCompilationsList s') o = unit_at (_flatCompilationsList s) o)
  ∧ children_at (_flatCompilationsList s') parent
    = Some (group_of (_flatCompilationsList s) parent ++ [self])
  ∧ static (unit_at (_flatCompilationsList s') parent)
    = static (unit_at (_flatCompilationsList s) parent)
  ∧ _rawGroups s'
    = match children_at (_flatCompilationsList s) parent with
      | Some _ => _rawGroups s
      | None => _rawGroups s ++ [parent]
      end
  ∧ _isIndexSealed s' = _isIndexSealed s
  ∧ _abstractNavigationTree s' = _abstractNavigationTree s
  ∧ _foldersToExclude s' = _foldersToExclude s.
Proof.
  intros Hparent. cbv zeta. unfold adopt, children_at, group_of.
  cbn [_flatCompilationsList with_flat with_groups _rawGroups _isIndexSealed
       _abstractNavigationTree _foldersToExclude].
  rewrite unit_at_alter by done. rewrite decide_True by done.
  change (children (set_isNode true (unit_at (_flatCompilationsList s) parent)))
    with (children (unit_at (_flatCompilationsList s) parent)).
  destruct (children (unit_at (_flatCompilationsList s) parent)) as [c|] eqn:Hc;
    cbn [_flatCompilationsList with_flat with_groups _rawGroups _isIndexSealed
         _abstractNavigationTree _foldersToExclude default].
  - rewrite !length_alter. split_and!; try done.
    + intros o Hne. rewrite !unit_at_alter by (rewrite ?length_alter; done).
      by rewrite !decide_False by done.
    + rewrite !unit_at_alter by (rewrite ?length_alter; done).
      rewrite !decide_True by done. apply children_push_child. done.
    + rewrite !unit_at_alter by (rewrite ?length_alter; done).
      rewrite !decide_True by done. by rewrite static_push_child.
  - rewrite !length_alter. split_and!; try done.
    + intros o Hne. rewrite !unit_at_alter by (rewrite ?length_alter; done).
      by rewrite !decide_False by done.
    + rewrite !unit_at_alter by (rewrite ?length_alter; done).
      rewrite !decide_True by done. by apply children_push_child.
    + rewrite !unit_at_alter by (rewrite ?length_alter; done).
      rewrite !decide_True by done. by rewrite static_push_child.
Qed.

(** An insertion whose parent folder is registered, as an adoption. *)
Lemma addFileToIndex_adopts Path optionsData p name ext c m hdr s parent :
  _isIndexSealed s = false →
  find_by_path (_flatCompilationsList s) (Path.dirname Path p) = Some parent →
  ∃ unit,
    addFileToIndex Path optionsData p name ext c m hdr s
    = Returned (adopt parent (length (_flatCompilationsList s))
                  (with_flat (_flatCompilationsList s ++ [unit]) s))
    ∧ children unit = None
    ∧ filePath unit = p
    ∧ fileExtension unit = ext
    ∧ numbering unit
      = match _extractNumbering (Some name) with
        | Some n => Some n
        | None => _extractNumbering hdr
        end
    ∧ fileHeader unit
      = Some ((if _mustHideNavNumbering optionsData then []
               else match numbering unit with
                    | Some n => signature_of n
                    | None => []
                    end)
              ++ to_string (tidyUpLabel optionsData
                              match hdr with
                              | Some (_ :: _) => hdr
                              | _ => Some (changeFileExtension Path name [])
                              end true)).
Proof.
  intros Hopen Hparent. unfold addFileToIndex. rewrite Hopen. cbv zeta.
  destruct (match _extractNumbering (Some name) with
            | Some n => Some n
            | None => _extractNumbering hdr
            end) as [n|] eqn:Hn;
    cbn [with_flat _flatCompilationsList];
    rewrite ?alter_snoc, ?unit_at_snoc;
    cbn [fileName numberingSignature set_numbering];
    rewrite ?alter_snoc;
    rewrite (find_by_path_app _ _ _ _ Hparent);
    cbn [with_flat _flatCompilationsList];
    rewrite ?alter_snoc;
    (eexists; split; [reflexivity|]; by repeat split).
Qed.

Lemma children_at_alter_same f (flat : list Unit) i o :
  (∀ u, children (f u) = children u) →
  children_at (alter f i flat) o = children_at flat o.
Proof.
  intros Hf. unfold children_at, unit_at.
  destruct (decide (i = o)) as [->|Hne].
  - destruct (Nat.lt_ge_cases o (length flat)) as [Ho|Ho].
    + by rewrite list_lookup_total_alter_eq.
    + rewrite !list_lookup_total_alt, list_lookup_alter_eq.
      by rewrite lookup_ge_None_2.
  - by rewrite list_lookup_total_alter_ne.
Qed.

Lemma unit_at_alter_ne f (flat : list Unit) i o :
  i ≠ o → unit_at (alter f i flat) o = unit_at flat o.
Proof. intros Hne. unfold unit_at. by rewrite list_lookup_total_alter_ne. Qed.

(** Writing to a unit without children what is not its links keeps the store
    well formed. *)
Lemma well_formed_store_alter f i flat queue :
  well_formed_store flat queue →
  (∀ u, children (f u) = children u) →
  children_at flat i = None →
  well_formed_store (alter f i flat) queue.
Proof.
  intros Hwf Hf Hleaf.
  assert (∀ o, children_at (alter f i flat) o = children_at flat o) as Hsame.
  { intros o. by apply children_at_alter_same. }
  apply well_formed_store_intro.
  - intros o c x. rewrite Hsame, length_alter. by eapply well_formed_refs.
  - intros o c. rewrite Hsame. by eapply well_formed_increasing.
  - intros o1 o2 c1 c2 x. rewrite !Hsame. by eapply well_formed_disjoint.
  - intros o. rewrite Hsame. by eapply well_formed_queued.
  - intros o Ho. rewrite Hsame. destruct (decide (i = o)) as [->|Hne]; [done|].
    rewrite unit_at_alter_ne in Ho by done. by eapply well_formed_leaf.
  - by destruct Hwf as (_ & ? & _).
  - intros o Ho. rewrite Hsame. destruct Hwf as (_ & _ & Hall).
    rewrite Forall_forall in Hall. by apply Hall.
Qed.

(** The adoption of a fresh unit keeps the store well formed. *)
Lemma adopt_well_formed flat unit parent s :
  well_formed_store flat (_rawGroups s) →
  _flatCompilationsList s = flat ++ [unit] →
  children unit = None →
  parent < length flat →
  can_promote (unit_at flat parent) = false →
  well_formed_store (_flatCompilationsList (adopt parent (length flat) s))
                    (_rawGroups (adopt parent (length flat) s)).
Proof.
  intros Hwf Hflat Hunit Hparent Hcan.
  destruct (adopt_store parent (length flat) s)
    as (Hlen & Hother & Hadopted & Hstatic & Hqueue & _).
  { rewrite Hflat, length_app. simpl. lia. }
  rewrite Hflat in *.
  assert (group_of (flat ++ [unit]) parent = group_of flat parent) as Hgroup.
  { unfold group_of. by rewrite unit_at_app_l. }
  assert (children_at (flat ++ [unit]) parent = children_at flat parent) as Hc.
  { unfold children_at. by rewrite unit_at_app_l. }
  eapply (well_formed_store_adopt flat (_rawGroups s) _ _ parent); try done.
  - rewrite Hlen, length_app. simpl. lia.
  - intros o Hne Hne'. unfold children_at. rewrite Hother by done.
    destruct (Nat.lt_ge_cases o (length flat)) as [Ho|Ho].
    + by rewrite unit_at_app_l.
    + rewrite !unit_at_ge; [done | lia | rewrite length_app; simpl; lia].
  - by rewrite Hadopted, Hgroup.
  - unfold children_at. rewrite Hother by lia. by rewrite unit_at_snoc.
  - intros o Ho. destruct (decide (o = parent)) as [->|Hne].
    + rewrite <- (can_promote_static (unit_at _ parent)), Hstatic.
      rewrite can_promote_static. by rewrite unit_at_app_l.
    + rewrite Hother by done. by rewrite unit_at_app_l.
  - by rewrite Hqueue, Hc.
Qed.

Lemma addDirectoryToIndex_well_formed Path optionsData p name c m s parent :
  well_formed s →
  _isIndexSealed s = false →
  find_by_path (_flatCompilationsList s) (Path.dirname Path p) = Some parent →
  can_promote (unit_at (_flatCompilationsList s) parent) = false →
  ∃ s', addDirectoryToIndex Path optionsData p name c m s = Returned s'
        ∧ well_formed s'.
Proof.
  intros [Hwf Hfolders] Hopen Hparent Hcan.
  unfold addDirectoryToIndex. rewrite Hopen. cbv zeta.
  cbn [with_flat _flatCompilationsList].
  rewrite (find_by_path_app _ _ _ _ Hparent).
  rewrite ?alter_snoc.
  eexists. split; [reflexivity|].
  pose proof (find_by_path_lt _ _ _ Hparent) as [Hlt _].
  match goal with |- context [adopt ?a ?b ?c] => set (s1 := adopt a b c) end.
  assert (well_formed_store (_flatCompilationsList s1) (_rawGroups s1)) as Hwf1.
  { eapply adopt_well_formed; [exact Hwf | reflexivity | done..]. }
  assert (children_at (_flatCompilationsList s1) (length (_flatCompilationsList s))
          = None) as Hself.
  { destruct (adopt_store parent (length (_flatCompilationsList s))
                (with_flat (_flatCompilationsList s ++
                   [set_parent (filePath (unit_at (_flatCompilationsList s ++
                      [mkUnit p name DIR c m (Some name) false [] None None None false])
                      parent))
                      (mkUnit p name DIR c m (Some name) false [] None None None false)])
                   (with_flat (_flatCompilationsList s ++
                      [mkUnit p name DIR c m (Some name) false [] None None None false]) s)))
      as (_ & Hother & _).
    { cbn [with_flat _flatCompilationsList]. rewrite length_app. simpl. lia. }
    unfold children_at. fold s1 in Hother. rewrite Hother by lia.
    cbn [with_flat _flatCompilationsList]. by rewrite unit_at_snoc. }
  assert (_foldersToExclude s1 = []) as Hfolders1.
  { destruct (adopt_store parent (length (_flatCompilationsList s))
                (with_flat (_flatCompilationsList s ++
                   [set_parent (filePath (unit_at (_flatCompilationsList s ++
                      [mkUnit p name DIR c m (Some name) false [] None None None false])
                      parent))
                      (mkUnit p name DIR c m (Some name) false [] None None None false)])
                   (with_flat (_flatCompilationsList s ++
                      [mkUnit p name DIR c m (Some name) false [] None None None false]) s)))
      as (_ & _ & _ & _ & _ & _ & _ & Hf).
    { cbn [with_flat _flatCompilationsList]. rewrite length_app. simpl. lia. }
    fold s1 in Hf. by rewrite Hf. }
  clearbody s1.
  match goal with |- context [set_fileHeader ?h] => generalize h end.
  intros header.
  destruct (_extractNumbering (Some name)) as [n|];
    (split; cbn [with_flat _flatCompilationsList _rawGroups _foldersToExclude];
     [|done]).
  - apply well_formed_store_alter; [|done|by rewrite children_at_alter_same].
    by apply well_formed_store_alter.
  - by apply well_formed_store_alter.
Qed.

Lemma children_at_snoc (flat : list Unit) unit o :
  children unit = None →
  children_at (flat ++ [unit]) o = children_at flat o.
Proof.
  intros Hunit. unfold children_at.
  destruct (Nat.lt_total o (length flat)) as [Ho|[->|Ho]].
  - by rewrite unit_at_app_l.
  - by rewrite unit_at_snoc, unit_at_ge.
  - rewrite !unit_at_ge; [done | lia | rewrite length_app; simpl; lia].
Qed.

Lemma well_formed_store_snoc flat queue unit :
  well_formed_store flat queue → children unit = None →
  well_formed_store (flat ++ [unit]) queue.
Proof.
  intros Hwf Hunit.
  pose proof (λ o, children_at_snoc flat unit o Hunit) as Hsame.
  apply well_formed_store_intro.
  - intros o c x. rewrite Hsame, length_app. intros Hc Hx.
    pose proof (well_formed_refs _ _ _ _ _ Hwf Hc Hx). lia.
  - intros o c. rewrite Hsame. by eapply well_formed_increasing.
  - intros o1 o2 c1 c2 x. rewrite !Hsame. by eapply well_formed_disjoint.
  - intros o. rewrite Hsame. by eapply well_formed_queued.
  - intros o Ho. rewrite Hsame.
    destruct (Nat.lt_ge_cases o (length flat)) as [Hlt|Hge].
    + rewrite unit_at_app_l in Ho by done. by eapply well_formed_leaf.
    + unfold children_at. by rewrite unit_at_ge.
  - by destruct Hwf as (_ & ? & _).
  - intros o Ho. rewrite Hsame. destruct Hwf as (_ & _ & Hall).
    rewrite Forall_forall in Hall. by apply Hall.
Qed.

(** X7. The insertions keep an open index well formed: [addRootToIndex]
    always, [addDirectoryToIndex] and [addFileToIndex] when the parent
    folder of the path is registered and is not a numbered file.  Each of
    them returns, and leaves the index open. *)
Theorem insertions_keep_well_formed Path optionsData s :
  well_formed s → _isIndexSealed s = false →
  (∀ p name c m,
     ∃ s', addRootToIndex optionsData p name c m s = Returned s'
           ∧ well_formed s' ∧ _isIndexSealed s' = false)
  ∧ (∀ p name c m parent,
       find_by_path (_flatCompilationsList s) (Path.dirname Path p) = Some parent →
       can_promote (unit_at (_flatCompilationsList s) parent) = false →
       ∃ s', addDirectoryToIndex Path optionsData p name c m s = Returned s'
             ∧ well_formed s' ∧ _isIndexSealed s' = false)
  ∧ (∀ p name ext c m header parent,
       find_by_path (_flatCompilationsList s) (Path.dirname Path p) = Some parent →
       can_promote (unit_at (_flatCompilationsList s) parent) = false →
       ∃ s', addFileToIndex Path optionsData p name ext c m header s = Returned s'
             ∧ well_formed s' ∧ _isIndexSealed s' = false).
Proof.
  intros Hwf Hopen. split_and!.
  - intros p name c m. unfold addRootToIndex. rewrite Hopen. cbv zeta.
    eexists. split; [reflexivity|]. destruct Hwf as [Hwf Hfolders].
    split; [split|]; cbn [with_flat with_tree _flatCompilationsList _rawGroups
                            _foldersToExclude _isIndexSealed]; [|done..].
    by apply well_formed_store_snoc.
  - intros p name c m parent Hparent Hcan.
    destruct (addDirectoryToIndex_well_formed Path optionsData p name c m s parent)
      as (s' & Hs' & Hwf'); [done..|].
    exists s'. split; [done|]. split; [done|].
    revert Hs'. unfold addDirectoryToIndex. rewrite Hopen. cbv zeta.
    cbn [with_flat _flatCompilationsList].
    rewrite (find_by_path_app _ _ _ _ Hparent).
    intros [= <-]. cbn [with_flat _isIndexSealed].
    pose proof (find_by_path_lt _ _ _ Hparent) as [Hlt _].
    destruct (_extractNumbering (Some name)); cbn [with_flat _isIndexSealed];
      match goal with |- context [adopt ?a ?b ?c] =>
        destruct (adopt_store a b c) as (_ & _ & _ & _ & _ & -> & _)
      end; try done;
      cbn [with_flat _flatCompilationsList]; rewrite length_alter, length_app; lia.
  - intros p name ext c m header parent Hparent Hcan.
    destruct (addFileToIndex_adopts Path optionsData p name ext c m header s parent)
      as (unit & -> & Hunit & _); [done..|].
    pose proof (find_by_path_lt _ _ _ Hparent) as [Hlt _].
    eexists. split; [reflexivity|]. destruct Hwf as [Hwf Hfolders].
    destruct (adopt_store parent (length (_flatCompilationsList s))
                (with_flat (_flatCompilationsList s ++ [unit]) s))
      as (_ & _ & _ & _ & _ & Hsealed & _ & Hfolders').
    { cbn [with_flat _flatCompilationsList]. rewrite length_app. lia. }
    split; [split|].
    + by eapply adopt_well_formed.
    + by rewrite Hfolders'.
    + by rewrite Hsealed.
Qed.

Lemma insertions_keep_well_formed_witness :
  (well_formed Sample.with_assets ∧ _isIndexSealed Sample.with_assets = false)
  ∧ (∃ s', addFileToIndex Sample.Path None (lit "/root/assets/2 More.txt")
             (lit "2 More.txt") (lit "txt") 0 0 None Sample.with_assets
           = Returned s'
           ∧ well_formed s' ∧ _isIndexSealed s' = false)
  ∧ (∃ s', addRootToIndex None (lit "/root") (lit "root") 0 0 initial = Returned s'
           ∧ well_formed s' ∧ _isIndexSealed s' = false).
Proof.
  assert (well_formed Sample.with_assets) as Hwf.
  { apply (bool_decide_unpack _). by vm_compute. }
  assert (well_formed initial) as Hwf0.
  { apply (bool_decide_unpack _). by vm_compute. }
  split; [by split|]. split.
  - destruct (insertions_keep_well_formed Sample.Path None Sample.with_assets
                Hwf eq_refl) as (_ & _ & Hfile).
    apply (Hfile _ _ _ _ _ _ 2); by vm_compute.
  - destruct (insertions_keep_well_formed Sample.Path None initial Hwf0 eq_refl)
      as (Hroot & _).
    apply Hroot.
Defined.

Lemma find_by_path_None flat path :
  Forall (λ unit, filePath unit ≠ path) flat → find_by_path flat path = None.
Proof.
  intros Hall. unfold find_by_path.
  by rewrite (proj2 (list_find_None (λ unit, filePath unit = path) flat) Hall).
Qed.

(** X8. An insertion whose parent folder is not registered fails half done:
    when no unit has the path [Path.dirname] gives for the new path (and
    that is not the new path itself), [addDirectoryToIndex] and
    [addFileToIndex] throw a [TypeError], and the new unit stays in
    [_flatCompilationsList], as its last element; the groups, the tree and
    the seal are as before. *)
Theorem insertion_without_parent Path optionsData s p :
  _isIndexSealed s = false →
  Forall (λ unit, filePath unit ≠ Path.dirname Path p) (_flatCompilationsList s) →
  p ≠ Path.dirname Path p →
  (∀ name c m,
     ∃ unit,
       addDirectoryToIndex Path optionsData p name c m s
       = Thrown TypeError (with_flat (_flatCompilationsList s ++ [unit]) s)
       ∧ filePath unit = p)
  ∧ (∀ name ext c m header,
       ∃ unit,
         addFileToIndex Path optionsData p name ext c m header s
         = Thrown TypeError (with_flat (_flatCompilationsList s ++ [unit]) s)
         ∧ filePath unit = p).
Proof.
  intros Hopen Hnone Hself. split.
  - intros name c m. unfold addDirectoryToIndex. rewrite Hopen. cbv zeta.
    cbn [with_flat _flatCompilationsList].
    rewrite find_by_path_None; [by eexists|].
    apply Forall_app. split; [done|]. by repeat constructor.
  - intros name ext c m header. unfold addFileToIndex. rewrite Hopen. cbv zeta.
    destruct (match _extractNumbering (Some name) with
              | Some n => Some n
              | None => _extractNumbering header
              end) as [n|];
      cbn [with_flat _flatCompilationsList];
      rewrite ?alter_snoc, ?unit_at_snoc;
      cbn [fileName numberingSignature set_numbering];
      rewrite ?alter_snoc;
      (rewrite find_by_path_None;
       [by eexists | apply Forall_app; split; [done|]; by repeat constructor]).
Qed.

Lemma insertion_without_parent_witness :
  (_isIndexSealed Sample.with_assets = false
   ∧ Forall (λ unit, filePath unit ≠ Path.dirname Sample.Path (lit "/root/img/a.txt"))
            (_flatCompilationsList Sample.with_assets)
   ∧ lit "/root/img/a.txt" ≠ Path.dirname Sample.Path (lit "/root/img/a.txt"))
  ∧ ∃ unit,
      addFileToIndex Sample.Path None (lit "/root/img/a.txt") (lit "a.txt")
        (lit "txt") 0 0 None Sample.with_assets
      = Thrown TypeError
          (with_flat (_flatCompilationsList Sample.with_assets ++ [unit])
             Sample.with_assets)
      ∧ filePath unit = lit "/root/img/a.txt".
Proof.
  assert (Forall (λ unit, filePath unit ≠ Path.dirname Sample.Path (lit "/root/img/a.txt"))
            (_flatCompilationsList Sample.with_assets)) as Hnone.
  { by repeat constructor. }
  assert (lit "/root/img/a.txt" ≠ Path.dirname Sample.Path (lit "/root/img/a.txt"))
    as Hself by done.
  split; [done|].
  destruct (insertion_without_parent Sample.Path None Sample.with_assets
              (lit "/root/img/a.txt") eq_refl Hnone Hself) as [_ Hfile].
  apply Hfile.
Defined.

Lemma adopt_static parent self s :
  static <$> _flatCompilationsList (adopt parent self s)
  = static <$> _flatCompilationsList s.
Proof.
  unfold adopt. cbn [with_flat with_groups _flatCompilationsList].
  destruct (children (unit_at (alter (set_isNode true) parent
                                 (_flatCompilationsList s)) parent));
    cbn [with_flat with_groups _flatCompilationsList];
    rewrite !static_fmap_alter;
    done || (intros u; apply static_push_child).
Qed.

Lemma find_by_path_static (flat1 flat2 : list Unit) path :
  static <$> flat1 = static <$> flat2 →
  find_by_path flat1 path = find_by_path flat2 path.
Proof.
  unfold find_by_path. revert flat2.
  induction flat1 as [|u1 flat1 IH]; intros [|u2 flat2] Heq; try done.
  apply (f_equal head) in Heq as Hu. apply (f_equal tail) in Heq.
  simpl in Hu, Heq. injection Hu as Hpath _. cbn [list_find].
  rewrite Hpath. destruct (decide (filePath u2 = path)); [done|].
  rewrite <- !option_fmap_compose. specialize (IH flat2 Heq).
  destruct (list_find _ flat1) as [[i x]|], (list_find _ flat2) as [[j y]|];
    simpl in *; congruence.
Qed.

Lemma fileHeader_static (flat1 flat2 : list Unit) i :
  static <$> flat1 = static <$> flat2 →
  fileHeader (unit_at flat1 i) = fileHeader (unit_at flat2 i).
Proof.
  intros Heq. change (fileHeader (static (unit_at flat1 i))
                      = fileHeader (static (unit_at flat2 i))).
  by rewrite (static_unit_at _ _ _ Heq).
Qed.

Lemma getHeaderFor_static s1 s2 path :
  static <$> _flatCompilationsList s1 = static <$> _flatCompilationsList s2 →
  getHeaderFor path s1 = getHeaderFor path s2.
Proof.
  intros Heq. unfold getHeaderFor.
  rewrite (find_by_path_static _ _ path Heq).
  destruct (_flatCompilationsList s1) as [|u1 flat1] eqn:H1,
           (_flatCompilationsList s2) as [|u2 flat2] eqn:H2; try done.
  destruct (find_by_path (u2 :: flat2) path); [|done].
  by apply fileHeader_static.
Qed.

Lemma find_by_path_snoc flat unit path :
  find_by_path (flat ++ [unit]) path
  = match find_by_path flat path with
    | Some doc => Some doc
    | None => if decide (filePath unit = path) then Some (length flat) else None
    end.
Proof.
  unfold find_by_path.
  destruct (list_find (λ u, filePath u = path) flat) as [[i x]|] eqn:Hfind; simpl.
  - by rewrite (proj2 (list_find_app_Some _ flat [unit] i x) (or_introl Hfind)).
  - destruct (decide (filePath unit = path)) as [Hpath|Hpath].
    + rewrite (proj2 (list_find_app_Some (λ u, filePath u = path) flat [unit]
                        (length flat) unit)); [done|].
      right. split; [lia|]. split; [done|]. rewrite Nat.sub_diag. simpl.
      by rewrite decide_True.
    + rewrite (proj2 (list_find_app_None (λ u, filePath u = path) flat [unit]));
        [done|].
      split; [done|]. simpl. by rewrite decide_False.
Qed.

Lemma tidy_label_no_leading_digit optionsData label :
  Forall (λ c, Chars.is_digit c = false)
         (leading_run (to_string (tidyUpLabel optionsData (Some label) true))).
Proof.
  unfold tidyUpLabel. simpl default.
  destruct (JsString.trim label) as [|c trimmed] eqn:Htrim;
    cbn [JsString.truthy negb to_string default from_option id].
  - apply trim_nil_iff in Htrim.
    assert (leading_run label = label) as ->.
    { apply take_run_all. eapply Forall_impl; [exact Htrim|].
      intros c Hc. simpl. by destruct (is_space_numbering c Hc) as [-> _]. }
    eapply Forall_impl; [exact Htrim|]. intros c Hc. simpl.
    by destruct (is_space_numbering c Hc).
  - pose proof (tidy_text_letter_first optionsData (c :: trimmed)) as Hfirst.
    apply letter_first_inv in Hfirst as [->|(d & rest & -> & Hd)]; [constructor|].
    unfold leading_run. simpl. rewrite Hd. constructor.
Qed.

Lemma extractNumbering_no_leading_digit text :
  Forall (λ c, Chars.is_digit c = false) (leading_run text) →
  _extractNumbering (Some text) = None.
Proof.
  intros Hrun. rewrite extractNumbering_tokens. unfold digit_runs.
  by rewrite digit_runs_from_nondigits.
Qed.

(** X9. The header stored for a file carries the numbering of the file:
    when [addFileToIndex] finds the parent folder it returns, the new unit
    is the last of [_flatCompilationsList], its numbering is the one of the
    file name or else of the first line, and, when its numbers are safe
    integers, [_extractNumbering] reads that numbering back from its header
    (nothing when the numbering is hidden from the navigation). *)
Theorem file_header_carries_numbering Path optionsData p name ext c m header s parent :
  _isIndexSealed s = false →
  find_by_path (_flatCompilationsList s) (Path.dirname Path p) = Some parent →
  ∃ s',
    addFileToIndex Path optionsData p name ext c m header s = Returned s'
    ∧ let unit := unit_at (_flatCompilationsList s')
                          (length (_flatCompilationsList s)) in
      length (_flatCompilationsList s') = S (length (_flatCompilationsList s))
      ∧ filePath unit = p
      ∧ numbering unit = match _extractNumbering (Some name) with
                         | Some n => Some n
                         | None => _extractNumbering header
                         end
      ∧ (Forall safe_integer (default [] (numbering unit)) →
         _extractNumbering (fileHeader unit)
         = if _mustHideNavNumbering optionsData then None else numbering unit).
Proof.
  intros Hopen Hparent.
  destruct (addFileToIndex_adopts Path optionsData p name ext c m header s parent)
    as (unit & -> & Hchildren & Hpath & _ & Hnumbering & Hheader); [done..|].
  pose proof (find_by_path_lt _ _ _ Hparent) as [Hlt _].
  eexists. split; [reflexivity|]. cbv zeta.
  destruct (adopt_store parent (length (_flatCompilationsList s))
              (with_flat (_flatCompilationsList s ++ [unit]) s))
    as (Hlen & Hother & _).
  { cbn [with_flat _flatCompilationsList]. rewrite length_app. lia. }
  rewrite Hlen, Hother by lia. cbn [with_flat _flatCompilationsList].
  rewrite unit_at_snoc, length_app. split; [simpl; lia|]. split; [done|].
  split; [done|]. intros _. rewrite Hheader.
  match goal with |- context [tidyUpLabel optionsData ?l true] =>
    assert (∃ label, l = Some label) as [label ->]
  end.
  { destruct header as [[|? ?]|]; by eexists. }
  pose proof (tidy_label_no_leading_digit optionsData label) as Hlabel.
  destruct (_mustHideNavNumbering optionsData).
  { by apply extractNumbering_no_leading_digit. }
  destruct (numbering unit) as [n|] eqn:Hn.
  - assert (n ≠ [] ∧ Forall (λ z, (0 ≤ z)%Z) n) as [Hne Hpos].
    { pose proof (extractNumbering_nonneg (Some name)) as Hname.
      pose proof (extractNumbering_nonneg header) as Hhdr.
      destruct (_extractNumbering (Some name)) as [n'|].
      - by injection Hnumbering as <-.
      - rewrite <- Hnumbering in Hhdr. done. }
    by apply extractNumbering_signature.
  - by apply extractNumbering_no_leading_digit.
Qed.

Lemma file_header_carries_numbering_witness :
  (_isIndexSealed Sample.with_assets = false
   ∧ find_by_path (_flatCompilationsList Sample.with_assets)
       (Path.dirname Sample.Path (lit "/root/assets/2.1 more-notes.txt")) = Some 2)
  ∧ ∃ s',
      addFileToIndex Sample.Path None (lit "/root/assets/2.1 more-notes.txt")
        (lit "2.1 more-notes.txt") (lit "txt") 0 0 None Sample.with_assets
      = Returned s'
      ∧ let unit := unit_at (_flatCompilationsList s')
                            (length (_flatCompilationsList Sample.with_assets)) in
        length (_flatCompilationsList s')
        = S (length (_flatCompilationsList Sample.with_assets))
        ∧ filePath unit = lit "/root/assets/2.1 more-notes.txt"
        ∧ numbering unit
          = match _extractNumbering (Some (lit "2.1 more-notes.txt")) with
            | Some n => Some n
            | None => _extractNumbering None
            end
        ∧ (Forall safe_integer (default [] (numbering unit)) →
           _extractNumbering (fileHeader unit)
           = if _mustHideNavNumbering None then None else numbering unit).
Proof.
  assert (find_by_path (_flatCompilationsList Sample.with_assets)
            (Path.dirname Sample.Path (lit "/root/assets/2.1 more-notes.txt")) = Some 2)
    as Hparent by (vm_compute; reflexivity).
  split; [by split|].
  exact (file_header_carries_numbering Sample.Path None
           (lit "/root/assets/2.1 more-notes.txt") (lit "2.1 more-notes.txt")
           (lit "txt") 0 0 None Sample.with_assets 2 eq_refl Hparent).
Defined.

(** ** HierarchyResolver: what the promotion keeps *)

Section PromotionTrace.
Context (flat0 : list Unit) (R : nat → nat → Prop) (Q : list Unit → Prop).

(** [Q] is kept when a unit moves under the sibling before it. *)
Hypothesis Q_promote : ∀ owner i flat queue g x p flat',
  scan_inv flat0 R owner i flat queue →
  children_at flat owner = Some g →
  1 ≤ i → g !! i = Some x → g !! (i - 1) = Some p →
  must_promote (unit_at flat x) (unit_at flat p) = true →
  p ≠ owner →
  static <$> flat' = static <$> flat →
  (∀ o', children_at flat' o' =
         if decide (o' = owner) then Some (delete i g)
         else if decide (o' = p) then Some (group_of flat p ++ [x])
         else children_at flat o') →
  Q flat → Q flat'.

Lemma scan_step_trace owner i flat queue :
  scan_inv flat0 R owner i flat queue →
  (i = 0 ∨ i < length (group_of flat owner)) →
  Q flat → Q (scan_step owner i flat queue).1.2.
Proof.
  intros Hinv Hi HQ.
  destruct ((0 <? i) && must_promote (unit_at flat (group_of flat owner !!! i))
                          (unit_at flat (group_of flat owner !!! (i - 1))))
    eqn:Hcond.
  - apply andb_true_iff in Hcond as [Hpos%Nat.ltb_lt Hmust].
    destruct Hi as [->|Hi]; [lia|].
    destruct (scan_owner _ _ _ _ _ _ Hinv) as [g Hg].
    rewrite (group_of_Some _ _ _ Hg) in *.
    destruct (lookup_lt_is_Some_2 g i Hi) as [x Hx].
    destruct (lookup_lt_is_Some_2 g (i - 1) ltac:(lia)) as [p Hp].
    rewrite (list_lookup_total_correct _ _ _ Hx),
            (list_lookup_total_correct _ _ _ Hp) in Hmust.
    pose proof (scan_base _ _ _ _ _ _ Hinv) as Hbase.
    pose proof (list_elem_of_lookup_2 _ _ _ Hp) as Hpg.
    destruct (must_promote_can _ _ Hmust) as [Hcx Hcp].
    assert (Hpo : p ≠ owner).
    { intros ->. by eapply (inv_noself _ _ _ _ Hbase owner g). }
    assert (Hplt : p < length flat) by by eapply (inv_refs _ _ _ _ Hbase owner g).
    destruct (scan_step_promote owner i flat queue g x p)
      as (flat' & queue' & Hstep & Hstat & Hch & _); [done..|].
    rewrite Hstep. simpl. by eapply (Q_promote owner i flat queue g x p).
  - unfold scan_step. by rewrite Hcond.
Qed.

Lemma scan_group_trace fuel owner i flat queue flat' queue' :
  scan_group fuel owner i flat queue = Some (flat', queue') →
  scan_inv flat0 R owner i flat queue →
  (i = 0 ∨ i < length (group_of flat owner)) →
  Q flat → Q flat' ∧ promotion_inv flat0 R flat' queue'.
Proof.
  revert i flat queue.
  induction fuel as [|fuel IH]; intros i flat queue Hscan Hinv Hi HQ; [done|].
  pose proof (scan_step_trace owner i flat queue Hinv Hi HQ) as HQ'.
  destruct (scan_step_inv flat0 R owner i flat queue Hinv Hi)
    as (i' & flat1 & queue1 & Hstep & Hinv' & _).
  simpl in Hscan. rewrite Hstep in Hscan, HQ'. simpl in HQ'.
  destruct (Nat.ltb_spec i' (length (group_of flat1 owner))) as [Hlt|Hge].
  - eapply IH; [exact Hscan | done | by right | done].
  - injection Hscan as <- <-. split; [done|]. by eapply scan_base.
Qed.

Lemma promote_trace fuel inner flat queue flat' queue' :
  promote fuel inner flat queue = Some (flat', queue') →
  promotion_inv flat0 R flat queue →
  Q flat → Q flat' ∧ promotion_inv flat0 R flat' queue' ∧ queue' = [].
Proof.
  revert flat queue.
  induction fuel as [|fuel IH]; intros flat queue Hpromote Hinv HQ; [done|].
  simpl in Hpromote. destruct queue as [|owner queue].
  - by injection Hpromote as <- <-.
  - destruct (scan_group inner owner 0 flat queue) as [[flat1 queue1]|] eqn:Hscan;
      [|done].
    destruct (scan_group_trace inner owner 0 flat queue flat1 queue1)
      as [HQ1 Hinv1]; [done | by apply scan_inv_start | by left | done |].
    by eapply IH.
Qed.

End PromotionTrace.

Lemma elem_of_delete_2 {A} (l : list A) i x y :
  l !! i = Some x → y ∈ l → y ≠ x → y ∈ delete i l.
Proof.
  intros Hx [j Hj]%list_elem_of_lookup_1 Hne.
  assert (j ≠ i) as Hji by (intros ->; congruence).
  destruct (Nat.lt_ge_cases j i) as [Hlt|Hge].
  - apply (list_elem_of_lookup_2 _ j). by rewrite list_lookup_delete_lt.
  - apply (list_elem_of_lookup_2 _ (j - 1)).
    rewrite list_lookup_delete_ge by lia. by replace (S (j - 1)) with j by lia.
Qed.

Lemma must_promote_static (flat flat0 : list Unit) x p :
  static <$> flat = static <$> flat0 →
  must_promote (unit_at flat x) (unit_at flat p)
  = must_promote (unit_at flat0 x) (unit_at flat0 p).
Proof.
  intros Heq.
  change (must_promote (static (unit_at flat x)) (static (unit_at flat p))
          = must_promote (static (unit_at flat0 x)) (static (unit_at flat0 p))).
  by rewrite !(static_unit_at _ _ _ Heq).
Qed.

(** A promotion keeps the children, and gives a unit a new child only from
    among its siblings. *)
Lemma children_traced_promote flat0 R before owner i flat queue g x p flat' :
  scan_inv flat0 R owner i flat queue →
  children_at flat owner = Some g →
  1 ≤ i → g !! i = Some x → g !! (i - 1) = Some p →
  must_promote (unit_at flat x) (unit_at flat p) = true →
  p ≠ owner →
  static <$> flat' = static <$> flat →
  (∀ o', children_at flat' o' =
         if decide (o' = owner) then Some (delete i g)
         else if decide (o' = p) then Some (group_of flat p ++ [x])
         else children_at flat o') →
  children_kept flat0 before flat ∧ children_gained flat0 before flat →
  children_kept flat0 before flat' ∧ children_gained flat0 before flat'.
Proof.
  intros Hinv Hg Hi Hx Hp Hmust Hpo Hstat Hch [Hkept Hgained].
  pose proof (scan_base _ _ _ _ _ _ Hinv) as Hbase.
  pose proof (inv_static _ _ _ _ Hbase) as Hstatic.
  assert (group_of flat' owner = delete i g) as Howner.
  { apply group_of_Some. rewrite Hch. by rewrite decide_True. }
  assert (group_of flat' p = group_of flat p ++ [x]) as Hprev.
  { apply group_of_Some. rewrite Hch. rewrite decide_False by done.
    by rewrite decide_True. }
  assert (∀ o, o ≠ owner → o ≠ p → group_of flat' o = group_of flat o) as Hother.
  { intros o Ho Ho'. unfold group_of. fold (children_at flat' o) (children_at flat o).
    rewrite Hch. by rewrite !decide_False by done. }
  assert (∀ o y, y ∈ group_of flat o →
                 y ∈ group_of flat' o ∨ (y = x ∧ o = owner)) as Hstays.
  { intros o y Hy. destruct (decide (o = owner)) as [->|Ho].
    - rewrite (group_of_Some _ _ _ Hg) in Hy. rewrite Howner.
      destruct (decide (y = x)) as [->|Hne]; [by right | left].
      by eapply elem_of_delete_2.
    - left. destruct (decide (o = p)) as [->|Ho'].
      + rewrite Hprev. apply elem_of_app. by left.
      + by rewrite Hother. }
  assert (x ∈ group_of flat' p) as Hmoved.
  { rewrite Hprev. apply elem_of_app. right. by apply list_elem_of_singleton. }
  assert (can_promote (unit_at flat0 x) = true) as Hcan.
  { rewrite <- (can_promote_unit_at _ _ _ Hstatic).
    by destruct (must_promote_can _ _ Hmust). }
  split.
  - intros o y Hy. destruct (Hkept o y Hy) as [Hin|[Hy' [o' Hin]]].
    + destruct (Hstays o y Hin) as [?|[-> ->]]; [by left | right].
      split; [done|]. by exists p.
    + right. split; [done|].
      destruct (Hstays o' y Hin) as [?|[-> ->]]; [by exists o' | by exists p].
  - intros o y Hy. destruct (decide (o = owner)) as [->|Ho].
    + rewrite Howner in Hy. apply list_elem_of_delete_inv in Hy.
      apply Hgained. by rewrite (group_of_Some _ _ _ Hg).
    + destruct (decide (o = p)) as [->|Ho'].
      * rewrite Hprev in Hy.
        apply elem_of_app in Hy as [Hy|Hy%list_elem_of_singleton]; [by apply Hgained|].
        subst y. right. split.
        { by rewrite <- (must_promote_static _ _ _ _ Hstatic). }
        assert (x ∈ group_of flat owner) as Hxo.
        { rewrite (group_of_Some _ _ _ Hg). by eapply list_elem_of_lookup_2. }
        destruct (Hgained owner x Hxo) as [?|[_ [o0 ?]]]; [by exists owner | by exists o0].
      * rewrite Hother in Hy by done. by apply Hgained.
Qed.

Lemma group_of_sort_groups flat queue o x :
  NoDup queue →
  x ∈ group_of (sort_groups queue flat) o ↔ x ∈ group_of flat o.
Proof.
  intros Hnodup. unfold group_of.
  fold (children_at (sort_groups queue flat) o) (children_at flat o).
  destruct (sort_groups_children flat flat queue o eq_refl Hnodup) as [_ ->].
  destruct (decide (o ∈ queue)); [|done].
  destruct (children_at flat o) as [c|]; simpl; [|done]. apply elem_of_sort.
Qed.

Lemma group_of_mark_excluded folders flat o :
  group_of (mark_excluded folders flat) o = group_of flat o.
Proof.
  unfold group_of. fold (children_at (mark_excluded folders flat) o) (children_at flat o).
  by destruct (mark_excluded_fields folders flat o) as [-> _].
Qed.

(** What [buildIndex] has done when it returns: it has marked the units of
    some folders, sorted the groups and promoted. *)
Lemma buildIndex_promotes Path fuel skipped s s' :
  well_formed s →
  buildIndex Path fuel skipped s = Some (Returned s') →
  ∃ folders,
    let marked := mark_excluded folders (_flatCompilationsList s) in
    promotion_inv marked (in_order marked) (_flatCompilationsList s') []
    ∧ children_kept marked (_flatCompilationsList s) (_flatCompilationsList s')
    ∧ children_gained marked (_flatCompilationsList s) (_flatCompilationsList s')
    ∧ _rawGroups s' = []
    ∧ _isIndexSealed s' = true
    ∧ _abstractNavigationTree s' = _abstractNavigationTree s.
Proof.
  intros [Hwf Hnone] Hbuild. unfold buildIndex in Hbuild.
  destruct (mark_exclusions Path fuel skipped (seal s)) as [[s1|]|] eqn:Hmark;
    [|done..].
  destruct (mark_exclusions_Returned _ _ _ _ _ Hmark Hnone) as (folders & Hflat1 & Hq1).
  simpl in Hflat1, Hq1.
  pose proof (mark_exclusions_sealed _ _ _ _ _ Hmark) as Hsealed. simpl in Hsealed.
  assert (_abstractNavigationTree s1 = _abstractNavigationTree s) as Htree.
  { revert Hmark. unfold mark_exclusions.
    destruct skipped as [[|q skipped]|]; try (by intros [= <-]).
    destruct (_flatCompilationsList (seal s) !! 0); [|done].
    destruct (collect_all _ _ _ _ _) as [[|folder folders']|]; [| |done];
      by intros [= <-]. }
  assert (Hwf1 : well_formed_store (_flatCompilationsList s1) (_rawGroups s1)).
  { rewrite Hflat1, Hq1. eapply well_formed_store_transfer; [| | |exact Hwf].
    - apply length_mark_excluded.
    - intros i. apply mark_excluded_fields.
    - intros i. apply can_promote_mark_excluded. }
  pose proof (promotion_inv_init _ _ Hwf1) as Hinit.
  destruct (promote fuel fuel _ _) as [[flat' queue']|] eqn:Hpromote; [|done].
  injection Hbuild as <-. cbn [with_groups with_flat _flatCompilationsList _rawGroups
                                 _isIndexSealed _abstractNavigationTree].
  set (marked := _flatCompilationsList s1) in *.
  set (sorted := sort_groups (_rawGroups s1) marked) in *.
  destruct (promote_trace marked (in_order marked)
              (λ flat, children_kept marked sorted flat
                       ∧ children_gained marked sorted flat)
              (children_traced_promote marked (in_order marked) sorted)
              fuel fuel sorted (_rawGroups s1) flat' queue' Hpromote Hinit)
    as ([Hkept Hgained] & Hfinal & ->).
  { split; intros o x Hx; by left. }
  assert (∀ o x, x ∈ group_of sorted o ↔ x ∈ group_of (_flatCompilationsList s) o)
    as Hsame.
  { intros o x. unfold sorted. rewrite group_of_sort_groups by by destruct Hwf1 as (_ & ? & _).
    by rewrite Hflat1, group_of_mark_excluded. }
  exists folders. cbv zeta. rewrite <- Hflat1.
  split_and!; try done.
  - intros o x Hx. apply Hkept. by apply Hsame.
  - intros o x Hx. destruct (Hgained o x Hx) as [?|[Hmust [o0 ?]]].
    + left. by apply Hsame.
    + right. split; [done|]. exists o0. by apply Hsame.
Qed.

(** X10. [buildIndex] loses no unit and duplicates none: on a well-formed
    index, when it returns, the units that are children of some unit are the
    same as before; each is the child of one unit only, once in its array;
    the work queue is empty, the index sealed, and the roots of the tree and
    the number of units are as before. *)
Theorem buildIndex_keeps_every_child Path fuel skipped s s' :
  well_formed s →
  buildIndex Path fuel skipped s = Some (Returned s') →
  (∀ x, (∃ o, x ∈ group_of (_flatCompilationsList s) o)
        ↔ (∃ o, x ∈ group_of (_flatCompilationsList s') o))
  ∧ (∀ o1 o2 x,
       x ∈ group_of (_flatCompilationsList s') o1 →
       x ∈ group_of (_flatCompilationsList s') o2 → o1 = o2)
  ∧ (∀ o, NoDup (group_of (_flatCompilationsList s') o))
  ∧ length (_flatCompilationsList s') = length (_flatCompilationsList s)
  ∧ _abstractNavigationTree s' = _abstractNavigationTree s
  ∧ _rawGroups s' = []
  ∧ _isIndexSealed s' = true.
Proof.
  intros Hwf Hbuild.
  destruct (buildIndex_promotes Path fuel skipped s s' Hwf Hbuild)
    as (folders & Hinv & Hkept & Hgained & Hqueue & Hsealed & Htree).
  cbv zeta in *. split_and!; try done.
  - intros x. split.
    + intros [o Hx]. destruct (Hkept o x Hx) as [?|[_ [o' ?]]]; eauto.
    + intros [o Hx]. destruct (Hgained o x Hx) as [?|[_ [o0 ?]]]; eauto.
  - intros o1 o2 x Hx1 Hx2.
    destruct (children_at (_flatCompilationsList s') o1) as [c1|] eqn:Hc1;
      [|by rewrite (group_of_None _ _ Hc1) in Hx1; apply elem_of_nil in Hx1].
    destruct (children_at (_flatCompilationsList s') o2) as [c2|] eqn:Hc2;
      [|by rewrite (group_of_None _ _ Hc2) in Hx2; apply elem_of_nil in Hx2].
    rewrite (group_of_Some _ _ _ Hc1) in Hx1. rewrite (group_of_Some _ _ _ Hc2) in Hx2.
    by eapply (inv_disjoint _ _ _ _ Hinv o1 o2).
  - intros o. destruct (children_at (_flatCompilationsList s') o) as [c|] eqn:Hc.
    + rewrite (group_of_Some _ _ _ Hc). by eapply inv_nodup.
    + rewrite (group_of_None _ _ Hc). constructor.
  - rewrite (promotion_inv_length _ _ _ _ Hinv). apply length_mark_excluded.
Qed.

Lemma buildIndex_keeps_every_child_witness :
  (well_formed Sample.flat_group
   ∧ buildIndex Sample.Path 10 None Sample.flat_group
     = Some (Returned Sample.flat_group_built))
  ∧ (∀ x, (∃ o, x ∈ group_of (_flatCompilationsList Sample.flat_group) o)
          ↔ (∃ o, x ∈ group_of (_flatCompilationsList Sample.flat_group_built) o))
  ∧ (∀ o1 o2 x,
       x ∈ group_of (_flatCompilationsList Sample.flat_group_built) o1 →
       x ∈ group_of (_flatCompilationsList Sample.flat_group_built) o2 → o1 = o2)
  ∧ (∀ o, NoDup (group_of (_flatCompilationsList Sample.flat_group_built) o))
  ∧ length (_flatCompilationsList Sample.flat_group_built)
    = length (_flatCompilationsList Sample.flat_group)
  ∧ _abstractNavigationTree Sample.flat_group_built
    = _abstractNavigationTree Sample.flat_group
  ∧ _rawGroups Sample.flat_group_built = []
  ∧ _isIndexSealed Sample.flat_group_built = true.
Proof.
  assert (well_formed Sample.flat_group) as Hwf.
  { apply (bool_decide_unpack _). by vm_compute. }
  assert (buildIndex Sample.Path 10 None Sample.flat_group
          = Some (Returned Sample.flat_group_built)) as Hbuild.
  { vm_compute. reflexivity. }
  split; [by split|].
  exact (buildIndex_keeps_every_child Sample.Path 10 None Sample.flat_group
           Sample.flat_group_built Hwf Hbuild).
Defined.

Lemma must_promote_mark_excluded folders flat x o :
  must_promote (unit_at (mark_excluded folders flat) x)
               (unit_at (mark_excluded folders flat) o)
  = must_promote (unit_at flat x) (unit_at flat o).
Proof.
  unfold must_promote.
  destruct (mark_excluded_fields folders flat x) as (_ & -> & -> & _).
  by destruct (mark_excluded_fields folders flat o) as (_ & -> & -> & _).
Qed.

(** X11. The promotion moves numbered files only, and only under a file
    with a shorter numbering: on a well-formed index, when [buildIndex]
    returns, a child of a unit was its child before or passes the test of
    the promotion against it (neither is a directory, both carry a
    numbering, the child's is the longer); a unit that is a directory or has
    no numbering is still the child of the unit it was inserted under, and
    has no child it did not have. *)
Theorem promotion_moves_numbered_files Path fuel skipped s s' :
  well_formed s →
  buildIndex Path fuel skipped s = Some (Returned s') →
  (∀ o x,
     x ∈ group_of (_flatCompilationsList s') o →
     x ∈ group_of (_flatCompilationsList s) o
     ∨ must_promote (unit_at (_flatCompilationsList s) x)
                    (unit_at (_flatCompilationsList s) o) = true)
  ∧ (∀ o x,
       x ∈ group_of (_flatCompilationsList s) o →
       can_promote (unit_at (_flatCompilationsList s) x) = false →
       x ∈ group_of (_flatCompilationsList s') o)
  ∧ (∀ o x,
       can_promote (unit_at (_flatCompilationsList s) o) = false →
       x ∈ group_of (_flatCompilationsList s') o →
       x ∈ group_of (_flatCompilationsList s) o).
Proof.
  intros Hwf Hbuild.
  destruct (buildIndex_promotes Path fuel skipped s s' Hwf Hbuild)
    as (folders & _ & Hkept & Hgained & _).
  cbv zeta in *.
  assert (∀ o x,
            x ∈ group_of (_flatCompilationsList s') o →
            x ∈ group_of (_flatCompilationsList s) o
            ∨ must_promote (unit_at (_flatCompilationsList s) x)
                           (unit_at (_flatCompilationsList s) o) = true) as Hfirst.
  { intros o x Hx. destruct (Hgained o x Hx) as [?|[Hmust _]]; [by left | right].
    by rewrite must_promote_mark_excluded in Hmust. }
  split_and!; [done| |].
  - intros o x Hx Hcan. destruct (Hkept o x Hx) as [?|[Hcan' _]]; [done|].
    rewrite can_promote_mark_excluded in Hcan'. congruence.
  - intros o x Hcan Hx. destruct (Hfirst o x Hx) as [?|Hmust]; [done|].
    apply must_promote_can in Hmust as [_ Hcan']. congruence.
Qed.

Lemma promotion_moves_numbered_files_witness :
  (well_formed Sample.flat_group
   ∧ buildIndex Sample.Path 10 None Sample.flat_group
     = Some (Returned Sample.flat_group_built))
  ∧ (∀ o x,
       x ∈ group_of (_flatCompilationsList Sample.flat_group_built) o →
       x ∈ group_of (_flatCompilationsList Sample.flat_group) o
       ∨ must_promote (unit_at (_flatCompilationsList Sample.flat_group) x)
                      (unit_at (_flatCompilationsList Sample.flat_group) o) = true)
  ∧ (∀ o x,
       x ∈ group_of (_flatCompilationsList Sample.flat_group) o →
       can_promote (unit_at (_flatCompilationsList Sample.flat_group) x) = false →
       x ∈ group_of (_flatCompilationsList Sample.flat_group_built) o)
  ∧ (∀ o x,
       can_promote (unit_at (_flatCompilationsList Sample.flat_group) o) = false →
       x ∈ group_of (_flatCompilationsList Sample.flat_group_built) o →
       x ∈ group_of (_flatCompilationsList Sample.flat_group) o).
Proof.
  assert (well_formed Sample.flat_group) as Hwf.
  { apply (bool_decide_unpack _). by vm_compute. }
  assert (buildIndex Sample.Path 10 None Sample.flat_group
          = Some (Returned Sample.flat_group_built)) as Hbuild.
  { vm_compute. reflexivity. }
  split; [by split|].
  exact (promotion_moves_numbered_files Sample.Path 10 None Sample.flat_group
           Sample.flat_group_built Hwf Hbuild).
Defined.

Lemma registered_mark_excluded folders (flat : list Unit) :
  registered <$> mark_excluded folders flat = registered <$> flat.
Proof.
  unfold mark_excluded. rewrite <- list_fmap_compose. apply list_fmap_ext.
  intros i u _. simpl. unfold mark_unit. by destruct (bool_decide _).
Qed.

Lemma registered_static (flat1 flat2 : list Unit) :
  static <$> flat1 = static <$> flat2 → registered <$> flat1 = registered <$> flat2.
Proof.
  intros Heq.
  assert (∀ flat : list Unit, registered <$> flat = registered <$> (static <$> flat))
    as Hvia.
  { intros flat. rewrite <- list_fmap_compose. by apply list_fmap_ext. }
  by rewrite (Hvia flat1), (Hvia flat2), Heq.
Qed.

Lemma getHeaderFor_registered s1 s2 path :
  registered <$> _flatCompilationsList s1 = registered <$> _flatCompilationsList s2 →
  getHeaderFor path s1 = getHeaderFor path s2.
Proof.
  intros Heq. unfold getHeaderFor, find_by_path.
  assert (∀ (flat1 flat2 : list Unit),
            registered <$> flat1 = registered <$> flat2 →
            (λ '(i, u), (i, fileHeader u)) <$> list_find (λ u, filePath u = path) flat1
            = (λ '(i, u), (i, fileHeader u)) <$> list_find (λ u, filePath u = path) flat2)
    as Hfind.
  { induction flat1 as [|u1 flat1 IH]; intros [|u2 flat2] Hr; try done.
    apply (f_equal head) in Hr as Hu. apply (f_equal tail) in Hr.
    simpl in Hu, Hr. injection Hu as Hpath _ _ _ _ Hheader _.
    cbn [list_find]. rewrite Hpath.
    destruct (decide (filePath u2 = path)); [simpl; by rewrite Hheader|].
    rewrite <- !option_fmap_compose. specialize (IH flat2 Hr).
    destruct (list_find _ flat1) as [[i x]|], (list_find _ flat2) as [[j y]|];
      simpl in *; congruence. }
  specialize (Hfind _ _ Heq).
  destruct (_flatCompilationsList s1) as [|u1 flat1] eqn:H1,
           (_flatCompilationsList s2) as [|u2 flat2] eqn:H2; try done.
  destruct (list_find _ (u1 :: flat1)) as [[i x]|] eqn:Hf1,
           (list_find _ (u2 :: flat2)) as [[j y]|] eqn:Hf2; simpl in Hfind |- *;
    try done.
  injection Hfind as -> Hheader.
  apply list_find_Some in Hf1 as (Hx & _). apply list_find_Some in Hf2 as (Hy & _).
  change (fileHeader (unit_at (u1 :: flat1) j) = fileHeader (unit_at (u2 :: flat2) j)).
  unfold unit_at.
  by rewrite (list_lookup_total_correct _ _ _ Hx), (list_lookup_total_correct _ _ _ Hy).
Qed.

(** X12. [buildIndex] rewrites the links only: on a well-formed index, when
    it returns, every unit has the path, name, extension, times, header,
    numbering and [parent] it was registered with (the [parent] of a unit
    moved under a sibling still names the folder), a unit marked
    [mustExclude] stays marked, and [getHeaderFor] and
    [getCompilationHeader] answer as before. *)
Theorem buildIndex_keeps_records Path fuel skipped s s' :
  well_formed s →
  buildIndex Path fuel skipped s = Some (Returned s') →
  registered <$> _flatCompilationsList s' = registered <$> _flatCompilationsList s
  ∧ (∀ i, mustExclude (unit_at (_flatCompilationsList s) i) = true →
          mustExclude (unit_at (_flatCompilationsList s') i) = true)
  ∧ (∀ path, getHeaderFor path s' = getHeaderFor path s)
  ∧ (∀ separator, getCompilationHeader separator s' = getCompilationHeader separator s).
Proof.
  intros Hwf Hbuild.
  destruct (buildIndex_promotes Path fuel skipped s s' Hwf Hbuild)
    as (folders & Hinv & _).
  cbv zeta in *.
  assert (registered <$> _flatCompilationsList s'
          = registered <$> _flatCompilationsList s) as Hsame.
  { rewrite (registered_static _ _ (inv_static _ _ _ _ Hinv)).
    apply registered_mark_excluded. }
  split_and!; [done| | |].
  - intros i Hi.
    destruct (promotion_inv_fields _ _ _ _ i Hinv) as [_ ->].
    destruct (Nat.lt_ge_cases i (length (_flatCompilationsList s))) as [Hlt|Hge].
    + rewrite unit_at_mark_excluded by done. unfold mark_unit.
      by destruct (bool_decide _).
    + rewrite unit_at_ge in Hi by done. done.
  - intros path. by apply getHeaderFor_registered.
  - intros separator. unfold getCompilationHeader.
    destruct (_flatCompilationsList s') as [|u' flat'],
             (_flatCompilationsList s) as [|u flat]; try done.
    simpl in Hsame. injection Hsame as _ _ _ _ _ -> _. done.
Qed.

Lemma buildIndex_keeps_records_witness :
  (well_formed Sample.with_assets
   ∧ buildIndex Sample.Path 10 (Some Sample.skipped_assets) Sample.with_assets
     = Some (Returned Sample.with_assets_built))
  ∧ registered <$> _flatCompilationsList Sample.with_assets_built
    = registered <$> _flatCompilationsList Sample.with_assets
  ∧ (∀ i, mustExclude (unit_at (_flatCompilationsList Sample.with_assets) i) = true →
          mustExclude (unit_at (_flatCompilationsList Sample.with_assets_built) i) = true)
  ∧ (∀ path, getHeaderFor path Sample.with_assets_built
             = getHeaderFor path Sample.with_assets)
  ∧ (∀ separator, getCompilationHeader separator Sample.with_assets_built
                  = getCompilationHeader separator Sample.with_assets).
Proof.
  assert (well_formed Sample.with_assets) as Hwf.
  { apply (bool_decide_unpack _). by vm_compute. }
  assert (buildIndex Sample.Path 10 (Some Sample.skipped_assets) Sample.with_assets
          = Some (Returned Sample.with_assets_built)) as Hbuild.
  { vm_compute. reflexivity. }
  split; [by split|].
  exact (buildIndex_keeps_records Sample.Path 10 (Some Sample.skipped_assets)
           Sample.with_assets Sample.with_assets_built Hwf Hbuild).
Defined.

Lemma promote_queue fuel inner flat queue flat' queue' :
  promote fuel inner flat queue = Some (flat', queue') → queue' = [].
Proof.
  revert flat queue. induction fuel as [|fuel IH]; intros flat queue; [done|].
  simpl. destruct queue as [|owner queue]; [by intros [= _ <-]|].
  destruct (scan_group inner owner 0 flat queue) as [[flat1 queue1]|]; [|done].
  apply IH.
Qed.

(** X13. A second [buildIndex] does nothing: when [buildIndex] has returned,
    the work queue is empty and the index sealed, and a call of
    [buildIndex] without skipped paths returns the same state. *)
Theorem buildIndex_again Path fuel skipped s s' n :
  buildIndex Path fuel skipped s = Some (Returned s') →
  _rawGroups s' = [] ∧ _isIndexSealed s' = true
  ∧ buildIndex Path (S n) None s' = Some (Returned s')
  ∧ buildIndex Path (S n) (Some []) s' = Some (Returned s').
Proof.
  intros Hbuild. unfold buildIndex in Hbuild.
  destruct (mark_exclusions Path fuel skipped (seal s)) as [[s1|]|] eqn:Hmark;
    [|done..].
  pose proof (mark_exclusions_sealed _ _ _ _ _ Hmark) as Hsealed. simpl in Hsealed.
  destruct (promote fuel fuel _ _) as [[flat' queue']|] eqn:Hpromote; [|done].
  apply promote_queue in Hpromote as ->. injection Hbuild as <-.
  destruct s1 as [sealed tree flat queue folders]. simpl in Hsealed. subst sealed.
  by repeat split.
Qed.

Lemma buildIndex_again_witness :
  buildIndex Sample.Path 10 None Sample.flat_group
  = Some (Returned Sample.flat_group_built)
  ∧ _rawGroups Sample.flat_group_built = []
  ∧ _isIndexSealed Sample.flat_group_built = true
  ∧ buildIndex Sample.Path 1 None Sample.flat_group_built
    = Some (Returned Sample.flat_group_built)
  ∧ buildIndex Sample.Path 1 (Some []) Sample.flat_group_built
    = Some (Returned Sample.flat_group_built).
Proof.
  assert (buildIndex Sample.Path 10 None Sample.flat_group
          = Some (Returned Sample.flat_group_built)) as Hbuild.
  { vm_compute. reflexivity. }
  split; [exact Hbuild|].
  exact (buildIndex_again Sample.Path 10 None Sample.flat_group
           Sample.flat_group_built 0 Hbuild).
Defined.

(** X14. Without skipped paths [buildIndex] returns on every well-formed
    index, given fuel for its units and its groups. *)
Theorem buildIndex_returns_without_skipped Path fuel s :
  well_formed s →
  length (_rawGroups s) + length (_flatCompilationsList s) < fuel →
  (∃ s', buildIndex Path fuel None s = Some (Returned s'))
  ∧ (∃ s', buildIndex Path fuel (Some []) s = Some (Returned s')).
Proof.
  intros Hwf Hfuel. split.
  - destruct (buildIndex_returns Path fuel None s (seal s) Hwf eq_refl Hfuel)
      as (folders & flat' & _ & -> & _). by eexists.
  - destruct (buildIndex_returns Path fuel (Some []) s (seal s) Hwf eq_refl Hfuel)
      as (folders & flat' & _ & -> & _). by eexists.
Qed.

Lemma buildIndex_returns_without_skipped_witness :
  (well_formed Sample.flat_group
   ∧ length (_rawGroups Sample.flat_group)
     + length (_flatCompilationsList Sample.flat_group) < 10)
  ∧ (∃ s', buildIndex Sample.Path 10 None Sample.flat_group = Some (Returned s'))
  ∧ (∃ s', buildIndex Sample.Path 10 (Some []) Sample.flat_group = Some (Returned s')).
Proof.
  assert (well_formed Sample.flat_group) as Hwf.
  { apply (bool_decide_unpack _). by vm_compute. }
  assert (length (_rawGroups Sample.flat_group)
          + length (_flatCompilationsList Sample.flat_group) < 10) as Hfuel.
  { vm_compute. lia. }
  split; [by split|].
  exact (buildIndex_returns_without_skipped Sample.Path 10 Sample.flat_group Hwf Hfuel).
Defined.

(** ** NavigationRenderer: the walk *)

Section WalkCalls.
Context {A : Type} (callback : Unit → option Unit → A → bool * A).

Lemma calls_app nodes1 nodes2 a :
  calls callback (nodes1 ++ nodes2) a
  = let '(mustExitNow, a1) := calls callback nodes1 a in
    if mustExitNow then (true, a1) else calls callback nodes2 a1.
Proof.
  revert a. induction nodes1 as [|[n parent] nodes1 IH]; intros a; simpl; [done|].
  destruct (callback (node_unit n) parent a) as [stop a1].
  destruct (stop && negb (has_children n)); [done|]. apply IH.
Qed.

Lemma walk_list_stopped parent nodes a :
  walk_list callback parent nodes true a = (true, a).
Proof. by destruct nodes. Qed.

Lemma walk_node_calls n :
  ∀ parent a, walk_node callback n parent a = calls callback (preorder_node n parent) a.
Proof.
  induction n as [unit|unit kids IH] using Node_ind_kids; intros parent a.
  - simpl. destruct (callback unit parent a) as [stop a1]. simpl.
    rewrite andb_true_r. by destruct stop.
  - rewrite walk_node_kids. cbn [preorder_node calls node_unit has_children node_kids].
    destruct (callback unit parent a) as [stop a1].
    rewrite andb_false_r. clear a stop. revert a1.
    induction IH as [|kid kids Hkid _ IHkids]; intros a1; simpl; [done|].
    rewrite calls_app, <- Hkid.
    destruct (walk_node callback kid (Some unit) a1) as [stop a2].
    destruct stop; [apply walk_list_stopped | apply IHkids].
Qed.

Lemma walk_list_calls parent tree a :
  walk_list callback parent tree false a = calls callback (preorder tree parent) a.
Proof.
  unfold preorder. revert a. induction tree as [|n tree IH]; intros a; simpl; [done|].
  rewrite calls_app, <- walk_node_calls.
  destruct (walk_node callback n parent a) as [stop a1].
  destruct stop; [apply walk_list_stopped | apply IH].
Qed.

End WalkCalls.

(** X15. [_walkTree] calls the callback on the nodes in pre-order (a node
    before its children, the children in order), each with its parent, and a
    truthy result of the callback ends the whole walk only on a node that
    has no array of children: on a node with an array, even an empty one,
    the request is lost and the walk goes on with the children and with the
    nodes after it. *)
Theorem walkTree_calls {A : Type} (callback : Unit → option Unit → A → bool * A)
    (tree : list Node) (a : A) :
  _walkTree callback tree None a = calls callback (preorder tree None) a.
Proof. unfold _walkTree. apply walk_list_calls. Qed.

(** A callback that asks to stop on its first call: on a node with an empty
    array of children the request is lost, on a node without array it is
    honoured. *)
Example walkTree_stop_lost :
  let count := λ (_ : Unit) (_ : option Unit) (seen : nat), (true, S seen) in
  _walkTree count [mkNode no_unit (Some []); mkNode no_unit None; mkNode no_unit None]
    None 0 = (true, 2)
  ∧ _walkTree count [mkNode no_unit None; mkNode no_unit None] None 0 = (true, 1).
Proof. by split. Qed.

(** ** HierarchyResolver: skipped paths outside the root *)

Lemma collect_ancestors_never Path fuel root p folders :
  (∀ k, 1 ≤ k → ancestor Path k p ≠ root) →
  collect_ancestors Path fuel root p folders = None.
Proof.
  revert p folders. induction fuel as [|fuel IH]; intros p folders Hnever; [done|].
  cbn [collect_ancestors].
  rewrite bool_decide_eq_false_2 by apply (Hnever 1 ltac:(lia)).
  apply IH. intros k Hk. rewrite <- ancestor_S. apply Hnever. lia.
Qed.

Lemma collect_all_never Path fuel root skipped p folders :
  p ∈ skipped →
  (∀ k, 1 ≤ k → ancestor Path k p ≠ root) →
  collect_all Path fuel root skipped folders = None.
Proof.
  intros Hp Hnever. revert folders.
  induction skipped as [|q skipped IH]; intros folders; [by apply elem_of_nil in Hp|].
  cbn [collect_all].
  apply elem_of_cons in Hp as [<-|Hp].
  - by rewrite collect_ancestors_never.
  - destruct (collect_ancestors Path fuel root q folders); [by apply IH | done].
Qed.

(** X16. A skipped path that does not lie under the root keeps [buildIndex]
    from returning: when the chain of [Path.dirname] from one of the skipped
    paths never reaches the path of the root unit, the loop over its
    ancestors has no end, whatever the fuel. *)
Theorem buildIndex_never_returns Path skipped s root rest p :
  _flatCompilationsList s = root :: rest →
  p ∈ skipped →
  (∀ k, 1 ≤ k → ancestor Path k p ≠ filePath root) →
  ∀ fuel, buildIndex Path fuel (Some skipped) s = None.
Proof.
  intros Hflat Hp Hnever fuel. unfold buildIndex, mark_exclusions.
  destruct skipped as [|q skipped]; [by apply elem_of_nil in Hp|].
  change (_flatCompilationsList (seal s)) with (_flatCompilationsList s).
  rewrite Hflat. cbn [lookup list_lookup].
  by rewrite (collect_all_never Path fuel (filePath root) (q :: skipped) p).
Qed.

Lemma buildIndex_never_returns_witness :
  (_flatCompilationsList Sample.with_assets
   = unit_at (_flatCompilationsList Sample.with_assets) 0
     :: tail (_flatCompilationsList Sample.with_assets)
   ∧ lit "/elsewhere/img.png" ∈ [lit "/elsewhere/img.png"]
   ∧ ∀ k, 1 ≤ k →
          ancestor Sample.Path k (lit "/elsewhere/img.png")
          ≠ filePath (unit_at (_flatCompilationsList Sample.with_assets) 0))
  ∧ ∀ fuel, buildIndex Sample.Path fuel (Some [lit "/elsewhere/img.png"])
              Sample.with_assets = None.
Proof.
  assert (∀ k, 1 ≤ k →
               ancestor Sample.Path k (lit "/elsewhere/img.png")
               ≠ filePath (unit_at (_flatCompilationsList Sample.with_assets) 0))
    as Hnever.
  { assert (∀ k, ancestor Sample.Path k (lit "/") = lit "/") as Hslash.
    { induction k as [|k IH]; [done|]. rewrite ancestor_S. exact IH. }
    intros [|[|k]] Hk; [lia | done |].
    rewrite !ancestor_S.
    change (Path.dirname Sample.Path (Path.dirname Sample.Path (lit "/elsewhere/img.png")))
      with (lit "/").
    by rewrite Hslash. }
  assert (lit "/elsewhere/img.png" ∈ [lit "/elsewhere/img.png"]) as Hin.
  { by apply list_elem_of_singleton. }
  split; [done|].
  exact (buildIndex_never_returns Sample.Path [lit "/elsewhere/img.png"]
           Sample.with_assets _ _ (lit "/elsewhere/img.png") eq_refl Hin Hnever).
Defined.

(** ** DocumentIndex: lookups after an insertion *)

Lemma getCompilationHeader_static s1 s2 separator :
  static <$> _flatCompilationsList s1 = static <$> _flatCompilationsList s2 →
  getCompilationHeader separator s1 = getCompilationHeader separator s2.
Proof.
  intros Heq. unfold getCompilationHeader.
  destruct (_flatCompilationsList s1) as [|u1 flat1],
           (_flatCompilationsList s2) as [|u2 flat2]; try done.
  simpl in Heq. injection Heq as _ _ _ _ _ -> _. done.
Qed.

(** X17. What [getHeaderFor] answers after a file is added: for every other
    path, and for the path of the file when it was registered already (the
    first registration wins), the answer is the one from before; for a path
    registered for the first time it is the header stored for the new unit.
    [getCompilationHeader] answers as before. *)
Theorem getHeaderFor_after_addFileToIndex Path optionsData p name ext c m header s parent :
  _isIndexSealed s = false →
  find_by_path (_flatCompilationsList s) (Path.dirname Path p) = Some parent →
  ∃ s',
    addFileToIndex Path optionsData p name ext c m header s = Returned s'
    ∧ (∀ q, q ≠ p → getHeaderFor q s' = getHeaderFor q s)
    ∧ (is_Some (find_by_path (_flatCompilationsList s) p) →
       getHeaderFor p s' = getHeaderFor p s)
    ∧ (find_by_path (_flatCompilationsList s) p = None →
       getHeaderFor p s'
       = fileHeader (unit_at (_flatCompilationsList s')
                             (length (_flatCompilationsList s))))
    ∧ (∀ separator, getCompilationHeader separator s' = getCompilationHeader separator s).
Proof.
  intros Hopen Hparent.
  destruct (addFileToIndex_adopts Path optionsData p name ext c m header s parent)
    as (unit & -> & Hchildren & Hpath & _); [done..|].
  pose proof (find_by_path_lt _ _ _ Hparent) as [Hlt _].
  eexists. split; [reflexivity|].
  set (s1 := with_flat (_flatCompilationsList s ++ [unit]) s).
  pose proof (adopt_static parent (length (_flatCompilationsList s)) s1) as Hstatic.
  destruct (_flatCompilationsList s) as [|root rest] eqn:Hflat; [simpl in Hlt; lia|].
  assert (∀ q, getHeaderFor q (adopt parent (length (root :: rest)) s1)
               = match find_by_path (root :: rest) q with
                 | Some doc => fileHeader (unit_at (root :: rest) doc)
                 | None => if decide (p = q) then fileHeader unit else Some []
                 end) as Hget.
  { intros q. rewrite (getHeaderFor_static _ s1 q Hstatic).
    unfold getHeaderFor, s1. cbn [with_flat _flatCompilationsList].
    rewrite find_by_path_snoc, Hpath.
    change ((root :: rest) ++ [unit]) with (root :: (rest ++ [unit])).
    cbv iota. change (root :: (rest ++ [unit])) with ((root :: rest) ++ [unit]).
    destruct (find_by_path (root :: rest) q) as [doc|] eqn:Hq.
    - apply find_by_path_lt in Hq as [Hdoc _]. by rewrite unit_at_app_l.
    - destruct (decide (p = q)); [|done]. by rewrite unit_at_snoc. }
  assert (∀ q, getHeaderFor q s
               = match find_by_path (root :: rest) q with
                 | Some doc => fileHeader (unit_at (root :: rest) doc)
                 | None => Some []
                 end) as Hbefore.
  { intros q. unfold getHeaderFor. by rewrite Hflat. }
  split_and!.
  - intros q Hq. rewrite Hget, Hbefore.
    destruct (find_by_path (root :: rest) q); [done|]. by rewrite decide_False.
  - intros [doc Hdoc]. by rewrite Hget, Hbefore, Hdoc.
  - intros Hnone. rewrite Hget, Hnone. rewrite decide_True by done.
    rewrite (fileHeader_static _ _ _ Hstatic). unfold s1.
    cbn [with_flat _flatCompilationsList]. by rewrite unit_at_snoc.
  - intros separator. rewrite (getCompilationHeader_static _ s1 separator Hstatic).
    unfold getCompilationHeader, s1. cbn [with_flat _flatCompilationsList].
    by rewrite Hflat.
Qed.

Lemma getHeaderFor_after_addFileToIndex_witness :
  (_isIndexSealed Sample.with_assets = false
   ∧ find_by_path (_flatCompilationsList Sample.with_assets)
       (Path.dirname Sample.Path (lit "/root/assets/2 B.txt")) = Some 2)
  ∧ ∃ s',
      addFileToIndex Sample.Path None (lit "/root/assets/2 B.txt") (lit "2 B.txt")
        (lit "txt") 0 0 None Sample.with_assets = Returned s'
      ∧ (∀ q, q ≠ lit "/root/assets/2 B.txt" →
              getHeaderFor q s' = getHeaderFor q Sample.with_assets)
      ∧ (is_Some (find_by_path (_flatCompilationsList Sample.with_assets)
                    (lit "/root/assets/2 B.txt")) →
         getHeaderFor (lit "/root/assets/2 B.txt") s'
         = getHeaderFor (lit "/root/assets/2 B.txt") Sample.with_assets)
      ∧ (find_by_path (_flatCompilationsList Sample.with_assets)
           (lit "/root/assets/2 B.txt") = None →
         getHeaderFor (lit "/root/assets/2 B.txt") s'
         = fileHeader (unit_at (_flatCompilationsList s')
                               (length (_flatCompilationsList Sample.with_assets))))
      ∧ (∀ separator, getCompilationHeader separator s'
                      = getCompilationHeader separator Sample.with_assets).
Proof.
  assert (find_by_path (_flatCompilationsList Sample.with_assets)
            (Path.dirname Sample.Path (lit "/root/assets/2 B.txt")) = Some 2)
    as Hparent by (vm_compute; reflexivity).
  split; [by split|].
  exact (getHeaderFor_after_addFileToIndex Sample.Path None (lit "/root/assets/2 B.txt")
           (lit "2 B.txt") (lit "txt") 0 0 None Sample.with_assets 2 eq_refl Hparent).
Defined.

(** ** The finalized index is a tree *)

Lemma parents_first_elem flat o x :
  parents_first flat → x ∈ group_of flat o → o < x.
Proof.
  intros Hall Hx. destruct (Nat.lt_ge_cases o (length flat)) as [Ho|Ho].
  - unfold parents_first in Hall. rewrite Forall_seq in Hall.
    specialize (Hall o ltac:(lia)). rewrite Forall_forall in Hall. by apply Hall.
  - unfold group_of in Hx. rewrite unit_at_ge in Hx by done.
    by apply elem_of_nil in Hx.
Qed.

Lemma parents_first_intro flat :
  (∀ o x, x ∈ group_of flat o → o < x) → parents_first flat.
Proof.
  intros Hall. apply Forall_seq. intros o _. apply Forall_forall. apply Hall.
Qed.

(** Unfolding a store whose links all climb a bounded measure returns. *)
Lemma unfold_node_returns (measure : nat → nat) bound flat :
  (∀ o x, x ∈ group_of flat o → measure o < measure x ≤ bound) →
  ∀ fuel r, bound - measure r < fuel → is_Some (unfold_node fuel flat r).
Proof.
  intros Hclimb. induction fuel as [|fuel IH]; intros r Hfuel; [lia|].
  cbn [unfold_node].
  destruct (children (unit_at flat r)) as [refs|] eqn:Hrefs; [|done].
  assert (is_Some (mapM (unfold_node fuel flat) refs)) as [kids ->]; [|done].
  apply mapM_is_Some_2, Forall_forall. intros x Hx. simpl. apply IH.
  destruct (Hclimb r x) as [Hlt Hle]; [|lia].
  unfold group_of. by rewrite Hrefs.
Qed.

(** X19. After [buildIndex] the index is a finite tree: on a well-formed
    index whose children were all inserted after their parents, when
    [buildIndex] returns, following the arrays of children from the roots
    comes to an end (no unit is above itself), within a depth bounded by the
    number of units plus the longest numbering. *)
Theorem finalized_index_unfolds Path fuel skipped s s' longest depth :
  well_formed s →
  parents_first (_flatCompilationsList s) →
  buildIndex Path fuel skipped s = Some (Returned s') →
  Forall (λ unit, length (default [] (numbering unit)) ≤ longest)
         (_flatCompilationsList s) →
  length (_flatCompilationsList s) + longest < depth →
  ∃ tree, unfold_tree depth s' = Some tree.
Proof.
  intros Hwf Hfirst Hbuild Hlongest Hdepth.
  destruct (buildIndex_promotes Path fuel skipped s s' Hwf Hbuild)
    as (folders & Hinv & _ & Hgained & _).
  cbv zeta in *. destruct Hwf as [Hwf _].
  set (flat := _flatCompilationsList s) in *.
  set (flat' := _flatCompilationsList s') in *.
  assert (length flat' = length flat) as Hlen.
  { rewrite (promotion_inv_length _ _ _ _ Hinv). apply length_mark_excluded. }
  assert (∀ x, x < length flat →
               length (default [] (numbering (unit_at flat x))) ≤ longest) as Hnum.
  { intros x Hx. rewrite Forall_forall in Hlongest. apply Hlongest.
    unfold unit_at. apply list_elem_of_lookup_total_2. done. }
  assert (∀ o x, x ∈ group_of flat' o →
                 rank flat o < rank flat x ≤ length flat + longest) as Hclimb.
  { intros o x Hx.
    assert (x < length flat) as Hxlt.
    { rewrite <- Hlen.
      destruct (children_at flat' o) as [c|] eqn:Hc.
      - rewrite (group_of_Some _ _ _ Hc) in Hx. by eapply (inv_refs _ _ _ _ Hinv).
      - rewrite (group_of_None _ _ Hc) in Hx. by apply elem_of_nil in Hx. }
    assert (rank flat x ≤ length flat + longest) as Hbound.
    { unfold rank. destruct (can_promote (unit_at flat x)); [|lia].
      specialize (Hnum x Hxlt). lia. }
    split; [|done].
    destruct (Hgained o x Hx) as [Hbefore|[Hmust _]].
    - assert (can_promote (unit_at flat o) = false) as Ho.
      { destruct (can_promote (unit_at flat o)) eqn:Hcan; [|done].
        apply (well_formed_leaf _ _ _ Hwf) in Hcan.
        rewrite (group_of_None _ _ Hcan) in Hbefore. by apply elem_of_nil in Hbefore. }
      pose proof (parents_first_elem _ _ _ Hfirst Hbefore) as Hox.
      unfold rank. rewrite Ho. destruct (can_promote (unit_at flat x)); lia.
    - rewrite must_promote_mark_excluded in Hmust.
      destruct (must_promote_can _ _ Hmust) as [Hcx Hco].
      unfold rank. rewrite Hcx, Hco. unfold must_promote in Hmust.
      destruct (numbering (unit_at flat x)) as [n|], (numbering (unit_at flat o)) as [k|];
        rewrite ?andb_false_r in Hmust; try done.
      apply andb_true_iff in Hmust as [_ Hshorter%Nat.ltb_lt]. simpl. lia. }
  unfold unfold_tree. fold flat'.
  assert (is_Some (mapM (unfold_node depth flat') (_abstractNavigationTree s')))
    as [tree Htree]; [|by exists tree].
  apply mapM_is_Some_2, Forall_forall. intros r _. simpl.
  apply (unfold_node_returns (rank flat) (length flat + longest)); [done | lia].
Qed.

Lemma finalized_index_unfolds_witness :
  (well_formed Sample.flat_group
   ∧ parents_first (_flatCompilationsList Sample.flat_group)
   ∧ buildIndex Sample.Path 10 None Sample.flat_group
     = Some (Returned Sample.flat_group_built)
   ∧ Forall (λ unit, length (default [] (numbering unit)) ≤ 3)
            (_flatCompilationsList Sample.flat_group)
   ∧ length (_flatCompilationsList Sample.flat_group) + 3 < 9)
  ∧ ∃ tree, unfold_tree 9 Sample.flat_group_built = Some tree.
Proof.
  assert (well_formed Sample.flat_group) as Hwf.
  { apply (bool_decide_unpack _). by vm_compute. }
  assert (parents_first (_flatCompilationsList Sample.flat_group)) as Hfirst.
  { apply (bool_decide_unpack _). by vm_compute. }
  assert (buildIndex Sample.Path 10 None Sample.flat_group
          = Some (Returned Sample.flat_group_built)) as Hbuild.
  { vm_compute. reflexivity. }
  assert (Forall (λ unit, length (default [] (numbering unit)) ≤ 3)
            (_flatCompilationsList Sample.flat_group)) as Hlongest.
  { apply (bool_decide_unpack _). by vm_compute. }
  assert (length (_flatCompilationsList Sample.flat_group) + 3 < 9) as Hdepth.
  { vm_compute. lia. }
  split; [done|].
  exact (finalized_index_unfolds Sample.Path 10 None Sample.flat_group
           Sample.flat_group_built 3 9 Hwf Hfirst Hbuild Hlongest Hdepth).
Defined.

Lemma group_of_alter_same f (flat : list Unit) i o :
  (∀ u, children (f u) = children u) →
  group_of (alter f i flat) o = group_of flat o.
Proof.
  intros Hf. unfold group_of.
  fold (children_at (alter f i flat) o) (children_at flat o).
  by rewrite children_at_alter_same.
Qed.

Lemma adopt_parents_first flat unit parent s :
  parents_first flat →
  _flatCompilationsList s = flat ++ [unit] →
  children unit = None →
  parent < length flat →
  parents_first (_flatCompilationsList (adopt parent (length flat) s)).
Proof.
  intros Hfirst Hflat Hunit Hparent.
  destruct (adopt_store parent (length flat) s) as (_ & Hother & Hadopted & _).
  { rewrite Hflat, length_app. simpl. lia. }
  rewrite Hflat in *.
  apply parents_first_intro. intros o x Hx.
  destruct (decide (o = parent)) as [->|Hne].
  - rewrite (group_of_Some _ _ _ Hadopted) in Hx.
    apply elem_of_app in Hx as [Hx|Hx%list_elem_of_singleton]; [|lia].
    unfold group_of in Hx. rewrite unit_at_app_l in Hx by done.
    by apply (parents_first_elem flat).
  - unfold group_of in Hx. rewrite Hother in Hx by done.
    destruct (Nat.lt_total o (length flat)) as [Ho|[->|Ho]].
    + rewrite unit_at_app_l in Hx by done. by apply (parents_first_elem flat).
    + rewrite unit_at_snoc, Hunit in Hx. by apply elem_of_nil in Hx.
    + rewrite unit_at_ge in Hx by (rewrite length_app; simpl; lia).
      by apply elem_of_nil in Hx.
Qed.

Lemma parents_first_alter f i flat :
  parents_first flat → (∀ u, children (f u) = children u) →
  parents_first (alter f i flat).
Proof.
  intros Hfirst Hf. apply parents_first_intro. intros o x.
  rewrite group_of_alter_same by done. by apply parents_first_elem.
Qed.

(** X20. The insertions put children after their parents: in an open index
    where every child was inserted after the unit that holds it, this still
    holds after [addRootToIndex], and after [addDirectoryToIndex] and
    [addFileToIndex] when the parent folder of the path is registered. *)
Theorem insertions_keep_parents_first Path optionsData s :
  parents_first (_flatCompilationsList s) → _isIndexSealed s = false →
  (∀ p name c m,
     ∃ s', addRootToIndex optionsData p name c m s = Returned s'
           ∧ parents_first (_flatCompilationsList s'))
  ∧ (∀ p name c m parent,
       find_by_path (_flatCompilationsList s) (Path.dirname Path p) = Some parent →
       ∃ s', addDirectoryToIndex Path optionsData p name c m s = Returned s'
             ∧ parents_first (_flatCompilationsList s'))
  ∧ (∀ p name ext c m header parent,
       find_by_path (_flatCompilationsList s) (Path.dirname Path p) = Some parent →
       ∃ s', addFileToIndex Path optionsData p name ext c m header s = Returned s'
             ∧ parents_first (_flatCompilationsList s')).
Proof.
  intros Hfirst Hopen. split_and!.
  - intros p name c m. unfold addRootToIndex. rewrite Hopen. cbv zeta.
    eexists. split; [reflexivity|]. cbn [with_flat with_tree _flatCompilationsList].
    apply parents_first_intro. intros o x Hx. unfold group_of in Hx.
    destruct (Nat.lt_total o (length (_flatCompilationsList s))) as [Ho|[->|Ho]].
    + rewrite unit_at_app_l in Hx by done. by eapply parents_first_elem.
    + rewrite unit_at_snoc in Hx. by apply elem_of_nil in Hx.
    + rewrite unit_at_ge in Hx by (rewrite length_app; simpl; lia).
      by apply elem_of_nil in Hx.
  - intros p name c m parent Hparent.
    pose proof (find_by_path_lt _ _ _ Hparent) as [Hlt _].
    unfold addDirectoryToIndex. rewrite Hopen. cbv zeta.
    cbn [with_flat _flatCompilationsList].
    rewrite (find_by_path_app _ _ _ _ Hparent). rewrite ?alter_snoc.
    eexists. split; [reflexivity|].
    match goal with |- context [adopt ?a ?b ?c] => set (s1 := adopt a b c) end.
    assert (parents_first (_flatCompilationsList s1)) as Hfirst1.
    { eapply adopt_parents_first; [exact Hfirst | reflexivity | done..]. }
    clearbody s1.
    match goal with |- context [set_fileHeader ?h] => generalize h end.
    intros header.
    destruct (_extractNumbering (Some name)) as [n|];
      cbn [with_flat _flatCompilationsList];
      repeat apply parents_first_alter; done.
  - intros p name ext c m header parent Hparent.
    destruct (addFileToIndex_adopts Path optionsData p name ext c m header s parent)
      as (unit & -> & Hunit & _); [done..|].
    pose proof (find_by_path_lt _ _ _ Hparent) as [Hlt _].
    eexists. split; [reflexivity|]. by eapply adopt_parents_first.
Qed.

Lemma insertions_keep_parents_first_witness :
  (parents_first (_flatCompilationsList Sample.with_assets)
   ∧ _isIndexSealed Sample.with_assets = false)
  ∧ ∃ s', addFileToIndex Sample.Path None (lit "/root/assets/2 More.txt")
            (lit "2 More.txt") (lit "txt") 0 0 None Sample.with_assets
          = Returned s'
          ∧ parents_first (_flatCompilationsList s').
Proof.
  assert (parents_first (_flatCompilationsList Sample.with_assets)) as Hfirst.
  { apply (bool_decide_unpack _). by vm_compute. }
  split; [by split|].
  destruct (insertions_keep_parents_first Sample.Path None Sample.with_assets
              Hfirst eq_refl) as (_ & _ & Hfile).
  apply (Hfile _ _ _ _ _ _ 2). by vm_compute.
Defined.

(** ** The header line of a document *)

Lemma indexOf_zero pattern s :
  bool_decide (JsSearch.indexOf pattern s = Some 0) = JsSearch.occurs_at_start pattern s.
Proof.
  destruct s as [|c s]; simpl.
  - by destruct (JsSearch.occurs_at_start pattern []).
  - destruct (JsSearch.occurs_at_start pattern (c :: s)); [done|].
    by destruct (JsSearch.indexOf pattern s).
Qed.

Lemma must_skip_spec skipSignatures lineStr :
  must_skip skipSignatures lineStr
  = negb (forallb (λ sig, negb (JsSearch.occurs_at_start sig lineStr)) skipSignatures).
Proof.
  unfold must_skip.
  assert (∀ b, foldl (λ mustSkip sig,
                        if negb mustSkip
                           && bool_decide (JsSearch.indexOf sig lineStr = Some 0)
                        then true else mustSkip) b skipSignatures
               = b || negb (forallb (λ sig, negb (JsSearch.occurs_at_start sig lineStr))
                              skipSignatures)) as Hgen.
  { induction skipSignatures as [|sig sigs IH]; intros b; simpl.
    - by destruct b.
    - rewrite IH, indexOf_zero.
      by destruct b, (JsSearch.occurs_at_start sig lineStr). }
  apply Hgen.
Qed.

Lemma purgeLine_not_legit fuel skipSignatures removals lineStr :
  legit skipSignatures lineStr = false →
  purgeLine fuel skipSignatures removals lineStr = Some None.
Proof.
  unfold legit, purgeLine. rewrite must_skip_spec.
  destruct (JsString.truthy (JsString.trim lineStr)); [|done]. simpl.
  by intros ->.
Qed.

Lemma purgeLine_legit fuel skipSignatures removals lineStr :
  legit skipSignatures lineStr = true →
  purgeLine fuel skipSignatures removals lineStr
  = lineStr ← take_off fuel removals lineStr;
    if negb (JsString.truthy lineStr) then Some None else Some (Some lineStr).
Proof.
  unfold legit, purgeLine. rewrite must_skip_spec.
  destruct (JsString.truthy (JsString.trim lineStr)); [|done]. simpl.
  by intros ->.
Qed.

Lemma legit_truthy skipSignatures lineStr :
  legit skipSignatures lineStr = true → JsString.truthy lineStr = true.
Proof.
  unfold legit. destruct lineStr; [|done]. by vm_compute.
Qed.

(** X21. Without removals (as the program calls it) [getDocumentHeader] gives,
    for a file of ASCII lines, the first line that has text and starts with
    none of the skip signatures, as it is in the file, not trimmed; [null]
    when there is no such line. *)
Theorem getDocumentHeader_without_removals fuel lines skipSignatures :
  Forall JsString.ascii_text lines →
  getDocumentHeader fuel lines skipSignatures []
  = Some (find (legit skipSignatures) lines).
Proof.
  intros _. unfold getDocumentHeader.
  induction lines as [|lineStr lines IH]; [done|]. simpl.
  destruct (legit skipSignatures lineStr) eqn:Hlegit.
  - rewrite purgeLine_legit by done. simpl.
    rewrite (legit_truthy _ _ Hlegit). simpl.
    by rewrite (legit_truthy _ _ Hlegit).
  - rewrite purgeLine_not_legit by done. simpl. apply IH.
Qed.

Lemma getDocumentHeader_without_removals_witness :
  Forall JsString.ascii_text [lit "$$nocompile"; lit "  "; lit " # 1.2 Title "; lit "x"]
  ∧ getDocumentHeader 0 [lit "$$nocompile"; lit "  "; lit " # 1.2 Title "; lit "x"]
      [lit "$$nocompile"] []
    = Some (find (legit [lit "$$nocompile"])
              [lit "$$nocompile"; lit "  "; lit " # 1.2 Title "; lit "x"]).
Proof.
  assert (Forall JsString.ascii_text
            [lit "$$nocompile"; lit "  "; lit " # 1.2 Title "; lit "x"]) as Hascii.
  { repeat constructor. }
  split; [exact Hascii|].
  exact (getDocumentHeader_without_removals 0 _ [lit "$$nocompile"] Hascii).
Defined.

Lemma occurs_at_start_length pattern s :
  JsSearch.occurs_at_start pattern s = true → length pattern ≤ length s.
Proof.
  revert s. induction pattern as [|p pattern IH]; intros [|c s]; simpl; try done; try lia.
  intros [_ H%IH]%andb_prop. lia.
Qed.

Lemma indexOf_bound pattern s i :
  JsSearch.indexOf pattern s = Some i → i + length pattern ≤ length s.
Proof.
  revert i. induction s as [|c s IH]; intros i; simpl.
  - destruct (JsSearch.occurs_at_start pattern []) eqn:Hstart; [|done].
    intros [= <-]. by apply occurs_at_start_length in Hstart.
  - destruct (JsSearch.occurs_at_start pattern (c :: s)) eqn:Hstart.
    + intros [= <-]. by apply occurs_at_start_length in Hstart.
    + destruct (JsSearch.indexOf pattern s) as [j|]; [|done].
      intros [= <-]. specialize (IH j eq_refl). lia.
Qed.

Lemma remove_first_length pattern s i :
  JsSearch.indexOf pattern s = Some i →
  length (JsSearch.remove_first pattern s) = length s - length pattern.
Proof.
  intros Hi. unfold JsSearch.remove_first. rewrite Hi.
  apply indexOf_bound in Hi.
  rewrite length_app, length_take, length_drop. lia.
Qed.

Lemma remove_every_returns fuel strToRemove lineStr :
  strToRemove ≠ [] → length lineStr < fuel →
  ∃ purged, remove_every fuel strToRemove lineStr = Some purged
            ∧ length purged ≤ length lineStr
            ∧ JsSearch.indexOf strToRemove purged = None.
Proof.
  intros Hne. revert lineStr.
  induction fuel as [|fuel IH]; intros lineStr Hfuel; [lia|]. simpl.
  destruct (JsSearch.indexOf strToRemove lineStr) as [i|] eqn:Hi.
  - pose proof (remove_first_length _ _ _ Hi) as Hlen.
    pose proof (indexOf_bound _ _ _ Hi) as Hbound.
    assert (0 < length strToRemove) by (destruct strToRemove; [done|simpl; lia]).
    destruct (IH (JsSearch.remove_first strToRemove lineStr)) as (purged & -> & ? & ?); [lia|].
    exists purged. split_and!; [done|lia|done].
  - by exists lineStr.
Qed.

Lemma take_off_nonempty fuel removals lineStr :
  Forall (λ strToRemove, strToRemove ≠ []) removals → length lineStr < fuel →
  ∃ purged, take_off fuel removals lineStr = Some purged
            ∧ from_option (λ strToRemove, JsSearch.indexOf strToRemove purged = None)
                          True (last removals).
Proof.
  intros Hne. revert lineStr.
  induction Hne as [|strToRemove removals Hr _ IH]; intros lineStr Hfuel; simpl.
  - by exists lineStr.
  - destruct (remove_every_returns fuel strToRemove lineStr) as (purged & -> & Hlen & Hgone);
      [done..|]. simpl.
    destruct removals as [|next removals].
    + by exists purged.
    + destruct (IH purged) as (final & Hfinal & Hlast); [lia|].
      exists final. split; [done|]. by rewrite last_cons_cons.
Qed.

(** X22. When none of the removals is the empty string, [getDocumentHeader]
    comes to an end on every file (the removal loops need no more rounds
    than the longest line has characters); it gives [null] or a header that
    is not empty and in which the last of the removals does not occur. *)
Theorem getDocumentHeader_returns fuel lines skipSignatures removals :
  Forall (λ strToRemove, strToRemove ≠ []) removals →
  Forall (λ lineStr, length lineStr < fuel) lines →
  ∃ line,
    getDocumentHeader fuel lines skipSignatures removals = Some line
    ∧ match line with
      | Some header =>
          header ≠ []
          ∧ from_option (λ strToRemove, JsSearch.indexOf strToRemove header = None)
                        True (last removals)
      | None => True
      end.
Proof.
  intros Hne Hfuel. unfold getDocumentHeader.
  induction Hfuel as [|lineStr lines Hline _ IH]; simpl.
  - by exists None.
  - destruct (legit skipSignatures lineStr) eqn:Hlegit.
    + rewrite purgeLine_legit by done.
      destruct (take_off_nonempty fuel removals lineStr) as (purged & -> & Hlast); [done..|].
      simpl. destruct purged as [|c purged]; simpl; [apply IH|].
      by exists (Some (c :: purged)).
    + rewrite purgeLine_not_legit by done. simpl. apply IH.
Qed.

Lemma getDocumentHeader_returns_witness :
  ∃ line,
    getDocumentHeader 20 [lit "$$nocompile"; lit "  "; lit "# 1.2 <b>Title</b>"]
                      [lit "$$nocompile"] [lit "<b>"; lit "</b>"]
    = Some line
    ∧ match line with
      | Some header =>
          header ≠ []
          ∧ from_option (λ strToRemove, JsSearch.indexOf strToRemove header = None)
                        True (last [lit "<b>"; lit "</b>"])
      | None => True
      end.
Proof.
  apply getDocumentHeader_returns.
  - repeat constructor; done.
  - repeat constructor; simpl; lia.
Defined.

Lemma remove_every_empty fuel lineStr : remove_every fuel [] lineStr = None.
Proof.
  induction fuel as [|fuel IH]; [done|]. simpl.
  destruct lineStr; unfold JsSearch.remove_first; simpl; by rewrite ?drop_0.
Qed.

Lemma take_off_empty fuel removals lineStr :
  [] ∈ removals → take_off fuel removals lineStr = None.
Proof.
  revert lineStr. induction removals as [|strToRemove removals IH]; intros lineStr Hin.
  - by apply elem_of_nil in Hin.
  - simpl. apply elem_of_cons in Hin as [<-|Hin].
    + by rewrite remove_every_empty.
    + destruct (remove_every fuel strToRemove lineStr); [by apply IH|done].
Qed.

(** X23. An empty string among the removals keeps [getDocumentHeader] from
    returning as soon as the file has a line of ASCII characters with text
    that starts with none of the skip signatures: its removal loop has no
    end. *)
Theorem getDocumentHeader_empty_removal lines skipSignatures removals :
  [] ∈ removals →
  Exists (λ lineStr, JsString.ascii_text lineStr ∧ legit skipSignatures lineStr = true)
         lines →
  ∀ fuel, getDocumentHeader fuel lines skipSignatures removals = None.
Proof.
  intros Hin Hlines fuel. unfold getDocumentHeader.
  induction lines as [|lineStr lines IH]; [by apply Exists_nil in Hlines|]. simpl.
  destruct (legit skipSignatures lineStr) eqn:Hlegit.
  - rewrite purgeLine_legit by done. by rewrite take_off_empty.
  - rewrite purgeLine_not_legit by done. simpl. apply IH.
    apply Exists_cons in Hlines as [[_ Hline]|]; [congruence|done].
Qed.

Lemma getDocumentHeader_empty_removal_witness :
  ([] ∈ [lit "#"; []]
   ∧ Exists (λ lineStr, JsString.ascii_text lineStr
                        ∧ legit [lit "$$nocompile"] lineStr = true)
            [[]; lit "Title"])
  ∧ ∀ fuel, getDocumentHeader fuel [[]; lit "Title"] [lit "$$nocompile"] [lit "#"; []]
            = None.
Proof.
  assert ([] ∈ [lit "#"; []]) as Hin.
  { by apply list_elem_of_lookup_2 with 1. }
  assert (Exists (λ lineStr, JsString.ascii_text lineStr
                             ∧ legit [lit "$$nocompile"] lineStr = true)
            [[]; lit "Title"])
    as Hline.
  { apply Exists_cons_tl, Exists_cons_hd. split; [by repeat constructor|by vm_compute]. }
  split; [done|].
  exact (getDocumentHeader_empty_removal _ _ _ Hin Hline).
Defined.

(** Only the last of the removals is sure to be gone: taking a later one out
    can put an earlier one together again; and a header is not trimmed, it
    can be made of white space only. *)
Example getDocumentHeader_removal_left :
  getDocumentHeader 9 [lit "a<i>b"] [] [lit "ab"; lit "<i>"] = Some (Some (lit "ab"))
  ∧ getDocumentHeader 9 [lit "# "] [] [lit "#"] = Some (Some (lit " ")).
Proof. by vm_compute. Qed.

(** ** The preflight of a source folder *)

Lemma Dirent_ind_entries (P : FolderWalk.Dirent → Prop) :
  (∀ name c m, P (FolderWalk.File name c m)) →
  (∀ name c m entries, Forall P entries → P (FolderWalk.Directory name c m entries)) →
  (∀ name, P (FolderWalk.Other name)) →
  ∀ e, P e.
Proof.
  intros Hfile Hdir Hother.
  fix IH 1. intros [name c m|name c m entries|name].
  - apply Hfile.
  - apply Hdir. induction entries as [|e entries IHentries]; constructor.
    + apply IH.
    + apply IHentries.
  - apply Hother.
Qed.

Lemma visit_entry_directory {A : Type} Path resolve
    (callback : str → str → str → Z → Z → A → FolderWalk.Answer A)
    folderPath name c m entries w :
  FolderWalk.visit_entry Path resolve callback folderPath
    (FolderWalk.Directory name c m entries) w
  = FolderWalk.and_then
      (if bool_decide (DIR ∈ FolderWalk.fileTypes w)
       then FolderWalk.report callback (resolve folderPath name) name DIR c m w
       else FolderWalk.Finished w)
      (FolderWalk.visitFilesInFolder Path resolve callback (resolve folderPath name)
         c m entries).
Proof.
  simpl.
  destruct (if bool_decide (DIR ∈ FolderWalk.fileTypes w)
            then FolderWalk.report callback (resolve folderPath name) name DIR c m w
            else FolderWalk.Finished w) as [w1|e w1]; simpl; [|done].
  unfold FolderWalk.visitFilesInFolder.
  destruct (FolderWalk.enter Path callback (resolve folderPath name) c m w1)
    as [w2|e w2]; simpl; [|done].
  revert w2. induction entries as [|entry entries IH]; intros w2; simpl; [done|].
  destruct (FolderWalk.mustExitNow w2); [done|].
  destruct (FolderWalk.visit_entry Path resolve callback (resolve folderPath name)
              entry w2) as [w3|e w3]; simpl; [apply IH|done].
Qed.

Lemma static_alter_congr g i (flat1 flat2 : list Unit) :
  (∀ u, static (g u) = g (static u)) →
  static <$> flat1 = static <$> flat2 →
  static <$> alter g i flat1 = static <$> alter g i flat2.
Proof.
  intros Hg Heq.
  rewrite !(list_fmap_alter static g g) by (apply Forall_forall; intros; apply Hg).
  by rewrite Heq.
Qed.

Lemma filePath_static (flat : list Unit) :
  filePath <$> (static <$> flat) = filePath <$> flat.
Proof. rewrite <- list_fmap_compose. by apply list_fmap_ext. Qed.

Lemma extends_refl s : extends s s [].
Proof. exists []. by rewrite app_nil_r. Qed.

Lemma extends_trans s s1 s2 paths1 paths2 :
  extends s s1 paths1 → extends s1 s2 paths2 → extends s s2 (paths1 ++ paths2).
Proof.
  intros (new1 & H1 & <-) (new2 & H2 & <-). exists (new1 ++ new2).
  split; [|by rewrite fmap_app].
  by rewrite H2, fmap_app, H1, <- fmap_app, app_assoc.
Qed.

Lemma extends_paths s s' paths :
  extends s s' paths →
  filePath <$> _flatCompilationsList s' = (filePath <$> _flatCompilationsList s) ++ paths.
Proof.
  intros (new & Heq & <-).
  by rewrite <- filePath_static, Heq, filePath_static, fmap_app.
Qed.

Lemma extends_holds s s' paths folder :
  extends s s' paths → holds_folder s folder → holds_folder s' folder.
Proof.
  intros (new & Heq & _) (parent & Hfind & Hcan). exists parent.
  pose proof (find_by_path_lt _ _ _ Hfind) as [Hlt _]. split.
  - rewrite (find_by_path_static _ _ _ Heq). by apply find_by_path_app.
  - rewrite (can_promote_unit_at _ _ _ Heq). by rewrite unit_at_app_l.
Qed.

Lemma extends_new_holds s s' unit :
  static <$> _flatCompilationsList s' = static <$> (_flatCompilationsList s ++ [unit]) →
  filePath unit ∉ filePath <$> _flatCompilationsList s →
  can_promote unit = false →
  holds_folder s' (filePath unit).
Proof.
  intros Heq Hnew Hcan. exists (length (_flatCompilationsList s)). split.
  - rewrite (find_by_path_static _ _ _ Heq), find_by_path_snoc.
    rewrite find_by_path_None.
    + by rewrite decide_True.
    + apply Forall_forall. intros u Hu Hpath. apply Hnew.
      rewrite <- Hpath. by apply list_elem_of_fmap_2.
  - rewrite (can_promote_unit_at _ _ _ Heq). by rewrite unit_at_snoc.
Qed.

Lemma addRootToIndex_extends optionsData s p name c m :
  under_construction s →
  ∃ s' unit,
    addRootToIndex optionsData p name c m s = Returned s'
    ∧ under_construction s'
    ∧ _flatCompilationsList s' = _flatCompilationsList s ++ [unit]
    ∧ filePath unit = p
    ∧ can_promote unit = false.
Proof.
  intros ([Hwf Hfolders] & Hopen & Hfirst).
  unfold addRootToIndex. rewrite Hopen. cbv zeta.
  eexists _, _. split; [reflexivity|].
  cbn [with_flat with_tree _flatCompilationsList _rawGroups _foldersToExclude
         _isIndexSealed].
  split; [|split; [reflexivity|by split]].
  split; [|split; [done|]].
  - split; [|done]. by apply well_formed_store_snoc.
  - cbn [with_flat with_tree _flatCompilationsList].
    apply parents_first_intro. intros o x Hx. unfold group_of in Hx.
    destruct (Nat.lt_total o (length (_flatCompilationsList s))) as [Ho|[->|Ho]].
    + rewrite unit_at_app_l in Hx by done. by eapply parents_first_elem.
    + rewrite unit_at_snoc in Hx. by apply elem_of_nil in Hx.
    + rewrite unit_at_ge in Hx by (rewrite length_app; simpl; lia).
      by apply elem_of_nil in Hx.
Qed.

Lemma addFileToIndex_extends Path optionsData s p name ext c m header :
  under_construction s →
  holds_folder s (Path.dirname Path p) →
  ∃ s' unit,
    addFileToIndex Path optionsData p name ext c m header s = Returned s'
    ∧ under_construction s'
    ∧ static <$> _flatCompilationsList s'
      = static <$> (_flatCompilationsList s ++ [unit])
    ∧ filePath unit = p.
Proof.
  intros ([Hwf Hfolders] & Hopen & Hfirst) (parent & Hparent & Hcan).
  destruct (addFileToIndex_adopts Path optionsData p name ext c m header s parent)
    as (unit & -> & Hunit & Hpath & _); [done..|].
  pose proof (find_by_path_lt _ _ _ Hparent) as [Hlt _].
  destruct (adopt_store parent (length (_flatCompilationsList s))
              (with_flat (_flatCompilationsList s ++ [unit]) s))
    as (_ & _ & _ & _ & _ & Hsealed & _ & Hfolders').
  { cbn [with_flat _flatCompilationsList]. rewrite length_app. lia. }
  eexists _, unit. split; [reflexivity|]. split_and!; [| |done].
  - split; [split|split].
    + by eapply adopt_well_formed.
    + by rewrite Hfolders'.
    + by rewrite Hsealed.
    + by eapply adopt_parents_first.
  - by rewrite adopt_static.
Qed.

Lemma addDirectoryToIndex_extends Path optionsData s p name c m :
  under_construction s →
  holds_folder s (Path.dirname Path p) →
  ∃ s' unit,
    addDirectoryToIndex Path optionsData p name c m s = Returned s'
    ∧ under_construction s'
    ∧ static <$> _flatCompilationsList s'
      = static <$> (_flatCompilationsList s ++ [unit])
    ∧ filePath unit = p
    ∧ can_promote unit = false.
Proof.
  intros (Hwf & Hopen & Hfirst) (parent & Hparent & Hcan).
  destruct (addDirectoryToIndex_well_formed Path optionsData p name c m s parent)
    as (s' & Hs' & Hwf'); [done..|].
  exists s'. revert Hs'. unfold addDirectoryToIndex. rewrite Hopen. cbv zeta.
  cbn [with_flat _flatCompilationsList].
  rewrite (find_by_path_app _ _ _ _ Hparent). rewrite ?alter_snoc.
  pose proof (find_by_path_lt _ _ _ Hparent) as [Hlt _].
  match goal with |- context [adopt ?a ?b (with_flat (_ ++ [?u]) ?c)] =>
    set (unit := u); set (s1 := adopt a b (with_flat (_flatCompilationsList s ++ [unit]) c))
  end.
  assert (parents_first (_flatCompilationsList s1)) as Hfirst1.
  { eapply adopt_parents_first; [exact Hfirst | reflexivity | done..]. }
  assert (_isIndexSealed s1 = false) as Hopen1.
  { destruct (adopt_store parent (length (_flatCompilationsList s))
                (with_flat (_flatCompilationsList s ++ [unit])
                   (with_flat (_flatCompilationsList s ++
                      [mkUnit p name DIR c m (Some name) false [] None None None false])
                      s)))
      as (_ & _ & _ & _ & _ & Hsealed & _).
    { cbn [with_flat _flatCompilationsList]. rewrite length_app. simpl. lia. }
    fold s1 in Hsealed. by rewrite Hsealed. }
  assert (static <$> _flatCompilationsList s1
          = static <$> (_flatCompilationsList s ++ [unit])) as Hstatic1.
  { unfold s1. by rewrite adopt_static. }
  assert (fileExtension unit = DIR ∧ filePath unit = p) as [Hext Hpath] by done.
  clearbody s1 unit.
  match goal with |- context [set_fileHeader ?h] => generalize h end.
  intros header Hs'.
  destruct (_extractNumbering (Some name)) as [n|];
    injection Hs' as <-; cbn [with_flat _flatCompilationsList _isIndexSealed] in *.
  - exists (set_fileHeader header (set_numbering n (signature_of n) unit)).
    split; [done|]. split_and!; try done.
    + split; [done|]. split; [done|]. by repeat apply parents_first_alter.
    + rewrite <- !alter_snoc. by repeat apply static_alter_congr.
    + unfold can_promote. cbn. rewrite Hext. by rewrite bool_decide_eq_true_2.
  - exists (set_fileHeader header unit).
    split; [done|]. split_and!; try done.
    + split; [done|]. split; [done|]. by apply parents_first_alter.
    + rewrite <- alter_snoc. by apply static_alter_congr.
    + unfold can_promote. cbn. rewrite Hext. by rewrite bool_decide_eq_true_2.
Qed.

Lemma pushed_app skippedEntries more1 more2 :
  pushed (pushed skippedEntries more1) more2 = pushed skippedEntries (more1 ++ more2).
Proof.
  destruct more1 as [|p1 more1], more2 as [|p2 more2]; simpl; try done.
  - by rewrite app_nil_r.
  - by rewrite <- app_assoc.
Qed.

Lemma visited_refl htmlTemplatePath (w : FolderWalk.Walk State) :
  FolderWalk.mustExitNow w = false →
  under_construction (FolderWalk.world w) →
  visited htmlTemplatePath w w [] [].
Proof. intros Hexit Hs. split_and!; try done. apply extends_refl. Qed.

Lemma visited_trans htmlTemplatePath (w w1 w2 : FolderWalk.Walk State)
    reported1 reported2 skipped1 skipped2 :
  visited htmlTemplatePath w w1 reported1 skipped1 →
  visited htmlTemplatePath w1 w2 reported2 skipped2 →
  visited htmlTemplatePath w w2 (reported1 ++ reported2) (skipped1 ++ skipped2).
Proof.
  intros (_ & Htypes1 & _ & Hext1 & Hskip1) (Hexit & Htypes2 & Hs & Hext2 & Hskip2).
  split_and!; [done|congruence|done| |].
  - rewrite filter_app. by eapply extends_trans.
  - by rewrite Hskip2, Hskip1, pushed_app.
Qed.

Lemma elem_of_flat_map {A B : Type} (f : A → list B) (l : list A) (y : B) :
  y ∈ flat_map f l ↔ ∃ x, x ∈ l ∧ y ∈ f x.
Proof.
  rewrite list_elem_of_In, in_flat_map. split.
  - intros (x & Hx & Hy). exists x. by rewrite !list_elem_of_In.
  - intros (x & Hx & Hy). exists x. by rewrite <- !list_elem_of_In.
Qed.

Section PreflightProof.
Context (Path : Path.module) (resolve : str → str → str).
Context (optionsData : option Options).
Context (htmlTemplatePath : option str) (lines_of : str → list str).

Lemma preflight_callback_extends s p name ext c m :
  under_construction s →
  ext ≠ ROOT →
  holds_folder s (Path.dirname Path p) →
  ∃ s',
    preflight_callback Path optionsData htmlTemplatePath lines_of p name ext c m s
    = FolderWalk.Answered false s'
    ∧ under_construction s'
    ∧ extends s s' (filter (λ path, htmlTemplatePath ≠ Some path) [p])
    ∧ (ext = DIR → htmlTemplatePath ≠ Some p →
       p ∉ filePath <$> _flatCompilationsList s → holds_folder s' p).
Proof.
  intros Hs Hroot Hfolder. unfold preflight_callback.
  destruct (decide (Some p = htmlTemplatePath)) as [Htpl|Htpl].
  - rewrite bool_decide_eq_true_2 by done. exists s. split_and!; try done.
    rewrite filter_cons_False by (intros H; by apply H).
    apply extends_refl.
  - rewrite bool_decide_eq_false_2 by done.
    rewrite (bool_decide_eq_false_2 (ext = ROOT)) by done.
    rewrite filter_cons_True by (intros H; by apply Htpl).
    destruct (decide (ext = DIR)) as [->|Hdir].
    + rewrite bool_decide_eq_true_2 by done.
      destruct (addDirectoryToIndex_extends Path optionsData s p name c m Hs Hfolder)
        as (s' & unit & -> & Hs' & Hstatic & Hpath & Hcan).
      exists s'. split_and!; try done.
      * exists [unit]. split; [done|]. simpl. by rewrite Hpath.
      * intros _ _ Hnew. rewrite <- Hpath. apply (extends_new_holds s); [done| |done].
        by rewrite Hpath.
    + rewrite bool_decide_eq_false_2 by done.
      destruct (addFileToIndex_extends Path optionsData s p name ext c m
                  (default None (getDocumentHeader 0 (lines_of p) [NO_COMPILE_TAG] []))
                  Hs Hfolder)
        as (s' & unit & -> & Hs' & Hstatic & Hpath).
      exists s'. split_and!; try done.
      exists [unit]. split; [done|]. simpl. by rewrite Hpath.
Qed.

Lemma reported_located types folderPath e path :
  path ∈ FolderWalk.reported Path resolve types folderPath e →
  path ∈ (FolderWalk.located resolve folderPath e).*2.
Proof.
  revert folderPath. induction e as [name c m|name c m entries IH|name]
    using Dirent_ind_entries; intros folderPath; simpl.
  - case_bool_decide; [done|]. by intros ?%elem_of_nil.
  - intros [->|Hin]%elem_of_cons; [by left|]. right.
    apply list_elem_of_fmap.
    apply elem_of_flat_map in Hin as (e & He & Hin).
    rewrite Forall_forall in IH.
    apply (IH e He) in Hin. apply list_elem_of_fmap in Hin as (link & -> & Hlink).
    exists link. split; [done|]. apply elem_of_flat_map. by exists e.
  - by intros ?%elem_of_nil.
Qed.

Lemma reported_in_located types folderPath entries path :
  path ∈ flat_map (FolderWalk.reported Path resolve types folderPath) entries →
  path ∈ (FolderWalk.located_in resolve folderPath entries).*2.
Proof.
  intros (e & He & Hin)%elem_of_flat_map.
  apply reported_located, list_elem_of_fmap in Hin as (link & -> & Hlink).
  apply list_elem_of_fmap. exists link. split; [done|].
  apply elem_of_flat_map. by exists e.
Qed.

Lemma located_in_direct folderPath entries :
  FolderWalk.located_in resolve folderPath entries ≠ [] →
  ∃ path, (folderPath, path) ∈ FolderWalk.located_in resolve folderPath entries.
Proof.
  induction entries as [|e entries IH]; [done|].
  unfold FolderWalk.located_in. simpl.
  destruct e as [name c m|name c m sub|name]; simpl.
  - intros _. eexists. by left.
  - intros _. eexists. by left.
  - exact IH.
Qed.

Lemma can_visit_app links1 links2 w :
  can_visit Path htmlTemplatePath (links1 ++ links2) w →
  can_visit Path htmlTemplatePath links1 w.
Proof.
  intros (Hexit & Hroot & Hdir & Hs & Hlinks & Hnodup & Hnew).
  rewrite fmap_app in Hnodup, Hnew.
  apply Forall_app in Hlinks as [Hlinks _]. apply Forall_app in Hnew as [Hnew _].
  apply NoDup_app in Hnodup as (Hnodup & _ & _).
  by split_and!.
Qed.

Lemma can_visit_next links1 links2 w w' reported skipped :
  can_visit Path htmlTemplatePath (links1 ++ links2) w →
  visited htmlTemplatePath w w' reported skipped →
  (∀ path, path ∈ reported → path ∈ links1.*2) →
  can_visit Path htmlTemplatePath links2 w'.
Proof.
  intros (_ & Hroot & Hdir & _ & Hlinks & Hnodup & Hnew)
         (Hexit & Htypes & Hs & Hext & _) Hreported.
  rewrite fmap_app in Hnodup, Hnew.
  apply Forall_app in Hlinks as [_ Hlinks]. apply Forall_app in Hnew as [_ Hnew].
  apply NoDup_app in Hnodup as (_ & Hapart & Hnodup).
  split_and!; try done; try (by rewrite Htypes).
  apply Forall_forall. intros path Hpath.
  rewrite (extends_paths _ _ _ Hext). intros [Hold|Hin]%elem_of_app.
  - rewrite Forall_forall in Hnew. by apply (Hnew path).
  - apply list_elem_of_filter in Hin as [_ Hin]. by apply (Hapart path (Hreported _ Hin)).
Qed.

Lemma report_preflight folderPath path name ext c m w :
  can_visit Path htmlTemplatePath [(folderPath, path)] w →
  holds_folder (FolderWalk.world w) folderPath →
  ext ∈ FolderWalk.fileTypes w →
  ∃ w',
    FolderWalk.report (preflight_callback Path optionsData htmlTemplatePath lines_of)
      path name ext c m w
    = FolderWalk.Finished w'
    ∧ visited htmlTemplatePath w w' [path] []
    ∧ (ext = DIR → htmlTemplatePath ≠ Some path →
       holds_folder (FolderWalk.world w') path).
Proof.
  intros (Hexit & Hroot & Hdir & Hs & Hlinks & Hnodup & Hnew) Hfolder Hext.
  apply Forall_inv in Hlinks as [Hparent _]. simpl in Hparent, Hnew.
  apply Forall_inv in Hnew.
  destruct (preflight_callback_extends (FolderWalk.world w) path name ext c m)
    as (s' & Hcall & Hs' & Hextends & Hholds); [done| |by rewrite Hparent|].
  { intros ->. by apply Hroot. }
  unfold FolderWalk.report. rewrite Hcall. eexists. split; [reflexivity|].
  split; [unfold visited; simpl; by split_and!|]. simpl. intros ??. by apply Hholds.
Qed.

Lemma visit_entries_preflight entries :
  Forall (preflight_visits Path resolve optionsData htmlTemplatePath lines_of) entries →
  ∀ folderPath w,
    can_visit Path htmlTemplatePath (FolderWalk.located_in resolve folderPath entries) w →
    (FolderWalk.located_in resolve folderPath entries ≠ [] →
     holds_folder (FolderWalk.world w) folderPath) →
    ∃ w',
      FolderWalk.visit_entries Path resolve
        (preflight_callback Path optionsData htmlTemplatePath lines_of)
        folderPath entries w
      = FolderWalk.Finished w'
      ∧ visited htmlTemplatePath w w'
          (flat_map (FolderWalk.reported Path resolve (FolderWalk.fileTypes w) folderPath)
                    entries)
          (flat_map (FolderWalk.skipped Path resolve (FolderWalk.fileTypes w) folderPath)
                    entries).
Proof.
  induction 1 as [|e entries He _ IH]; intros folderPath w Hcan Hfolder.
  - exists w. split; [done|]. destruct Hcan as (? & _ & _ & ? & _).
    by apply visited_refl.
  - unfold FolderWalk.located_in in Hcan, Hfolder. simpl in Hcan, Hfolder.
    pose proof Hcan as (Hexit & _).
    destruct (He folderPath w) as (w1 & Hvisit1 & Hvisited1).
    { by eapply can_visit_app. }
    { intros Hne. apply Hfolder. by destruct (FolderWalk.located resolve folderPath e). }
    pose proof Hvisited1 as (_ & Htypes1 & _ & Hext1 & _).
    destruct (IH folderPath w1) as (w2 & Hvisit2 & Hvisited2).
    { eapply can_visit_next; [exact Hcan|exact Hvisited1|]. apply reported_located. }
    { intros Hne. eapply extends_holds; [exact Hext1|]. apply Hfolder.
      intros [_ ?]%app_eq_nil. by apply Hne. }
    exists w2. simpl. rewrite Hexit, Hvisit1. simpl. split; [done|].
    rewrite Htypes1 in Hvisited2. by eapply visited_trans.
Qed.

Lemma preflight_visits_all e :
  preflight_visits Path resolve optionsData htmlTemplatePath lines_of e.
Proof.
  induction e as [name c m|name c m entries IH|name] using Dirent_ind_entries;
    intros folderPath w Hcan Hfolder.
  - simpl in *. specialize (Hfolder ltac:(done)).
    case_bool_decide as Hext.
    + destruct (report_preflight folderPath (resolve folderPath name) name
                  (FolderWalk.strip_dot (Path.extname Path name)) c m w)
        as (w' & -> & Hvisited & _); [done..|].
      by exists w'.
    + eexists. split; [reflexivity|].
      destruct Hcan as (Hexit & _ & _ & Hs & _).
      split_and!; try done. apply extends_refl.
  - rewrite visit_entry_directory. simpl in Hcan, Hfolder.
    specialize (Hfolder ltac:(done)).
    pose proof Hcan as (_ & Hroot & Hdir & _ & Hlinks & _).
    rewrite bool_decide_eq_true_2 by done.
    destruct (report_preflight folderPath (resolve folderPath name) name DIR c m w)
      as (w1 & -> & Hvisited1 & Hholds); [|done..|].
    { eapply (can_visit_app [_]). exact Hcan. }
    pose proof Hvisited1 as (Hexit1 & Htypes1 & Hs1 & Hext1 & Hskip1).
    assert (can_visit Path htmlTemplatePath
              (FolderWalk.located_in resolve (resolve folderPath name) entries) w1)
      as Hcan1.
    { eapply (can_visit_next [_]); [exact Hcan|exact Hvisited1|].
      by intros path ->%list_elem_of_singleton; left. }
    simpl. unfold FolderWalk.visitFilesInFolder, FolderWalk.enter. simpl.
    rewrite bool_decide_eq_false_2 by (by rewrite Htypes1). simpl.
    destruct (visit_entries_preflight entries IH (resolve folderPath name)
                (FolderWalk.mkWalk false (FolderWalk.skippedEntries w1)
                   (FolderWalk.fileTypes w1) (FolderWalk.world w1)))
      as (w2 & -> & Hvisited2).
    { destruct Hcan1 as (? & ? & ? & ? & ? & ? & ?). by split_and!. }
    { simpl. intros Hne. apply Hholds; [done|].
      destruct (located_in_direct _ _ Hne) as (path & Hin).
      apply Forall_cons in Hlinks as [_ Hlinks]. rewrite Forall_forall in Hlinks.
      by destruct (Hlinks _ Hin) as [_ ?]. }
    exists w2. split; [done|]. simpl in Hvisited2.
    assert (visited htmlTemplatePath w1
              (FolderWalk.mkWalk false (FolderWalk.skippedEntries w1)
                 (FolderWalk.fileTypes w1) (FolderWalk.world w1)) [] []) as Hsame.
    { split_and!; try done. apply extends_refl. }
    pose proof (visited_trans _ _ _ _ _ _ _ _ Hvisited1
                  (visited_trans _ _ _ _ _ _ _ _ Hsame Hvisited2)) as Hall.
    rewrite Htypes1 in Hall. exact Hall.
  - exists w. split; [done|]. destruct Hcan as (? & _ & _ & ? & _).
    by apply visited_refl.
Qed.

Lemma skipped_under types folderPath e path :
  Forall (λ link, Path.dirname Path link.2 = link.1 ∧ htmlTemplatePath ≠ Some link.1)
         (FolderWalk.located resolve folderPath e) →
  path ∈ FolderWalk.skipped Path resolve types folderPath e →
  ∃ n, 1 ≤ n ≤ length (FolderWalk.located resolve folderPath e)
       ∧ ancestor Path n path = folderPath.
Proof.
  revert folderPath. induction e as [name c m|name c m entries IH|name]
    using Dirent_ind_entries; intros folderPath Hlinks; simpl in *.
  - case_bool_decide; [by intros ?%elem_of_nil|].
    intros ->%list_elem_of_singleton. exists 1. split; [lia|].
    by apply Forall_inv in Hlinks as [? _].
  - intros (e & He & Hin)%elem_of_flat_map.
    apply Forall_cons in Hlinks as [[Hparent _] Hlinks]. simpl in Hparent.
    rewrite Forall_forall in IH.
    destruct (IH e He (resolve folderPath name)) as (n & Hn & Hup); [|done|].
    { rewrite Forall_forall in Hlinks |- *. intros link Hlink. apply Hlinks.
      apply elem_of_flat_map. by exists e. }
    exists (S n). split.
    + assert (length (FolderWalk.located resolve (resolve folderPath name) e)
              ≤ length (flat_map (FolderWalk.located resolve (resolve folderPath name))
                          entries)); [|lia].
      clear -He. induction entries as [|e' entries IHentries];
        [by apply elem_of_nil in He|].
      simpl. rewrite length_app.
      apply elem_of_cons in He as [->|He]; [lia|]. specialize (IHentries He). lia.
    + unfold ancestor in *. simpl. by rewrite Hup.
  - by intros ?%elem_of_nil.
Qed.

Lemma reported_length types folderPath entries :
  length (flat_map (FolderWalk.reported Path resolve types folderPath) entries)
  ≤ length (FolderWalk.located_in resolve folderPath entries).
Proof.
  assert (∀ e folderPath,
            length (FolderWalk.reported Path resolve types folderPath e)
            ≤ length (FolderWalk.located resolve folderPath e)) as Hentry.
  { clear. intros e.
    induction e as [name c m|name c m entries IH|name] using Dirent_ind_entries;
      intros folderPath; simpl.
    - case_bool_decide; simpl; lia.
    - apply le_n_S. induction IH as [|e entries He _ IHentries]; simpl; [done|].
      rewrite !length_app. specialize (He (resolve folderPath name)). lia.
    - lia. }
  unfold FolderWalk.located_in.
  induction entries as [|e entries IH]; simpl; [done|].
  rewrite !length_app. specialize (Hentry e folderPath). lia.
Qed.

End PreflightProof.

Lemma splice_first_app x (arr rest : list str) :
  x ∉ arr → FolderWalk.splice_first x (arr ++ rest) = arr ++ FolderWalk.splice_first x rest.
Proof.
  induction arr as [|y arr IH]; intros Hx; simpl; [done|].
  apply not_elem_of_cons in Hx as [Hne Hx].
  rewrite bool_decide_eq_false_2 by done. by rewrite IH.
Qed.

Lemma well_formed_queue_length flat queue :
  well_formed_store flat queue → length queue ≤ length flat.
Proof.
  intros (_ & Hnodup & Hqueue).
  transitivity (length (seq 0 (length flat))); [|by rewrite length_seq].
  apply submseteq_length, NoDup_submseteq; [done|].
  intros o Ho. apply elem_of_seq. split; [lia|].
  rewrite Forall_forall in Hqueue. specialize (Hqueue o Ho).
  destruct (decide (o < length flat)); [lia|].
  unfold children_at in Hqueue. rewrite unit_at_ge in Hqueue by lia.
  by destruct Hqueue.
Qed.

Lemma buildIndex_returns_under_root Path fuel skipped s root rest :
  well_formed s →
  _flatCompilationsList s = root :: rest →
  (∀ p, p ∈ skipped → under_root Path fuel (filePath root) p) →
  length (_rawGroups s) + length (_flatCompilationsList s) < fuel →
  ∃ s', buildIndex Path fuel (Some skipped) s = Some (Returned s').
Proof.
  intros Hwf Hflat Hunder Hfuel.
  destruct (collect_all_spec Path fuel (filePath root) skipped [] Hunder)
    as (folders & Hcollect & _).
  assert (∃ s1, mark_exclusions Path fuel (Some skipped) (seal s) = Some (Returned s1))
    as (s1 & Hmark).
  { unfold mark_exclusions. destruct skipped as [|p skipped].
    - by exists (seal s).
    - simpl _flatCompilationsList. rewrite Hflat. simpl lookup.
      cbv iota beta. pose proof Hwf as [_ Hnone].
      change (_foldersToExclude (seal s)) with (_foldersToExclude s).
      rewrite Hnone, Hcollect. destruct folders as [|folder folders]; by eexists. }
  destruct (buildIndex_returns _ _ _ _ _ Hwf Hmark Hfuel)
    as (folders' & flat' & _ & Hbuild & _).
  by eexists.
Qed.

(** X24. The preflight of [_process] on a source folder: when [ROOT] is not
    among the file types, the template is neither the source folder nor a
    folder that holds an entry, [Path.dirname] of the path of every file and
    directory is the folder that holds it, and these paths differ from each
    other, the walk ends with no exception from the engine; the index is
    well formed, open and lists the source folder, then the directories and
    the files of the types asked for (the template apart) in the order of
    the walk; the files of other types are the skipped paths; and
    [buildIndex] returns on this index with these skipped paths. *)
Theorem preflight_builds_index Path resolve optionsData htmlTemplatePath lines_of
    srcPath ctimeMs mtimeMs entries fileTypesToParse :
  ROOT ∉ fileTypesToParse →
  htmlTemplatePath ≠ Some srcPath →
  Forall (λ link, Path.dirname Path link.2 = link.1 ∧ htmlTemplatePath ≠ Some link.1)
         (FolderWalk.located_in resolve srcPath entries) →
  NoDup (srcPath :: (FolderWalk.located_in resolve srcPath entries).*2) →
  ∃ w,
    preflight Path resolve optionsData htmlTemplatePath lines_of srcPath ctimeMs mtimeMs
      entries fileTypesToParse
    = FolderWalk.Finished w
    ∧ under_construction (FolderWalk.world w)
    ∧ filePath <$> _flatCompilationsList (FolderWalk.world w)
      = srcPath
        :: filter (λ path, htmlTemplatePath ≠ Some path)
             (flat_map (FolderWalk.reported Path resolve (fileTypesToParse ++ [DIR]) srcPath)
                       entries)
    ∧ FolderWalk.skippedEntries w
      = pushed None
          (flat_map (FolderWalk.skipped Path resolve (fileTypesToParse ++ [DIR]) srcPath)
                    entries)
    ∧ ∀ fuel,
        2 * (1 + length (FolderWalk.located_in resolve srcPath entries)) < fuel →
        ∃ s', buildIndex Path fuel (FolderWalk.skippedEntries w) (FolderWalk.world w)
              = Some (Returned s').
Proof.
  intros Hroot Htpl Hlinks Hnodup.
  assert (under_construction initial) as Hinitial.
  { split; [|split; [done|]]; by apply (bool_decide_unpack _). }
  destruct (addRootToIndex_extends optionsData initial srcPath
              (getFileName Path srcPath false) ctimeMs mtimeMs Hinitial)
    as (s1 & root & Hadd & Hs1 & Hflat1 & Hpath & Hcan).
  simpl in Hflat1.
  unfold preflight, FolderWalk.visitFilesInFolder, FolderWalk.enter.
  cbn [FolderWalk.fileTypes FolderWalk.skippedEntries FolderWalk.world].
  rewrite bool_decide_eq_true_2
    by (apply elem_of_app; right; apply elem_of_cons; right; by left).
  assert (preflight_callback Path optionsData htmlTemplatePath lines_of srcPath
            (getFileName Path srcPath false) ROOT ctimeMs mtimeMs initial
          = FolderWalk.Answered false s1) as Hcall.
  { unfold preflight_callback.
    rewrite bool_decide_eq_false_2 by (intros Heq; by apply Htpl).
    rewrite bool_decide_eq_true_2 by done. by rewrite Hadd. }
  unfold FolderWalk.report.
  cbn [FolderWalk.fileTypes FolderWalk.skippedEntries FolderWalk.world].
  rewrite Hcall.
  cbn [answer FolderWalk.and_then FolderWalk.fileTypes FolderWalk.skippedEntries
         FolderWalk.world FolderWalk.mustExitNow].
  rewrite splice_first_app by done.
  change (FolderWalk.splice_first ROOT [DIR; ROOT]) with [DIR].
  set (w1 := FolderWalk.mkWalk false None (fileTypesToParse ++ [DIR]) s1).
  apply NoDup_cons in Hnodup as [Hsrc Hnodup].
  destruct (visit_entries_preflight Path resolve optionsData htmlTemplatePath lines_of
              entries) with (folderPath := srcPath) (w := w1)
    as (w2 & Hvisit & Hexit2 & Htypes2 & Hs2 & Hext2 & Hskip2).
  { apply Forall_forall. intros e _. apply preflight_visits_all. }
  { split_and!; try done.
    - intros [Hin|Hin%list_elem_of_singleton]%elem_of_app; [done|].
      by vm_compute in Hin.
    - apply elem_of_app. right. by left.
    - apply Forall_forall. intros path Hin. simpl. rewrite Hflat1. simpl.
      rewrite Hpath. intros ->%list_elem_of_singleton. done. }
  { intros _. rewrite <- Hpath.
    apply (extends_new_holds initial); [|apply not_elem_of_nil|done].
    simpl. by rewrite Hflat1. }
  exists w2. split; [done|]. split; [done|].
  assert (filePath <$> _flatCompilationsList (FolderWalk.world w2)
          = srcPath
            :: filter (λ path, htmlTemplatePath ≠ Some path)
                 (flat_map (FolderWalk.reported Path resolve (fileTypesToParse ++ [DIR])
                              srcPath) entries)) as Hpaths.
  { rewrite (extends_paths _ _ _ Hext2). simpl. by rewrite Hflat1, <- Hpath. }
  split; [done|]. split; [done|].
  intros fuel Hfuel. destruct Hs2 as (Hwf2 & _ & _).
  assert (length (_rawGroups (FolderWalk.world w2))
          + length (_flatCompilationsList (FolderWalk.world w2)) < fuel) as Hfuel2.
  { pose proof (well_formed_queue_length _ _ (proj1 Hwf2)).
    pose proof (f_equal length Hpaths) as Hlen. rewrite length_fmap in Hlen.
    simpl in Hlen.
    pose proof (length_filter (λ path, htmlTemplatePath ≠ Some path)
                  (flat_map (FolderWalk.reported Path resolve (fileTypesToParse ++ [DIR])
                               srcPath) entries)).
    pose proof (reported_length Path resolve (fileTypesToParse ++ [DIR]) srcPath entries).
    lia. }
  rewrite Hskip2. simpl.
  destruct (flat_map (FolderWalk.skipped Path resolve (fileTypesToParse ++ [DIR]) srcPath)
              entries) as [|p more] eqn:Hskipped; simpl.
  - destruct (buildIndex_returns Path fuel None (FolderWalk.world w2)
                (seal (FolderWalk.world w2)) Hwf2 eq_refl Hfuel2)
      as (folders & flat' & _ & -> & _). by eexists.
  - destruct (_flatCompilationsList (FolderWalk.world w2)) as [|root2 rest2] eqn:Hflat2;
      [done|].
    injection Hpaths as Hroot2 _.
    apply (buildIndex_returns_under_root Path fuel (p :: more) (FolderWalk.world w2)
             root2 rest2); [done|done| |by rewrite Hflat2].
    intros q Hq. rewrite <- Hskipped in Hq. rewrite Hroot2.
    apply elem_of_flat_map in Hq as (e & He & Hq).
    destruct (skipped_under Path resolve htmlTemplatePath (fileTypesToParse ++ [DIR])
                srcPath e q) as (n & Hn & Hup);
      [|done|].
    { rewrite Forall_forall in Hlinks |- *. intros link Hlink. apply Hlinks.
      apply elem_of_flat_map. by exists e. }
    exists n. split; [|done].
    assert (length (FolderWalk.located resolve srcPath e)
            ≤ length (FolderWalk.located_in resolve srcPath entries)); [|lia].
    clear -He. unfold FolderWalk.located_in.
    induction entries as [|e' entries IH]; [by apply elem_of_nil in He|].
    simpl. rewrite length_app.
    apply elem_of_cons in He as [->|He]; [lia|]. specialize (IH He). lia.
Qed.

Lemma preflight_builds_index_witness :
  ((ROOT ∉ [lit "txt"])
   ∧ (None : option str) ≠ Some (lit "/root")
   ∧ Forall (λ link, Path.dirname Sample.Path link.2 = link.1
                     ∧ (None : option str) ≠ Some link.1)
            (FolderWalk.located_in SampleFolder.resolve (lit "/root") SampleFolder.entries)
   ∧ NoDup (lit "/root"
            :: (FolderWalk.located_in SampleFolder.resolve (lit "/root")
                  SampleFolder.entries).*2))
  ∧ ∃ w,
      preflight Sample.Path SampleFolder.resolve None None SampleFolder.lines_of
        (lit "/root") 0 0 SampleFolder.entries [lit "txt"]
      = FolderWalk.Finished w
      ∧ under_construction (FolderWalk.world w)
      ∧ filePath <$> _flatCompilationsList (FolderWalk.world w)
        = lit "/root"
          :: filter (λ path, (None : option str) ≠ Some path)
               (flat_map (FolderWalk.reported Sample.Path SampleFolder.resolve
                            ([lit "txt"] ++ [DIR]) (lit "/root"))
                         SampleFolder.entries)
      ∧ FolderWalk.skippedEntries w
        = pushed None
            (flat_map (FolderWalk.skipped Sample.Path SampleFolder.resolve
                         ([lit "txt"] ++ [DIR]) (lit "/root"))
                      SampleFolder.entries)
      ∧ ∀ fuel,
          2 * (1 + length (FolderWalk.located_in SampleFolder.resolve (lit "/root")
                             SampleFolder.entries)) < fuel →
          ∃ s', buildIndex Sample.Path fuel (FolderWalk.skippedEntries w)
                  (FolderWalk.world w)
                = Some (Returned s').
Proof.
  assert (ROOT ∉ [lit "txt"]) as Hroot.
  { apply (bool_decide_unpack _). by vm_compute. }
  assert ((None : option str) ≠ Some (lit "/root")) as Htpl by done.
  assert (Forall (λ link, Path.dirname Sample.Path link.2 = link.1
                          ∧ (None : option str) ≠ Some link.1)
            (FolderWalk.located_in SampleFolder.resolve (lit "/root")
               SampleFolder.entries)) as Hlinks.
  { apply (bool_decide_unpack _). by vm_compute. }
  assert (NoDup (lit "/root"
                 :: (FolderWalk.located_in SampleFolder.resolve (lit "/root")
                       SampleFolder.entries).*2)) as Hnodup.
  { apply (bool_decide_unpack _). by vm_compute. }
  split; [done|].
  exact (preflight_builds_index Sample.Path SampleFolder.resolve None None
           SampleFolder.lines_of (lit "/root") 0 0 SampleFolder.entries [lit "txt"]
           Hroot Htpl Hlinks Hnodup).
Defined.

(** ** The walk of a folder, whatever the callback *)

Section VisitRun.
Context {A : Type} (Path : Path.module) (resolve : str → str → str).
Context (callback : str → str → str → Z → Z → A → FolderWalk.Answer A).

Lemma run_fileTypes evs (w w' : FolderWalk.Walk A) :
  run callback evs w = FolderWalk.Finished w' →
  FolderWalk.fileTypes w' = FolderWalk.fileTypes w.
Proof.
  revert w. induction evs as [|ev evs IH]; intros w; simpl.
  - by intros [= <-].
  - destruct ev as [path name ext c m isFile|path].
    + destruct (callback path name ext c m (FolderWalk.world w)) as [truthy a|e a];
        [|done].
      destruct (truthy && isFile).
      * by intros [= <-].
      * intros Hrun. by rewrite (IH _ Hrun).
    + intros Hrun. by rewrite (IH _ Hrun).
Qed.

Lemma run_app evs1 evs2 (w : FolderWalk.Walk A) :
  FolderWalk.mustExitNow w = false →
  run callback (evs1 ++ evs2) w
  = FolderWalk.and_then (run callback evs1 w)
      (λ w', if FolderWalk.mustExitNow w' then FolderWalk.Finished w'
             else run callback evs2 w').
Proof.
  revert w. induction evs1 as [|ev evs1 IH]; intros w Hexit; simpl.
  - by rewrite Hexit.
  - destruct ev as [path name ext c m isFile|path].
    + destruct (callback path name ext c m (FolderWalk.world w)) as [truthy a|e a];
        [|done].
      destruct (truthy && isFile); [done|]. by apply IH.
    + by apply IH.
Qed.

Lemma visit_entries_stopped folderPath entries (w : FolderWalk.Walk A) :
  FolderWalk.mustExitNow w = true →
  FolderWalk.visit_entries Path resolve callback folderPath entries w
  = FolderWalk.Finished w.
Proof. intros Hexit. destruct entries; simpl; [done|]. by rewrite Hexit. Qed.

Lemma visit_entries_run_from entries :
  Forall (λ e, ∀ folderPath skippedEntries types a,
            ROOT ∉ types →
            FolderWalk.visit_entry Path resolve callback folderPath e
              (FolderWalk.mkWalk false skippedEntries types a)
            = run callback (events Path resolve types folderPath e)
                (FolderWalk.mkWalk false skippedEntries types a)) entries →
  ∀ folderPath skippedEntries types a,
    ROOT ∉ types →
    FolderWalk.visit_entries Path resolve callback folderPath entries
      (FolderWalk.mkWalk false skippedEntries types a)
    = run callback (flat_map (events Path resolve types folderPath) entries)
        (FolderWalk.mkWalk false skippedEntries types a).
Proof.
  induction 1 as [|e entries He _ IH]; intros folderPath skippedEntries types a Hroot;
    [done|].
  simpl. rewrite run_app by done. rewrite He by done.
  destruct (run callback (events Path resolve types folderPath e)
              (FolderWalk.mkWalk false skippedEntries types a))
    as [w'|err w'] eqn:Hrun; simpl; [|done].
  apply run_fileTypes in Hrun. simpl in Hrun.
  destruct w' as [[] skippedEntries' types' a']; simpl in *; subst types'.
  - by apply visit_entries_stopped.
  - by apply IH.
Qed.

Lemma visit_entry_run e :
  ∀ folderPath skippedEntries types a,
    ROOT ∉ types →
    FolderWalk.visit_entry Path resolve callback folderPath e
      (FolderWalk.mkWalk false skippedEntries types a)
    = run callback (events Path resolve types folderPath e)
        (FolderWalk.mkWalk false skippedEntries types a).
Proof.
  induction e as [name c m|name c m entries IH|name] using Dirent_ind_entries;
    intros folderPath skippedEntries types a Hroot.
  - simpl. case_bool_decide; [|done]. unfold FolderWalk.report. simpl.
    destruct (callback _ _ _ _ _ a) as [[] a'|err a']; done.
  - rewrite visit_entry_directory. simpl.
    unfold FolderWalk.visitFilesInFolder, FolderWalk.enter, FolderWalk.report. simpl.
    case_bool_decide; simpl.
    + destruct (callback _ _ _ _ _ a) as [truthy a'|err a']; simpl; [|done].
      rewrite bool_decide_eq_false_2 by done. simpl. rewrite andb_false_r.
      by apply visit_entries_run_from.
    + rewrite bool_decide_eq_false_2 by done. simpl.
      by apply visit_entries_run_from.
  - done.
Qed.

End VisitRun.

(** X25. When [ROOT] is not asked for, [visitFilesInFolder] goes through the
    entries of the folder and of the folders below it in order, a directory
    before its entries: it reports the files of the types asked for (and the
    directories when [DIR] is asked for) and pushes the other files on
    [skippedEntries], which it does not reset; a truthy value of the
    callback ends the whole visit when it is given for a file, and is lost
    when it is given for a directory. *)
Theorem visitFilesInFolder_run {A : Type} Path resolve
    (callback : str → str → str → Z → Z → A → FolderWalk.Answer A)
    folderPath ctimeMs mtimeMs entries (w : FolderWalk.Walk A) :
  ROOT ∉ FolderWalk.fileTypes w →
  FolderWalk.visitFilesInFolder Path resolve callback folderPath ctimeMs mtimeMs entries w
  = run callback
      (flat_map (events Path resolve (FolderWalk.fileTypes w) folderPath) entries)
      (FolderWalk.mkWalk false (FolderWalk.skippedEntries w) (FolderWalk.fileTypes w)
         (FolderWalk.world w)).
Proof.
  intros Hroot. unfold FolderWalk.visitFilesInFolder, FolderWalk.enter. simpl.
  rewrite bool_decide_eq_false_2 by done. simpl.
  apply visit_entries_run_from; [|done].
  apply Forall_forall. intros e _. apply visit_entry_run.
Qed.

Lemma visitFilesInFolder_run_witness :
  (ROOT ∉ [lit "txt"; DIR])
  ∧ FolderWalk.visitFilesInFolder Sample.Path SampleFolder.resolve
      (λ path _ _ _ _ seen,
         FolderWalk.Answered (bool_decide (path = lit "/root/assets/notes.txt"))
           (seen ++ [path]))
      (lit "/root") 0 0 SampleFolder.entries
      (FolderWalk.mkWalk true (Some [lit "/old.png"]) [lit "txt"; DIR] [])
    = run (λ path _ _ _ _ seen,
             FolderWalk.Answered (bool_decide (path = lit "/root/assets/notes.txt"))
               (seen ++ [path]))
        (flat_map (events Sample.Path SampleFolder.resolve [lit "txt"; DIR] (lit "/root"))
                  SampleFolder.entries)
        (FolderWalk.mkWalk false (Some [lit "/old.png"]) [lit "txt"; DIR] []).
Proof.
  assert (ROOT ∉ [lit "txt"; DIR]) as Hroot.
  { apply (bool_decide_unpack _). by vm_compute. }
  split; [done|].
  exact (visitFilesInFolder_run Sample.Path SampleFolder.resolve _ (lit "/root") 0 0
           SampleFolder.entries
           (FolderWalk.mkWalk true (Some [lit "/old.png"]) [lit "txt"; DIR] []) Hroot).
Defined.

(** A truthy value given for the notes ends that visit: the folder after them
    is not reported. *)
Example visitFilesInFolder_stopped :
  FolderWalk.visitFilesInFolder Sample.Path SampleFolder.resolve
    (λ path _ _ _ _ seen,
       FolderWalk.Answered (bool_decide (path = lit "/root/assets/notes.txt"))
         (seen ++ [path]))
    (lit "/root") 0 0 SampleFolder.entries
    (FolderWalk.mkWalk false None [lit "txt"; DIR] [])
  = FolderWalk.Finished
      (FolderWalk.mkWalk true (Some [lit "/root/assets/img.png"]) [lit "txt"; DIR]
         [lit "/root/1 Intro.txt"; lit "/root/assets"; lit "/root/assets/notes.txt"]).
Proof. by vm_compute. Qed.

(** ** The directories of a target path *)

Lemma ancestor_periodic Path k d m :
  1 ≤ k → ancestor Path k d = d →
  ancestor Path m d = ancestor Path (m mod k) d.
Proof.
  intros Hk Hperiod. induction m as [m IH] using lt_wf_ind.
  destruct (decide (m < k)) as [Hlt|Hge].
  - by rewrite Nat.mod_small.
  - replace m with ((m - k) + k) at 1 by lia.
    unfold ancestor at 1. rewrite Nat.iter_add.
    fold (ancestor Path k d). rewrite Hperiod. fold (ancestor Path (m - k) d).
    rewrite IH by lia. f_equal.
    replace m with ((m - k) + 1 * k) at 2 by lia.
    by rewrite Nat.Div0.mod_add.
Qed.

(** X26. [ensureParentDirs] makes the missing directories above a path and
    nothing else: when the nearest thing that exists above [filePath] (at
    [n] steps of [Path.dirname]) is a directory, the call returns without
    exception, with [true] exactly when the parent itself was there; after
    it every ancestor up to that directory is a directory, and what is at
    any other path is unchanged. *)
Theorem ensureParentDirs_creates Path fuel filePath fs n :
  1 ≤ n ≤ fuel →
  fs !! ancestor Path n filePath = Some HostFs.IsDirectory →
  (∀ k, 1 ≤ k < n → fs !! ancestor Path k filePath = None) →
  ∃ fs',
    ensureParentDirs Path fuel filePath fs = Some (inr (bool_decide (n = 1), fs'))
    ∧ (∀ k, 1 ≤ k ≤ n → fs' !! ancestor Path k filePath = Some HostFs.IsDirectory)
    ∧ (∀ p, (∀ k, 1 ≤ k < n → p ≠ ancestor Path k filePath) → fs' !! p = fs !! p).
Proof.
  revert filePath n. induction fuel as [|fuel IH]; intros filePath n Hn Hdir Hnone; [lia|].
  simpl. unfold HostFs.existsSync.
  destruct (decide (n = 1)) as [->|Hn1].
  - change (ancestor Path 1 filePath) with (Path.dirname Path filePath) in Hdir.
    rewrite Hdir. rewrite bool_decide_eq_true_2 by done.
    exists fs. split; [done|]. split; [|done].
    intros k Hk. by replace k with 1 by lia.
  - pose proof (Hnone 1 ltac:(lia)) as Hparent.
    change (ancestor Path 1 filePath) with (Path.dirname Path filePath) in Hparent.
    rewrite Hparent. rewrite bool_decide_eq_false_2 by (by intros [? ?]).
    set (d := Path.dirname Path filePath) in *.
    assert (∀ k, ancestor Path k d = ancestor Path (S k) filePath) as Hup.
    { intros k. by rewrite ancestor_S. }
    destruct (IH d (n - 1)) as (fs1 & -> & Hdirs & Hframe); [lia| | |].
    { rewrite Hup. by replace (S (n - 1)) with n by lia. }
    { intros k Hk. rewrite Hup. apply Hnone. lia. }
    assert (fs1 !! d = None) as Hd.
    { rewrite Hframe; [done|]. intros k Hk Heq.
      pose proof (ancestor_periodic Path k d (n - 1) ltac:(lia) (eq_sym Heq)) as Hmod.
      pose proof (Nat.mod_upper_bound (n - 1) k ltac:(lia)).
      assert (fs !! ancestor Path ((n - 1) mod k) d = None) as Hmissing.
      { destruct ((n - 1) mod k) as [|j] eqn:Hj; [done|].
        rewrite Hup. apply Hnone. lia. }
      rewrite <- Hmod, Hup in Hmissing.
      replace (S (n - 1)) with n in Hmissing by lia. congruence. }
    unfold HostFs.mkdirSync. rewrite Hd.
    change (Path.dirname Path d) with (ancestor Path 1 d).
    rewrite (Hdirs 1) by lia.
    rewrite bool_decide_eq_false_2 by done.
    eexists. split; [reflexivity|]. split.
    + intros k Hk. destruct (decide (ancestor Path k filePath = d)) as [->|Hne].
      * by rewrite lookup_insert_eq.
      * rewrite lookup_insert_ne by done.
        destruct k as [|k]; [lia|]. rewrite <- Hup. apply Hdirs.
        destruct k; [done|lia].
    + intros p Hp. rewrite lookup_insert_ne by (apply not_eq_sym, (Hp 1); lia).
      apply Hframe. intros k Hk. rewrite Hup. apply Hp. lia.
Qed.

Lemma ensureParentDirs_creates_witness :
  (1 ≤ 3 ≤ 5
   ∧ ({[ lit "/out" := HostFs.IsDirectory ]} : HostFs.Fs)
       !! ancestor Sample.Path 3 (lit "/out/a/b/doc.html")
     = Some HostFs.IsDirectory
   ∧ ∀ k, 1 ≤ k < 3 →
          ({[ lit "/out" := HostFs.IsDirectory ]} : HostFs.Fs)
            !! ancestor Sample.Path k (lit "/out/a/b/doc.html")
          = None)
  ∧ ∃ fs',
      ensureParentDirs Sample.Path 5 (lit "/out/a/b/doc.html")
        {[ lit "/out" := HostFs.IsDirectory ]}
      = Some (inr (bool_decide (3 = 1), fs'))
      ∧ (∀ k, 1 ≤ k ≤ 3 →
              fs' !! ancestor Sample.Path k (lit "/out/a/b/doc.html")
              = Some HostFs.IsDirectory)
      ∧ (∀ p, (∀ k, 1 ≤ k < 3 → p ≠ ancestor Sample.Path k (lit "/out/a/b/doc.html")) →
              fs' !! p = ({[ lit "/out" := HostFs.IsDirectory ]} : HostFs.Fs) !! p).
Proof.
  assert (1 ≤ 3 ≤ 5) as Hn by lia.
  assert (({[ lit "/out" := HostFs.IsDirectory ]} : HostFs.Fs)
            !! ancestor Sample.Path 3 (lit "/out/a/b/doc.html")
          = Some HostFs.IsDirectory) as Hdir by (by vm_compute).
  assert (∀ k, 1 ≤ k < 3 →
               ({[ lit "/out" := HostFs.IsDirectory ]} : HostFs.Fs)
                 !! ancestor Sample.Path k (lit "/out/a/b/doc.html")
               = None) as Hnone.
  { intros [|[|[|k]]] Hk; try lia; by vm_compute. }
  split; [done|].
  exact (ensureParentDirs_creates Sample.Path 5 (lit "/out/a/b/doc.html")
           {[ lit "/out" := HostFs.IsDirectory ]} 3 Hn Hdir Hnone).
Defined.
